(** * Utils::ProcessArgs and Utils::QtcProcess (src/libs/utils/qtcprocess.cpp)

    A shallow embedding of the command-line lexers, the argument quoter,
    the argument iterator, the macro expander and the synchronous process
    bookkeeping of Qt Creator's [qtcprocess.cpp], with the properties the
    specification states about them.

    Representation.  A [QChar] is its UTF-16 code unit, a [QString] the
    list of its code units; C++ [int]s are [Z].  A read-only cursor
    [args.unicode()[pos++]] is the remaining input of the scan; code that
    edits the string under the cursor keeps the string and the index. *)

From Stdlib Require Import ZArith List Bool Lia String Ascii.
Import ListNotations.
Local Open Scope Z_scope.

(** ** Characters and strings *)

Definition QChar := Z.
Definition QString := list QChar.
Definition QStringList := list QString.

Definition QLatin1Char (a : ascii) : QChar := Z.of_N (N_of_ascii a).

Fixpoint QLatin1String (s : string) : QString :=
  match s with
  | EmptyString => []
  | String a r => QLatin1Char a :: QLatin1String r
  end.

(** The characters the lexers test for, by code unit. *)
Definition ch_tab : QChar := 9.
Definition ch_lf : QChar := 10.
Definition ch_cr : QChar := 13.
Definition ch_space : QChar := 32.
Definition ch_dquote : QChar := 34.
Definition ch_dollar : QChar := 36.
Definition ch_percent : QChar := 37.
Definition ch_squote : QChar := 39.
Definition ch_lparen : QChar := 40.
Definition ch_rparen : QChar := 41.
Definition ch_slash : QChar := 47.
Definition ch_at : QChar := 64.
Definition ch_bslash : QChar := 92.
Definition ch_caret : QChar := 94.
Definition ch_uscore : QChar := 95.
Definition ch_btick : QChar := 96.
Definition ch_lbrace : QChar := 123.
Definition ch_rbrace : QChar := 125.
Definition ch_tilde : QChar := 126.

Definition INT_MAX : Z := 2147483647.

(** [str.unicode()[p]]: the data of a QString is followed by a
    terminating zero, which is what a read at [p = length] yields. *)
Definition unicodeAt (s : QString) (p : Z) : QChar :=
  if p <? 0 then 0 else nth (Z.to_nat p) s 0.

Definition qlength (s : QString) : Z := Z.of_nat (List.length s).

(** [QString::mid(pos, n)], [left(n)], [insert], [remove], [replace(pos, n, after)]
    for in-range arguments. *)
Definition mid (s : QString) (pos n : Z) : QString :=
  firstn (Z.to_nat n) (skipn (Z.to_nat pos) s).

Definition midFrom (s : QString) (pos : Z) : QString := skipn (Z.to_nat pos) s.

Definition left (s : QString) (n : Z) : QString := firstn (Z.to_nat n) s.

Definition insertAt (s : QString) (pos : Z) (t : QString) : QString :=
  firstn (Z.to_nat pos) s ++ t ++ skipn (Z.to_nat pos) s.

Definition removeAt (s : QString) (pos n : Z) : QString :=
  firstn (Z.to_nat pos) s ++ skipn (Z.to_nat (pos + n)) s.

Definition replaceAt (s : QString) (pos n : Z) (after : QString) : QString :=
  firstn (Z.to_nat pos) s ++ after ++ skipn (Z.to_nat (pos + n)) s.

(** [QString::indexOf(c, from)]: -1 when there is none. *)
Fixpoint indexOfFrom (c : QChar) (s : QString) (i : Z) : Z :=
  match s with
  | [] => -1
  | x :: r => if x =? c then i else indexOfFrom c r (i + 1)
  end.

Definition indexOf (c : QChar) (s : QString) (from : Z) : Z :=
  indexOfFrom c (midFrom s from) from.

(** The string [s] has no character [c]. *)
Definition lacks (c : QChar) (s : QString) : bool := forallb (fun x => negb (x =? c)) s.

(** [QString::lastIndexOf(c)]: -1 when there is none. *)
Fixpoint lastIndexOfFrom (c : QChar) (s : QString) (i : Z) (found : Z) : Z :=
  match s with
  | [] => found
  | x :: r => lastIndexOfFrom c r (i + 1) (if x =? c then i else found)
  end.

Definition lastIndexOf (c : QChar) (s : QString) : Z := lastIndexOfFrom c s 0 (-1).

(** [QString::replace(QChar before, const QString &after)]. *)
Definition replaceChar (before : QChar) (after : QString) (s : QString) : QString :=
  flat_map (fun x => if x =? before then after else [x]) s.

(** The 128-bit tables [static const uchar iqm[16]] and their lookup
    [(c < sizeof(iqm) * 8) && (iqm[c / 8] & (1 << (c & 7)))]; the
    character is unsigned. *)
Definition iqmLookup (iqm : list Z) (c : Z) : bool :=
  (0 <=? c) && (c <? Z.of_nat (List.length iqm) * 8)
  && negb (Z.land (nth (Z.to_nat (c / 8)) iqm 0) (Z.shiftl 1 (Z.land c 7)) =? 0).

(** ** QtcProcess::normalizeNewlines *)

(** [std::unique(first, last, pred)]: [kept] is [*result], the list is
    what [first] still has to visit; an element equivalent to the kept
    one is dropped.  The elements up to the returned iterator are the
    result, [res.chop] cuts the rest off. *)
Fixpoint unique_from {A} (p : A -> A -> bool) (kept : A) (l : list A) : list A :=
  match l with
  | [] => [kept]
  | x :: r => if p kept x then unique_from p kept r else kept :: unique_from p x r
  end.

Definition std_unique {A} (p : A -> A -> bool) (l : list A) : list A :=
  match l with
  | [] => []
  | x :: r => unique_from p x r
  end.

(** [res.replace("\r\n", "\n")]: occurrences are found left to right and
    do not overlap. *)
Fixpoint replaceCrLf (s : QString) : QString :=
  match s with
  | [] => []
  | c :: t =>
      match t with
      | d :: r => if (c =? ch_cr) && (d =? ch_lf) then ch_lf :: replaceCrLf r
                  else c :: replaceCrLf t
      | [] => [c]
      end
  end.

Definition normalizeNewlines (text : QString) : QString :=
  let res := std_unique (fun c1 c2 => (c1 =? ch_cr) && (c2 =? ch_cr)) text in
  replaceCrLf res.

(** The two passes in the words of the specification: a carriage return
    that is followed by another one is dropped; then a carriage return
    that is followed by a line feed is dropped. *)
Fixpoint collapseCrRuns (s : QString) : QString :=
  match s with
  | [] => []
  | c :: t => if (c =? ch_cr) && (hd 0 t =? ch_cr) then collapseCrRuns t
              else c :: collapseCrRuns t
  end.

Fixpoint dropCrBeforeLf (s : QString) : QString :=
  match s with
  | [] => []
  | c :: t => if (c =? ch_cr) && (hd 0 t =? ch_lf) then dropCrBeforeLf t
              else c :: dropCrBeforeLf t
  end.

(** No two adjacent code units of [s] are [a] followed by [b]. *)
Fixpoint noPair (a b : QChar) (s : QString) : bool :=
  match s with
  | [] => true
  | c :: t => negb ((c =? a) && (hd 0 t =? b)) && noPair a b t
  end.

(** ** What the code takes from Qt and from Utils::Environment *)

(** The Unicode tables and services of Qt the code calls: the out-of-line
    helpers of [QChar::isSpace] and [QChar::isLetterOrNumber] (consulted
    for code points above 127 only), [QDir::homePath],
    [QDir::toNativeSeparators] and [QString::toUpper]. *)
Class QtServices := {
  isSpace_helper : QChar -> bool;
  isLetterOrNumber_helper : QChar -> bool;
  homePath : QString;
  toNativeSeparators : QString -> QString;
  toUpper : QString -> QString
}.

(** [QChar::isSpace] and [QChar::isLetterOrNumber], as qchar.h inlines them. *)
Definition isSpace `{QtServices} (c : QChar) : bool :=
  (c =? 0x20) || ((c <=? 0x0d) && (0x09 <=? c))
  || ((127 <? c) && ((c =? 0x85) || (c =? 0xa0) || isSpace_helper c)).

Definition isLetterOrNumber `{QtServices} (c : QChar) : bool :=
  ((65 <=? c) && (c <=? 122) && ((97 <=? c) || (c <=? 90)))
  || ((48 <=? c) && (c <=? 57))
  || ((127 <? c) && isLetterOrNumber_helper c).

(** [Utils::Environment], as far as the lexers use it: [constFind]
    followed by [key] gives the stored key of a variable, if there is
    one; [expandedValueForKey] gives its value, empty for a key that is
    not set. *)
Record Environment := {
  constFind : QString -> option QString;
  expandedValueForKey : QString -> QString
}.

Fixpoint qstring_eqb (a b : QString) : bool :=
  match a, b with
  | [], [] => true
  | x :: a', y :: b' => (x =? y) && qstring_eqb a' b'
  | _, _ => false
  end.

Definition isEmpty (s : QString) : bool :=
  match s with [] => true | _ => false end.

(** [pwd && !pwd->isEmpty()] *)
Definition pwdGiven (pwd : option QString) : bool :=
  match pwd with Some d => negb (isEmpty d) | None => false end.

Definition pwdValue (pwd : option QString) : QString :=
  match pwd with Some d => d | None => [] end.

Inductive SplitError := SplitOk | BadQuoting | FoundMeta.

Definition SplitError_eqb (a b : SplitError) : bool :=
  match a, b with
  | SplitOk, SplitOk | BadQuoting, BadQuoting | FoundMeta, FoundMeta => true
  | _, _ => false
  end.

Inductive OsType := OsTypeWindows | OsTypeLinux | OsTypeMac | OsTypeOtherUnix | OsTypeOther.

(** ** The Windows lexer *)

Definition isMetaCharWin (c : QChar) : bool :=
  iqmLookup [0x00; 0x00; 0x00; 0x00; 0x40; 0x03; 0x00; 0x50;
             0x00; 0x00; 0x00; 0x00; 0x00; 0x00; 0x00; 0x10] c.

(** The value [envExpandWin] finds for a name: the working directory
    for CD, else what the environment has. *)
Definition envValueWin `{QtServices} (env : Environment) (pwd : option QString)
    (var : QString) : QString :=
  if qstring_eqb var (QLatin1String "CD") && pwdGiven pwd
  then toNativeSeparators (pwdValue pwd)
  else expandedValueForKey env var.

(** [envExpandWin]: one turn of the [for] loop per unit of fuel; [that]
    is the next percent sign from [off], [prev] the one before it.  A
    successful replacement is the [goto next], which restarts the loop
    with [prev = -1]. *)
Fixpoint envExpandWin_loop `{QtServices} (fuel : nat) (env : Environment)
    (pwd : option QString) (args : QString) (off prev : Z) : option QString :=
  match fuel with
  | O => None
  | S fuel' =>
      let that := indexOf ch_percent args off in
      if 0 <=? that then
        if 0 <=? prev then
          let var := toUpper (mid args (prev + 1) (that - prev - 1)) in
          let val := envValueWin env pwd var in
          if negb (isEmpty val) then
            envExpandWin_loop fuel' env pwd
              (replaceAt args prev (that - prev + 1) val) (prev + qlength val) (-1)
          else envExpandWin_loop fuel' env pwd args (that + 1) that
        else envExpandWin_loop fuel' env pwd args (that + 1) that
      else Some args
  end.

Definition envExpandWin `{QtServices} (args : QString) (env : Environment)
    (pwd : option QString) : option QString :=
  envExpandWin_loop (S (List.length args)) env pwd args 0 (-1).

(** The [do ... while] of [prepareArgsWin] that steps over a quoted run:
    it stops at the closing quote or at the end of the string. *)
Fixpoint prepareSkipQuoted (fuel : nat) (args : QString) (p : Z) : option Z :=
  match fuel with
  | O => None
  | S fuel' =>
      let p := p + 1 in
      if p =? qlength args then Some p
      else if negb (unicodeAt args p =? ch_dquote) then prepareSkipQuoted fuel' args p
      else Some p
  end.

(** The [for] loop of [prepareArgsWin] over the index [p]. *)
Fixpoint prepareArgsWin_loop (fuel : nat) (args : QString) (p : Z)
    : option (SplitError * QString) :=
  match fuel with
  | O => None
  | S fuel' =>
      if p <? qlength args then
        let c := unicodeAt args p in
        if c =? ch_caret then prepareArgsWin_loop fuel' (removeAt args p 1) (p + 1)
        else if c =? ch_dquote then
          match prepareSkipQuoted fuel' args p with
          | Some p' => prepareArgsWin_loop fuel' args (p' + 1)
          | None => None
          end
        else if isMetaCharWin c then Some (FoundMeta, [])
        else prepareArgsWin_loop fuel' args (p + 1)
      else Some (SplitOk, args)
  end.

(** [prepareArgsWin]: the error is what the code stores through [err],
    the string what the returned [ProcessArgs] holds. *)
Definition prepareArgsWin `{QtServices} (_args : QString) (env : option Environment)
    (pwd : option QString) : option (SplitError * QString) :=
  let expanded :=
    match env with
    | Some e => match envExpandWin _args e pwd with
                | Some a => Some (Some a)
                | None => None
                end
    | None => if 0 <=? indexOf ch_percent _args 0 then Some None else Some (Some _args)
    end in
  match expanded with
  | None => None
  | Some None => Some (FoundMeta, [])
  | Some (Some args) =>
      let args := if negb (isEmpty args) && (unicodeAt args 0 =? ch_at)
                  then removeAt args 0 1 else args in
      prepareArgsWin_loop (S (List.length args)) args 0
  end.

Definition isWhiteSpaceWin (c : QChar) : bool := (c =? ch_space) || (c =? ch_tab).

(** [while (p < length && args.unicode()[p] == '\\') { ++p; ++bslashes; }] *)
Fixpoint countBslashes (rest : QString) (bslashes : Z) : Z * QString :=
  match rest with
  | c :: r => if c =? ch_bslash then countBslashes r (bslashes + 1) else (bslashes, rest)
  | [] => (bslashes, [])
  end.

Definition appendBslashes (arg : QString) (bslashes : Z) : QString :=
  arg ++ repeat ch_bslash (Z.to_nat bslashes).

(** The inner [forever] of [doSplitArgsWin], which reads one argument:
    [rest] is the input from [p] on.  The result is the argument and the
    input left when the argument ended outside quotes, [inr tt] when the
    input ended inside quotes (the code then reports BadQuoting). *)
Fixpoint doSplitArgsWin_arg (fuel : nat) (rest : QString) (arg : QString) (inquote : bool)
    : option (QString * QString + unit) :=
  match fuel with
  | O => None
  | S fuel' =>
      let '(bslashes, rest) := countBslashes rest 0 in
      let '(copy, inquote, bslashes, rest) :=
        match rest with
        | c :: r =>
            if c =? ch_dquote then
              if Z.land bslashes 1 =? 0 then
                if inquote then
                  match r with
                  | d :: _ => if d =? ch_dquote then (true, false, Z.shiftr bslashes 1, r)
                              else (false, false, Z.shiftr bslashes 1, rest)
                  | [] => (false, false, Z.shiftr bslashes 1, rest)
                  end
                else (false, true, Z.shiftr bslashes 1, rest)
              else (true, inquote, Z.shiftr bslashes 1, rest)
            else (true, inquote, bslashes, rest)
        | [] => (true, inquote, bslashes, rest)
        end in
      let arg := appendBslashes arg bslashes in
      match rest with
      | [] => if inquote then Some (inr tt) else Some (inl (arg, rest))
      | c :: r =>
          if negb inquote && isWhiteSpaceWin c then Some (inl (arg, rest))
          else doSplitArgsWin_arg fuel' r (if copy then arg ++ [c] else arg) inquote
      end
  end.

(** The leading [forever] that skips white space. *)
Fixpoint skipWhiteSpaceWin (rest : QString) : QString :=
  match rest with
  | c :: r => if isWhiteSpaceWin c then skipWhiteSpaceWin r else rest
  | [] => []
  end.

Fixpoint doSplitArgsWin_loop (fuel : nat) (rest : QString) (ret : QStringList)
    : option (QStringList * SplitError) :=
  match fuel with
  | O => None
  | S fuel' =>
      match skipWhiteSpaceWin rest with
      | [] => Some (ret, SplitOk)
      | rest =>
          match doSplitArgsWin_arg fuel' rest [] false with
          | None => None
          | Some (inr _) => Some ([], BadQuoting)
          | Some (inl (arg, rest')) => doSplitArgsWin_loop fuel' rest' (ret ++ [arg])
          end
      end
  end.

Definition doSplitArgsWin (args : QString) : option (QStringList * SplitError) :=
  doSplitArgsWin_loop (S (S (List.length args))) args [].

(** [splitArgsWin].  [err] is the caller's pointer: [None] for a null
    pointer, [Some e0] for a pointer to a variable that holds [e0] on
    entry; the second component of the result is what that variable
    holds on return.  With [abortOnMeta] the code hands [&perr] to
    [prepareArgsWin] and then tests [*err], which is [perr] only when
    the caller passed no pointer. *)
Definition splitArgsWin `{QtServices} (_args : QString) (abortOnMeta : bool)
    (err : option SplitError) (env : option Environment) (pwd : option QString)
    : option (QStringList * option SplitError) :=
  let out (e : SplitError) := match err with Some _ => Some e | None => None end in
  if abortOnMeta then
    match prepareArgsWin _args env pwd with
    | None => None
    | Some (perr, args) =>
        let tested := match err with Some e0 => e0 | None => perr end in
        if negb (SplitError_eqb tested SplitOk) then Some ([], err)
        else match doSplitArgsWin args with
             | None => None
             | Some (ret, e) => Some (ret, out e)
             end
    end
  else
    let expanded := match env with
                    | Some e => envExpandWin _args e pwd
                    | None => Some _args
                    end in
    match expanded with
    | None => None
    | Some args =>
        match doSplitArgsWin args with
        | None => None
        | Some (ret, e) => Some (ret, out e)
        end
    end.

(** *** The two passes of the Windows lexer as functions of the input

    What [envExpandWin] and the loop of [prepareArgsWin] compute, read
    off the input from left to right; the lemmas below relate them to
    the loops over the index. *)

(** [expandPercent] is the scan for an opening percent sign ([prev] is
    -1), [expandAfterPercent] the scan for the closing one, with the
    name read so far. *)
Fixpoint expandPercent `{QtServices} (env : Environment) (pwd : option QString)
    (rest : QString) : QString :=
  match rest with
  | [] => []
  | c :: r => if c =? ch_percent then expandAfterPercent env pwd r [] else c :: expandPercent env pwd r
  end
with expandAfterPercent `{QtServices} (env : Environment) (pwd : option QString)
    (rest : QString) (name : QString) : QString :=
  match rest with
  | [] => ch_percent :: name
  | c :: r =>
      if c =? ch_percent then
        if negb (isEmpty (envValueWin env pwd (toUpper name)))
        then envValueWin env pwd (toUpper name) ++ expandPercent env pwd r
        else ch_percent :: name ++ expandAfterPercent env pwd r []
      else expandAfterPercent env pwd r (name ++ [c])
  end.

(** [stripCarets] is the scan outside quotes, [stripCaretsQuoted] the
    one inside; [None] stands for FoundMeta. *)
Fixpoint stripCarets (rest : QString) : option QString :=
  match rest with
  | [] => Some []
  | c :: r =>
      if c =? ch_caret then
        match r with
        | [] => Some []
        | d :: r' => option_map (cons d) (stripCarets r')
        end
      else if c =? ch_dquote then option_map (cons c) (stripCaretsQuoted r)
      else if isMetaCharWin c then None
      else option_map (cons c) (stripCarets r)
  end
with stripCaretsQuoted (rest : QString) : option QString :=
  match rest with
  | [] => Some []
  | c :: r =>
      if c =? ch_dquote then option_map (cons c) (stripCarets r)
      else option_map (cons c) (stripCaretsQuoted r)
  end.

(** The result of the scan, as [prepareArgsWin] reports it, after the
    text [done]. *)
Definition preparedFrom (done : QString) (stripped : option QString)
    : option (SplitError * QString) :=
  match stripped with
  | Some out => Some (SplitOk, done ++ out)
  | None => Some (FoundMeta, [])
  end.

(** The leading [@] that [prepareArgsWin] drops. *)
Definition dropLeadingAt (args : QString) : QString :=
  if negb (isEmpty args) && (unicodeAt args 0 =? ch_at) then removeAt args 0 1 else args.

(** The tokenizer of [doSplitArgsWin] for one argument as a machine
    that reads one character at a time, with the number of backslashes
    just read as part of its state. *)
Fixpoint crtArg (rest : QString) (arg : QString) (inquote : bool) (bslashes : Z)
    : QString * QString + unit :=
  match rest with
  | [] => if inquote then inr tt else inl (appendBslashes arg bslashes, [])
  | c :: r =>
      if c =? ch_bslash then crtArg r arg inquote (bslashes + 1)
      else if c =? ch_dquote then
        if Z.land bslashes 1 =? 0 then
          if inquote then
            match r with
            | d :: r' =>
                if d =? ch_dquote
                then crtArg r' (appendBslashes arg (Z.shiftr bslashes 1) ++ [d]) false 0
                else crtArg r (appendBslashes arg (Z.shiftr bslashes 1)) false 0
            | [] => crtArg r (appendBslashes arg (Z.shiftr bslashes 1)) false 0
            end
          else crtArg r (appendBslashes arg (Z.shiftr bslashes 1)) true 0
        else crtArg r (appendBslashes arg (Z.shiftr bslashes 1) ++ [c]) inquote 0
      else if negb inquote && isWhiteSpaceWin c then inl (appendBslashes arg bslashes, rest)
      else crtArg r (appendBslashes arg bslashes ++ [c]) inquote 0
  end.

(** Whether the input ends inside a double-quoted section, by the rules
    of the C runtime: a quote after an even number of backslashes opens
    or closes, and inside quotes two quotes in a row close as well. *)
Fixpoint crtQuoteOpen (rest : QString) (inquote : bool) (bslashes : Z) : bool :=
  match rest with
  | [] => inquote
  | c :: r =>
      if c =? ch_bslash then crtQuoteOpen r inquote (bslashes + 1)
      else if c =? ch_dquote then
        if Z.land bslashes 1 =? 0 then
          if inquote then
            match r with
            | d :: r' => if d =? ch_dquote then crtQuoteOpen r' false 0
                         else crtQuoteOpen r false 0
            | [] => false
            end
          else crtQuoteOpen r true 0
        else crtQuoteOpen r inquote 0
      else crtQuoteOpen r inquote 0
  end.

(** ** The Unix lexer *)

Definition isMetaUnix (c : QChar) : bool :=
  iqmLookup [0x00; 0x00; 0x00; 0x00; 0xdc; 0x07; 0x00; 0xd8;
             0x00; 0x00; 0x00; 0x38; 0x01; 0x00; 0x00; 0x38] c.

(** The outcome of a piece of the Unix lexer: a value, or one of the
    jumps [goto quoteerr] and [goto metaerr]; [NoFuel] is the model's
    own, for a loop that was given too few turns. *)
Inductive Lex (A : Type) : Type :=
| Got (a : A)
| QuoteErr
| MetaErr
| NoFuel.
Arguments Got {A} a.
Arguments QuoteErr {A}.
Arguments MetaErr {A}.
Arguments NoFuel {A}.

Definition lexBind {A B} (m : Lex A) (k : A -> Lex B) : Lex B :=
  match m with
  | Got a => k a
  | QuoteErr => QuoteErr
  | MetaErr => MetaErr
  | NoFuel => NoFuel
  end.

Notation "' p <- m ;; k" := (lexBind m (fun p => k))
  (at level 61, p pattern, m at next level, right associativity).

(** [do { if (pos >= args.length()) goto okret; c = args.unicode()[pos++]; }
    while (c.isSpace());]: the first character that is no space and the
    input after it. *)
Fixpoint skipSpaces `{QtServices} (rest : QString) : option (QChar * QString) :=
  match rest with
  | [] => None
  | c :: r => if isSpace c then skipSpaces r else Some (c, r)
  end.

(** The scan for the closing single quote: the text before it
    ([args.mid(spos, pos - spos - 1)]) and the input after it. *)
Fixpoint scanSingleQuoted (rest : QString) : option (QString * QString) :=
  match rest with
  | [] => None
  | c :: r => if c =? ch_squote then Some ([], r)
              else match scanSingleQuoted r with
                   | Some (text, r') => Some (c :: text, r')
                   | None => None
                   end
  end.

Definition isVarChar `{QtServices} (c : QChar) : bool :=
  isLetterOrNumber c || (c =? ch_uscore).

(** The variable name inside double quotes: running out of input is a
    quoting error. *)
Fixpoint scanVarQuoted `{QtServices} (c : QChar) (rest : QString) (var : QString)
    {struct rest} : option (QString * QChar * QString) :=
  if isVarChar c then
    match rest with
    | [] => None
    | c' :: r => scanVarQuoted c' r (var ++ [c])
    end
  else Some (var, c, rest).

(** The variable name outside quotes: at the end of the input an
    unbraced name ends with [c = ' ']. *)
Fixpoint scanVarBare `{QtServices} (braced : bool) (c : QChar) (rest : QString)
    (var : QString) {struct rest} : option (QString * QChar * QString) :=
  if isVarChar c then
    match rest with
    | [] => if braced then None else Some (var ++ [c], ch_space, [])
    | c' :: r => scanVarBare braced c' r (var ++ [c])
    end
  else Some (var, c, rest).

(** The value a variable name stands for: [Got None] when the variable
    is not set and that is no error. *)
Definition lookupVar (abortOnMeta : bool) (env : Environment) (pwd : option QString)
    (var : QString) : Lex (option QString) :=
  if qstring_eqb var (QLatin1String "PWD") && pwdGiven pwd then Got (Some (pwdValue pwd))
  else match constFind env var with
       | None => if abortOnMeta then MetaErr else Got None
       | Some key => Got (Some (expandedValueForKey env key))
       end.

Section SplitArgsUnix.
Context `{QtServices}.
Variable abortOnMeta : bool.
Variable env : option Environment.
Variable pwd : option QString.

(** The loop over a double-quoted string, entered at the label
    [nextq] with the character [c]; [rest] is the input after [c].
    The result is [cret] and the input after the closing quote. *)
Fixpoint splitUnix_nextq (fuel : nat) (c : QChar) (rest : QString) (cret : QString)
    : Lex (QString * QString) :=
  match fuel with
  | O => NoFuel
  | S fuel' =>
      let top (rest : QString) (cret : QString) :=
        match rest with
        | [] => QuoteErr
        | c :: r => splitUnix_nextq fuel' c r cret
        end in
      if c =? ch_dquote then Got (cret, rest)
      else if c =? ch_bslash then
        match rest with
        | [] => QuoteErr
        | c :: r =>
            let cret :=
              if negb (c =? ch_dquote) && negb (c =? ch_bslash)
                 && negb (abortOnMeta && ((c =? ch_dollar) || (c =? ch_btick)))
              then cret ++ [ch_bslash] else cret in
            top r (cret ++ [c])
        end
      else
        match (if c =? ch_dollar then env else None) with
        | Some e =>
            match rest with
            | [] => QuoteErr
            | c :: r =>
                ' (braced, c, r) <-
                  (if c =? ch_lbrace then
                     match r with
                     | [] => QuoteErr
                     | c' :: r' => Got (true, c', r')
                     end
                   else Got (false, c, r)) ;;
                match scanVarQuoted c r [] with
                | None => QuoteErr
                | Some (var, c, r) =>
                    ' val <- lookupVar abortOnMeta e pwd var ;;
                    let cret := match val with Some v => cret ++ v | None => cret end in
                    if negb braced then splitUnix_nextq fuel' c r cret
                    else if negb (c =? ch_rbrace) then
                      (if abortOnMeta then MetaErr else QuoteErr)
                    else top r cret
                end
            end
        | None =>
            if abortOnMeta && ((c =? ch_dollar) || (c =? ch_btick)) then MetaErr
            else top rest (cret ++ [c])
        end
  end.

(** The word splitting of an unquoted expansion: the [for] loop over
    the characters of [val]. *)
Fixpoint splitValue (val : QString) (ret : QStringList) (cret : QString) (hadWord : bool)
    : QStringList * QString * bool :=
  match val with
  | [] => (ret, cret, hadWord)
  | cc :: v =>
      if (cc =? 9) || (cc =? 10) || (cc =? 32) then
        if hadWord then splitValue v (ret ++ [cret]) [] false
        else splitValue v ret cret hadWord
      else splitValue v ret (cret ++ [cc]) true
  end.

(** What follows the inner [do ... while]: [if (hadWord) ret += cret;]. *)
Definition endWord (ret : QStringList) (cret : QString) (hadWord : bool) : QStringList :=
  if hadWord then ret ++ [cret] else ret.

Section Body.
(** The jump to the label [nextc]. *)
Variable nextc : QChar -> QString -> QString -> bool -> QStringList -> Lex QStringList.

(** The label [getc]: at the end of the input the word and the scan end. *)
Definition splitUnix_getc (rest : QString) (cret : QString) (hadWord : bool)
    (ret : QStringList) : Lex QStringList :=
  match rest with
  | [] => Got (endWord ret cret hadWord)
  | c :: r => nextc c r cret hadWord ret
  end.

(** One turn of the inner [do ... while] on the character [c]. *)
Definition splitUnix_body (c : QChar) (rest : QString) (cret : QString) (hadWord : bool)
    (ret : QStringList) : Lex QStringList :=
  if c =? ch_squote then
    match scanSingleQuoted rest with
    | None => QuoteErr
    | Some (text, r) => splitUnix_getc r (cret ++ text) true ret
    end
  else if c =? ch_dquote then
    match rest with
    | [] => QuoteErr
    | c :: r =>
        ' (cret, r) <- splitUnix_nextq (S (List.length r)) c r cret ;;
        splitUnix_getc r cret true ret
    end
  else
    match (if c =? ch_dollar then env else None) with
    | Some e =>
        match rest with
        | [] => QuoteErr
        | c :: r =>
            ' (braced, c, r) <-
              (if c =? ch_lbrace then
                 match r with
                 | [] => QuoteErr
                 | c' :: r' => Got (true, c', r')
                 end
               else Got (false, c, r)) ;;
            match scanVarBare braced c r [] with
            | None => QuoteErr
            | Some (var, c, r) =>
                ' val <- lookupVar abortOnMeta e pwd var ;;
                let val := match val with Some v => v | None => [] end in
                let '(ret, cret, hadWord) := splitValue val ret cret hadWord in
                if negb braced then nextc c r cret hadWord ret
                else if negb (c =? ch_rbrace) then
                  (if abortOnMeta then MetaErr else QuoteErr)
                else splitUnix_getc r cret hadWord ret
            end
        end
    | None =>
        if c =? ch_bslash then
          match rest with
          | [] => QuoteErr
          | c :: r => splitUnix_getc r (cret ++ [c]) true ret
          end
        else if abortOnMeta && isMetaUnix c then MetaErr
        else splitUnix_getc rest (cret ++ [c]) true ret
    end.

(** The head of the outer [for]: skip the spaces, look at a leading
    tilde, enter the inner loop. *)
Definition splitUnix_word (rest : QString) (ret : QStringList) : Lex QStringList :=
  match skipSpaces rest with
  | None => Got ret
  | Some (c, r) =>
      if c =? ch_tilde then
        if match r with
           | [] => true
           | d :: _ => isSpace d || (d =? ch_slash)
           end
        then splitUnix_getc r homePath true ret
        else if abortOnMeta then MetaErr
        else splitUnix_body c r [] false ret
      else splitUnix_body c r [] false ret
  end.
End Body.

(** The label [nextc] with the loop test [while (!c.isSpace())]. *)
Fixpoint splitUnix_nextc (fuel : nat) (c : QChar) (rest : QString) (cret : QString)
    (hadWord : bool) (ret : QStringList) : Lex QStringList :=
  match fuel with
  | O => NoFuel
  | S fuel' =>
      if isSpace c then splitUnix_word (splitUnix_nextc fuel') rest (endWord ret cret hadWord)
      else splitUnix_body (splitUnix_nextc fuel') c rest cret hadWord ret
  end.

(** [splitArgsUnix]: the list returned and the error stored. *)
Definition splitArgsUnix (args : QString) : option (QStringList * SplitError) :=
  match splitUnix_word (splitUnix_nextc (S (S (List.length args)))) args [] with
  | Got ret => Some (ret, SplitOk)
  | QuoteErr => Some ([], BadQuoting)
  | MetaErr => Some ([], FoundMeta)
  | NoFuel => None
  end.
End SplitArgsUnix.

(** A character the Unix lexer copies wherever it stands, except that
    a tilde counts only at the start of a word. *)
Definition plainUnix `{QtServices} (c : QChar) : bool :=
  negb (isSpace c) && negb (c =? ch_squote) && negb (c =? ch_dquote)
  && negb (c =? ch_dollar) && negb (c =? ch_bslash) && negb (isMetaUnix c).

(** The pieces of a value between its tabs, line feeds and spaces, in
    the words of the specification: a separator starts nothing, and a
    character that is no separator starts a new piece when a separator
    or the end follows it, and otherwise joins the piece that follows. *)
Definition isFieldSep (c : QChar) : bool := (c =? 9) || (c =? 10) || (c =? 32).

Definition startsField (v : QString) : bool :=
  match v with
  | [] => false
  | c :: _ => negb (isFieldSep c)
  end.

Fixpoint fields (v : QString) : list QString :=
  match v with
  | [] => []
  | c :: r =>
      if isFieldSep c then fields r
      else if startsField r then
        match fields r with
        | w :: ws => (c :: w) :: ws
        | [] => [[c]]
        end
      else [c] :: fields r
  end.

(** ** Quoting *)

Definition isSpecialCharUnix (c : QChar) : bool :=
  iqmLookup [0xff; 0xff; 0xff; 0xff; 0xdf; 0x07; 0x00; 0xd8;
             0x00; 0x00; 0x00; 0x38; 0x01; 0x00; 0x00; 0x78] c.

(** The loop runs from the last character down to the first. *)
Definition hasSpecialCharsUnix (arg : QString) : bool :=
  existsb isSpecialCharUnix (rev arg).

Definition quoteArgUnix (arg : QString) : QString :=
  if isEmpty arg then [ch_squote; ch_squote]
  else if hasSpecialCharsUnix arg then
    [ch_squote]
    ++ replaceChar ch_squote [ch_squote; ch_bslash; ch_squote; ch_squote] arg
    ++ [ch_squote]
  else arg.

Definition isSpecialCharWin (c : QChar) : bool :=
  iqmLookup [0xff; 0xff; 0xff; 0xff; 0x45; 0x13; 0x00; 0x78;
             0x00; 0x00; 0x00; 0x40; 0x00; 0x00; 0x00; 0x10] c.

Definition hasSpecialCharsWin (arg : QString) : bool :=
  existsb isSpecialCharWin (rev arg).

(** The regular-expression replacement of [quoteArgWin]: the pattern
    is any number of backslashes followed by a double quote, and a match
    is replaced by a quote, the backslashes of the match twice, and the
    four characters backslash, circumflex, quote, quote.  [pending]
    counts the backslashes read since the last other character; they
    are copied once when no quote follows them. *)
Fixpoint escapeQuotesWin (s : QString) (pending : nat) : QString :=
  match s with
  | [] => repeat ch_bslash pending
  | c :: r =>
      if c =? ch_bslash then escapeQuotesWin r (S pending)
      else if c =? ch_dquote then
        [ch_dquote] ++ repeat ch_bslash pending ++ repeat ch_bslash pending
        ++ [ch_bslash; ch_caret; ch_dquote; ch_dquote] ++ escapeQuotesWin r 0
      else repeat ch_bslash pending ++ c :: escapeQuotesWin r 0
  end.

(** [int i = ret.length(); while (i > 0 && ret.at(i - 1) == '\\') --i;] *)
Fixpoint beforeTrailingBslashes (ret : QString) (i : nat) : nat :=
  match i with
  | O => O
  | S j => if nth j ret 0 =? ch_bslash then beforeTrailingBslashes ret j else i
  end.

Definition quoteArgWin (arg : QString) : QString :=
  if isEmpty arg then [ch_dquote; ch_dquote]
  else if hasSpecialCharsWin arg then
    let ret := escapeQuotesWin arg 0 in
    let i := beforeTrailingBslashes ret (List.length ret) in
    let ret := insertAt ret (Z.of_nat i) [ch_dquote] in
    ch_dquote :: ret
  else arg.

(** What [quoteArgWin] puts after its opening quote for the rest [s] of
    the argument, when [pending] backslashes were read last: the closing
    quote goes before the backslashes the argument ends with.  With
    [caret] unset this is the same text without the circumflexes, as
    [prepareArgsWin] leaves it. *)
Fixpoint quoteTailWin (caret : bool) (s : QString) (pending : nat) : QString :=
  match s with
  | [] => ch_dquote :: repeat ch_bslash pending
  | c :: r =>
      if c =? ch_bslash then quoteTailWin caret r (S pending)
      else if c =? ch_dquote then
        [ch_dquote] ++ repeat ch_bslash pending ++ repeat ch_bslash pending
        ++ (if caret then [ch_bslash; ch_caret; ch_dquote; ch_dquote]
            else [ch_bslash; ch_dquote; ch_dquote])
        ++ quoteTailWin caret r 0
      else repeat ch_bslash pending ++ c :: quoteTailWin caret r 0
  end.

(** A character that neither phase of the Windows lexer acts on. *)
Definition plainWin (c : QChar) : bool :=
  negb (c =? ch_dquote) && negb (c =? ch_caret) && negb (isMetaCharWin c)
  && negb (isWhiteSpaceWin c).

Definition isWindows (osType : OsType) : bool :=
  match osType with OsTypeWindows => true | _ => false end.

Definition quoteArg (arg : QString) (osType : OsType) : QString :=
  if isWindows osType then quoteArgWin arg else quoteArgUnix arg.

Definition addArg (args : QString) (arg : QString) (osType : OsType) : QString :=
  (if negb (isEmpty args) then args ++ [ch_space] else args) ++ quoteArg arg osType.

Definition joinArgs (args : QStringList) (osType : OsType) : QString :=
  fold_left (fun ret arg => addArg ret arg osType) args [].

(** [ProcessArgs::splitArgs]; [err] and the second component of the
    result are as for [splitArgsWin]. *)
Definition splitArgs `{QtServices} (args : QString) (osType : OsType) (abortOnMeta : bool)
    (err : option SplitError) (env : option Environment) (pwd : option QString)
    : option (QStringList * option SplitError) :=
  if isWindows osType then splitArgsWin args abortOnMeta err env pwd
  else match splitArgsUnix abortOnMeta env pwd args with
       | None => None
       | Some (ret, e) => Some (ret, match err with Some _ => Some e | None => None end)
       end.

(** [ProcessArgs], the tagged result of [prepareArgs]. *)
Inductive ProcessArgs :=
| WindowsArgs (m_windowsArgs : QString)
| UnixArgs (m_unixArgs : QStringList).

Definition prepareArgs `{QtServices} (cmd : QString) (osType : OsType)
    (env : option Environment) (pwd : option QString) (abortOnMeta : bool)
    : option (ProcessArgs * SplitError) :=
  if isWindows osType then
    match prepareArgsWin cmd env pwd with
    | None => None
    | Some (e, args) => Some (WindowsArgs args, e)
    end
  else
    match splitArgsUnix abortOnMeta env pwd cmd with
    | None => None
    | Some (ret, e) => Some (UnixArgs ret, e)
    end.

(** ** Newline normalization in the channel buffers *)

Definition QByteArray := list Z.

(** The decoder of a channel: [codec->toUnicode(start, len, state)],
    which carries a state from one call to the next, and the one-shot
    [codec->toUnicode(bytes)]. *)
Class TextCodec := {
  ConverterState : Type;
  freshState : ConverterState;
  toUnicodeFrom : QByteArray -> ConverterState -> QString * ConverterState;
  toUnicode : QByteArray -> QString
}.

Record ChannelBuffer `{TextCodec} := {
  rawData : QByteArray;
  incompleteLineBuffer : QString;
  codecState : ConverterState;
  rawDataPos : Z;
  hasOutputCallback : bool
}.

Definition clearForRun `{TextCodec} (b : ChannelBuffer) : ChannelBuffer :=
  {| rawData := []; incompleteLineBuffer := []; codecState := freshState;
     rawDataPos := 0; hasOutputCallback := hasOutputCallback b |}.

(** The text part of [linesRead], once the new input is decoded and
    appended: the completed lines, normalized, and the new incomplete
    line.  Without a line end in the buffer nothing is returned. *)
Definition takeLines (buffer : QString) : QString * QString :=
  let lastLineIndex := Z.max (lastIndexOf ch_lf buffer) (lastIndexOf ch_cr buffer) in
  if lastLineIndex =? -1 then ([], buffer)
  else (normalizeNewlines (left buffer (lastLineIndex + 1)),
        midFrom buffer (lastLineIndex + 1)).

(** [ChannelBuffer::linesRead]: the lines returned and the buffer after. *)
Definition linesRead `{TextCodec} (b : ChannelBuffer) : QString * ChannelBuffer :=
  let '(decoded, st) := toUnicodeFrom (midFrom (rawData b) (rawDataPos b)) (codecState b) in
  let '(lines, tail) := takeLines (incompleteLineBuffer b ++ decoded) in
  (lines,
   {| rawData := rawData b; incompleteLineBuffer := tail; codecState := st;
      rawDataPos := qlength (rawData b); hasOutputCallback := hasOutputCallback b |}).

(** [ChannelBuffer::append]: the text handed to [outputCallback], if it
    is called, and the buffer after. *)
Definition append `{TextCodec} (b : ChannelBuffer) (text : QByteArray) (emitSignals : bool)
    : option QString * ChannelBuffer :=
  if isEmpty text then (None, b)
  else
    let b := {| rawData := rawData b ++ text;
                incompleteLineBuffer := incompleteLineBuffer b;
                codecState := codecState b; rawDataPos := rawDataPos b;
                hasOutputCallback := hasOutputCallback b |} in
    if negb emitSignals then (None, b)
    else if hasOutputCallback b then
      let '(lines, b') := linesRead b in
      ((if negb (isEmpty lines) then Some lines else None), b')
    else (None, b).

(** The texts a channel hands to its callback while the reads of a run
    arrive, in order, and the buffer at the end. *)
Fixpoint appendAll `{TextCodec} (b : ChannelBuffer) (reads : list QByteArray)
    : list QString * ChannelBuffer :=
  match reads with
  | [] => ([], b)
  | text :: more =>
      let '(out, b) := append b text true in
      let '(outs, b) := appendAll b more in
      (match out with Some lines => lines :: outs | None => outs end, b)
  end.

(** The pieces of text the stateful decoder makes of the reads. *)
Fixpoint decodedPieces `{TextCodec} (st : ConverterState) (reads : list QByteArray)
    : list QString :=
  match reads with
  | [] => []
  | text :: more =>
      if isEmpty text then decodedPieces st more
      else let '(decoded, st') := toUnicodeFrom text st in
           decoded :: decodedPieces st' more
  end.

(** A decoder without state that maps each byte to the code unit of the
    same number (Latin-1). *)
Definition latin1Codec : TextCodec :=
  {| ConverterState := unit; freshState := tt;
     toUnicodeFrom := fun bytes st => (bytes, st);
     toUnicode := fun bytes => bytes |}.

(** The text up to and including its last line end (line feed or
    carriage return), and the text after it. *)
Definition isLineEnd (c : QChar) : bool := (c =? ch_lf) || (c =? ch_cr).

Fixpoint completeLines (s : QString) : QString :=
  match s with
  | [] => []
  | c :: r => if existsb isLineEnd s then c :: completeLines r else []
  end.

Fixpoint pendingLine (s : QString) : QString :=
  match s with
  | [] => []
  | c :: r => if existsb isLineEnd s then pendingLine r else s
  end.

(** A carriage return at the end of [a] meets a carriage return or a
    line feed at the start of [b]. *)
Definition crMeetsLineEnd (a b : QString) : bool :=
  (last a 0 =? ch_cr) && negb (isEmpty a) && isLineEnd (hd 0 b) && negb (isEmpty b).

(** No read ends between a carriage return and a line end right after
    it: [seen] is the text before the pieces. *)
Fixpoint piecesKeepLineEnds (seen : QString) (pieces : list QString) : bool :=
  match pieces with
  | [] => true
  | p :: more =>
      negb (crMeetsLineEnd seen (List.concat pieces))
      && piecesKeepLineEnds (seen ++ p) more
  end.

(** [SynchronousProcessResponse::stdOut]. *)
Definition stdOut `{TextCodec} (rawStdOut : QByteArray) : QString :=
  normalizeNewlines (toUnicode rawStdOut).

(** ** The result of a synchronous run *)

Inductive Result := Finished | FinishedError | TerminatedAbnormally | StartFailed | Hang.

Inductive ExitStatus := NormalExit | CrashExit.

Definition Result_eqb (a b : Result) : bool :=
  match a, b with
  | Finished, Finished | FinishedError, FinishedError
  | TerminatedAbnormally, TerminatedAbnormally
  | StartFailed, StartFailed | Hang, Hang => true
  | _, _ => false
  end.

Record SynchronousProcessResponse := {
  result : Result;
  exitCode : Z
}.

Definition defaultExitCodeInterpreter (code : Z) : Result :=
  if negb (code =? 0) then FinishedError else Finished.

Definition defaultMaxHangTimerCount : Z := 10.

(** The fields of [QtcProcessPrivate] the slots below touch;
    [m_eventLoopQuit] records the call of [m_eventLoop.quit()]. *)
Record QtcProcessPrivate := {
  m_result : SynchronousProcessResponse;
  m_exitCodeInterpreter : Z -> Result;
  m_hangTimerCount : Z;
  m_maxHangTimerCount : Z;
  m_startFailure : bool;
  m_eventLoopQuit : bool
}.

Definition slotFinished (d : QtcProcessPrivate) (exitCode : Z) (e : ExitStatus)
    : QtcProcessPrivate :=
  let m_result :=
    match e with
    | NormalExit =>
        {| result := m_exitCodeInterpreter d exitCode; exitCode := exitCode |}
    | CrashExit =>
        {| result := if negb (Result_eqb (result (m_result d)) Hang)
                     then TerminatedAbnormally else result (m_result d);
           exitCode := -1 |}
    end in
  {| m_result := m_result;
     m_exitCodeInterpreter := m_exitCodeInterpreter d;
     m_hangTimerCount := 0;
     m_maxHangTimerCount := m_maxHangTimerCount d;
     m_startFailure := m_startFailure d;
     m_eventLoopQuit := true |}.

(** [QtcProcess::setTimeoutS]; [INT_MAX / 1000] is C++ integer division. *)
Definition setTimeoutS (d : QtcProcessPrivate) (timeoutS : Z) : QtcProcessPrivate :=
  {| m_result := m_result d;
     m_exitCodeInterpreter := m_exitCodeInterpreter d;
     m_hangTimerCount := m_hangTimerCount d;
     m_maxHangTimerCount := if 0 <? timeoutS then Z.max 2 timeoutS
                            else Z.quot INT_MAX 1000;
     m_startFailure := m_startFailure d;
     m_eventLoopQuit := m_eventLoopQuit d |}.

(** ** The states of the shell parsers *)

(** The main state of the Unix shell parser. *)
Inductive MxQuoting := MxBasic | MxSingleQuote | MxDoubleQuote | MxParen | MxSubst | MxGroup | MxMath.

Definition MxQuoting_eqb (a b : MxQuoting) : bool :=
  match a, b with
  | MxBasic, MxBasic | MxSingleQuote, MxSingleQuote | MxDoubleQuote, MxDoubleQuote
  | MxParen, MxParen | MxSubst, MxSubst | MxGroup, MxGroup | MxMath, MxMath => true
  | _, _ => false
  end.

Record MxState := { current : MxQuoting; dquote : bool }.

(** [QStack::pop]; the parsers pop only what they pushed. *)
Definition pop {A} (default : A) (stack : list A) : A * list A :=
  match stack with
  | x :: rest => (x, rest)
  | [] => (default, [])
  end.

Definition stackIsEmpty {A} (stack : list A) : bool :=
  match stack with [] => true | _ => false end.

Definition mxInitial : MxState := {| current := MxBasic; dquote := false |}.

(** cmd.exe parsing state. *)
Inductive ShellState := ShellBasic | ShellQuoted | ShellEscaped.

Definition ShellState_eqb (a b : ShellState) : bool :=
  match a, b with
  | ShellBasic, ShellBasic | ShellQuoted, ShellQuoted | ShellEscaped, ShellEscaped => true
  | _, _ => false
  end.

(** ** ProcessArgs::ArgIterator *)

Record ArgIterator := {
  m_str : QString;
  m_pos : Z;
  m_prev : Z;
  m_simple : bool;
  m_value : QString;
  m_osType : OsType
}.

(** The iterator as its constructor leaves it. *)
Definition argIterator (str : QString) (osType : OsType) : ArgIterator :=
  {| m_str := str; m_pos := 0; m_prev := -1; m_simple := true; m_value := [];
     m_osType := osType |}.

(** CommandLineToArgv() parsing state of the iterator. *)
Inductive IterCrtState := ICrtBasic | ICrtInWord | ICrtClosed | ICrtQuoted.

Definition IterCrtState_eqb (a b : IterCrtState) : bool :=
  match a, b with
  | ICrtBasic, ICrtBasic | ICrtInWord, ICrtInWord | ICrtClosed, ICrtClosed
  | ICrtQuoted, ICrtQuoted => true
  | _, _ => false
  end.

Inductive VarState := NoVar | NewVar | FullVar.

Definition VarState_eqb (a b : VarState) : bool :=
  match a, b with
  | NoVar, NoVar | NewVar, NewVar | FullVar, FullVar => true
  | _, _ => false
  end.

(** How a run of the loop of [next] ends: [m_pos], the value of the
    function, [m_simple] and [m_value]. *)
Definition NextExit : Type := Z * bool * bool * QString.

(** The label [doReturn] of the Windows branch. *)
Definition nextWin_doReturn (pos : Z) (crtState : IterCrtState) (bslashes : Z)
    (simple : bool) (value : QString) : NextExit :=
  (pos, negb (IterCrtState_eqb crtState ICrtBasic), simple,
   if simple then appendBslashes value bslashes else []).

(** The [for (;; m_pos++)] of the Windows branch of [next]. *)
Fixpoint nextWin_loop `{QtServices} (fuel : nat) (str : QString) (pos : Z)
    (shellState : ShellState) (crtState : IterCrtState) (varState : VarState)
    (bslashes : Z) (simple : bool) (value : QString) : option NextExit :=
  match fuel with
  | O => None
  | S fuel' =>
      let cc := if pos <? qlength str then unicodeAt str pos else 0 in
      let unescape (s : ShellState) :=
        if ShellState_eqb s ShellEscaped then ShellBasic else s in
      if ShellState_eqb shellState ShellBasic && (cc =? ch_caret) then
        nextWin_loop fuel' str (pos + 1) ShellEscaped crtState NoVar bslashes simple value
      else if (ShellState_eqb shellState ShellBasic && isMetaCharWin cc) || (cc =? 0) then
        Some (nextWin_doReturn pos crtState bslashes simple value)
      else if negb (IterCrtState_eqb crtState ICrtQuoted)
              && ((cc =? ch_space) || (cc =? ch_tab)) then
        if negb (IterCrtState_eqb crtState ICrtBasic) then
          Some (nextWin_doReturn pos crtState bslashes simple value)
        else
          nextWin_loop fuel' str (pos + 1) (unescape shellState) crtState varState
            bslashes simple value
      else if cc =? ch_bslash then
        nextWin_loop fuel' str (pos + 1) (unescape shellState)
          (if negb (IterCrtState_eqb crtState ICrtQuoted) then ICrtInWord else crtState)
          NoVar (bslashes + 1) simple value
      else if cc =? ch_dquote then
        let shellState :=
          if negb (ShellState_eqb shellState ShellEscaped) then
            (if ShellState_eqb shellState ShellQuoted then ShellBasic else ShellQuoted)
          else shellState in
        let obslashes := bslashes in
        let bslashes := Z.shiftr bslashes 1 in
        let copy (crtState : IterCrtState) :=
          nextWin_loop fuel' str (pos + 1) (unescape shellState) crtState NoVar 0 simple
            (appendBslashes value bslashes ++ [cc]) in
        if Z.land obslashes 1 =? 0 then
          match crtState with
          | ICrtQuoted =>
              nextWin_loop fuel' str (pos + 1) shellState ICrtClosed NoVar bslashes simple value
          | ICrtClosed => copy ICrtInWord
          | _ =>
              nextWin_loop fuel' str (pos + 1) shellState ICrtQuoted NoVar bslashes simple value
          end
        else copy (if negb (IterCrtState_eqb crtState ICrtQuoted) then ICrtInWord else crtState)
      else
        let '(simple, varState) :=
          if cc =? ch_percent then
            if VarState_eqb varState FullVar then (false, NoVar) else (simple, NewVar)
          else if negb (VarState_eqb varState NoVar) then
            (simple,
             if (cc =? ch_uscore) || (cc =? 45) || (cc =? 46) || isLetterOrNumber cc
             then FullVar else NoVar)
          else (simple, varState) in
        nextWin_loop fuel' str (pos + 1) (unescape shellState)
          (if negb (IterCrtState_eqb crtState ICrtQuoted) then ICrtInWord else crtState)
          varState 0 simple (appendBslashes value bslashes ++ [cc])
  end.

(** The inner [forever] of the Unix branch that steps over a backtick
    expression: [inr pos] with [pos] at the closing backtick, [inl pos]
    when the input ends first, with the [m_pos] reached. *)
Fixpoint nextUnix_backtick (fuel : nat) (str : QString) (pos : Z) : option (Z + Z) :=
  match fuel with
  | O => None
  | S fuel' =>
      let pos := pos + 1 in
      if qlength str <=? pos then Some (inl pos)
      else
        let cc := unicodeAt str pos in
        if cc =? ch_btick then Some (inr pos)
        else nextUnix_backtick fuel' str (if cc =? ch_bslash then pos + 1 else pos)
  end.

(** The [for (; m_pos < m_str->length(); m_pos++)] of the Unix branch of
    [next].  The exit carries [hadWord] as the value of the function,
    and [m_value] already cleared when the argument is not simple; the
    early [return true] inside a backtick expression leaves [m_value]
    as it is. *)
Fixpoint nextUnix_loop (fuel : nat) (str : QString) (pos : Z) (state : MxState)
    (sstack : list MxState) (ostack : list Z) (hadWord simple : bool) (value : QString)
    : option NextExit :=
  match fuel with
  | O => None
  | S fuel' =>
      let leave (pos : Z) (hadWord simple : bool) (value : QString) : option NextExit :=
        Some (pos, hadWord, simple, if simple then value else []) in
      if pos <? qlength str then
        let cc := unicodeAt str pos in
        let continue_ (pos : Z) (state : MxState) (sstack : list MxState) (ostack : list Z)
            (hadWord simple : bool) :=
          nextUnix_loop fuel' str (pos + 1) state sstack ostack hadWord simple value in
        let copy (pos : Z) (cc : QChar) (value : QString) :=
          nextUnix_loop fuel' str (pos + 1) state sstack ostack true simple (value ++ [cc]) in
        let popped := pop mxInitial sstack in
        if MxQuoting_eqb (current state) MxSingleQuote then
          if cc =? ch_squote then continue_ pos (fst popped) (snd popped) ostack hadWord simple
          else copy pos cc value
        else if cc =? ch_bslash then
          let pos := pos + 1 in
          if qlength str <=? pos then leave pos hadWord simple value
          else
            let cc := unicodeAt str pos in
            copy pos cc
              (if dquote state && negb (cc =? ch_dquote) && negb (cc =? ch_bslash)
                  && negb (cc =? ch_dollar) && negb (cc =? ch_btick)
               then value ++ [ch_bslash] else value)
        else if cc =? ch_dollar then
          let pos := pos + 1 in
          if qlength str <=? pos then leave pos hadWord simple value
          else
            let cc := unicodeAt str pos in
            if cc =? ch_lparen then
              let sstack := state :: sstack in
              let pos := pos + 1 in
              if qlength str <=? pos then leave pos hadWord simple value
              else if unicodeAt str pos =? ch_lparen then
                continue_ pos {| current := MxMath; dquote := dquote state |} sstack
                  (pos :: ostack) true false
              else
                continue_ pos {| current := MxParen; dquote := false |} sstack ostack true false
            else if cc =? ch_lbrace then
              continue_ pos {| current := MxSubst; dquote := dquote state |} (state :: sstack)
                ostack true false
            else continue_ pos state sstack ostack true false
        else if cc =? ch_btick then
          match nextUnix_backtick fuel' str pos with
          | None => None
          | Some (inl pos) => Some (pos, true, false, value)
          | Some (inr pos) => continue_ pos state sstack ostack true false
          end
        else if MxQuoting_eqb (current state) MxDoubleQuote then
          if cc =? ch_dquote then continue_ pos (fst popped) (snd popped) ostack hadWord simple
          else copy pos cc value
        else if cc =? ch_squote then
          if negb (dquote state) then
            continue_ pos {| current := MxSingleQuote; dquote := dquote state |}
              (state :: sstack) ostack true simple
          else copy pos cc value
        else if cc =? ch_dquote then
          if negb (dquote state) then
            continue_ pos {| current := MxDoubleQuote; dquote := true |} (state :: sstack)
              ostack true simple
          else copy pos cc value
        else if MxQuoting_eqb (current state) MxSubst then
          if cc =? ch_rbrace then continue_ pos (fst popped) (snd popped) ostack hadWord simple
          else continue_ pos state sstack ostack hadWord simple
        else if cc =? ch_rparen then
          if MxQuoting_eqb (current state) MxMath then
            let pos := pos + 1 in
            if qlength str <=? pos then leave pos hadWord simple value
            else if unicodeAt str pos =? ch_rparen then
              continue_ pos (fst popped) (snd popped) (snd (pop 0 ostack)) hadWord simple
            else
              let state := {| current := MxParen; dquote := false |} in
              continue_ (fst (pop 0 ostack)) state (state :: sstack) (snd (pop 0 ostack))
                hadWord simple
          else if MxQuoting_eqb (current state) MxParen then
            continue_ pos (fst popped) (snd popped) ostack hadWord simple
          else leave pos hadWord simple value
        else if cc =? ch_lparen then
          continue_ pos {| current := MxParen; dquote := dquote state |} (state :: sstack)
            ostack true false
        else if (cc =? 60) || (cc =? 62) || (cc =? 38) || (cc =? 124) || (cc =? 59) then
          if stackIsEmpty sstack then leave pos hadWord simple value else copy pos cc value
        else if (cc =? ch_space) || (cc =? ch_tab) then
          if negb hadWord then continue_ pos state sstack ostack hadWord simple
          else if stackIsEmpty sstack then leave pos hadWord simple value
          else copy pos cc value
        else copy pos cc value
      else leave pos hadWord simple value
  end.

(** [ProcessArgs::ArgIterator::next]: the value of the function and the
    iterator after the call.  [fuel] bounds the turns of the loop. *)
Definition next `{QtServices} (fuel : nat) (it : ArgIterator) : option (bool * ArgIterator) :=
  let prev := m_pos it in
  let exit :=
    if isWindows (m_osType it) then
      nextWin_loop fuel (m_str it) (m_pos it) ShellBasic ICrtBasic NoVar 0 true []
    else
      nextUnix_loop fuel (m_str it) (m_pos it) mxInitial [] [] false true [] in
  match exit with
  | None => None
  | Some (pos, found, simple, value) =>
      Some (found,
            {| m_str := m_str it; m_pos := pos;
               m_prev := if found then prev else m_prev it;
               m_simple := simple; m_value := value; m_osType := m_osType it |})
  end.

(** Calling [next] until it returns false: the values of the arguments
    seen, and whether each of them was simple.  [calls] bounds the number
    of calls, [fuel] the turns of the loop of each. *)
Fixpoint walkArgs `{QtServices} (calls fuel : nat) (it : ArgIterator)
    : option (list (QString * bool)) :=
  match calls with
  | O => None
  | S calls' =>
      match next fuel it with
      | None => None
      | Some (false, _) => Some []
      | Some (true, it') =>
          match walkArgs calls' fuel it' with
          | None => None
          | Some args => Some ((m_value it', m_simple it') :: args)
          end
      end
  end.

(** ** Command lines of simple arguments *)

(** The command lines on which the iterator and the Unix lexer are
    compared, given by their structure: a word is a sequence of pieces,
    each a character that stands for itself, a character after a
    backslash, a section in single quotes or a section in double quotes;
    a section in double quotes is made of characters and of characters
    after a backslash.  Words are separated by spaces and tabs. *)
Inductive DPiece :=
| DChar (c : QChar)
| DEsc (c : QChar).

Inductive Piece :=
| Plain (c : QChar)
| Escaped (c : QChar)
| SQuoted (text : QString)
| DQuoted (text : list DPiece).

Definition Word : Type := list Piece.

Definition renderDPiece (d : DPiece) : QString :=
  match d with
  | DChar c => [c]
  | DEsc c => [ch_bslash; c]
  end.

(** Inside double quotes a backslash stays unless a double quote, a
    backslash, a dollar sign or a backtick follows it. *)
Definition dpieceValue (d : DPiece) : QString :=
  match d with
  | DChar c => [c]
  | DEsc c =>
      if (c =? ch_dquote) || (c =? ch_bslash) || (c =? ch_dollar) || (c =? ch_btick)
      then [c] else [ch_bslash; c]
  end.

Definition renderPiece (p : Piece) : QString :=
  match p with
  | Plain c => [c]
  | Escaped c => [ch_bslash; c]
  | SQuoted text => ch_squote :: text ++ [ch_squote]
  | DQuoted text => ch_dquote :: flat_map renderDPiece text ++ [ch_dquote]
  end.

Definition pieceValue (p : Piece) : QString :=
  match p with
  | Plain c => [c]
  | Escaped c => [c]
  | SQuoted text => text
  | DQuoted text => flat_map dpieceValue text
  end.

Definition renderWord (w : Word) : QString := flat_map renderPiece w.
Definition wordValue (w : Word) : QString := flat_map pieceValue w.

Definition isBlank (c : QChar) : bool := (c =? ch_space) || (c =? ch_tab).

(** A character that stands for itself in a word for both scanners:
    no white space, none of the characters either of them treats
    specially, and no metacharacter when those are refused. *)
Definition wordChar `{QtServices} (abortOnMeta : bool) (c : QChar) : bool :=
  negb (isSpace c)
  && negb (existsb (Z.eqb c)
             [ch_squote; ch_dquote; ch_dollar; ch_bslash; ch_btick; ch_lparen; ch_rparen;
              60; 62; 38; 124; 59])
  && negb (abortOnMeta && isMetaUnix c).

Definition dpieceOk (abortOnMeta : bool) (d : DPiece) : bool :=
  match d with
  | DChar c => negb (existsb (Z.eqb c) [ch_dquote; ch_bslash; ch_dollar; ch_btick])
  | DEsc c => abortOnMeta || negb ((c =? ch_dollar) || (c =? ch_btick))
  end.

Definition pieceOk `{QtServices} (abortOnMeta : bool) (p : Piece) : bool :=
  match p with
  | Plain c => wordChar abortOnMeta c
  | Escaped _ => true
  | SQuoted text => lacks ch_squote text
  | DQuoted text => forallb (dpieceOk abortOnMeta) text
  end.

(** A word has a piece, and does not start with a bare tilde. *)
Definition wordOk `{QtServices} (abortOnMeta : bool) (w : Word) : bool :=
  match w with
  | [] => false
  | Plain c :: _ => negb (c =? ch_tilde)
  | _ => true
  end && forallb (pieceOk abortOnMeta) w.

(** A line: blanks, then each word with the blanks after it. *)
Fixpoint renderLine (lead : QString) (ws : list (Word * QString)) : QString :=
  match ws with
  | [] => lead
  | (w, gap) :: more => lead ++ renderWord w ++ renderLine gap more
  end.

Fixpoint lineOk `{QtServices} (abortOnMeta : bool) (lead : QString)
    (ws : list (Word * QString)) : bool :=
  forallb isBlank lead
  && match ws with
     | [] => true
     | (w, gap) :: more =>
         wordOk abortOnMeta w
         && (match more with [] => true | _ => negb (isEmpty gap) end)
         && lineOk abortOnMeta gap more
     end.

Definition lineValues (ws : list (Word * QString)) : list QString :=
  map (fun e => wordValue (fst e)) ws.

(** The loop over a double-quoted string entered at its head
    ([top] in [splitUnix_nextq]). *)
Definition splitUnix_nextqFrom `{QtServices} (abortOnMeta : bool) (env : option Environment)
    (pwd : option QString) (fuel : nat) (s : QString) (cret : QString)
    : Lex (QString * QString) :=
  match s with
  | [] => QuoteErr
  | c :: r => splitUnix_nextq abortOnMeta env pwd fuel c r cret
  end.

(** ** ProcessArgs::expandMacros *)

(** [AbstractMacroExpander::findMacro(str, &pos, &ret)]: from the string
    and the position to search from, the length of the macro found (0
    when there is none), its position and its replacement. *)
Record AbstractMacroExpander := {
  findMacro : QString -> Z -> Z * Z * QString
}.

(** [quoteArgInternalWin]: the loop over the index [p] of the string
    [ret], which grows under it; the result is the string and the number
    of backslashes it ends with. *)
Fixpoint quoteArgInternalWin_loop (fuel : nat) (ret : QString) (p : Z) (bslashes : Z)
    : option (QString * Z) :=
  match fuel with
  | O => None
  | S fuel' =>
      if p <? qlength ret then
        if unicodeAt ret p =? ch_bslash then
          quoteArgInternalWin_loop fuel' ret (p + 1) (bslashes + 1)
        else if unicodeAt ret p =? ch_dquote then
          let '(ret, p) :=
            if negb (bslashes =? 0)
            then (insertAt ret p (repeat ch_bslash (Z.to_nat bslashes)), p + bslashes)
            else (ret, p) in
          let ret := insertAt ret p [ch_dquote; ch_bslash; ch_caret; ch_dquote] in
          quoteArgInternalWin_loop fuel' ret (p + 4 + 1) 0
        else quoteArgInternalWin_loop fuel' ret (p + 1) 0
      else Some (ret, bslashes)
  end.

Definition quoteArgInternalWin (ret : QString) (bslashes : Z) : option (QString * Z) :=
  quoteArgInternalWin_loop (S (List.length ret)) ret 0 bslashes.

(** CommandLineToArgv() parsing state of the macro expander; the code
    compares the states by their numbers. *)
Inductive CrtState :=
| CrtBasic | CrtNeedWord | CrtInWord | CrtClosed | CrtHadQuote | CrtQuoted | CrtNeedQuote.

Definition crtNumber (s : CrtState) : Z :=
  match s with
  | CrtBasic => 0 | CrtNeedWord => 1 | CrtInWord => 2 | CrtClosed => 3
  | CrtHadQuote => 4 | CrtQuoted => 5 | CrtNeedQuote => 6
  end.

Definition crtBelowQuoted (s : CrtState) : bool := crtNumber s <? crtNumber CrtQuoted.

Definition CrtState_eqb (a b : CrtState) : bool := crtNumber a =? crtNumber b.

(** How a loop of [expandMacros] ends: [None] is [return false], [Some
    str] is leaving the loop for [*cmd = str; return true]. *)
Definition MxExit : Type := option QString.

(** The [forever] of the Windows branch of [expandMacros]. *)
Fixpoint expandMacrosWin_loop (fuel : nat) (mx : AbstractMacroExpander) (str : QString)
    (pos varPos varLen : Z) (rsts : QString) (shellState : ShellState)
    (crtState : CrtState) (bslashes rbslashes : Z) : option MxExit :=
  match fuel with
  | O => None
  | S fuel' =>
      if pos =? varPos then
        if ShellState_eqb shellState ShellEscaped then Some None
        else if negb (Bool.eqb (ShellState_eqb shellState ShellQuoted)
                               (CrtState_eqb crtState CrtQuoted)) then Some None
        else
          let rbslashes := rbslashes + bslashes in
          let bslashes := 0 in
          let quoted : option (option (QString * CrtState * Z)) :=
            if crtBelowQuoted crtState then
              if isEmpty rsts then
                Some (Some (rsts,
                            (if CrtState_eqb crtState CrtBasic then CrtNeedWord else crtState),
                            rbslashes))
              else if hasSpecialCharsWin rsts then
                if CrtState_eqb crtState CrtClosed then Some None
                else
                  match quoteArgInternalWin rsts 0 with
                  | None => None
                  | Some (rsts, tbslashes) =>
                      let rsts := ch_dquote :: rsts in
                      let rsts := if negb (rbslashes =? 0)
                                  then repeat ch_bslash (Z.to_nat rbslashes) ++ rsts
                                  else rsts in
                      Some (Some (rsts, CrtNeedQuote, tbslashes))
                  end
              else
                match quoteArgInternalWin rsts rbslashes with
                | None => None
                | Some (rsts, rbslashes) => Some (Some (rsts, CrtInWord, rbslashes))
                end
            else
              match quoteArgInternalWin rsts rbslashes with
              | None => None
              | Some (rsts, rbslashes) => Some (Some (rsts, crtState, rbslashes))
              end in
          match quoted with
          | None => None
          | Some None => Some None
          | Some (Some (rsts, crtState, rbslashes)) =>
              let str := replaceAt str pos varLen rsts in
              let pos := pos + qlength rsts in
              let '(varLen, varPos, rsts) := findMacro mx str pos in
              let varPos := if varLen =? 0 then INT_MAX else varPos in
              expandMacrosWin_loop fuel' mx str pos varPos varLen rsts shellState crtState
                bslashes rbslashes
          end
      else
        let '(str, pos, varPos, rbslashes, crtState) :=
          if CrtState_eqb crtState CrtNeedQuote then
            let '(str, pos, varPos, rbslashes) :=
              if negb (rbslashes =? 0)
              then (insertAt str pos (repeat ch_bslash (Z.to_nat rbslashes)),
                    pos + rbslashes, varPos + rbslashes, 0)
              else (str, pos, varPos, rbslashes) in
            (insertAt str pos [ch_dquote], pos + 1, varPos + 1, rbslashes, CrtHadQuote)
          else (str, pos, varPos, rbslashes, crtState) in
        let cc := unicodeAt str pos in
        if ShellState_eqb shellState ShellBasic && (cc =? ch_caret) then
          expandMacrosWin_loop fuel' mx str (pos + 1) varPos varLen rsts ShellEscaped crtState
            bslashes rbslashes
        else
          let after (str : QString) (pos varPos : Z) (shellState : ShellState)
              (crtState : CrtState) (bslashes rbslashes : Z) : option MxExit :=
            if (varPos =? INT_MAX) && (rbslashes =? 0) then Some (Some str)
            else
              expandMacrosWin_loop fuel' mx str (pos + 1) varPos varLen rsts
                (if ShellState_eqb shellState ShellEscaped then ShellBasic else shellState)
                crtState bslashes rbslashes in
          if (cc =? 0) || (cc =? ch_space) || (cc =? ch_tab) then
            let '(str, pos, varPos, crtState) :=
              if crtBelowQuoted crtState then
                if CrtState_eqb crtState CrtNeedWord
                then (insertAt str pos [ch_dquote; ch_dquote], pos + 2, varPos + 2, CrtBasic)
                else (str, pos, varPos, CrtBasic)
              else (str, pos, varPos, crtState) in
            if cc =? 0 then Some (Some str)
            else after str pos varPos shellState crtState 0 0
          else if cc =? ch_bslash then
            after str pos varPos shellState
              (if crtBelowQuoted crtState then CrtInWord else crtState) (bslashes + 1) rbslashes
          else if cc =? ch_dquote then
            let shellState :=
              if negb (ShellState_eqb shellState ShellEscaped) then
                (if ShellState_eqb shellState ShellQuoted then ShellBasic else ShellQuoted)
              else shellState in
            let '(str, pos, varPos) :=
              if negb (rbslashes =? 0)
              then (insertAt str (pos - 1) (repeat ch_bslash (Z.to_nat rbslashes)),
                    pos + rbslashes, varPos + rbslashes)
              else (str, pos, varPos) in
            if Z.land bslashes 1 =? 0 then
              match crtState with
              | CrtQuoted => after str pos varPos shellState CrtClosed 0 0
              | CrtClosed => after str pos varPos shellState CrtInWord 0 0
              | CrtHadQuote => Some None
              | _ => after str pos varPos shellState CrtQuoted 0 0
              end
            else
              after str pos varPos shellState
                (if crtBelowQuoted crtState then CrtInWord else crtState) 0 0
          else
            after str pos varPos shellState
              (if crtBelowQuoted crtState then CrtInWord else crtState) 0 0
  end.

(** Pushed state for the case where a $(()) expansion turns out bogus. *)
Record MxSave := { sav_str : QString; sav_pos : Z; sav_varPos : Z }.

(** The replacement by the regular expression of the Unix branch: each
    of dollar, backtick, double quote and backslash gets a backslash in
    front. *)
Definition escapeForDoubleQuotes (rsts : QString) : QString :=
  flat_map (fun c => if (c =? ch_dollar) || (c =? ch_btick) || (c =? ch_dquote)
                        || (c =? ch_bslash)
                     then [ch_bslash; c] else [c]) rsts.

Definition singleQuoteEscape : QString := [ch_squote; ch_bslash; ch_squote; ch_squote].

(** The inner [forever] over a backtick expression: [None] is the
    [return false] for an unterminated expression, else the string, the
    position of the closing backtick and [varPos]. *)
Fixpoint expandUnix_backtick (fuel : nat) (str : QString) (pos2 varPos : Z) (dq : bool)
    : option (option (QString * Z * Z)) :=
  match fuel with
  | O => None
  | S fuel' =>
      if qlength str <=? pos2 then Some None
      else
        let cc := unicodeAt str pos2 in
        if cc =? ch_btick then Some (Some (str, pos2, varPos))
        else if cc =? ch_bslash then
          let pos2 := pos2 + 1 in
          let cc := unicodeAt str pos2 in
          if (cc =? ch_dollar) || (cc =? ch_btick) || (cc =? ch_bslash)
             || ((cc =? ch_dquote) && dq)
          then expandUnix_backtick fuel' (removeAt str (pos2 - 1) 1) pos2
                 (if pos2 <=? varPos then varPos - 1 else varPos) dq
          else expandUnix_backtick fuel' str (pos2 + 1) varPos dq
        else expandUnix_backtick fuel' str (pos2 + 1) varPos dq
  end.

(** The [while (pos < str.length())] of the Unix branch of [expandMacros]. *)
Fixpoint expandMacrosUnix_loop (fuel : nat) (mx : AbstractMacroExpander) (str : QString)
    (pos varPos varLen : Z) (rsts : QString) (state : MxState) (sstack : list MxState)
    (ostack : list MxSave) : option MxExit :=
  match fuel with
  | O => None
  | S fuel' =>
      if pos <? qlength str then
        if pos =? varPos then
          let rsts :=
            if dquote state then escapeForDoubleQuotes rsts
            else if MxQuoting_eqb (current state) MxSingleQuote then
              replaceChar ch_squote singleQuoteEscape rsts
            else if isEmpty rsts || hasSpecialCharsUnix rsts then
              [ch_squote] ++ replaceChar ch_squote singleQuoteEscape rsts ++ [ch_squote]
            else rsts in
          let str := replaceAt str pos varLen rsts in
          let pos := pos + qlength rsts in
          let '(varLen, varPos, rsts) := findMacro mx str pos in
          if varLen =? 0 then Some (Some str)
          else expandMacrosUnix_loop fuel' mx str pos varPos varLen rsts state sstack ostack
        else
          let cc := unicodeAt str pos in
          let go (str : QString) (pos varPos : Z) (state : MxState) (sstack : list MxState)
              (ostack : list MxSave) :=
            expandMacrosUnix_loop fuel' mx str pos varPos varLen rsts state sstack ostack in
          let popped := pop mxInitial sstack in
          if MxQuoting_eqb (current state) MxSingleQuote then
            if cc =? ch_squote then go str (pos + 1) varPos (fst popped) (snd popped) ostack
            else go str (pos + 1) varPos state sstack ostack
          else if cc =? ch_bslash then
            let pos := pos + 2 in
            if varPos <? pos then Some None
            else go str pos varPos state sstack ostack
          else if cc =? ch_dollar then
            let pos := pos + 1 in
            let cc := unicodeAt str pos in
            if cc =? ch_lparen then
              if unicodeAt str (pos + 1) =? ch_lparen then
                go str (pos + 2) varPos {| current := MxMath; dquote := dquote state |}
                  (state :: sstack)
                  ({| sav_str := str; sav_pos := pos + 2; sav_varPos := varPos |} :: ostack)
              else
                go str (pos + 1) varPos {| current := MxParen; dquote := false |}
                  (state :: sstack) ostack
            else if cc =? ch_lbrace then
              go str (pos + 1) varPos {| current := MxSubst; dquote := dquote state |}
                (state :: sstack) ostack
            else go str (pos + 1) varPos state sstack ostack
          else if cc =? ch_btick then
            let str := replaceAt str pos 1 [ch_dollar; ch_lparen; ch_space] in
            let varPos := varPos + 2 in
            let pos := pos + 3 in
            match expandUnix_backtick fuel' str pos varPos (dquote state) with
            | None => None
            | Some None => Some None
            | Some (Some (str, pos2, varPos)) =>
                go (replaceAt str pos2 1 [ch_rparen]) pos varPos
                  {| current := MxParen; dquote := false |} (state :: sstack) ostack
            end
          else if MxQuoting_eqb (current state) MxDoubleQuote then
            if cc =? ch_dquote then go str (pos + 1) varPos (fst popped) (snd popped) ostack
            else go str (pos + 1) varPos state sstack ostack
          else if cc =? ch_squote then
            if negb (dquote state) then
              go str (pos + 1) varPos {| current := MxSingleQuote; dquote := dquote state |}
                (state :: sstack) ostack
            else go str (pos + 1) varPos state sstack ostack
          else if cc =? ch_dquote then
            if negb (dquote state) then
              go str (pos + 1) varPos {| current := MxDoubleQuote; dquote := true |}
                (state :: sstack) ostack
            else go str (pos + 1) varPos state sstack ostack
          else if MxQuoting_eqb (current state) MxSubst then
            if cc =? ch_rbrace then go str (pos + 1) varPos (fst popped) (snd popped) ostack
            else go str (pos + 1) varPos state sstack ostack
          else if cc =? ch_rparen then
            if MxQuoting_eqb (current state) MxMath then
              if unicodeAt str (pos + 1) =? ch_rparen then
                go str (pos + 2) varPos (fst popped) (snd popped) ostack
              else
                let top := fst (pop {| sav_str := []; sav_pos := 0; sav_varPos := 0 |} ostack) in
                let state := {| current := MxParen; dquote := false |} in
                go (sav_str top) (sav_pos top) (sav_varPos top) state (state :: sstack)
                  (snd (pop top ostack))
            else if MxQuoting_eqb (current state) MxParen then
              go str (pos + 1) varPos (fst popped) (snd popped) ostack
            else Some (Some str)
          else if cc =? ch_rbrace then
            if MxQuoting_eqb (current state) MxGroup then
              go str (pos + 1) varPos (fst popped) (snd popped) ostack
            else Some (Some str)
          else if cc =? ch_lparen then
            go str (pos + 1) varPos {| current := MxParen; dquote := dquote state |}
              (state :: sstack) ostack
          else if cc =? ch_lbrace then
            go str (pos + 1) varPos {| current := MxGroup; dquote := dquote state |}
              (state :: sstack) ostack
          else go str (pos + 1) varPos state sstack ostack
      else Some (Some str)
  end.

(** [ProcessArgs::expandMacros(QString *cmd, ...)]: the value of the
    function and the string [*cmd] holds on return.  [fuel] bounds the
    turns of the loop. *)
Definition expandMacros (fuel : nat) (cmd : QString) (mx : AbstractMacroExpander)
    (osType : OsType) : option (bool * QString) :=
  let str := cmd in
  if isEmpty str then Some (true, cmd)
  else
    let '(varLen, varPos, rsts) := findMacro mx str 0 in
    if varLen =? 0 then Some (true, cmd)
    else
      let exit :=
        if isWindows osType then
          expandMacrosWin_loop fuel mx str 0 varPos varLen rsts ShellBasic CrtBasic 0 0
        else
          expandMacrosUnix_loop fuel mx str 0 varPos varLen rsts mxInitial [] [] in
      match exit with
      | None => None
      | Some None => Some (false, cmd)
      | Some (Some str) => Some (true, str)
      end.

(** ** Command lines in front of an escaped macro *)

(** For the Unix branch of [expandMacros]: the characters with no
    meaning to it outside quotes, and the pieces that may stand in
    front of a macro; a section in double quotes may still be open. *)
Definition mxPlain (c : QChar) : bool :=
  negb (existsb (Z.eqb c)
          [ch_squote; ch_dquote; ch_dollar; ch_bslash; ch_btick; ch_lparen; ch_rparen;
           ch_lbrace; ch_rbrace]).

Definition mxDPieceOk (d : DPiece) : bool :=
  match d with
  | DChar c => negb (existsb (Z.eqb c) [ch_dquote; ch_bslash; ch_dollar; ch_btick])
  | DEsc _ => true
  end.

Definition mxPieceOk (p : Piece) : bool :=
  match p with
  | Plain c => mxPlain c
  | Escaped _ => true
  | SQuoted text => lacks ch_squote text
  | DQuoted text => forallb mxDPieceOk text
  end.








(** ** Concrete data for the closed examples *)

(** Qt services for text without code points above 127: no such code
    point is a space, a letter or a number, upper case is ASCII upper
    case, the native separator is the backslash. *)
Definition asciiToUpper (c : QChar) : QChar :=
  if (97 <=? c) && (c <=? 122) then c - 32 else c.

Definition asciiQt : QtServices :=
  {| isSpace_helper := fun _ => false;
     isLetterOrNumber_helper := fun _ => false;
     homePath := QLatin1String "/home/user";
     toNativeSeparators := map (fun c => if c =? ch_slash then ch_bslash else c);
     toUpper := map asciiToUpper |}.

(** An environment given by its list of bindings. *)
Fixpoint lookupBinding (bindings : list (QString * QString)) (key : QString)
    : option (QString * QString) :=
  match bindings with
  | [] => None
  | (k, v) :: more => if qstring_eqb k key then Some (k, v) else lookupBinding more key
  end.

Definition environmentOf (bindings : list (QString * QString)) : Environment :=
  {| constFind := fun var => option_map fst (lookupBinding bindings var);
     expandedValueForKey := fun key =>
       match lookupBinding bindings key with Some (_, v) => v | None => [] end |}.


(** A channel with an output callback over the Latin-1 decoder. *)
Definition sampleChannel : @ChannelBuffer latin1Codec :=
  @Build_ChannelBuffer latin1Codec [] [] tt 0 true.

(** A process as [clearForRun] leaves it, and one on which a hang was
    latched. *)
Definition sampleProcess : QtcProcessPrivate :=
  {| m_result := {| result := StartFailed; exitCode := -1 |};
     m_exitCodeInterpreter := defaultExitCodeInterpreter;
     m_hangTimerCount := 3;
     m_maxHangTimerCount := defaultMaxHangTimerCount;
     m_startFailure := false;
     m_eventLoopQuit := false |}.

Definition hungProcess : QtcProcessPrivate :=
  {| m_result := {| result := Hang; exitCode := -1 |};
     m_exitCodeInterpreter := defaultExitCodeInterpreter;
     m_hangTimerCount := 11;
     m_maxHangTimerCount := defaultMaxHangTimerCount;
     m_startFailure := false;
     m_eventLoopQuit := false |}.

(** A macro expander that knows the one-character macro X, which it
    replaces by v. *)
Definition sampleExpander : AbstractMacroExpander :=
  {| findMacro := fun str pos =>
       let i := indexOf 88 str pos in
       if i <? 0 then (0, pos, []) else (1, i, QLatin1String "v") |}.


(** ** Joined arguments as lines of words *)

(** The quoted form of an argument under the Unix grammar read as a
    word: the text in single quotes, cut at each of its single quotes,
    which stands outside the quotes after a backslash; [seg] is the
    section begun. *)
Fixpoint squotePieces (seg : QString) (s : QString) : Word :=
  match s with
  | [] => [SQuoted seg]
  | c :: r =>
      if c =? ch_squote then SQuoted seg :: Escaped ch_squote :: squotePieces [] r
      else squotePieces (seg ++ [c]) r
  end.

Definition quoteWord (arg : QString) : Word :=
  if isEmpty arg then [SQuoted []]
  else if hasSpecialCharsUnix arg then squotePieces [] arg
  else map Plain arg.

(** The words of [joinArgs] with the space after each but the last. *)
Fixpoint joinLine (args : QStringList) : list (Word * QString) :=
  match args with
  | [] => []
  | a :: more =>
      (quoteWord a, match more with [] => [] | _ => [ch_space] end) :: joinLine more
  end.

(** ** ProcessArgs as a value *)

Definition createWindowsArgs (args : QString) : ProcessArgs := WindowsArgs args.
Definition createUnixArgs (args : QStringList) : ProcessArgs := UnixArgs args.

(** [ProcessArgs::toString] *)
Definition toString (a : ProcessArgs) : QString :=
  match a with
  | WindowsArgs m_windowsArgs => m_windowsArgs
  | UnixArgs m_unixArgs => joinArgs m_unixArgs OsTypeLinux
  end.

(** ** Editing the string under the iterator *)

(** The [while (m_pos < m_str->length() && m_str->at(m_pos).isSpace())
    m_pos++;] of [deleteArg]; [fuel] bounds its turns. *)
Fixpoint deleteArg_skip `{QtServices} (fuel : nat) (str : QString) (pos : Z) : option Z :=
  match fuel with
  | O => None
  | S fuel' =>
      if (pos <? qlength str) && isSpace (unicodeAt str pos)
      then deleteArg_skip fuel' str (pos + 1)
      else Some pos
  end.

(** [ProcessArgs::ArgIterator::deleteArg] *)
Definition deleteArg `{QtServices} (fuel : nat) (it : ArgIterator) : option ArgIterator :=
  match (if m_prev it =? 0 then deleteArg_skip fuel (m_str it) (m_pos it)
         else Some (m_pos it)) with
  | None => None
  | Some pos =>
      Some {| m_str := removeAt (m_str it) (m_prev it) (pos - m_prev it);
              m_pos := m_prev it;
              m_prev := m_prev it;
              m_simple := m_simple it;
              m_value := m_value it;
              m_osType := m_osType it |}
  end.

(** [ProcessArgs::ArgIterator::appendArg]; the call [quoteArg(str)]
    leaves the operating system to the default argument of [quoteArg],
    here [hostOs]. *)
Definition appendArg (hostOs : OsType) (it : ArgIterator) (str : QString) : ArgIterator :=
  let qstr := quoteArg str hostOs in
  {| m_str := if m_pos it =? 0 then insertAt (m_str it) 0 (qstr ++ [ch_space])
              else insertAt (m_str it) (m_pos it) (ch_space :: qstr);
     m_pos := m_pos it + (qlength qstr + 1);
     m_prev := m_prev it;
     m_simple := m_simple it;
     m_value := m_value it;
     m_osType := m_osType it |}.

(** A line with one more word after a space. *)
Fixpoint appendWord (lead : QString) (ws : list (Word * QString)) (w : Word)
    : QString * list (Word * QString) :=
  match ws with
  | [] => (lead ++ [ch_space], [(w, [])])
  | (v, gap) :: more =>
      let '(gap', more') := appendWord gap more w in (lead, (v, gap') :: more')
  end.

(** ** The timer and the error slot *)

(** [QtcProcessPrivate::slotTimeout].  [m_waitingForUser] is set and
    cleared again inside the function, [m_timeOutMessageBoxEnabled] is
    only read: both are arguments, with [askToKill] for the answer of the
    user, who is asked only when the message box is enabled.
    [stopProcess] is what the call [q->stopProcess()] does to the
    fields, the slots it may run included.  The second component tells
    whether [stopProcess] was called. *)
Definition slotTimeout (stopProcess : QtcProcessPrivate -> QtcProcessPrivate)
    (d : QtcProcessPrivate) (m_waitingForUser m_timeOutMessageBoxEnabled askToKill : bool)
    : QtcProcessPrivate * bool :=
  if negb m_waitingForUser then
    let count := m_hangTimerCount d + 1 in
    let d := {| m_result := m_result d;
                m_exitCodeInterpreter := m_exitCodeInterpreter d;
                m_hangTimerCount := count;
                m_maxHangTimerCount := m_maxHangTimerCount d;
                m_startFailure := m_startFailure d;
                m_eventLoopQuit := m_eventLoopQuit d |} in
    if m_maxHangTimerCount d <? count then
      let terminate := negb m_timeOutMessageBoxEnabled || askToKill in
      if terminate then
        let d := stopProcess d in
        ({| m_result := {| result := Hang; exitCode := exitCode (m_result d) |};
            m_exitCodeInterpreter := m_exitCodeInterpreter d;
            m_hangTimerCount := m_hangTimerCount d;
            m_maxHangTimerCount := m_maxHangTimerCount d;
            m_startFailure := m_startFailure d;
            m_eventLoopQuit := m_eventLoopQuit d |}, true)
      else
        ({| m_result := m_result d;
            m_exitCodeInterpreter := m_exitCodeInterpreter d;
            m_hangTimerCount := 0;
            m_maxHangTimerCount := m_maxHangTimerCount d;
            m_startFailure := m_startFailure d;
            m_eventLoopQuit := m_eventLoopQuit d |}, false)
    else (d, false)
  else (d, false).

(** [QtcProcessPrivate::slotError] *)
Definition slotError (d : QtcProcessPrivate) : QtcProcessPrivate :=
  {| m_result := {| result := if negb (Result_eqb (result (m_result d)) Hang)
                              then StartFailed else result (m_result d);
                    exitCode := exitCode (m_result d) |};
     m_exitCodeInterpreter := m_exitCodeInterpreter d;
     m_hangTimerCount := 0;
     m_maxHangTimerCount := m_maxHangTimerCount d;
     m_startFailure := true;
     m_eventLoopQuit := true |}.

(** What the event loop delivers to the three slots. *)
Inductive ProcessEvent :=
| EvTimeout (stopProcess : QtcProcessPrivate -> QtcProcessPrivate)
    (m_waitingForUser m_timeOutMessageBoxEnabled askToKill : bool)
| EvFinished (exitCode : Z) (e : ExitStatus)
| EvError.

Definition deliver (d : QtcProcessPrivate) (ev : ProcessEvent) : QtcProcessPrivate :=
  match ev with
  | EvTimeout stop w b k => fst (slotTimeout stop d w b k)
  | EvFinished c e => slotFinished d c e
  | EvError => slotError d
  end.

Definition isNormalExit (ev : ProcessEvent) : bool :=
  match ev with
  | EvFinished _ NormalExit => true
  | _ => false
  end.

(** A character of a replacement as [escapeForDoubleQuotes] writes it. *)
Definition escapedDPiece (c : QChar) : DPiece :=
  if (c =? ch_dollar) || (c =? ch_btick) || (c =? ch_dquote) || (c =? ch_bslash)
  then DEsc c else DChar c.


(** ** The output of a synchronous run *)

(** [QByteArray::endsWith(char)] and [QString::endsWith(QChar)]. *)
Definition endsWith (s : list Z) (c : Z) : bool :=
  negb (isEmpty s) && (last s 0 =? c).

(** The reads of a run as they are passed to [ChannelBuffer::append],
    each with its [emitSignals] (set for the reads a signal announces,
    not set for what is drained after the run): the texts handed to the
    callback, in order, and the buffer at the end. *)
Fixpoint appendReads `{TextCodec} (b : ChannelBuffer) (reads : list (QByteArray * bool))
    : list QString * ChannelBuffer :=
  match reads with
  | [] => ([], b)
  | (text, emitSignals) :: more =>
      let '(out, b) := append b text emitSignals in
      let '(outs, b) := appendReads b more in
      (match out with Some lines => lines :: outs | None => outs end, b)
  end.

(** [SynchronousProcessResponse::stdErr]. *)
Definition stdErr `{TextCodec} (rawStdErr : QByteArray) : QString :=
  normalizeNewlines (toUnicode rawStdErr).

(** [SynchronousProcessResponse::allRawOutput], of the two byte arrays
    of the response. *)
Definition allRawOutput (rawStdOut rawStdErr : QByteArray) : QByteArray :=
  if negb (isEmpty rawStdOut) && negb (isEmpty rawStdErr) then
    let result := rawStdOut in
    let result := if negb (endsWith result ch_lf) then result ++ [ch_lf] else result in
    result ++ rawStdErr
  else if negb (isEmpty rawStdOut) then rawStdOut else rawStdErr.

(** [SynchronousProcessResponse::allOutput]. *)
Definition allOutput `{TextCodec} (rawStdOut rawStdErr : QByteArray) : QString :=
  let out := stdOut rawStdOut in
  let err := stdErr rawStdErr in
  if negb (isEmpty out) && negb (isEmpty err) then
    let result := out in
    let result := if negb (endsWith result ch_lf) then result ++ [ch_lf] else result in
    result ++ err
  else if negb (isEmpty out) then out else err.

(** ** Quoted arguments after the first phase of the Windows lexer *)

(** What [prepareArgsWin] leaves of the text [quoteArgWin] writes for an
    argument: the same text without its circumflexes. *)
Definition strippedArgWin (arg : QString) : QString :=
  if isEmpty arg then [ch_dquote; ch_dquote]
  else if hasSpecialCharsWin arg then ch_dquote :: quoteTailWin false arg 0 else arg.

(** The arguments one after the other, each written by [f], with one
    space between them. *)
Fixpoint joinWith (f : QString -> QString) (args : QStringList) : QString :=
  match args with
  | [] => []
  | a :: r => f a ++ match r with [] => [] | _ => ch_space :: joinWith f r end
  end.

(** ** Outcomes of the Unix lexer *)

(** The lexer has an outcome, and it is the jump to metaerr only when
    metacharacters are refused. *)
Definition lexDone {A} (abortOnMeta : bool) (x : Lex A) : Prop :=
  match x with
  | NoFuel => False
  | MetaErr => abortOnMeta = true
  | _ => True
  end.

(** ** Adding arguments to a command line *)

(** [ProcessArgs::addArgs(QString *args, const QString &inArgs)]: the
    string [*args] holds on return. *)
Definition addArgs (args : QString) (inArgs : QString) : QString :=
  if negb (isEmpty inArgs) then
    (if negb (isEmpty args) then args ++ [ch_space] else args) ++ inArgs
  else args.

(** [ProcessArgs::addArgs(QString *args, const QStringList &inArgs)];
    the call [addArg(args, arg)] leaves the operating system to the
    default argument of [addArg], here [hostOs]. *)
Definition addArgsList (hostOs : OsType) (args : QString) (inArgs : QStringList) : QString :=
  fold_left (fun ret arg => addArg ret arg hostOs) inArgs args.

(** ** Preparing a command for execution *)

(** [ProcessArgs::prepareCommand].  The result holds the value returned,
    what is written to [outCmd] ([None] when it is left alone) and what
    is written to [outArgs].  The calls of [prepareArgs] and of
    [quoteArg] leave their last argument to the default of the
    declaration: [abortOnMeta] and [hostOs] stand for these two
    defaults.  [comspec] is the value of [qgetenv("COMSPEC")], [shell]
    that of the variable SHELL when it is set. *)
Definition prepareCommand `{QtServices} (abortOnMeta : bool) (hostOs : OsType)
    (comspec : QString) (shell : option QString) (command arguments : QString)
    (osType : OsType) (env : option Environment) (pwd : option QString)
    : option (bool * option QString * ProcessArgs) :=
  match prepareArgs arguments osType env pwd abortOnMeta with
  | None => None
  | Some (outArgs, err) =>
      if SplitError_eqb err SplitOk then Some (true, Some command, outArgs)
      else if isWindows osType then
        Some (true, Some comspec,
              createWindowsArgs (QLatin1String "/v:off /s /c " ++ [ch_dquote]
                                 ++ quoteArg (toNativeSeparators command) hostOs
                                 ++ [ch_space] ++ arguments ++ [ch_dquote]))
      else if negb (SplitError_eqb err FoundMeta) then Some (false, None, outArgs)
      else
        Some (true,
              Some (match shell with Some s => s | None => QLatin1String "/bin/sh" end),
              createUnixArgs [QLatin1String "-c";
                              quoteArg command hostOs ++ [ch_space] ++ arguments])
  end.

(** ** More data for the closed examples *)

(** A macro expander that replaces the one-character macro X by the
    text it's $. *)
Definition quotingExpander : AbstractMacroExpander :=
  {| findMacro := fun str pos =>
       let i := indexOf 88 str pos in
       if i <? 0 then (0, pos, []) else (1, i, QLatin1String "it's $") |}.

(** A process with the timer count at zero and the hang limit of a
    timeout of three seconds. *)
Definition timedProcess : QtcProcessPrivate :=
  setTimeoutS (slotFinished sampleProcess 0 NormalExit) 3.


(** * Strings under an index *)

Lemma qlength_app (a b : QString) : qlength (a ++ b) = qlength a + qlength b.
Proof. unfold qlength. rewrite length_app. lia. Qed.

Lemma qlength_cons (c : QChar) (a : QString) : qlength (c :: a) = 1 + qlength a.
Proof. unfold qlength. cbn [List.length]. lia. Qed.

Lemma qlength_nil : qlength [] = 0.
Proof. reflexivity. Qed.

Lemma qlength_nonneg (a : QString) : 0 <= qlength a.
Proof. unfold qlength. lia. Qed.

Lemma qlength_repeat (c : QChar) (n : nat) : qlength (repeat c n) = Z.of_nat n.
Proof. unfold qlength. rewrite repeat_length. reflexivity. Qed.

Lemma qlength_prefix_lt (pre : QString) (c : QChar) (r : QString) :
  qlength pre < qlength (pre ++ c :: r).
Proof. rewrite qlength_app, qlength_cons. pose proof (qlength_nonneg r). lia. Qed.

Lemma qlength_snoc (pre : QString) (c : QChar) : qlength (pre ++ [c]) = qlength pre + 1.
Proof. rewrite qlength_app. reflexivity. Qed.

(** The string [s] read at the end of its prefix [pre]. *)
Lemma at_prefix (s pre r : QString) (p : Z) :
  s = pre ++ r -> p = qlength pre ->
  skipn (Z.to_nat p) s = r /\ firstn (Z.to_nat p) s = pre.
Proof.
  intros -> ->. unfold qlength. rewrite Nat2Z.id. split.
  - rewrite skipn_app, skipn_all, Nat.sub_diag. reflexivity.
  - rewrite firstn_app, firstn_all, Nat.sub_diag. cbn. apply app_nil_r.
Qed.

Lemma unicodeAt_prefix (pre : QString) (c : QChar) (r : QString) :
  unicodeAt (pre ++ c :: r) (qlength pre) = c.
Proof.
  unfold unicodeAt. pose proof (qlength_nonneg pre).
  replace (qlength pre <? 0) with false by (symmetry; apply Z.ltb_ge; lia).
  unfold qlength. rewrite Nat2Z.id, app_nth2, Nat.sub_diag by lia. reflexivity.
Qed.

Lemma unicodeAt_end (s : QString) : unicodeAt s (qlength s) = 0.
Proof.
  unfold unicodeAt. pose proof (qlength_nonneg s).
  replace (qlength s <? 0) with false by (symmetry; apply Z.ltb_ge; lia).
  unfold qlength. rewrite Nat2Z.id. apply nth_overflow. lia.
Qed.

Lemma mid_prefix (pre x r : QString) :
  mid (pre ++ x ++ r) (qlength pre) (qlength x) = x.
Proof.
  unfold mid. destruct (at_prefix (pre ++ x ++ r) pre (x ++ r) _ eq_refl eq_refl) as [-> _].
  destruct (at_prefix (x ++ r) x r _ eq_refl eq_refl) as [_ ->]. reflexivity.
Qed.

Lemma replaceAt_prefix (pre x r after : QString) :
  replaceAt (pre ++ x ++ r) (qlength pre) (qlength x) after = pre ++ after ++ r.
Proof.
  unfold replaceAt.
  destruct (at_prefix (pre ++ x ++ r) pre (x ++ r) _ eq_refl eq_refl) as [_ ->].
  rewrite <- qlength_app.
  destruct (at_prefix (pre ++ x ++ r) (pre ++ x) r (qlength (pre ++ x))
              ltac:(rewrite app_assoc; reflexivity) eq_refl) as [-> _].
  reflexivity.
Qed.

Lemma removeAt_prefix (pre x r : QString) :
  removeAt (pre ++ x ++ r) (qlength pre) (qlength x) = pre ++ r.
Proof. apply (replaceAt_prefix pre x r []). Qed.

Lemma insertAt_prefix (pre r t : QString) :
  insertAt (pre ++ r) (qlength pre) t = pre ++ t ++ r.
Proof.
  unfold insertAt. destruct (at_prefix (pre ++ r) pre r _ eq_refl eq_refl) as [-> ->].
  reflexivity.
Qed.

(** * Searching a character *)

Lemma lacks_app (c : QChar) (a b : QString) : lacks c (a ++ b) = lacks c a && lacks c b.
Proof. apply forallb_app. Qed.

Lemma lacks_cons (c x : QChar) (s : QString) :
  lacks c (x :: s) = negb (x =? c) && lacks c s.
Proof. reflexivity. Qed.

(** A string has no [c], or it has a first one. *)
Lemma first_occurrence (c : QChar) (s : QString) :
  lacks c s = true \/ exists a r, s = a ++ c :: r /\ lacks c a = true.
Proof.
  induction s as [|x s IH]; [left; reflexivity|].
  destruct (x =? c) eqn:E.
  - right. exists [], s. apply Z.eqb_eq in E. subst. auto.
  - destruct IH as [IH | (a & r & -> & Ha)].
    + left. rewrite lacks_cons, E, IH. reflexivity.
    + right. exists (x :: a), r. rewrite lacks_cons, E, Ha. auto.
Qed.

Lemma indexOfFrom_found (c : QChar) (a r : QString) : forall i,
  lacks c a = true -> indexOfFrom c (a ++ c :: r) i = i + qlength a.
Proof.
  induction a as [|x a IH]; intros i Ha.
  - cbn. rewrite Z.eqb_refl. lia.
  - rewrite lacks_cons in Ha. apply andb_true_iff in Ha as [Hx Ha].
    apply negb_true_iff in Hx.
    cbn [app indexOfFrom]. rewrite Hx, IH, qlength_cons by exact Ha. lia.
Qed.

Lemma indexOfFrom_none (c : QChar) (s : QString) : forall i,
  lacks c s = true -> indexOfFrom c s i = -1.
Proof.
  induction s as [|x s IH]; intros i Hs; [reflexivity|].
  rewrite lacks_cons in Hs. apply andb_true_iff in Hs as [Hx Hs].
  apply negb_true_iff in Hx.
  cbn [indexOfFrom]. rewrite Hx. apply IH, Hs.
Qed.

Lemma indexOf_found (c : QChar) (pre a r : QString) :
  lacks c a = true ->
  indexOf c (pre ++ a ++ c :: r) (qlength pre) = qlength pre + qlength a.
Proof.
  intros Ha. unfold indexOf, midFrom.
  destruct (at_prefix (pre ++ a ++ c :: r) pre (a ++ c :: r) _ eq_refl eq_refl) as [-> _].
  apply indexOfFrom_found, Ha.
Qed.

Lemma indexOf_none (c : QChar) (pre s : QString) :
  lacks c s = true -> indexOf c (pre ++ s) (qlength pre) = -1.
Proof.
  intros Hs. unfold indexOf, midFrom.
  destruct (at_prefix (pre ++ s) pre s _ eq_refl eq_refl) as [-> _].
  apply indexOfFrom_none, Hs.
Qed.

Lemma isEmpty_nil (s : QString) : isEmpty s = true <-> s = [].
Proof. destruct s; cbn; split; congruence. Qed.

Lemma qstring_eqb_eq (a : QString) : forall b, qstring_eqb a b = true <-> a = b.
Proof.
  induction a as [|x a IH]; intros [|y b]; cbn; split; try congruence; try discriminate.
  - intros H. apply andb_true_iff in H as [Hx Hab]. apply Z.eqb_eq in Hx.
    apply IH in Hab. congruence.
  - intros H. injection H as -> ->. rewrite Z.eqb_refl. apply IH. reflexivity.
Qed.

Lemma existsb_rev {A} (f : A -> bool) (l : list A) : existsb f (rev l) = existsb f l.
Proof.
  induction l as [|x l IH]; [reflexivity|].
  cbn. rewrite existsb_app, IH. cbn. rewrite orb_false_r. apply orb_comm.
Qed.


(** * Newline normalization *)

Lemma unique_from_collapse (l : QString) : forall kept,
  unique_from (fun c1 c2 => (c1 =? ch_cr) && (c2 =? ch_cr)) kept l
  = collapseCrRuns (kept :: l).
Proof.
  induction l as [|x r IH]; intros kept.
  - cbn. rewrite andb_false_r. reflexivity.
  - cbn [unique_from]. destruct ((kept =? ch_cr) && (x =? ch_cr)) eqn:E.
    + rewrite IH. apply andb_true_iff in E as [Ek Ex].
      apply Z.eqb_eq in Ek, Ex. subst.
      cbn [collapseCrRuns hd]. rewrite Z.eqb_refl. reflexivity.
    + rewrite IH. change (collapseCrRuns (kept :: x :: r))
        with (if (kept =? ch_cr) && (hd 0 (x :: r) =? ch_cr)
              then collapseCrRuns (x :: r) else kept :: collapseCrRuns (x :: r)).
      cbn [hd]. rewrite E. reflexivity.
Qed.

Lemma std_unique_collapse (s : QString) :
  std_unique (fun c1 c2 => (c1 =? ch_cr) && (c2 =? ch_cr)) s = collapseCrRuns s.
Proof. destruct s; [reflexivity | apply unique_from_collapse]. Qed.

Lemma replaceCrLf_drop (s : QString) :
  replaceCrLf s = dropCrBeforeLf s
  /\ forall c, replaceCrLf (c :: s) = dropCrBeforeLf (c :: s).
Proof.
  induction s as [|d r [IH1 IH2]].
  - split; [reflexivity|]. intros c. cbn. rewrite andb_false_r. reflexivity.
  - split; [apply IH2|]. intros c.
    change (replaceCrLf (c :: d :: r))
      with (if (c =? ch_cr) && (d =? ch_lf) then ch_lf :: replaceCrLf r
            else c :: replaceCrLf (d :: r)).
    change (dropCrBeforeLf (c :: d :: r))
      with (if (c =? ch_cr) && (d =? ch_lf) then dropCrBeforeLf (d :: r)
            else c :: dropCrBeforeLf (d :: r)).
    destruct ((c =? ch_cr) && (d =? ch_lf)) eqn:E.
    + apply andb_true_iff in E as [_ Ed]. apply Z.eqb_eq in Ed. subst d.
      rewrite IH1. cbn. reflexivity.
    + rewrite IH2. reflexivity.
Qed.

Lemma normalizeNewlines_passes (text : QString) :
  normalizeNewlines text = dropCrBeforeLf (collapseCrRuns text).
Proof.
  unfold normalizeNewlines. rewrite std_unique_collapse.
  apply (proj1 (replaceCrLf_drop _)).
Qed.

(** A run of carriage returns becomes one carriage return. *)
Lemma collapseCrRuns_run (n : nat) (rest : QString) :
  negb (hd 0 rest =? ch_cr) = true ->
  collapseCrRuns (repeat ch_cr (S n) ++ rest) = ch_cr :: collapseCrRuns rest.
Proof.
  intros Hrest. induction n as [|n IH].
  - cbn [repeat app collapseCrRuns]. apply negb_true_iff in Hrest. rewrite Hrest.
    rewrite andb_false_r. reflexivity.
  - change (repeat ch_cr (S (S n)) ++ rest) with (ch_cr :: (repeat ch_cr (S n) ++ rest)).
    cbn [collapseCrRuns]. cbn [repeat app hd]. rewrite Z.eqb_refl. cbn [andb].
    exact IH.
Qed.

Lemma collapseCrRuns_noPair (s : QString) : noPair ch_cr ch_cr (collapseCrRuns s) = true.
Proof.
  induction s as [|c r IH]; [reflexivity|].
  cbn [collapseCrRuns]. destruct ((c =? ch_cr) && (hd 0 r =? ch_cr)) eqn:E; [exact IH|].
  cbn [noPair]. rewrite IH, andb_true_r. apply negb_true_iff.
  destruct (c =? ch_cr) eqn:Ec; [|reflexivity]. cbn [andb] in *.
  destruct r as [|d r']; [cbn; reflexivity|].
  cbn [hd] in E. cbn [collapseCrRuns].
  destruct ((d =? ch_cr) && (hd 0 r' =? ch_cr)) eqn:E2.
  - rewrite E in E2. discriminate.
  - cbn [hd]. exact E.
Qed.

Lemma collapseCrRuns_app (a b : QString) :
  negb ((last a 0 =? ch_cr) && (hd 0 b =? ch_cr)) = true ->
  collapseCrRuns (a ++ b) = collapseCrRuns a ++ collapseCrRuns b.
Proof.
  induction a as [|c r IH]; intros Hab; [reflexivity|].
  destruct r as [|d r'].
  - cbn [app collapseCrRuns hd]. cbn [last] in Hab. apply negb_true_iff in Hab.
    rewrite Hab. replace (0 =? ch_cr) with false by reflexivity.
    rewrite andb_false_r. reflexivity.
  - change ((c :: d :: r') ++ b) with (c :: (d :: r') ++ b).
    cbn [collapseCrRuns]. change (hd 0 ((d :: r') ++ b)) with d. cbn [hd].
    rewrite IH by exact Hab.
    destruct ((c =? ch_cr) && (d =? ch_cr)); reflexivity.
Qed.

Lemma dropCrBeforeLf_app (a b : QString) :
  negb ((last a 0 =? ch_cr) && (hd 0 b =? ch_lf)) = true ->
  dropCrBeforeLf (a ++ b) = dropCrBeforeLf a ++ dropCrBeforeLf b.
Proof.
  induction a as [|c r IH]; intros Hab; [reflexivity|].
  destruct r as [|d r'].
  - cbn [app dropCrBeforeLf hd]. cbn [last] in Hab. apply negb_true_iff in Hab.
    rewrite Hab. replace (0 =? ch_lf) with false by reflexivity.
    rewrite andb_false_r. reflexivity.
  - change ((c :: d :: r') ++ b) with (c :: (d :: r') ++ b).
    cbn [dropCrBeforeLf]. change (hd 0 ((d :: r') ++ b)) with d. cbn [hd].
    rewrite IH by exact Hab.
    destruct ((c =? ch_cr) && (d =? ch_lf)); reflexivity.
Qed.

Lemma collapseCrRuns_last (a : QString) : last (collapseCrRuns a) 0 = last a 0.
Proof.
  induction a as [|c r IH]; [reflexivity|].
  cbn [collapseCrRuns]. destruct r as [|d r'].
  - cbn. rewrite andb_false_r. reflexivity.
  - destruct ((c =? ch_cr) && (hd 0 (d :: r') =? ch_cr)) eqn:E.
    + rewrite IH. reflexivity.
    + change (last (c :: d :: r') 0) with (last (d :: r') 0). rewrite <- IH.
      destruct (collapseCrRuns (d :: r')) eqn:Ec; [|reflexivity].
      exfalso. cbn [collapseCrRuns] in Ec.
      destruct ((d =? ch_cr) && (hd 0 r' =? ch_cr)) eqn:E2; [|discriminate].
      clear - Ec E2. revert d E2 Ec. induction r' as [|e r'' IHr]; intros d E2 Ec.
      * cbn in E2. rewrite andb_false_r in E2. discriminate.
      * cbn [collapseCrRuns] in Ec.
        destruct ((e =? ch_cr) && (hd 0 r'' =? ch_cr)) eqn:E3; [|discriminate].
        eapply IHr; eauto.
Qed.

Lemma collapseCrRuns_hd_lf (b : QString) :
  (hd 0 (collapseCrRuns b) =? ch_lf) = (hd 0 b =? ch_lf).
Proof.
  induction b as [|c r IH]; [reflexivity|].
  cbn [collapseCrRuns]. destruct ((c =? ch_cr) && (hd 0 r =? ch_cr)) eqn:E; [|reflexivity].
  apply andb_true_iff in E as [Ec Er]. apply Z.eqb_eq in Ec, Er.
  rewrite IH. cbn [hd]. rewrite Er, Ec. reflexivity.
Qed.

(** Normalizing two texts one after the other is normalizing their
    concatenation, unless a carriage return at the end of the first
    meets a carriage return or a line feed at the start of the second. *)
Lemma normalizeNewlines_app (a b : QString) :
  crMeetsLineEnd a b = false ->
  normalizeNewlines (a ++ b) = normalizeNewlines a ++ normalizeNewlines b.
Proof.
  intros Hab. rewrite !normalizeNewlines_passes.
  assert (H : (last a 0 =? ch_cr) && ((hd 0 b =? ch_lf) || (hd 0 b =? ch_cr)) = false).
  { unfold crMeetsLineEnd, isLineEnd in Hab.
    destruct a as [|x a']; [reflexivity|]. destruct b as [|y b'].
    - cbn. rewrite andb_false_r. reflexivity.
    - cbn [isEmpty negb] in Hab. rewrite !andb_true_r in Hab.
      destruct (last (x :: a') 0 =? ch_cr); [|reflexivity].
      cbn [andb] in *. exact Hab. }
  rewrite collapseCrRuns_app.
  - apply dropCrBeforeLf_app. rewrite collapseCrRuns_last, collapseCrRuns_hd_lf.
    apply negb_true_iff. destruct (last a 0 =? ch_cr); [|reflexivity].
    cbn [andb] in *. apply orb_false_iff in H. tauto.
  - apply negb_true_iff. destruct (last a 0 =? ch_cr); [|reflexivity].
    cbn [andb] in *. apply orb_false_iff in H. tauto.
Qed.

(** * The channel buffer *)

Lemma completeLines_none (s : QString) :
  existsb isLineEnd s = false -> completeLines s = [] /\ pendingLine s = s.
Proof. intros H. destruct s; cbn [completeLines pendingLine]; [|rewrite H]; auto. Qed.

Lemma complete_pending (s : QString) : completeLines s ++ pendingLine s = s.
Proof.
  induction s as [|c r IH]; [reflexivity|].
  cbn [completeLines pendingLine]. destruct (existsb isLineEnd (c :: r)); [|reflexivity].
  cbn [app]. rewrite IH. reflexivity.
Qed.

Lemma pendingLine_no_end (s : QString) : existsb isLineEnd (pendingLine s) = false.
Proof.
  induction s as [|c r IH]; [reflexivity|].
  cbn [pendingLine]. destruct (existsb isLineEnd (c :: r)) eqn:E; [exact IH | exact E].
Qed.

Lemma completeLines_app (a b : QString) :
  existsb isLineEnd b = true ->
  completeLines (a ++ b) = a ++ completeLines b /\ pendingLine (a ++ b) = pendingLine b.
Proof.
  intros Hb. induction a as [|c r [IH1 IH2]]; [auto|].
  cbn [app completeLines pendingLine].
  assert (E : existsb isLineEnd (c :: r ++ b) = true).
  { change (c :: r ++ b) with ((c :: r) ++ b). rewrite existsb_app, Hb. apply orb_true_r. }
  rewrite E, IH1, IH2. auto.
Qed.

Lemma completeLines_app_none (a b : QString) :
  existsb isLineEnd b = false ->
  completeLines (a ++ b) = completeLines a /\ pendingLine (a ++ b) = pendingLine a ++ b.
Proof.
  intros Hb. induction a as [|c r [IH1 IH2]].
  - cbn [app]. destruct (completeLines_none b Hb) as [-> ->]. auto.
  - cbn [app completeLines pendingLine].
    change (c :: r ++ b) with ((c :: r) ++ b). rewrite existsb_app, Hb, orb_false_r.
    destruct (existsb isLineEnd (c :: r)); [rewrite IH1, IH2|]; auto.
Qed.

Lemma lastLineIndex_spec (s : QString) : forall i f1 f2,
  f1 < i -> f2 < i -> 0 <= i ->
  let k := Z.max (lastIndexOfFrom ch_lf s i f1) (lastIndexOfFrom ch_cr s i f2) in
  if existsb isLineEnd s
  then i <= k /\ firstn (Z.to_nat (k - i + 1)) s = completeLines s
       /\ skipn (Z.to_nat (k - i + 1)) s = pendingLine s
  else k = Z.max f1 f2.
Proof.
  induction s as [|c r IH]; intros i f1 f2 H1 H2 Hi; [reflexivity|].
  cbn [lastIndexOfFrom]. cbn zeta.
  set (g1 := if c =? ch_lf then i else f1). set (g2 := if c =? ch_cr then i else f2).
  assert (G1 : g1 < i + 1) by (subst g1; destruct (c =? ch_lf); lia).
  assert (G2 : g2 < i + 1) by (subst g2; destruct (c =? ch_cr); lia).
  specialize (IH (i + 1) g1 g2 G1 G2 ltac:(lia)). cbn zeta in IH.
  set (k := Z.max (lastIndexOfFrom ch_lf r (i + 1) g1) (lastIndexOfFrom ch_cr r (i + 1) g2)) in *.
  cbn [completeLines pendingLine]. cbn [existsb].
  destruct (existsb isLineEnd r) eqn:Er.
  - rewrite orb_true_r. destruct IH as (Hk & Hf & Hs).
    replace (Z.to_nat (k - i + 1)) with (S (Z.to_nat (k - (i + 1) + 1))) by lia.
    cbn [firstn skipn]. rewrite Hf, Hs. repeat split; lia.
  - rewrite orb_false_r. destruct (completeLines_none r Er) as [Hc Hp].
    unfold isLineEnd. subst g1 g2. destruct (c =? ch_lf) eqn:E1; cbn [orb].
    + assert (Hk : k = i) by (clearbody k; revert IH; destruct (c =? ch_cr); lia).
      rewrite Hk. replace (i - i + 1) with 1 by lia. cbn. rewrite Hc, Hp.
      repeat split; try lia; reflexivity.
    + clearbody k. destruct (c =? ch_cr) eqn:E2.
      * assert (Hk : k = i) by lia.
        rewrite Hk. replace (i - i + 1) with 1 by lia. cbn. rewrite Hc, Hp.
        repeat split; try lia; reflexivity.
      * exact IH.
Qed.

Lemma takeLines_spec (buffer : QString) :
  takeLines buffer
  = (if existsb isLineEnd buffer then normalizeNewlines (completeLines buffer) else [],
     pendingLine buffer).
Proof.
  unfold takeLines, lastIndexOf, left, midFrom.
  pose proof (lastLineIndex_spec buffer 0 (-1) (-1) ltac:(lia) ltac:(lia) ltac:(lia)) as H.
  cbn zeta in H.
  set (k := Z.max (lastIndexOfFrom ch_lf buffer 0 (-1)) (lastIndexOfFrom ch_cr buffer 0 (-1))) in *.
  destruct (existsb isLineEnd buffer) eqn:E.
  - destruct H as (Hk & Hf & Hs). replace (k =? -1) with false by (symmetry; apply Z.eqb_neq; lia).
    replace (k - 0 + 1) with (k + 1) in * by lia. rewrite Hf, Hs. reflexivity.
  - rewrite H. cbn. destruct (completeLines_none buffer E) as [_ ->]. reflexivity.
Qed.

Lemma crMeetsLineEnd_complete (seen decoded rest : QString) :
  crMeetsLineEnd seen (decoded ++ rest) = false ->
  existsb isLineEnd decoded = true ->
  crMeetsLineEnd (completeLines seen) (completeLines (pendingLine seen ++ decoded)) = false.
Proof.
  intros Hsafe Hd.
  destruct (pendingLine seen) as [|x p] eqn:Ep.
  - pose proof (complete_pending seen) as Hs. rewrite Ep, app_nil_r in Hs. rewrite Hs.
    cbn [app]. destruct decoded as [|d ds]; [discriminate|].
    cbn [completeLines]. rewrite Hd. unfold crMeetsLineEnd in *. exact Hsafe.
  - pose proof (pendingLine_no_end seen) as Hn. rewrite Ep in Hn.
    cbn [existsb] in Hn. apply orb_false_iff in Hn as [Hx _].
    cbn [app completeLines].
    replace (existsb isLineEnd (x :: p ++ decoded)) with true.
    + unfold crMeetsLineEnd. cbn [hd]. rewrite Hx. rewrite andb_false_r. reflexivity.
    + symmetry. change (x :: p ++ decoded) with ((x :: p) ++ decoded).
      rewrite existsb_app, Hd. apply orb_true_r.
Qed.

Section ChannelBufferRun.
Context `{TextCodec}.

Lemma appendAll_spec (reads : list QByteArray) : forall (b : ChannelBuffer) (seen : QString),
  hasOutputCallback b = true ->
  rawDataPos b = qlength (rawData b) ->
  incompleteLineBuffer b = pendingLine seen ->
  piecesKeepLineEnds seen (decodedPieces (codecState b) reads) = true ->
  let text := seen ++ List.concat (decodedPieces (codecState b) reads) in
  normalizeNewlines (completeLines seen) ++ List.concat (fst (appendAll b reads))
  = normalizeNewlines (completeLines text)
  /\ incompleteLineBuffer (snd (appendAll b reads)) = pendingLine text.
Proof.
  induction reads as [|bytes more IH]; intros b seen Hcb Hpos Hbuf Hsafe; cbn zeta.
  - cbn. rewrite !app_nil_r. auto.
  - cbn [appendAll decodedPieces] in *. unfold append.
    destruct (isEmpty bytes) eqn:Eb.
    + specialize (IH b seen Hcb Hpos Hbuf Hsafe). cbn zeta in IH.
      destruct (appendAll b more) as [outs b']. exact IH.
    + cbn [negb hasOutputCallback]. rewrite Hcb. unfold linesRead.
      cbn [rawData rawDataPos codecState incompleteLineBuffer hasOutputCallback].
      rewrite Hpos. unfold midFrom, qlength. rewrite Nat2Z.id, skipn_app, skipn_all.
      rewrite Nat.sub_diag. cbn [skipn app].
      destruct (toUnicodeFrom bytes (codecState b)) as [decoded st'] eqn:Ed.
      rewrite takeLines_spec, Hbuf.
      cbn [piecesKeepLineEnds List.concat] in Hsafe.
      apply andb_true_iff in Hsafe as [Hhere Hrest]. apply negb_true_iff in Hhere.
      match goal with |- context [appendAll ?x more] => set (b1 := x) end.
      assert (Hpend : pendingLine (pendingLine seen ++ decoded) = pendingLine (seen ++ decoded)).
      { destruct (existsb isLineEnd decoded) eqn:Hd.
        - rewrite (proj2 (completeLines_app _ _ Hd)), (proj2 (completeLines_app _ _ Hd)).
          reflexivity.
        - rewrite (proj2 (completeLines_app_none _ _ Hd)),
            (proj2 (completeLines_app_none _ _ Hd)).
          destruct (completeLines_none _ (pendingLine_no_end seen)) as [_ ->]. reflexivity. }
      specialize (IH b1 (seen ++ decoded) eq_refl eq_refl Hpend Hrest). cbn zeta in IH.
      cbn [codecState b1] in IH.
      destruct (appendAll b1 more) as [outs b'] eqn:Ea. cbn [fst snd] in *.
      cbn [List.concat]. rewrite app_assoc. destruct IH as [IH1 IH2]. split; [|exact IH2].
      rewrite <- IH1.
      set (lines := if existsb isLineEnd (pendingLine seen ++ decoded)
                    then normalizeNewlines (completeLines (pendingLine seen ++ decoded))
                    else []).
      assert (Hlines : normalizeNewlines (completeLines seen) ++ lines
                       = normalizeNewlines (completeLines (seen ++ decoded))).
      { subst lines. rewrite existsb_app, pendingLine_no_end. cbn [orb].
        destruct (existsb isLineEnd decoded) eqn:Hd.
        - rewrite <- normalizeNewlines_app
            by (eapply crMeetsLineEnd_complete; eauto).
          f_equal. rewrite <- (proj1 (completeLines_app
            (completeLines seen) (pendingLine seen ++ decoded)
            ltac:(rewrite existsb_app, Hd; apply orb_true_r))).
          rewrite app_assoc, complete_pending. reflexivity.
        - rewrite app_nil_r, (proj1 (completeLines_app_none _ _ Hd)). reflexivity. }
      rewrite <- Hlines. rewrite <- app_assoc. f_equal.
      destruct (isEmpty lines) eqn:El; cbn [negb List.concat].
      * destruct lines; [reflexivity | discriminate].
      * reflexivity.
Qed.
End ChannelBufferRun.

(** * The claims on normalization and on the process result *)

(** C6: normalizeNewlines first collapses every run of consecutive
    carriage returns to a single one and then turns every pair of a
    carriage return and a line feed into a line feed; the text a, CR,
    CR, LF, b becomes a, LF, b. *)
Theorem normalizeNewlines_collapses_then_joins (text : QString) :
  normalizeNewlines text = dropCrBeforeLf (collapseCrRuns text)
  /\ noPair ch_cr ch_cr (collapseCrRuns text) = true
  /\ normalizeNewlines (QLatin1String "a" ++ [ch_cr; ch_cr; ch_lf] ++ QLatin1String "b")
     = QLatin1String "a" ++ [ch_lf] ++ QLatin1String "b".
Proof.
  split; [apply normalizeNewlines_passes|].
  split; [apply collapseCrRuns_noPair | reflexivity].
Qed.

(** C7, as amended: when no read ends between a carriage return and a
    line end right after it, the texts handed to the callback, put
    together, are the normalization of the decoded text up to its last
    line end; what follows the last line end stays in the buffer and is
    never handed over.  When the text ends with a line end and the
    one-shot decoder agrees with the stateful one, this is the text
    stdOut returns. *)
Theorem linesRead_chunks_match_bulk `{TextCodec} (b : ChannelBuffer)
    (reads : list QByteArray) :
  hasOutputCallback b = true ->
  piecesKeepLineEnds [] (decodedPieces freshState reads) = true ->
  List.concat (fst (appendAll (clearForRun b) reads))
  = normalizeNewlines (completeLines (List.concat (decodedPieces freshState reads)))
  /\ incompleteLineBuffer (snd (appendAll (clearForRun b) reads))
     = pendingLine (List.concat (decodedPieces freshState reads))
  /\ (toUnicode (List.concat reads) = List.concat (decodedPieces freshState reads) ->
      pendingLine (List.concat (decodedPieces freshState reads)) = [] ->
      List.concat (fst (appendAll (clearForRun b) reads)) = stdOut (List.concat reads)).
Proof.
  intros Hcb Hsafe.
  pose proof (appendAll_spec reads (clearForRun b) [] Hcb eq_refl eq_refl Hsafe) as [H1 H2].
  cbn [app clearForRun codecState completeLines] in H1, H2.
  change (normalizeNewlines []) with (@nil QChar) in H1. cbn [app] in H1.
  split; [exact H1|]. split; [exact H2|].
  intros Hdec Hpend. rewrite H1. unfold stdOut. rewrite Hdec.
  rewrite <- (complete_pending (List.concat (decodedPieces freshState reads))) at 2.
  rewrite Hpend, app_nil_r. reflexivity.
Qed.

(** C8: on a crash exit a latched Hang stays, with the exit code -1;
    without a latched Hang the result becomes TerminatedAbnormally; on a
    normal exit the result is what the exit code interpreter makes of
    the exit code. *)
Theorem slotFinished_keeps_hang (d : QtcProcessPrivate) (code : Z) :
  (result (m_result d) = Hang ->
   m_result (slotFinished d code CrashExit) = {| result := Hang; exitCode := -1 |})
  /\ (result (m_result d) <> Hang ->
      m_result (slotFinished d code CrashExit)
      = {| result := TerminatedAbnormally; exitCode := -1 |})
  /\ m_result (slotFinished d code NormalExit)
     = {| result := m_exitCodeInterpreter d code; exitCode := code |}.
Proof.
  unfold slotFinished. cbn [m_result]. repeat split.
  - intros ->. reflexivity.
  - intros Hne. destruct (result (m_result d)); try reflexivity. congruence.
Qed.

(** C10: a positive timeout sets the hang limit to the larger of 2 and
    the timeout, so one second becomes two; any other timeout sets it to
    INT_MAX / 1000. *)
Theorem setTimeoutS_clamps (d : QtcProcessPrivate) (timeoutS : Z) :
  (0 < timeoutS -> m_maxHangTimerCount (setTimeoutS d timeoutS) = Z.max 2 timeoutS)
  /\ (timeoutS <= 0 ->
      m_maxHangTimerCount (setTimeoutS d timeoutS) = INT_MAX / 1000
      /\ INT_MAX / 1000 = 2147483)
  /\ m_maxHangTimerCount (setTimeoutS d 1) = 2.
Proof.
  unfold setTimeoutS. cbn [m_maxHangTimerCount]. repeat split.
  - intros Hpos. apply Z.ltb_lt in Hpos. rewrite Hpos. reflexivity.
  - apply Z.ltb_ge in H. rewrite H. reflexivity.
Qed.


(** * envExpandWin *)

Section EnvExpandWin.
Context `{QtServices}.
Variable env : Environment.
Variable pwd : option QString.

Lemma expandPercent_none (rest : QString) :
  lacks ch_percent rest = true -> expandPercent env pwd rest = rest.
Proof.
  induction rest as [|c r IH]; intros Hr; [reflexivity|].
  rewrite lacks_cons in Hr. apply andb_true_iff in Hr as [Hc Hr].
  apply negb_true_iff in Hc. cbn [expandPercent]. rewrite Hc, IH by exact Hr. reflexivity.
Qed.

Lemma expandPercent_found (a r : QString) :
  lacks ch_percent a = true ->
  expandPercent env pwd (a ++ ch_percent :: r) = a ++ expandAfterPercent env pwd r [].
Proof.
  induction a as [|c a IH]; intros Ha.
  - cbn [app expandPercent]. rewrite Z.eqb_refl. reflexivity.
  - rewrite lacks_cons in Ha. apply andb_true_iff in Ha as [Hc Ha].
    apply negb_true_iff in Hc. cbn [app expandPercent]. rewrite Hc, IH by exact Ha.
    reflexivity.
Qed.

Lemma expandAfterPercent_none (rest : QString) : forall name,
  lacks ch_percent rest = true ->
  expandAfterPercent env pwd rest name = ch_percent :: name ++ rest.
Proof.
  induction rest as [|c r IH]; intros name Hr.
  - cbn. rewrite app_nil_r. reflexivity.
  - rewrite lacks_cons in Hr. apply andb_true_iff in Hr as [Hc Hr].
    apply negb_true_iff in Hc. cbn [expandAfterPercent].
    rewrite Hc, IH, <- app_assoc by exact Hr. reflexivity.
Qed.

Lemma expandAfterPercent_found (a r : QString) : forall name,
  lacks ch_percent a = true ->
  expandAfterPercent env pwd (a ++ ch_percent :: r) name
  = if negb (isEmpty (envValueWin env pwd (toUpper (name ++ a))))
    then envValueWin env pwd (toUpper (name ++ a)) ++ expandPercent env pwd r
    else ch_percent :: (name ++ a) ++ expandAfterPercent env pwd r [].
Proof.
  induction a as [|c a IH]; intros name Ha.
  - cbn [app expandAfterPercent]. rewrite Z.eqb_refl, app_nil_r. reflexivity.
  - rewrite lacks_cons in Ha. apply andb_true_iff in Ha as [Hc Ha].
    apply negb_true_iff in Hc. cbn [app expandAfterPercent].
    rewrite Hc, IH, <- app_assoc by exact Ha. reflexivity.
Qed.

(** The loop over the index computes the scan of the input: in the
    state that looks for an opening percent sign, and in the state
    that has one at [prev]. *)
Lemma envExpandWin_loop_scan (fuel : nat) :
  (forall done rest, (List.length rest < fuel)%nat ->
     envExpandWin_loop fuel env pwd (done ++ rest) (qlength done) (-1)
     = Some (done ++ expandPercent env pwd rest))
  /\ (forall done rest, (List.length rest < fuel)%nat ->
        envExpandWin_loop fuel env pwd (done ++ ch_percent :: rest)
          (qlength done + 1) (qlength done)
        = Some (done ++ expandAfterPercent env pwd rest [])).
Proof.
  induction fuel as [|fuel [IHopen IHname]]; [split; intros; lia|].
  split; intros done rest Hfuel; cbn [envExpandWin_loop].
  - destruct (first_occurrence ch_percent rest) as [Hnone | (a & r & -> & Ha)].
    + rewrite indexOf_none, expandPercent_none by exact Hnone. reflexivity.
    + rewrite indexOf_found, expandPercent_found by exact Ha.
      pose proof (qlength_nonneg done). pose proof (qlength_nonneg a).
      replace (0 <=? qlength done + qlength a) with true by (symmetry; apply Z.leb_le; lia).
      cbn [Z.leb Z.compare].
      rewrite app_assoc, <- qlength_app.
      rewrite IHname.
      * rewrite <- app_assoc. reflexivity.
      * rewrite length_app in Hfuel. cbn [List.length] in Hfuel. lia.
  - replace (qlength done + 1) with (qlength (done ++ [ch_percent]))
      by (rewrite qlength_app; reflexivity).
    replace (done ++ ch_percent :: rest) with ((done ++ [ch_percent]) ++ rest)
      by (rewrite <- app_assoc; reflexivity).
    destruct (first_occurrence ch_percent rest) as [Hnone | (a & r & -> & Ha)].
    + rewrite indexOf_none, expandAfterPercent_none by exact Hnone.
      rewrite <- app_assoc. reflexivity.
    + rewrite indexOf_found, expandAfterPercent_found by exact Ha.
      pose proof (qlength_nonneg done). pose proof (qlength_nonneg a).
      rewrite qlength_app. change (qlength [ch_percent]) with 1.
      replace (0 <=? qlength done + 1 + qlength a) with true
        by (symmetry; apply Z.leb_le; lia).
      replace (0 <=? qlength done) with true by (symmetry; apply Z.leb_le; lia).
      replace (qlength done + 1 + qlength a - qlength done - 1) with (qlength a) by lia.
      replace (mid ((done ++ [ch_percent]) ++ a ++ ch_percent :: r) (qlength done + 1)
                 (qlength a)) with a.
      2:{ symmetry. replace (qlength done + 1) with (qlength (done ++ [ch_percent]))
            by (rewrite qlength_app; reflexivity).
          apply mid_prefix. }
      cbn [app].
      destruct (isEmpty (envValueWin env pwd (toUpper a))) eqn:Eval; cbn [negb].
      * replace ((done ++ [ch_percent]) ++ a ++ ch_percent :: r)
          with ((done ++ ch_percent :: a) ++ ch_percent :: r)
          by (rewrite <- !app_assoc; reflexivity).
        replace (qlength done + 1 + qlength a + 1) with (qlength (done ++ ch_percent :: a) + 1)
          by (rewrite qlength_app, qlength_cons; lia).
        replace (qlength done + 1 + qlength a) with (qlength (done ++ ch_percent :: a))
          by (rewrite qlength_app, qlength_cons; lia).
        rewrite IHname.
        -- rewrite <- app_assoc. reflexivity.
        -- rewrite length_app in Hfuel. cbn [List.length] in Hfuel. lia.
      * replace ((done ++ [ch_percent]) ++ a ++ ch_percent :: r)
          with (done ++ (ch_percent :: a ++ [ch_percent]) ++ r)
          by (rewrite <- !app_assoc; cbn; rewrite <- !app_assoc; reflexivity).
        replace (qlength done + 1 + qlength a - qlength done + 1)
          with (qlength (ch_percent :: a ++ [ch_percent]))
          by (rewrite qlength_cons, qlength_app, qlength_cons, qlength_nil; lia).
        rewrite replaceAt_prefix, app_assoc, <- qlength_app.
        rewrite IHopen.
        -- rewrite <- app_assoc. reflexivity.
        -- rewrite length_app in Hfuel. cbn [List.length] in Hfuel. lia.
Qed.

(** [envExpandWin] always finishes, with the scan of its input. *)
Lemma envExpandWin_scan (args : QString) :
  envExpandWin args env pwd = Some (expandPercent env pwd args).
Proof.
  unfold envExpandWin.
  apply (proj1 (envExpandWin_loop_scan (S (List.length args))) [] args). lia.
Qed.

(** A reference whose value is empty stays up to its closing percent
    sign, which is read again as an opening one. *)
Lemma expandPercent_unknown (pre name post : QString) :
  lacks ch_percent pre = true -> lacks ch_percent name = true ->
  isEmpty (envValueWin env pwd (toUpper name)) = true ->
  expandPercent env pwd (pre ++ ch_percent :: name ++ ch_percent :: post)
  = pre ++ ch_percent :: name ++ expandPercent env pwd (ch_percent :: post).
Proof.
  intros Hpre Hname Hval.
  rewrite expandPercent_found by exact Hpre.
  rewrite (expandAfterPercent_found name post []) by exact Hname.
  cbn [app]. rewrite Hval. cbn [negb expandPercent]. rewrite Z.eqb_refl. reflexivity.
Qed.

(** Without a name that has a value nothing changes. *)
Lemma expandPercent_all_unknown :
  (forall var, envValueWin env pwd var = []) ->
  forall rest,
    expandPercent env pwd rest = rest
    /\ forall name, expandAfterPercent env pwd rest name = ch_percent :: name ++ rest.
Proof.
  intros Hno. induction rest as [|c r [IH1 IH2]].
  - split; [reflexivity|]. intros name. cbn. rewrite app_nil_r. reflexivity.
  - split.
    + cbn [expandPercent]. destruct (c =? ch_percent) eqn:E.
      * apply Z.eqb_eq in E. subst c. apply IH2.
      * rewrite IH1. reflexivity.
    + intros name. cbn [expandAfterPercent]. destruct (c =? ch_percent) eqn:E.
      * apply Z.eqb_eq in E. subst c. rewrite Hno. cbn [isEmpty negb].
        rewrite IH2. reflexivity.
      * rewrite IH2, <- app_assoc. reflexivity.
Qed.
End EnvExpandWin.

(** * prepareArgsWin *)

Lemma stripCaretsQuoted_found (a r : QString) :
  lacks ch_dquote a = true ->
  stripCaretsQuoted (a ++ ch_dquote :: r)
  = option_map (fun out => a ++ ch_dquote :: out) (stripCarets r).
Proof.
  induction a as [|c a IH]; intros Ha.
  - cbn [app stripCaretsQuoted]. rewrite Z.eqb_refl. reflexivity.
  - rewrite lacks_cons in Ha. apply andb_true_iff in Ha as [Hc Ha].
    apply negb_true_iff in Hc. cbn [app stripCaretsQuoted]. rewrite Hc, IH by exact Ha.
    destruct (stripCarets r); reflexivity.
Qed.

Lemma stripCaretsQuoted_none (rest : QString) :
  lacks ch_dquote rest = true -> stripCaretsQuoted rest = Some rest.
Proof.
  induction rest as [|c r IH]; intros Hr; [reflexivity|].
  rewrite lacks_cons in Hr. apply andb_true_iff in Hr as [Hc Hr].
  apply negb_true_iff in Hc. cbn [stripCaretsQuoted]. rewrite Hc, IH by exact Hr.
  reflexivity.
Qed.

Lemma prepareSkipQuoted_found (a : QString) : forall done x r fuel,
  lacks ch_dquote a = true -> (List.length a < fuel)%nat ->
  prepareSkipQuoted fuel (done ++ x :: a ++ ch_dquote :: r) (qlength done)
  = Some (qlength done + 1 + qlength a).
Proof.
  induction a as [|y a IH]; intros done x r fuel Ha Hfuel;
    (destruct fuel as [|fuel]; [cbn in Hfuel; lia|]); cbn [prepareSkipQuoted].
  - replace (qlength done + 1) with (qlength (done ++ [x]))
      by (rewrite qlength_app; reflexivity).
    replace (done ++ x :: [] ++ ch_dquote :: r) with ((done ++ [x]) ++ ch_dquote :: r)
      by (rewrite <- app_assoc; reflexivity).
    rewrite unicodeAt_prefix, Z.eqb_refl. cbn [negb].
    replace (qlength (done ++ [x]) =? qlength ((done ++ [x]) ++ ch_dquote :: r)) with false.
    + rewrite qlength_nil, Z.add_0_r. reflexivity.
    + symmetry. apply Z.eqb_neq. pose proof (qlength_prefix_lt (done ++ [x])) as Hlt.
      match goal with |- _ <> qlength (_ ++ ?c :: ?t) => specialize (Hlt c t) end. lia.
  - rewrite lacks_cons in Ha. apply andb_true_iff in Ha as [Hy Ha].
    replace (qlength done + 1) with (qlength (done ++ [x]))
      by (rewrite qlength_app; reflexivity).
    replace (done ++ x :: (y :: a) ++ ch_dquote :: r)
      with ((done ++ [x]) ++ y :: a ++ ch_dquote :: r)
      by (rewrite <- app_assoc; reflexivity).
    rewrite unicodeAt_prefix, Hy.
    replace (qlength (done ++ [x]) =? qlength ((done ++ [x]) ++ y :: a ++ ch_dquote :: r))
      with false.
    + rewrite IH by (try exact Ha; cbn in Hfuel; lia).
      rewrite (qlength_cons y a). f_equal. lia.
    + symmetry. apply Z.eqb_neq. pose proof (qlength_prefix_lt (done ++ [x])) as Hlt.
      match goal with |- _ <> qlength (_ ++ ?c :: ?t) => specialize (Hlt c t) end. lia.
Qed.

Lemma prepareSkipQuoted_none (rest : QString) : forall done x fuel,
  lacks ch_dquote rest = true -> (List.length rest < fuel)%nat ->
  prepareSkipQuoted fuel (done ++ x :: rest) (qlength done)
  = Some (qlength (done ++ x :: rest)).
Proof.
  induction rest as [|y rest IH]; intros done x fuel Hr Hfuel;
    (destruct fuel as [|fuel]; [cbn in Hfuel; lia|]); cbn [prepareSkipQuoted].
  - replace (qlength done + 1) with (qlength (done ++ [x]))
      by (rewrite qlength_app; reflexivity).
    rewrite Z.eqb_refl. reflexivity.
  - rewrite lacks_cons in Hr. apply andb_true_iff in Hr as [Hy Hr].
    replace (qlength done + 1) with (qlength (done ++ [x]))
      by (rewrite qlength_app; reflexivity).
    replace (done ++ x :: y :: rest) with ((done ++ [x]) ++ y :: rest)
      by (rewrite <- app_assoc; reflexivity).
    rewrite unicodeAt_prefix, Hy.
    replace (qlength (done ++ [x]) =? qlength ((done ++ [x]) ++ y :: rest)) with false.
    + apply IH; [exact Hr | cbn in Hfuel; lia].
    + symmetry. apply Z.eqb_neq. pose proof (qlength_prefix_lt (done ++ [x])) as Hlt.
      match goal with |- _ <> qlength (_ ++ ?c :: ?t) => specialize (Hlt c t) end. lia.
Qed.

Lemma prepareArgsWin_loop_end (fuel : nat) (args : QString) (p : Z) :
  qlength args <= p -> prepareArgsWin_loop (S fuel) args p = Some (SplitOk, args).
Proof.
  intros Hp. cbn [prepareArgsWin_loop].
  replace (p <? qlength args) with false by (symmetry; apply Z.ltb_ge; lia). reflexivity.
Qed.

Lemma preparedFrom_cons (done : QString) (c : QChar) (stripped : option QString) :
  preparedFrom (done ++ [c]) stripped = preparedFrom done (option_map (cons c) stripped).
Proof. destruct stripped; cbn; [rewrite <- app_assoc|]; reflexivity. Qed.

Lemma prepareArgsWin_loop_strip (fuel : nat) : forall done rest,
  (List.length rest < fuel)%nat ->
  prepareArgsWin_loop fuel (done ++ rest) (qlength done) = preparedFrom done (stripCarets rest).
Proof.
  induction fuel as [|fuel IH]; intros done rest Hfuel; [lia|].
  destruct rest as [|c r].
  - rewrite app_nil_r, prepareArgsWin_loop_end by lia. cbn. rewrite app_nil_r. reflexivity.
  - cbn [prepareArgsWin_loop stripCarets].
    replace (qlength done <? qlength (done ++ c :: r)) with true.
    2:{ symmetry. apply Z.ltb_lt. apply qlength_prefix_lt. }
    rewrite unicodeAt_prefix. cbn [List.length] in Hfuel.
    destruct (c =? ch_caret) eqn:Ecaret.
    + change (done ++ c :: r) with (done ++ [c] ++ r).
      change 1 with (qlength [c]) at 1. rewrite removeAt_prefix.
      destruct r as [|d r'].
      * destruct fuel as [|fuel]; [lia|]. rewrite prepareArgsWin_loop_end.
        -- reflexivity.
        -- rewrite app_nil_r. change (qlength [c]) with 1. lia.
      * change (qlength [c]) with 1.
        replace (qlength done + 1) with (qlength (done ++ [d]))
          by (rewrite qlength_app; reflexivity).
        replace (done ++ d :: r') with ((done ++ [d]) ++ r')
          by (rewrite <- app_assoc; reflexivity).
        rewrite IH by (cbn [List.length] in Hfuel; lia). apply preparedFrom_cons.
    + destruct (c =? ch_dquote) eqn:Equote.
      * apply Z.eqb_eq in Equote. subst c.
        destruct (first_occurrence ch_dquote r) as [Hnone | (a & r2 & -> & Ha)].
        -- rewrite prepareSkipQuoted_none by (try exact Hnone; lia).
           destruct fuel as [|fuel]; [lia|]. rewrite prepareArgsWin_loop_end by lia.
           rewrite stripCaretsQuoted_none by exact Hnone. reflexivity.
        -- rewrite prepareSkipQuoted_found
             by (try exact Ha; rewrite length_app in Hfuel; lia).
           replace (qlength done + 1 + qlength a + 1)
             with (qlength (done ++ ch_dquote :: a ++ [ch_dquote]))
             by (rewrite qlength_app, qlength_cons, qlength_snoc; lia).
           replace (done ++ ch_dquote :: a ++ ch_dquote :: r2)
             with ((done ++ ch_dquote :: a ++ [ch_dquote]) ++ r2)
             by (rewrite <- !app_assoc; cbn; rewrite <- !app_assoc; reflexivity).
           rewrite IH.
           ++ rewrite stripCaretsQuoted_found by exact Ha.
              destruct (stripCarets r2); cbn; [|reflexivity].
              rewrite <- !app_assoc. cbn. rewrite <- !app_assoc. reflexivity.
           ++ rewrite length_app in Hfuel. cbn [List.length] in Hfuel. lia.
      * destruct (isMetaCharWin c); [reflexivity|].
        replace (qlength done + 1) with (qlength (done ++ [c]))
          by (rewrite qlength_app; reflexivity).
        replace (done ++ c :: r) with ((done ++ [c]) ++ r)
          by (rewrite <- app_assoc; reflexivity).
        rewrite IH by lia. apply preparedFrom_cons.
Qed.

Lemma prepareArgsWin_env `{QtServices} (args : QString) (env : Environment)
    (pwd : option QString) :
  prepareArgsWin args (Some env) pwd
  = preparedFrom [] (stripCarets (dropLeadingAt (expandPercent env pwd args))).
Proof.
  unfold prepareArgsWin. rewrite envExpandWin_scan. fold (dropLeadingAt (expandPercent env pwd args)).
  apply (prepareArgsWin_loop_strip _ []). lia.
Qed.

Lemma prepareArgsWin_noenv `{QtServices} (args : QString) (pwd : option QString) :
  prepareArgsWin args None pwd
  = if lacks ch_percent args then preparedFrom [] (stripCarets (dropLeadingAt args))
    else Some (FoundMeta, []).
Proof.
  unfold prepareArgsWin.
  destruct (first_occurrence ch_percent args) as [Hnone | (a & r & -> & Ha)].
  - pose proof (indexOf_none ch_percent [] args Hnone) as Hi.
    cbn [app] in Hi. change (qlength []) with 0 in Hi. rewrite Hi, Hnone.
    cbn [Z.leb Z.compare].
    fold (dropLeadingAt args). apply (prepareArgsWin_loop_strip _ []). lia.
  - pose proof (indexOf_found ch_percent [] a r Ha) as Hi.
    cbn [app] in Hi. change (qlength []) with 0 in Hi. rewrite Hi.
    rewrite lacks_app, lacks_cons, Z.eqb_refl, andb_false_r.
    pose proof (qlength_nonneg a).
    replace (0 <=? 0 + qlength a) with true by (symmetry; apply Z.leb_le; lia).
    reflexivity.
Qed.


(** * doSplitArgsWin *)

Lemma countBslashes_length (rest : QString) : forall n,
  (List.length (snd (countBslashes rest n)) <= List.length rest)%nat.
Proof.
  induction rest as [|c r IH]; intros n; cbn [countBslashes]; [cbn; lia|].
  destruct (c =? ch_bslash); cbn [List.length snd]; [specialize (IH (n + 1)); lia | lia].
Qed.

Lemma countBslashes_head (rest : QString) : forall n,
  match snd (countBslashes rest n) with
  | c :: _ => (c =? ch_bslash) = false
  | [] => True
  end.
Proof.
  induction rest as [|c r IH]; intros n; cbn [countBslashes]; [exact I|].
  destruct (c =? ch_bslash) eqn:E; [apply IH | cbn; exact E].
Qed.

Lemma crtArg_countBslashes (rest : QString) : forall arg inquote n,
  crtArg rest arg inquote n
  = crtArg (snd (countBslashes rest n)) arg inquote (fst (countBslashes rest n)).
Proof.
  induction rest as [|c r IH]; intros arg inquote n; [reflexivity|].
  cbn [countBslashes]. destruct (c =? ch_bslash) eqn:E.
  - cbn [crtArg]. rewrite E. apply IH.
  - reflexivity.
Qed.

(** The loop with its inner count of backslashes is the machine that
    reads one character at a time. *)
Lemma doSplitArgsWin_arg_crt (fuel : nat) : forall rest arg inquote,
  (List.length rest < fuel)%nat ->
  doSplitArgsWin_arg fuel rest arg inquote = Some (crtArg rest arg inquote 0).
Proof.
  induction fuel as [|fuel IH]; intros rest arg inquote Hfuel; [lia|].
  cbn [doSplitArgsWin_arg]. rewrite (crtArg_countBslashes rest).
  pose proof (countBslashes_length rest 0) as Hlen.
  pose proof (countBslashes_head rest 0) as Hhead.
  destruct (countBslashes rest 0) as [n r1]. cbn [fst snd] in *.
  destruct r1 as [|c r].
  - cbn [crtArg]. destruct inquote; reflexivity.
  - cbn [crtArg]. rewrite Hhead. cbn [List.length] in Hlen.
    destruct (c =? ch_dquote) eqn:Eq.
    + apply Z.eqb_eq in Eq. subst c.
      assert (Hws : isWhiteSpaceWin ch_dquote = false) by reflexivity.
      destruct (Z.land n 1 =? 0).
      * destruct inquote.
        -- destruct r as [|d r'].
           ++ cbn [negb andb]. apply IH. cbn [List.length]. lia.
           ++ destruct (d =? ch_dquote) eqn:Ed.
              ** apply Z.eqb_eq in Ed. subst d. rewrite Hws. cbn [negb andb].
                 apply IH. cbn [List.length] in *. lia.
              ** cbn [negb andb]. apply IH. cbn [List.length] in *. lia.
        -- cbn [negb andb]. apply IH. lia.
      * rewrite Hws, andb_false_r. apply IH. lia.
    + destruct (negb inquote && isWhiteSpaceWin c); [reflexivity|].
      apply IH. lia.
Qed.

Lemma isWhiteSpaceWin_not_special (c : QChar) :
  isWhiteSpaceWin c = true -> (c =? ch_bslash) = false /\ (c =? ch_dquote) = false.
Proof.
  unfold isWhiteSpaceWin. intros Hc. apply orb_true_iff in Hc as [Hc | Hc];
    apply Z.eqb_eq in Hc; subst c; split; reflexivity.
Qed.

(** What is left after an argument is a suffix of the input that is
    empty or starts with white space. *)
Lemma crtArg_rest (k : nat) : forall rest arg inquote n a rest',
  (List.length rest <= k)%nat ->
  crtArg rest arg inquote n = inl (a, rest') ->
  (exists pre, rest = pre ++ rest')
  /\ match rest' with [] => True | c :: _ => isWhiteSpaceWin c = true end.
Proof.
  induction k as [|k IH]; intros rest arg inquote n a rest' Hk Hres.
  - destruct rest; [|cbn in Hk; lia]. cbn in Hres. destruct inquote; [discriminate|].
    injection Hres as _ <-. split; [exists []; reflexivity | exact I].
  - destruct rest as [|c r].
    + cbn in Hres. destruct inquote; [discriminate|].
      injection Hres as _ <-. split; [exists []; reflexivity | exact I].
    + cbn [List.length] in Hk. cbn [crtArg] in Hres.
      assert (Hstep : forall r0 arg0 q0 n0, (List.length r0 <= List.length r)%nat ->
                crtArg r0 arg0 q0 n0 = inl (a, rest') ->
                (exists pre0, r0 = pre0 ++ rest')
                /\ match rest' with [] => True | c0 :: _ => isWhiteSpaceWin c0 = true end)
        by (intros; eapply IH; [|eassumption]; lia).
      assert (Hcons : forall r0, (exists pre0, r0 = pre0 ++ rest') ->
                forall front, exists pre, front ++ r0 = pre ++ rest').
      { intros r0 [pre0 ->] front. exists (front ++ pre0). apply app_assoc. }
      destruct (c =? ch_bslash).
      { destruct (Hstep _ _ _ _ (le_n _) Hres) as [Hp Hw]. split; [apply (Hcons _ Hp [c]) | exact Hw]. }
      destruct (c =? ch_dquote).
      { destruct (Z.land n 1 =? 0).
        - destruct inquote.
          + destruct r as [|d r'].
            * destruct (Hstep _ _ _ _ (le_n _) Hres) as [Hp Hw].
              split; [apply (Hcons _ Hp [c]) | exact Hw].
            * destruct (d =? ch_dquote).
              -- destruct (Hstep r' _ _ _ ltac:(cbn; lia) Hres) as [Hp Hw].
                 split; [apply (Hcons _ Hp [c; d]) | exact Hw].
              -- destruct (Hstep _ _ _ _ (le_n _) Hres) as [Hp Hw].
                 split; [apply (Hcons _ Hp [c]) | exact Hw].
          + destruct (Hstep _ _ _ _ (le_n _) Hres) as [Hp Hw].
            split; [apply (Hcons _ Hp [c]) | exact Hw].
        - destruct (Hstep _ _ _ _ (le_n _) Hres) as [Hp Hw].
          split; [apply (Hcons _ Hp [c]) | exact Hw]. }
      destruct (negb inquote && isWhiteSpaceWin c) eqn:Ews.
      { injection Hres as _ <-. split; [exists []; reflexivity|].
        apply andb_true_iff in Ews. tauto. }
      destruct (Hstep _ _ _ _ (le_n _) Hres) as [Hp Hw].
      split; [apply (Hcons _ Hp [c]) | exact Hw].
Qed.

(** The argument machine and the quote tracker agree. *)
Lemma crtArg_quoteOpen (k : nat) : forall rest arg inquote n,
  (List.length rest <= k)%nat ->
  match crtArg rest arg inquote n with
  | inr _ => crtQuoteOpen rest inquote n = true
  | inl (_, rest') => crtQuoteOpen rest inquote n = crtQuoteOpen rest' false 0
  end.
Proof.
  induction k as [|k IH]; intros rest arg inquote n Hk.
  - destruct rest; [|cbn in Hk; lia]. cbn. destruct inquote; reflexivity.
  - destruct rest as [|c r]; [cbn; destruct inquote; reflexivity|].
    cbn [List.length] in Hk. cbn [crtArg crtQuoteOpen].
    destruct (c =? ch_bslash) eqn:Ebs; [apply IH; lia|].
    destruct (c =? ch_dquote) eqn:Edq.
    + destruct (Z.land n 1 =? 0).
      * destruct inquote.
        -- destruct r as [|d r']; [cbn; reflexivity|].
           destruct (d =? ch_dquote); apply IH; cbn [List.length] in *; lia.
        -- apply IH; lia.
      * apply IH; lia.
    + destruct (negb inquote && isWhiteSpaceWin c) eqn:Ews.
      * apply andb_true_iff in Ews as [Hq Hw]. apply negb_true_iff in Hq. subst inquote.
        cbn [crtQuoteOpen]. rewrite Ebs, Edq. reflexivity.
      * apply IH; lia.
Qed.

Lemma skipWhiteSpaceWin_spec (rest : QString) :
  (List.length (skipWhiteSpaceWin rest) <= List.length rest)%nat
  /\ crtQuoteOpen (skipWhiteSpaceWin rest) false 0 = crtQuoteOpen rest false 0
  /\ match skipWhiteSpaceWin rest with
     | [] => True
     | c :: _ => isWhiteSpaceWin c = false
     end.
Proof.
  induction rest as [|c r (IHl & IHq & IHh)]; [cbn; auto|].
  cbn [skipWhiteSpaceWin]. destruct (isWhiteSpaceWin c) eqn:Ews.
  - destruct (isWhiteSpaceWin_not_special c Ews) as [Ebs Edq].
    cbn [crtQuoteOpen List.length]. rewrite Ebs, Edq. repeat split; [lia | exact IHq | exact IHh].
  - repeat split; [lia | exact Ews].
Qed.

(** [doSplitArgsWin] always finishes: with BadQuoting and no words when
    the input ends inside quotes, and with SplitOk otherwise. *)
Lemma doSplitArgsWin_loop_outcome (fuel : nat) : forall rest ret,
  (S (List.length rest) < fuel)%nat ->
  exists words,
    doSplitArgsWin_loop fuel rest ret
    = Some (if crtQuoteOpen rest false 0 then ([], BadQuoting) else (ret ++ words, SplitOk)).
Proof.
  induction fuel as [|fuel IH]; intros rest ret Hfuel; [lia|].
  cbn [doSplitArgsWin_loop].
  destruct (skipWhiteSpaceWin_spec rest) as (Hlen & Hq & Hhead).
  destruct (skipWhiteSpaceWin rest) as [|c r] eqn:Eskip.
  - rewrite <- Hq. cbn. exists []. rewrite app_nil_r. reflexivity.
  - rewrite doSplitArgsWin_arg_crt by lia. rewrite <- Hq.
    pose proof (crtArg_quoteOpen _ (c :: r) [] false 0 (le_n _)) as Hopen.
    destruct (crtArg (c :: r) [] false 0) as [[arg rest'] | []] eqn:Earg.
    + destruct (crtArg_rest _ _ _ _ _ _ _ (le_n _) Earg) as [[pre Hpre] Hws].
      assert (Hshort : (List.length rest' < List.length (c :: r))%nat).
      { destruct pre as [|x pre].
        - cbn [app] in Hpre. subst rest'. rewrite Hhead in Hws. discriminate.
        - rewrite Hpre, length_app. cbn [List.length]. lia. }
      destruct (IH rest' (ret ++ [arg]) ltac:(lia)) as [words Hwords].
      rewrite Hwords, Hopen. exists (arg :: words).
      rewrite <- app_assoc. reflexivity.
    + rewrite Hopen. exists []. reflexivity.
Qed.

Lemma doSplitArgsWin_outcome (args : QString) :
  exists words,
    doSplitArgsWin args
    = Some (if crtQuoteOpen args false 0 then ([], BadQuoting) else (words, SplitOk)).
Proof.
  unfold doSplitArgsWin.
  destruct (doSplitArgsWin_loop_outcome (S (S (List.length args))) args [] ltac:(lia))
    as [words Hwords].
  exists words. exact Hwords.
Qed.

(** A single argument that takes the whole input. *)
Lemma doSplitArgsWin_single (args : QString) (c : QChar) (word : QString) :
  isWhiteSpaceWin c = false ->
  crtArg (c :: args) [] false 0 = inl (word, []) ->
  doSplitArgsWin (c :: args) = Some ([word], SplitOk).
Proof.
  intros Hc Harg. unfold doSplitArgsWin. cbn [doSplitArgsWin_loop skipWhiteSpaceWin].
  rewrite Hc. rewrite doSplitArgsWin_arg_crt by lia. rewrite Harg. reflexivity.
Qed.


(** * The claims on the Windows lexer *)

Lemma stripCarets_no_meta_upto (k : nat) : forall rest,
  (List.length rest <= k)%nat ->
  forallb (fun c => negb (isMetaCharWin c)) rest = true ->
  (exists out, stripCarets rest = Some out)
  /\ (exists out, stripCaretsQuoted rest = Some out).
Proof.
  induction k as [|k IH]; intros rest Hk Hr.
  - destruct rest; [|cbn in Hk; lia]. split; eexists; reflexivity.
  - destruct rest as [|c r]; [split; eexists; reflexivity|].
    cbn [List.length] in Hk. cbn [forallb] in Hr. apply andb_true_iff in Hr as [Hc Hr].
    apply negb_true_iff in Hc.
    destruct (IH r ltac:(lia) Hr) as [[o1 H1] [o2 H2]]. split.
    + cbn [stripCarets]. destruct (c =? ch_caret).
      * destruct r as [|d r']; [eexists; reflexivity|].
        cbn [forallb] in Hr. apply andb_true_iff in Hr as [_ Hr'].
        destruct (IH r' ltac:(cbn in Hk; lia) Hr') as [[o -> ] _]. eexists; reflexivity.
      * destruct (c =? ch_dquote); [rewrite H2; eexists; reflexivity|].
        rewrite Hc, H1. eexists; reflexivity.
    + cbn [stripCaretsQuoted]. destruct (c =? ch_dquote); [rewrite H1 | rewrite H2];
        eexists; reflexivity.
Qed.

Lemma dropLeadingAt_forallb (f : QChar -> bool) (args : QString) :
  forallb f args = true -> forallb f (dropLeadingAt args) = true.
Proof.
  unfold dropLeadingAt. destruct args as [|c r]; [auto|].
  cbn [isEmpty negb andb]. change (unicodeAt (c :: r) 0) with c.
  destruct (c =? ch_at); [|auto].
  change (removeAt (c :: r) 0 1) with r. cbn [forallb]. intros H.
  apply andb_true_iff in H. tauto.
Qed.

Lemma crtQuoteOpen_no_quote (w : QString) : forall inquote n,
  lacks ch_dquote w = true -> crtQuoteOpen w inquote n = inquote.
Proof.
  induction w as [|c r IH]; intros inquote n Hw; [reflexivity|].
  rewrite lacks_cons in Hw. apply andb_true_iff in Hw as [Hc Hw].
  apply negb_true_iff in Hc. cbn [crtQuoteOpen]. rewrite Hc.
  destruct (c =? ch_bslash); apply IH, Hw.
Qed.

Lemma crtQuoteOpen_after_quote (w : QString) :
  lacks ch_dquote w = true -> crtQuoteOpen (ch_dquote :: w) false 0 = true.
Proof.
  intros Hw. cbn [crtQuoteOpen]. change (ch_dquote =? ch_bslash) with false.
  change (ch_dquote =? ch_dquote) with true. cbn iota.
  change (Z.land 0 1 =? 0) with true. cbn iota. apply crtQuoteOpen_no_quote, Hw.
Qed.

Lemma prepareArgsWin_open_quote `{QtServices} (env : option Environment)
    (pwd : option QString) (w : QString) :
  lacks ch_dquote w = true -> lacks ch_percent w = true ->
  prepareArgsWin (ch_dquote :: w) env pwd = Some (SplitOk, ch_dquote :: w).
Proof.
  intros Hw Hpercent.
  assert (Hp : lacks ch_percent (ch_dquote :: w) = true)
    by (rewrite lacks_cons, Hpercent; reflexivity).
  replace (prepareArgsWin (ch_dquote :: w) env pwd)
    with (preparedFrom [] (stripCarets (dropLeadingAt (ch_dquote :: w)))).
  2:{ destruct env as [e|].
      - rewrite prepareArgsWin_env, expandPercent_none by exact Hp. reflexivity.
      - rewrite prepareArgsWin_noenv, Hp. reflexivity. }
  unfold dropLeadingAt. cbn [isEmpty negb andb].
  change (unicodeAt (ch_dquote :: w) 0) with ch_dquote.
  cbn [Z.eqb ch_dquote ch_at Pos.eqb]. cbn [stripCarets].
  change (ch_dquote =? ch_caret) with false. change (ch_dquote =? ch_dquote) with true.
  cbn iota. rewrite stripCaretsQuoted_none by exact Hw. reflexivity.
Qed.

Lemma doSplitArgsWin_open (args : QString) :
  crtQuoteOpen args false 0 = true -> doSplitArgsWin args = Some ([], BadQuoting).
Proof.
  intros Hopen. destruct (doSplitArgsWin_outcome args) as [words Hwords].
  rewrite Hopen in Hwords. exact Hwords.
Qed.

Lemma splitArgsWin_expanded_open `{QtServices} (args : QString) (err : option SplitError)
    (env : option Environment) (pwd : option QString) (expanded : QString) :
  match env with Some e => envExpandWin args e pwd | None => Some args end = Some expanded ->
  crtQuoteOpen expanded false 0 = true ->
  splitArgs args OsTypeWindows false err env pwd
  = Some ([], match err with Some _ => Some BadQuoting | None => None end).
Proof.
  intros Hexp Hopen. unfold splitArgs, splitArgsWin. cbn [isWindows].
  rewrite Hexp, (doSplitArgsWin_open _ Hopen). reflexivity.
Qed.

Lemma splitArgsWin_prepared_open `{QtServices} (args : QString) (env : option Environment)
    (pwd : option QString) (prepared : QString) :
  prepareArgsWin args env pwd = Some (SplitOk, prepared) ->
  crtQuoteOpen prepared false 0 = true ->
  splitArgs args OsTypeWindows true None env pwd = Some ([], None)
  /\ splitArgs args OsTypeWindows true (Some SplitOk) env pwd = Some ([], Some BadQuoting).
Proof.
  intros Hprep Hopen. unfold splitArgs, splitArgsWin. cbn [isWindows].
  rewrite Hprep. cbn [SplitError_eqb negb]. rewrite (doSplitArgsWin_open _ Hopen).
  split; reflexivity.
Qed.

(** C3, as amended: only the first phase accepts a quote that is still
    open at the end of the string; the tokenizer does not.
    - Whenever the string given to doSplitArgsWin ends inside a
      double-quoted section, by the rules of the C runtime, it stores
      BadQuoting and returns no words.
    - Without abortOnMeta splitArgs on Windows gives the tokenizer the
      string with its references to variables expanded (the string
      itself when there is no environment): whenever that string ends
      inside a double-quoted section, splitArgs returns no words and
      stores BadQuoting where an error can be stored.
    - With abortOnMeta it gives the tokenizer the string that
      prepareArgsWin returns: whenever prepareArgsWin stores SplitOk
      and the string it returns ends inside a double-quoted section,
      splitArgs returns no words, and stores BadQuoting when the error
      passed in holds SplitOk.
    - On a double quote followed by text without double quote and
      percent sign, with any environment, prepareArgsWin stores SplitOk
      and returns the string as it is, and splitArgs returns no words
      and stores BadQuoting, with abortOnMeta and without. *)
Theorem splitArgsWin_open_quote_is_BadQuoting `{QtServices} (args : QString)
    (pwd : option QString) :
  (crtQuoteOpen args false 0 = true -> doSplitArgsWin args = Some ([], BadQuoting))
  /\ (forall env expanded,
        match env with Some e => envExpandWin args e pwd | None => Some args end
        = Some expanded ->
        crtQuoteOpen expanded false 0 = true ->
        splitArgs args OsTypeWindows false None env pwd = Some ([], None)
        /\ forall e0, splitArgs args OsTypeWindows false (Some e0) env pwd
                      = Some ([], Some BadQuoting))
  /\ (forall env prepared,
        prepareArgsWin args env pwd = Some (SplitOk, prepared) ->
        crtQuoteOpen prepared false 0 = true ->
        splitArgs args OsTypeWindows true None env pwd = Some ([], None)
        /\ splitArgs args OsTypeWindows true (Some SplitOk) env pwd
           = Some ([], Some BadQuoting))
  /\ (forall env w, lacks ch_dquote w = true -> lacks ch_percent w = true ->
        prepareArgsWin (ch_dquote :: w) env pwd = Some (SplitOk, ch_dquote :: w)
        /\ crtQuoteOpen (ch_dquote :: w) false 0 = true
        /\ forall abortOnMeta,
             splitArgs (ch_dquote :: w) OsTypeWindows abortOnMeta (Some SplitOk) env pwd
             = Some ([], Some BadQuoting)).
Proof.
  split; [apply doSplitArgsWin_open|]. split; [|split].
  - intros env expanded Hexp Hopen. split; [|intros e0].
    + apply (splitArgsWin_expanded_open _ None _ _ _ Hexp Hopen).
    + apply (splitArgsWin_expanded_open _ (Some e0) _ _ _ Hexp Hopen).
  - intros env prepared. apply splitArgsWin_prepared_open.
  - intros env w Hw Hpercent.
    pose proof (prepareArgsWin_open_quote env pwd w Hw Hpercent) as Hprep.
    pose proof (crtQuoteOpen_after_quote w Hw) as Hopen.
    split; [exact Hprep|]. split; [exact Hopen|].
    intros [|].
    + apply (splitArgsWin_prepared_open _ _ _ _ Hprep Hopen).
    + apply (splitArgsWin_expanded_open _ (Some SplitOk) env pwd (ch_dquote :: w)); [|exact Hopen].
      destruct env as [e|]; [|reflexivity].
      rewrite envExpandWin_scan, expandPercent_none
        by (rewrite lacks_cons, Hpercent; reflexivity).
      reflexivity.
Qed.

(** C9, as amended: a first reference whose value is empty keeps its
    opening percent sign and its name; its closing percent sign, with
    what follows it, becomes what envExpandWin makes of that rest on its
    own, so it stays too unless it opens a reference that has a value.
    When no closing sign follows, or when no name has a value, the
    string is unchanged.  The percent sign is no metacharacter of
    prepareArgsWin: with an environment, a string whose expansion has
    none of the metacharacters is accepted with SplitOk. *)
Theorem envExpandWin_keeps_unknown_reference `{QtServices} (env : Environment)
    (pwd : option QString) (pre name post : QString) :
  lacks ch_percent pre = true ->
  lacks ch_percent name = true ->
  envValueWin env pwd (toUpper name) = [] ->
  (exists tail,
     envExpandWin (ch_percent :: post) env pwd = Some tail
     /\ envExpandWin (pre ++ ch_percent :: name ++ ch_percent :: post) env pwd
        = Some (pre ++ ch_percent :: name ++ tail))
  /\ (lacks ch_percent post = true ->
      envExpandWin (pre ++ ch_percent :: name ++ ch_percent :: post) env pwd
      = Some (pre ++ ch_percent :: name ++ ch_percent :: post))
  /\ ((forall var, envValueWin env pwd var = []) ->
      forall args, envExpandWin args env pwd = Some args)
  /\ isMetaCharWin ch_percent = false
  /\ (forall args expanded,
        envExpandWin args env pwd = Some expanded ->
        forallb (fun c => negb (isMetaCharWin c)) expanded = true ->
        exists out, prepareArgsWin args (Some env) pwd = Some (SplitOk, out)).
Proof.
  intros Hpre Hname Hval.
  assert (Hwhole : envExpandWin (pre ++ ch_percent :: name ++ ch_percent :: post) env pwd
                   = Some (pre ++ ch_percent :: name
                           ++ expandPercent env pwd (ch_percent :: post))).
  { rewrite envExpandWin_scan, expandPercent_unknown by (try assumption; rewrite Hval; reflexivity).
    reflexivity. }
  split; [|split; [|split; [|split]]].
  - exists (expandPercent env pwd (ch_percent :: post)). split; [apply envExpandWin_scan | exact Hwhole].
  - intros Hpost. rewrite Hwhole. cbn [expandPercent]. rewrite Z.eqb_refl.
    rewrite expandAfterPercent_none by exact Hpost. reflexivity.
  - intros Hno args. rewrite envExpandWin_scan.
    rewrite (proj1 (expandPercent_all_unknown env pwd Hno args)). reflexivity.
  - reflexivity.
  - intros args expanded Hexp Hmeta. rewrite envExpandWin_scan in Hexp.
    injection Hexp as <-. rewrite prepareArgsWin_env.
    destruct (stripCarets_no_meta_upto _ _ (le_n _)
                (dropLeadingAt_forallb _ _ Hmeta)) as [[out ->] _].
    exists out. reflexivity.
Qed.


(** * The character tables *)

Lemma below_128_forall (P : Z -> bool) :
  forallb P (map Z.of_nat (seq 0 128)) = true ->
  forall c, 0 <= c < 128 -> P c = true.
Proof.
  intros Hall c Hc. rewrite forallb_forall in Hall. apply Hall.
  apply in_map_iff. exists (Z.to_nat c). split; [lia|].
  apply in_seq. lia.
Qed.

Lemma iqmLookup_range (iqm : list Z) (c : Z) :
  iqmLookup iqm c = true -> 0 <= c < Z.of_nat (List.length iqm) * 8.
Proof.
  unfold iqmLookup. intros H. apply andb_true_iff in H as [H _].
  apply andb_true_iff in H as [H1 H2]. apply Z.leb_le in H1. apply Z.ltb_lt in H2. lia.
Qed.

(** A property of the characters a 16-byte table marks, checked on the
    128 characters the table covers. *)
Lemma iqm16_marked (iqm : list Z) (P : Z -> bool) :
  List.length iqm = 16%nat ->
  forallb (fun c => implb (iqmLookup iqm c) (P c)) (map Z.of_nat (seq 0 128)) = true ->
  forall c, iqmLookup iqm c = true -> P c = true.
Proof.
  intros Hlen Hall c Hc. pose proof (iqmLookup_range iqm c Hc) as Hr. rewrite Hlen in Hr.
  pose proof (below_128_forall _ Hall c ltac:(lia)) as H. cbv beta in H.
  rewrite Hc in H. exact H.
Qed.

(** A property of the characters a 16-byte table does not mark. *)
Lemma iqm16_unmarked (iqm : list Z) (P : Z -> bool) :
  List.length iqm = 16%nat ->
  forallb (fun c => iqmLookup iqm c || P c) (map Z.of_nat (seq 0 128)) = true ->
  (forall c, c < 0 \/ 128 <= c -> P c = true) ->
  forall c, iqmLookup iqm c = false -> P c = true.
Proof.
  intros Hlen Hall Hout c Hc.
  destruct (Z_lt_dec c 0); [apply Hout; lia|].
  destruct (Z_le_dec 128 c); [apply Hout; lia|].
  pose proof (below_128_forall _ Hall c ltac:(lia)) as H. cbv beta in H.
  rewrite Hc in H. exact H.
Qed.


Lemma plainWin_outside (c : QChar) : c < 0 \/ 128 <= c -> plainWin c = true.
Proof.
  intros Hc. unfold plainWin, isWhiteSpaceWin, isMetaCharWin, iqmLookup.
  replace (c =? ch_dquote) with false by (symmetry; apply Z.eqb_neq; unfold ch_dquote; lia).
  replace (c =? ch_caret) with false by (symmetry; apply Z.eqb_neq; unfold ch_caret; lia).
  replace (c =? ch_space) with false by (symmetry; apply Z.eqb_neq; unfold ch_space; lia).
  replace (c =? ch_tab) with false by (symmetry; apply Z.eqb_neq; unfold ch_tab; lia).
  cbn [List.length negb andb orb].
  destruct Hc as [Hc | Hc].
  - replace (0 <=? c) with false by (symmetry; apply Z.leb_gt; lia). reflexivity.
  - replace (c <? Z.of_nat 16 * 8) with false by (symmetry; apply Z.ltb_ge; lia).
    rewrite andb_false_r. reflexivity.
Qed.

Lemma isSpecialCharWin_plain (c : QChar) : isSpecialCharWin c = false -> plainWin c = true.
Proof.
  apply (iqm16_unmarked _ plainWin); [reflexivity | vm_compute; reflexivity|].
  apply plainWin_outside.
Qed.

Lemma hasSpecialCharsWin_plain (s : QString) :
  hasSpecialCharsWin s = false -> forallb plainWin s = true.
Proof.
  unfold hasSpecialCharsWin. rewrite existsb_rev. induction s as [|c r IH]; [reflexivity|].
  cbn [existsb forallb]. intros H. apply orb_false_iff in H as [Hc Hr].
  rewrite (isSpecialCharWin_plain c Hc), IH by exact Hr. reflexivity.
Qed.

(** * The shape of a quoted argument *)

Lemma repeat_snoc {A} (x : A) (n : nat) : repeat x n ++ [x] = x :: repeat x n.
Proof. induction n as [|n IH]; [reflexivity|]. cbn. rewrite IH. reflexivity. Qed.

Lemma beforeTrailingBslashes_run (P : QString) (n : nat) : forall m,
  (last P 0 =? ch_bslash) = false -> (m <= n)%nat ->
  beforeTrailingBslashes (P ++ repeat ch_bslash n) (List.length P + m) = List.length P.
Proof.
  intros m HP. induction m as [|m IH]; intros Hm.
  - rewrite Nat.add_0_r. destruct P as [|x P'] using rev_ind; [reflexivity|].
    rewrite last_last in HP. rewrite length_app. cbn [List.length].
    rewrite Nat.add_1_r. cbn [beforeTrailingBslashes].
    rewrite <- app_assoc. rewrite app_nth2 by lia. rewrite Nat.sub_diag. cbn [app nth].
    rewrite HP. reflexivity.
  - rewrite Nat.add_succ_r. cbn [beforeTrailingBslashes].
    rewrite app_nth2 by lia.
    replace (List.length P + m - List.length P)%nat with m by lia.
    rewrite nth_repeat_lt by lia. rewrite Z.eqb_refl. apply IH. lia.
Qed.

Lemma closeQuote_run (P : QString) (n : nat) :
  (last P 0 =? ch_bslash) = false ->
  insertAt (P ++ repeat ch_bslash n)
    (Z.of_nat (beforeTrailingBslashes (P ++ repeat ch_bslash n)
                 (List.length (P ++ repeat ch_bslash n)))) [ch_dquote]
  = P ++ ch_dquote :: repeat ch_bslash n.
Proof.
  intros HP. rewrite length_app, repeat_length.
  rewrite beforeTrailingBslashes_run by (try exact HP; lia).
  apply (insertAt_prefix P (repeat ch_bslash n) [ch_dquote]).
Qed.

Lemma escapeQuotesWin_close (s : QString) : forall P n,
  (last P 0 =? ch_bslash) = false ->
  insertAt (P ++ escapeQuotesWin s n)
    (Z.of_nat (beforeTrailingBslashes (P ++ escapeQuotesWin s n)
                 (List.length (P ++ escapeQuotesWin s n)))) [ch_dquote]
  = P ++ quoteTailWin true s n.
Proof.
  induction s as [|c r IH]; intros P n HP; cbn [escapeQuotesWin quoteTailWin].
  - apply closeQuote_run, HP.
  - destruct (c =? ch_bslash) eqn:Ebs; [apply IH, HP|].
    destruct (c =? ch_dquote) eqn:Edq.
    + specialize (IH (P ++ [ch_dquote] ++ repeat ch_bslash n ++ repeat ch_bslash n
                        ++ [ch_bslash; ch_caret; ch_dquote; ch_dquote]) 0%nat).
      repeat rewrite <- app_assoc in IH. cbn [app] in IH.
      cbn [app]. repeat rewrite <- app_assoc. cbn [app].
      rewrite IH; [reflexivity|].
      replace (P ++ ch_dquote :: repeat ch_bslash n ++ repeat ch_bslash n
                 ++ [ch_bslash; ch_caret; ch_dquote; ch_dquote])
        with ((P ++ ch_dquote :: repeat ch_bslash n ++ repeat ch_bslash n
                 ++ [ch_bslash; ch_caret; ch_dquote]) ++ [ch_dquote])
        by (repeat (rewrite <- app_assoc; cbn [app]); reflexivity).
      rewrite last_last. reflexivity.
    + specialize (IH (P ++ repeat ch_bslash n ++ [c]) 0%nat).
      repeat rewrite <- app_assoc in IH. cbn [app] in IH.
      rewrite IH; [reflexivity|].
      replace (P ++ repeat ch_bslash n ++ [c]) with ((P ++ repeat ch_bslash n) ++ [c])
        by (rewrite <- app_assoc; reflexivity).
      rewrite last_last. exact Ebs.
Qed.

Lemma quoteArgWin_special (s : QString) :
  isEmpty s = false -> hasSpecialCharsWin s = true ->
  quoteArgWin s = ch_dquote :: quoteTailWin true s 0.
Proof.
  intros Hne Hsp. unfold quoteArgWin. rewrite Hne, Hsp. f_equal.
  apply (escapeQuotesWin_close s [] 0%nat). reflexivity.
Qed.

Lemma quoteArgWin_plain (s : QString) :
  isEmpty s = false -> hasSpecialCharsWin s = false -> quoteArgWin s = s.
Proof. intros Hne Hsp. unfold quoteArgWin. rewrite Hne, Hsp. reflexivity. Qed.

Lemma quoteTailWin_no_quote (s : QString) : forall n,
  lacks ch_dquote s = true -> quoteTailWin true s n = quoteTailWin false s n.
Proof.
  induction s as [|c r IH]; intros n Hs; [reflexivity|].
  rewrite lacks_cons in Hs. apply andb_true_iff in Hs as [Hc Hs].
  apply negb_true_iff in Hc. cbn [quoteTailWin]. rewrite Hc.
  destruct (c =? ch_bslash); rewrite IH by exact Hs; reflexivity.
Qed.

Lemma lacks_repeat (c x : QChar) (n : nat) : (x =? c) = false -> lacks c (repeat x n) = true.
Proof.
  intros Hx. induction n as [|n IH]; [reflexivity|].
  cbn [repeat]. rewrite lacks_cons, Hx, IH. reflexivity.
Qed.

Lemma quoteTailWin_lacks_percent (caret : bool) (s : QString) : forall n,
  lacks ch_percent s = true -> lacks ch_percent (quoteTailWin caret s n) = true.
Proof.
  induction s as [|c r IH]; intros n Hs; cbn [quoteTailWin].
  - rewrite lacks_cons, lacks_repeat; reflexivity.
  - rewrite lacks_cons in Hs. apply andb_true_iff in Hs as [Hc Hs].
    destruct (c =? ch_bslash); [apply IH, Hs|].
    destruct (c =? ch_dquote).
    + rewrite !lacks_app, !lacks_repeat, IH by (try exact Hs; reflexivity).
      destruct caret; reflexivity.
    + rewrite lacks_app, lacks_cons, lacks_repeat, Hc, IH by (try exact Hs; reflexivity).
      reflexivity.
Qed.

(** * The two phases on a quoted argument *)

Lemma stripCarets_bslashes (n : nat) (X : QString) :
  stripCarets (repeat ch_bslash n ++ X) = option_map (app (repeat ch_bslash n)) (stripCarets X).
Proof.
  induction n as [|n IH]; [cbn; destruct (stripCarets X); reflexivity|].
  cbn [repeat app stripCarets]. change (ch_bslash =? ch_caret) with false.
  change (ch_bslash =? ch_dquote) with false. change (isMetaCharWin ch_bslash) with false.
  cbn iota. rewrite IH. destruct (stripCarets X); reflexivity.
Qed.

Lemma stripCaretsQuoted_bslashes (n : nat) (X : QString) :
  stripCaretsQuoted (repeat ch_bslash n ++ X)
  = option_map (app (repeat ch_bslash n)) (stripCaretsQuoted X).
Proof.
  induction n as [|n IH]; [cbn; destruct (stripCaretsQuoted X); reflexivity|].
  cbn [repeat app stripCaretsQuoted]. change (ch_bslash =? ch_dquote) with false.
  cbn iota. rewrite IH. destruct (stripCaretsQuoted X); reflexivity.
Qed.

Lemma stripCarets_quoteTail (s : QString) : forall n,
  stripCaretsQuoted (quoteTailWin true s n) = Some (quoteTailWin false s n).
Proof.
  induction s as [|c r IH]; intros n; cbn [quoteTailWin].
  - cbn [stripCaretsQuoted]. rewrite Z.eqb_refl.
    pose proof (stripCarets_bslashes n []) as Hs. rewrite app_nil_r in Hs. rewrite Hs.
    cbn. rewrite app_nil_r. reflexivity.
  - destruct (c =? ch_bslash) eqn:Ebs; [apply IH|].
    destruct (c =? ch_dquote) eqn:Edq.
    + cbn [app stripCaretsQuoted]. rewrite Z.eqb_refl.
      rewrite !stripCarets_bslashes. cbn [app stripCarets].
      change (ch_bslash =? ch_caret) with false. change (ch_bslash =? ch_dquote) with false.
      change (isMetaCharWin ch_bslash) with false. rewrite Z.eqb_refl. cbn iota.
      change (ch_dquote =? ch_caret) with false. rewrite Z.eqb_refl. cbn iota.
      rewrite IH. reflexivity.
    + rewrite stripCaretsQuoted_bslashes. cbn [stripCaretsQuoted]. rewrite Edq, IH.
      reflexivity.
Qed.

Lemma stripCarets_plain (s : QString) : forallb plainWin s = true -> stripCarets s = Some s.
Proof.
  induction s as [|c r IH]; intros Hs; [reflexivity|].
  cbn [forallb] in Hs. apply andb_true_iff in Hs as [Hc Hs]. unfold plainWin in Hc.
  repeat (apply andb_true_iff in Hc as [Hc ?]).
  cbn [stripCarets].
  repeat match goal with H : negb _ = true |- _ => apply negb_true_iff in H; rewrite H end.
  rewrite IH by exact Hs. reflexivity.
Qed.

Lemma crtArg_bslashes (n : nat) (X : QString) (arg : QString) (inquote : bool) (m : Z) :
  crtArg (repeat ch_bslash n ++ X) arg inquote m = crtArg X arg inquote (m + Z.of_nat n).
Proof.
  revert m. induction n as [|n IH]; intros m.
  - cbn [repeat app]. f_equal. lia.
  - cbn [repeat app crtArg]. rewrite Z.eqb_refl, IH. f_equal. lia.
Qed.

Lemma appendBslashes_nat (arg : QString) (n : nat) :
  appendBslashes arg (Z.of_nat n) = arg ++ repeat ch_bslash n.
Proof. unfold appendBslashes. rewrite Nat2Z.id. reflexivity. Qed.

Lemma appendBslashes_zero (arg : QString) : appendBslashes arg 0 = arg.
Proof. apply (eq_trans (appendBslashes_nat arg 0)), app_nil_r. Qed.

Lemma odd_run (n : nat) :
  (Z.land (Z.of_nat (n + n + 1)) 1 =? 0) = false
  /\ Z.shiftr (Z.of_nat (n + n + 1)) 1 = Z.of_nat n.
Proof.
  split.
  - apply Z.eqb_neq. change 1 with (Z.ones 1) at 1. rewrite Z.land_ones by lia.
    change (2 ^ 1) with 2. replace (Z.of_nat (n + n + 1)) with (1 + Z.of_nat n * 2) by lia.
    rewrite Z_mod_plus_full. cbn. lia.
  - rewrite Z.shiftr_div_pow2 by lia. change (2 ^ 1) with 2.
    replace (Z.of_nat (n + n + 1)) with (1 + Z.of_nat n * 2) by lia.
    rewrite Z_div_plus_full by lia. cbn. lia.
Qed.

Lemma double_run (n : nat) (X : QString) :
  repeat ch_bslash n ++ repeat ch_bslash n ++ ch_bslash :: X
  = ch_bslash :: repeat ch_bslash (n + n) ++ X.
Proof.
  change (ch_bslash :: X) with ([ch_bslash] ++ X).
  rewrite !app_assoc, <- repeat_app, repeat_snoc. reflexivity.
Qed.

(** Inside the quotes the tokenizer reads the argument back. *)
Lemma crtArg_quoteTail (s : QString) : forall n arg,
  crtArg (quoteTailWin false s n) arg true 0 = inl (arg ++ repeat ch_bslash n ++ s, []).
Proof.
  induction s as [|c r IH]; intros n arg; cbn [quoteTailWin].
  - cbn [crtArg]. change (ch_dquote =? ch_bslash) with false. rewrite Z.eqb_refl.
    change (Z.land 0 1 =? 0) with true. cbn iota. rewrite appendBslashes_zero.
    destruct n as [|n].
    + cbn [repeat crtArg app]. rewrite appendBslashes_zero, app_nil_r. reflexivity.
    + cbn [repeat]. change (ch_bslash =? ch_dquote) with false. cbn iota.
      replace (ch_bslash :: repeat ch_bslash n) with (repeat ch_bslash (S n) ++ [])
        by (rewrite app_nil_r; reflexivity).
      rewrite crtArg_bslashes. cbn [crtArg]. cbn [Z.add].
      rewrite appendBslashes_nat, !app_nil_r. reflexivity.
  - destruct (c =? ch_bslash) eqn:Ebs.
    + apply Z.eqb_eq in Ebs. subst c. rewrite IH. cbn [repeat].
      rewrite <- repeat_snoc, <- !app_assoc. reflexivity.
    + destruct (c =? ch_dquote) eqn:Edq.
      * apply Z.eqb_eq in Edq. subst c. cbn [app crtArg].
        change (ch_dquote =? ch_bslash) with false. rewrite Z.eqb_refl.
        change (Z.land 0 1 =? 0) with true. cbn iota. rewrite appendBslashes_zero.
        replace (repeat ch_bslash n ++ repeat ch_bslash n
                 ++ ch_bslash :: ch_dquote :: ch_dquote :: quoteTailWin false r 0)
          with (ch_bslash :: repeat ch_bslash (n + n)
                ++ ch_dquote :: ch_dquote :: quoteTailWin false r 0).
        2:{ symmetry. apply double_run. }
        change (ch_bslash =? ch_dquote) with false. cbn iota.
        change (ch_bslash :: repeat ch_bslash (n + n)
                ++ ch_dquote :: ch_dquote :: quoteTailWin false r 0)
          with (repeat ch_bslash (S (n + n))
                ++ ch_dquote :: ch_dquote :: quoteTailWin false r 0).
        rewrite crtArg_bslashes. cbn [crtArg].
        change (ch_dquote =? ch_bslash) with false. rewrite Z.eqb_refl.
        replace (0 + Z.of_nat (S (n + n))) with (Z.of_nat (n + n + 1)) by lia.
        destruct (odd_run n) as [-> ->]. rewrite appendBslashes_nat.
        change (Z.land 0 1 =? 0) with true. cbn iota. rewrite appendBslashes_zero, IH.
        cbn [repeat app]. rewrite <- !app_assoc. reflexivity.
      * change (repeat ch_bslash n ++ c :: quoteTailWin false r 0)
          with (repeat ch_bslash n ++ (c :: quoteTailWin false r 0)).
        rewrite crtArg_bslashes. cbn [crtArg]. rewrite Ebs, Edq. cbn [negb andb Z.add].
        rewrite appendBslashes_nat, IH. cbn [repeat app]. rewrite <- !app_assoc.
        reflexivity.
Qed.

(** Outside quotes the tokenizer copies plain characters. *)
Lemma crtArg_plain (s : QString) : forall n arg,
  forallb plainWin s = true ->
  crtArg s arg false (Z.of_nat n) = inl (arg ++ repeat ch_bslash n ++ s, []).
Proof.
  induction s as [|c r IH]; intros n arg Hs.
  - cbn [crtArg]. rewrite appendBslashes_nat, app_nil_r. reflexivity.
  - cbn [forallb] in Hs. apply andb_true_iff in Hs as [Hc Hs]. unfold plainWin in Hc.
    repeat (apply andb_true_iff in Hc as [Hc ?]).
    repeat match goal with H : negb _ = true |- _ => apply negb_true_iff in H end.
    cbn [crtArg]. destruct (c =? ch_bslash) eqn:Ebs.
    + apply Z.eqb_eq in Ebs. subst c.
      replace (Z.of_nat n + 1) with (Z.of_nat (S n)) by lia. rewrite IH by exact Hs.
      cbn [repeat]. rewrite <- repeat_snoc, <- !app_assoc. reflexivity.
    + rewrite Hc. cbn [negb andb].
      match goal with H : isWhiteSpaceWin c = false |- _ => rewrite H end.
      rewrite appendBslashes_nat. change 0 with (Z.of_nat 0). rewrite IH by exact Hs.
      cbn [repeat app]. rewrite <- !app_assoc. reflexivity.
Qed.

(** * Quoting and splitting on Windows *)

Lemma prepareArgsWin_no_percent `{QtServices} (args : QString) (env : option Environment)
    (pwd : option QString) :
  lacks ch_percent args = true ->
  prepareArgsWin args env pwd = preparedFrom [] (stripCarets (dropLeadingAt args)).
Proof.
  intros Hp. destruct env as [e|].
  - rewrite prepareArgsWin_env, expandPercent_none by exact Hp. reflexivity.
  - rewrite prepareArgsWin_noenv, Hp. reflexivity.
Qed.

Lemma plainWin_head (c : QChar) (r : QString) :
  forallb plainWin (c :: r) = true -> isWhiteSpaceWin c = false.
Proof.
  cbn [forallb]. intros H. apply andb_true_iff in H as [Hc _]. unfold plainWin in Hc.
  apply andb_true_iff in Hc as [_ Hc]. apply negb_true_iff in Hc. exact Hc.
Qed.

(** The tokenizer reads one argument back from what the first phase
    leaves of its quoted form. *)
Lemma doSplitArgsWin_quoted (s : QString) :
  doSplitArgsWin
    (if isEmpty s then [ch_dquote; ch_dquote]
     else if hasSpecialCharsWin s then ch_dquote :: quoteTailWin false s 0 else s)
  = Some ([s], SplitOk).
Proof.
  destruct s as [|c r]; [reflexivity|]. cbn [isEmpty].
  destruct (hasSpecialCharsWin (c :: r)) eqn:Hsp.
  - apply doSplitArgsWin_single; [reflexivity|].
    cbn [crtArg]. change (ch_dquote =? ch_bslash) with false. rewrite Z.eqb_refl.
    change (Z.land 0 1 =? 0) with true. cbn iota. rewrite appendBslashes_zero.
    apply (crtArg_quoteTail (c :: r) 0 []).
  - pose proof (hasSpecialCharsWin_plain _ Hsp) as Hplain.
    apply doSplitArgsWin_single; [eapply plainWin_head; exact Hplain|].
    apply (crtArg_plain (c :: r) 0 [] Hplain).
Qed.

(** What the first phase leaves of a quoted argument without percent
    sign that is quoted or does not start with [@]. *)
Lemma prepareArgsWin_quoted `{QtServices} (s : QString) (env : option Environment)
    (pwd : option QString) :
  lacks ch_percent s = true ->
  hasSpecialCharsWin s || negb (hd 0 s =? ch_at) = true ->
  prepareArgsWin (quoteArgWin s) env pwd
  = Some (SplitOk,
          if isEmpty s then [ch_dquote; ch_dquote]
          else if hasSpecialCharsWin s then ch_dquote :: quoteTailWin false s 0 else s).
Proof.
  intros Hp Hat. destruct s as [|c r].
  - rewrite prepareArgsWin_no_percent by reflexivity. reflexivity.
  - cbn [isEmpty]. destruct (hasSpecialCharsWin (c :: r)) eqn:Hsp.
    + rewrite quoteArgWin_special by (try exact Hsp; reflexivity).
      rewrite prepareArgsWin_no_percent
        by (rewrite lacks_cons, quoteTailWin_lacks_percent by exact Hp; reflexivity).
      unfold dropLeadingAt. cbn [isEmpty negb andb].
      change (unicodeAt (ch_dquote :: quoteTailWin true (c :: r) 0) 0) with ch_dquote.
      change (ch_dquote =? ch_at) with false. cbn iota.
      cbn [stripCarets]. change (ch_dquote =? ch_caret) with false. rewrite Z.eqb_refl.
      cbn iota. rewrite stripCarets_quoteTail. reflexivity.
    + rewrite quoteArgWin_plain by (try exact Hsp; reflexivity).
      rewrite prepareArgsWin_no_percent by exact Hp.
      unfold dropLeadingAt. cbn [isEmpty negb andb]. change (unicodeAt (c :: r) 0) with c.
      cbn [orb hd] in Hat. apply negb_true_iff in Hat. rewrite Hat.
      rewrite stripCarets_plain by (apply hasSpecialCharsWin_plain, Hsp). reflexivity.
Qed.

(** Without the first phase the tokenizer reads the argument back when
    it has no double quote. *)
Lemma doSplitArgsWin_quoteArgWin (s : QString) :
  lacks ch_dquote s = true -> doSplitArgsWin (quoteArgWin s) = Some ([s], SplitOk).
Proof.
  intros Hq. pose proof (doSplitArgsWin_quoted s) as Hsplit.
  destruct s as [|c r]; [reflexivity|]. cbn [isEmpty] in Hsplit.
  destruct (hasSpecialCharsWin (c :: r)) eqn:Hsp.
  - rewrite quoteArgWin_special, quoteTailWin_no_quote by (try assumption; reflexivity).
    exact Hsplit.
  - rewrite quoteArgWin_plain by (try assumption; reflexivity). exact Hsplit.
Qed.


(** * The Unix lexer on plain and on single-quoted text *)

Lemma isSpecialCharUnix_not (c : QChar) :
  isSpecialCharUnix c = false ->
  (c =? ch_squote) = false /\ (c =? ch_dquote) = false /\ (c =? ch_dollar) = false
  /\ (c =? ch_bslash) = false /\ (c =? ch_tilde) = false /\ isMetaUnix c = false.
Proof.
  intros Hc.
  assert (H : negb (c =? ch_squote) && negb (c =? ch_dquote) && negb (c =? ch_dollar)
              && negb (c =? ch_bslash) && negb (c =? ch_tilde) && negb (isMetaUnix c)
              = true).
  { revert c Hc.
    apply (iqm16_unmarked _
      (fun c => negb (c =? ch_squote) && negb (c =? ch_dquote) && negb (c =? ch_dollar)
                && negb (c =? ch_bslash) && negb (c =? ch_tilde) && negb (isMetaUnix c)));
      [reflexivity | vm_compute; reflexivity|].
    intros c Hc. unfold isMetaUnix, iqmLookup.
    replace (c =? ch_squote) with false by (symmetry; apply Z.eqb_neq; unfold ch_squote; lia).
    replace (c =? ch_dquote) with false by (symmetry; apply Z.eqb_neq; unfold ch_dquote; lia).
    replace (c =? ch_dollar) with false by (symmetry; apply Z.eqb_neq; unfold ch_dollar; lia).
    replace (c =? ch_bslash) with false by (symmetry; apply Z.eqb_neq; unfold ch_bslash; lia).
    replace (c =? ch_tilde) with false by (symmetry; apply Z.eqb_neq; unfold ch_tilde; lia).
    cbn [List.length negb andb]. destruct Hc as [Hc | Hc].
    - replace (0 <=? c) with false by (symmetry; apply Z.leb_gt; lia). reflexivity.
    - replace (c <? Z.of_nat 16 * 8) with false by (symmetry; apply Z.ltb_ge; lia).
      rewrite andb_false_r. reflexivity. }
  repeat (apply andb_true_iff in H as [H ?]).
  repeat match goal with X : negb _ = true |- _ => apply negb_true_iff in X end.
  repeat split; assumption.
Qed.

Section UnixLexer.
Context `{QtServices}.

(** The spaces of ASCII are among the special characters. *)
Lemma isSpace_ascii_special (c : QChar) :
  c < 128 -> isSpace c = true -> isSpecialCharUnix c = true.
Proof.
  intros Hc Hs. unfold isSpace in Hs.
  replace (127 <? c) with false in Hs by (symmetry; apply Z.ltb_ge; lia).
  rewrite andb_false_l, orb_false_r in Hs.
  assert (Hr : 9 <= c <= 32).
  { apply orb_true_iff in Hs as [Hs | Hs].
    - apply Z.eqb_eq in Hs. lia.
    - apply andb_true_iff in Hs as [H1 H2]. apply Z.leb_le in H1, H2. lia. }
  pose proof (below_128_forall (fun c => negb ((9 <=? c) && (c <=? 32)) || isSpecialCharUnix c)
           ltac:(vm_compute; reflexivity) c ltac:(lia)) as Hall.
  cbv beta in Hall.
  replace (9 <=? c) with true in Hall by (symmetry; apply Z.leb_le; lia).
  replace (c <=? 32) with true in Hall by (symmetry; apply Z.leb_le; lia).
  exact Hall.
Qed.

Lemma plainUnix_of_unquoted (c : QChar) :
  isSpecialCharUnix c = false -> negb (isSpace c) || (c <? 128) = true ->
  plainUnix c = true /\ (c =? ch_tilde) = false.
Proof.
  intros Hsp Hascii. destruct (isSpecialCharUnix_not c Hsp) as (H1 & H2 & H3 & H4 & H5 & H6).
  unfold plainUnix. rewrite H1, H2, H3, H4, H6. cbn [negb andb].
  split; [|exact H5]. rewrite !andb_true_r. apply negb_true_iff.
  destruct (isSpace c) eqn:Es; [|reflexivity].
  cbn [negb orb] in Hascii. apply Z.ltb_lt in Hascii.
  rewrite (isSpace_ascii_special c Hascii Es) in Hsp. discriminate.
Qed.

Variable abortOnMeta : bool.
Variable env : option Environment.
Variable pwd : option QString.

Local Abbreviation nextc := (splitUnix_nextc abortOnMeta env pwd).
Local Abbreviation body := (splitUnix_body abortOnMeta env pwd).

(** One plain character in the inner loop. *)
Lemma splitUnix_body_plain (k : QChar -> QString -> QString -> bool -> QStringList -> Lex QStringList)
    (c : QChar) (rest cret : QString) (hadWord : bool) (ret : QStringList) :
  plainUnix c = true ->
  body k c rest cret hadWord ret = splitUnix_getc k rest (cret ++ [c]) true ret.
Proof.
  unfold plainUnix. intros Hc. repeat (apply andb_true_iff in Hc as [Hc ?]).
  repeat match goal with X : negb _ = true |- _ => apply negb_true_iff in X end.
  unfold splitUnix_body.
  repeat match goal with X : (c =? _) = false |- _ => rewrite X end.
  match goal with X : isMetaUnix c = false |- _ => rewrite X end.
  rewrite andb_false_r. reflexivity.
Qed.

(** A run of plain characters is copied to the current word. *)
Lemma splitUnix_getc_plain (w : QString) : forall fuel rest cret hadWord ret,
  forallb plainUnix w = true -> (List.length w <= fuel)%nat ->
  splitUnix_getc (nextc fuel) (w ++ rest) cret hadWord ret
  = splitUnix_getc (nextc (fuel - List.length w)) rest (cret ++ w)
      (match w with [] => hadWord | _ => true end) ret.
Proof.
  induction w as [|c w IH]; intros fuel rest cret hadWord ret Hw Hfuel.
  - cbn [app List.length]. rewrite Nat.sub_0_r, app_nil_r. reflexivity.
  - cbn [forallb] in Hw. apply andb_true_iff in Hw as [Hc Hw].
    cbn [List.length] in Hfuel. destruct fuel as [|fuel]; [lia|].
    cbn [app splitUnix_getc splitUnix_nextc].
    assert (Hsp : isSpace c = false).
    { unfold plainUnix in Hc. repeat (apply andb_true_iff in Hc as [Hc ?]).
      apply negb_true_iff in Hc. exact Hc. }
    rewrite Hsp, splitUnix_body_plain by exact Hc.
    rewrite IH by (try exact Hw; lia). cbn [List.length Nat.sub].
    rewrite <- app_assoc. destruct w; reflexivity.
Qed.

Lemma scanSingleQuoted_found (seg r : QString) :
  lacks ch_squote seg = true -> scanSingleQuoted (seg ++ ch_squote :: r) = Some (seg, r).
Proof.
  induction seg as [|c seg IH]; intros Hs.
  - cbn. reflexivity.
  - rewrite lacks_cons in Hs. apply andb_true_iff in Hs as [Hc Hs].
    apply negb_true_iff in Hc. cbn [app scanSingleQuoted]. rewrite Hc, IH by exact Hs.
    reflexivity.
Qed.

Lemma replaceChar_lacks (c : QChar) (after s : QString) :
  lacks c s = true -> replaceChar c after s = s.
Proof.
  induction s as [|x s IH]; intros Hs; [reflexivity|].
  rewrite lacks_cons in Hs. apply andb_true_iff in Hs as [Hx Hs].
  apply negb_true_iff in Hx. unfold replaceChar in *. cbn [flat_map]. rewrite Hx, IH by exact Hs.
  reflexivity.
Qed.

Lemma replaceChar_found (c : QChar) (after seg r : QString) :
  lacks c seg = true ->
  replaceChar c after (seg ++ c :: r) = seg ++ after ++ replaceChar c after r.
Proof.
  intros Hs. pose proof (replaceChar_lacks c after seg Hs) as Hl.
  unfold replaceChar in *. rewrite flat_map_app. f_equal; [exact Hl|].
  cbn [flat_map]. rewrite Z.eqb_refl. reflexivity.
Qed.

Lemma replaceChar_length (c : QChar) (after s : QString) :
  (List.length s <= List.length (replaceChar c after s) + 0)%nat \/ after = [].
Proof.
  destruct after as [|a after]; [right; reflexivity|]. left.
  induction s as [|x s IH]; [cbn; lia|].
  unfold replaceChar in *. cbn [flat_map]. destruct (x =? c); rewrite length_app;
    cbn [List.length] in *; lia.
Qed.

(** The text of a single-quoted section with its quote characters
    escaped is read back, whatever the modes of the lexer. *)
Lemma splitUnix_body_squoted (n : nat) : forall s fuel cret hadWord ret,
  (List.length s <= n)%nat ->
  (List.length (replaceChar ch_squote singleQuoteEscape s) < fuel)%nat ->
  body (nextc fuel) ch_squote (replaceChar ch_squote singleQuoteEscape s ++ [ch_squote])
    cret hadWord ret
  = Got (ret ++ [cret ++ s]).
Proof.
  induction n as [|n IH]; intros s fuel cret hadWord ret Hn Hfuel.
  - destruct s; [|cbn in Hn; lia]. cbn. rewrite app_nil_r. reflexivity.
  - unfold splitUnix_body. rewrite Z.eqb_refl.
    destruct (first_occurrence ch_squote s) as [Hnone | (seg & r & -> & Hseg)].
    + rewrite replaceChar_lacks by exact Hnone.
      rewrite scanSingleQuoted_found by exact Hnone. reflexivity.
    + rewrite replaceChar_found by exact Hseg. rewrite <- !app_assoc.
      unfold singleQuoteEscape at 1. cbn [app].
      rewrite scanSingleQuoted_found by exact Hseg.
      rewrite replaceChar_found, !length_app in Hfuel by exact Hseg.
      cbn [List.length singleQuoteEscape] in Hfuel.
      destruct fuel as [|[|fuel]]; try lia.
      cbn [splitUnix_getc splitUnix_nextc].
      replace (isSpace ch_bslash) with false by reflexivity.
      unfold splitUnix_body at 1.
      change (ch_bslash =? ch_squote) with false. change (ch_bslash =? ch_dquote) with false.
      change (ch_bslash =? ch_dollar) with false. cbn iota. rewrite Z.eqb_refl.
      cbn [splitUnix_getc splitUnix_nextc].
      replace (isSpace ch_squote) with false by reflexivity.
      rewrite IH.
      * rewrite <- !app_assoc. reflexivity.
      * rewrite length_app in Hn. cbn [List.length] in Hn. lia.
      * lia.
Qed.

(** Quoting an argument for the Unix lexer and splitting the result
    gives the argument back, when its only spaces are those of ASCII. *)
Lemma splitArgsUnix_quoteArgUnix (s : QString) :
  forallb (fun c => negb (isSpace c) || (c <? 128)) s = true ->
  splitArgsUnix abortOnMeta env pwd (quoteArgUnix s) = Some ([s], SplitOk).
Proof.
  intros Hascii. unfold quoteArgUnix. destruct s as [|c r]; [reflexivity|].
  cbn [isEmpty]. destruct (hasSpecialCharsUnix (c :: r)) eqn:Hsp.
  - unfold splitArgsUnix, splitUnix_word. cbn [app skipSpaces].
    replace (isSpace ch_squote) with false by reflexivity.
    change (ch_squote =? ch_tilde) with false. cbn iota.
    change [ch_squote; ch_bslash; ch_squote; ch_squote] with singleQuoteEscape.
    rewrite splitUnix_body_squoted with (n := List.length (c :: r)); [reflexivity | lia |].
    cbn [List.length]. rewrite length_app. cbn [List.length]. lia.
  - assert (Hplain : forallb plainUnix (c :: r) = true /\ (c =? ch_tilde) = false).
    { unfold hasSpecialCharsUnix in Hsp. rewrite existsb_rev in Hsp.
      split.
      - clear - Hsp Hascii. induction (c :: r) as [|x l IH]; [reflexivity|].
        cbn [existsb forallb] in *. apply orb_false_iff in Hsp as [Hx Hl].
        apply andb_true_iff in Hascii as [Hax Hal].
        rewrite (proj1 (plainUnix_of_unquoted x Hx Hax)), IH by assumption. reflexivity.
      - cbn [existsb forallb] in *. apply orb_false_iff in Hsp as [Hx _].
        apply andb_true_iff in Hascii as [Hax _].
        apply (proj2 (plainUnix_of_unquoted c Hx Hax)). }
    destruct Hplain as [Hplain Htilde]. cbn [forallb] in Hplain.
    apply andb_true_iff in Hplain as [Hc Hr].
    assert (Hsc : isSpace c = false).
    { unfold plainUnix in Hc. repeat (apply andb_true_iff in Hc as [Hc ?]).
      apply negb_true_iff in Hc. exact Hc. }
    unfold splitArgsUnix, splitUnix_word. cbn [skipSpaces]. rewrite Hsc, Htilde.
    rewrite splitUnix_body_plain by exact Hc.
    pose proof (splitUnix_getc_plain r (S (S (List.length (c :: r)))) [] ([] ++ [c]) true []
                  Hr ltac:(cbn [List.length]; lia)) as Hg.
    rewrite app_nil_r in Hg. rewrite Hg.
    cbn [splitUnix_getc app]. unfold endWord. destruct r; reflexivity.
Qed.
End UnixLexer.


(** * Quoting and splitting *)

Lemma quoteArgWin_lacks_percent (s : QString) :
  lacks ch_percent s = true -> lacks ch_percent (quoteArgWin s) = true.
Proof.
  intros Hp. destruct s as [|c r]; [reflexivity|].
  destruct (hasSpecialCharsWin (c :: r)) eqn:Hsp.
  - rewrite quoteArgWin_special by (try exact Hsp; reflexivity).
    rewrite lacks_cons, quoteTailWin_lacks_percent by exact Hp. reflexivity.
  - rewrite quoteArgWin_plain by (try exact Hsp; reflexivity). exact Hp.
Qed.

(** C1, as amended: quoting one argument and splitting the result gives
    back exactly that argument with SplitOk
    - under the Unix grammar, with and without abortOnMeta, for every
      argument whose only spaces are those of ASCII;
    - under the Windows grammar without abortOnMeta, for every argument
      without double quote (and without percent sign when an
      environment is given);
    - under the Windows grammar with abortOnMeta, for every argument
      without percent sign that is quoted or does not start with an at
      sign, when the caller passes no error variable or one that holds
      SplitOk. *)
Theorem quoteArg_splitArgs_round_trip `{QtServices} (s : QString) (pwd : option QString) :
  (forallb (fun c => negb (isSpace c) || (c <? 128)) s = true ->
   forall abortOnMeta e0 env,
     splitArgs (quoteArg s OsTypeLinux) OsTypeLinux abortOnMeta (Some e0) env pwd
     = Some ([s], Some SplitOk))
  /\ (lacks ch_dquote s = true ->
      forall e0 env,
        match env with Some _ => lacks ch_percent s | None => true end = true ->
        splitArgs (quoteArg s OsTypeWindows) OsTypeWindows false (Some e0) env pwd
        = Some ([s], Some SplitOk))
  /\ (lacks ch_percent s = true ->
      hasSpecialCharsWin s || negb (hd 0 s =? ch_at) = true ->
      forall env,
        splitArgs (quoteArg s OsTypeWindows) OsTypeWindows true (Some SplitOk) env pwd
        = Some ([s], Some SplitOk)
        /\ splitArgs (quoteArg s OsTypeWindows) OsTypeWindows true None env pwd
           = Some ([s], None)).
Proof.
  split; [|split].
  - intros Hascii abortOnMeta e0 env. unfold splitArgs, quoteArg. cbn [isWindows].
    rewrite splitArgsUnix_quoteArgUnix by exact Hascii. reflexivity.
  - intros Hq e0 env Henv. unfold splitArgs, quoteArg, splitArgsWin. cbn [isWindows].
    destruct env as [e|].
    + rewrite envExpandWin_scan, expandPercent_none
        by (apply quoteArgWin_lacks_percent, Henv).
      rewrite doSplitArgsWin_quoteArgWin by exact Hq. reflexivity.
    + rewrite doSplitArgsWin_quoteArgWin by exact Hq. reflexivity.
  - intros Hp Hat env. unfold splitArgs, quoteArg, splitArgsWin. cbn [isWindows].
    rewrite prepareArgsWin_quoted by assumption. cbn [SplitError_eqb negb].
    rewrite doSplitArgsWin_quoted. split; reflexivity.
Qed.


(** * Expansion of a variable by the Unix lexer *)

Lemma fields_start (v : QString) : startsField v = true -> fields v <> [].
Proof.
  destruct v as [|c r]; [discriminate|]. cbn [startsField fields]. intros Hc.
  apply negb_true_iff in Hc. rewrite Hc.
  destruct (startsField r); [destruct (fields r)|]; discriminate.
Qed.

(** The loop over the value, followed by the end of the word, yields
    the pieces of the value; a word begun before the expansion is
    continued by a value that starts with a piece. *)
Lemma splitValue_fields (v : QString) : forall ret cret hadWord,
  (hadWord = false -> cret = []) ->
  (let '(ret', cret', hadWord') := splitValue v ret cret hadWord in
   endWord ret' cret' hadWord')
  = ret ++ (if startsField v
            then match fields v with
                 | w :: ws => (cret ++ w) :: ws
                 | [] => []
                 end
            else (if hadWord then [cret] else []) ++ fields v).
Proof.
  induction v as [|c r IH]; intros ret cret hadWord Hinv.
  - cbn. unfold endWord. destruct hadWord; cbn; rewrite ?app_nil_r; reflexivity.
  - cbn [splitValue startsField fields]. fold (isFieldSep c).
    destruct (isFieldSep c) eqn:Esep; cbn [negb].
    + assert (Hi : cret = [] \/ hadWord = true)
        by (destruct hadWord; [right; reflexivity | left; auto]).
      destruct hadWord.
      * rewrite IH by reflexivity. rewrite <- app_assoc. f_equal.
        destruct (startsField r) eqn:Es; [|reflexivity].
        pose proof (fields_start r Es). destruct (fields r); [congruence|reflexivity].
      * rewrite IH by exact Hinv.
        destruct Hi as [Hi|Hi]; [subst cret|discriminate]. f_equal.
        destruct (startsField r) eqn:Es; [|reflexivity].
        pose proof (fields_start r Es). destruct (fields r); [congruence|reflexivity].
    + rewrite IH by discriminate. f_equal.
      destruct (startsField r) eqn:Es.
      * pose proof (fields_start r Es). destruct (fields r) as [|w ws]; [congruence|].
        cbn. rewrite <- app_assoc. reflexivity.
      * reflexivity.
Qed.

Lemma lookupVar_found (abortOnMeta : bool) (env : Environment) (pwd : option QString)
    (var key : QString) :
  qstring_eqb var (QLatin1String "PWD") = false ->
  constFind env var = Some key ->
  lookupVar abortOnMeta env pwd var = Got (Some (expandedValueForKey env key)).
Proof. intros Hp Hf. unfold lookupVar. rewrite Hp, Hf. reflexivity. Qed.

Lemma splitValue_first_word (v : QString) (ret : QStringList) :
  (let '(ret', cret', hadWord') := splitValue v ret [] false in
   Got (endWord ret' cret' hadWord'))
  = Got (ret ++ fields v).
Proof.
  pose proof (splitValue_fields v ret [] false (fun _ => eq_refl)) as Hs.
  destruct (splitValue v ret [] false) as [[r c] h]. rewrite Hs. f_equal. f_equal.
  destruct (startsField v) eqn:Es; [|reflexivity].
  pose proof (fields_start v Es). destruct (fields v); [congruence|reflexivity].
Qed.

Lemma splitArgsUnix_bare_FOO `{QtServices} (abortOnMeta : bool) (env : Environment)
    (pwd : option QString) (key : QString) :
  constFind env (QLatin1String "FOO") = Some key ->
  splitArgsUnix abortOnMeta (Some env) pwd (QLatin1String "echo $FOO")
  = Some (QLatin1String "echo" :: fields (expandedValueForKey env key), SplitOk).
Proof.
  intros HFOO.
  pose proof (lookupVar_found abortOnMeta env pwd (QLatin1String "FOO") key eq_refl HFOO) as Hl.
  pose proof (splitValue_first_word (expandedValueForKey env key) [QLatin1String "echo"]) as Hv.
  unfold splitArgsUnix.
  lazy -[lookupVar splitValue fields endWord expandedValueForKey].
  lazy -[lookupVar splitValue fields endWord expandedValueForKey] in Hl, Hv.
  rewrite Hl.
  replace (if abortOnMeta then false else false) with false by (destruct abortOnMeta; reflexivity).
  cbv iota.
  change (endWord [] [101; 99; 104; 111] true) with [[101; 99; 104; 111]].
  rewrite Hv. reflexivity.
Qed.

Lemma splitUnix_nextq_FOO `{QtServices} (abortOnMeta : bool) (env : Environment)
    (pwd : option QString) (key cret : QString) :
  constFind env (QLatin1String "FOO") = Some key ->
  splitUnix_nextq abortOnMeta (Some env) pwd 5 ch_dollar (QLatin1String "FOO" ++ [ch_dquote]) cret
  = Got (cret ++ expandedValueForKey env key, []).
Proof.
  intros HFOO.
  pose proof (lookupVar_found abortOnMeta env pwd (QLatin1String "FOO") key eq_refl HFOO) as Hl.
  lazy -[lookupVar expandedValueForKey].
  lazy -[lookupVar expandedValueForKey] in Hl.
  rewrite Hl. reflexivity.
Qed.

Lemma splitUnix_body_dquoted `{QtServices} (abortOnMeta : bool) (env : option Environment)
    (pwd : option QString)
    (k : QChar -> QString -> QString -> bool -> QStringList -> Lex QStringList)
    (c : QChar) (r cret cret' r' : QString) (hadWord : bool) (ret : QStringList) :
  splitUnix_nextq abortOnMeta env pwd (S (List.length r)) c r cret = Got (cret', r') ->
  splitUnix_body abortOnMeta env pwd k ch_dquote (c :: r) cret hadWord ret
  = splitUnix_getc k r' cret' true ret.
Proof.
  intros Hq. unfold splitUnix_body.
  change (ch_dquote =? ch_squote) with false. change (ch_dquote =? ch_dquote) with true.
  cbv iota. rewrite Hq. reflexivity.
Qed.

Lemma splitUnix_nextc_space `{QtServices} (abortOnMeta : bool) (env : option Environment)
    (pwd : option QString) (fuel : nat) (c : QChar) (rest cret : QString) (hadWord : bool)
    (ret : QStringList) :
  isSpace c = true ->
  splitUnix_nextc abortOnMeta env pwd (S fuel) c rest cret hadWord ret
  = splitUnix_word abortOnMeta env pwd (splitUnix_nextc abortOnMeta env pwd fuel) rest
      (endWord ret cret hadWord).
Proof. intros Hc. cbn [splitUnix_nextc]. rewrite Hc. reflexivity. Qed.

Lemma splitArgsUnix_quoted_FOO `{QtServices} (abortOnMeta : bool) (env : Environment)
    (pwd : option QString) (key : QString) :
  constFind env (QLatin1String "FOO") = Some key ->
  splitArgsUnix abortOnMeta (Some env) pwd
    (QLatin1String "echo " ++ [ch_dquote] ++ QLatin1String "$FOO" ++ [ch_dquote])
  = Some ([QLatin1String "echo"; expandedValueForKey env key], SplitOk).
Proof.
  intros HFOO.
  unfold splitArgsUnix.
  change (QLatin1String "echo " ++ [ch_dquote] ++ QLatin1String "$FOO" ++ [ch_dquote])
    with (101 :: [99; 104; 111]
          ++ (32 :: ch_dquote :: ch_dollar :: QLatin1String "FOO" ++ [ch_dquote])).
  unfold splitUnix_word at 1. cbn [skipSpaces].
  change (isSpace 101) with false. cbv beta iota.
  change (101 =? ch_tilde) with false. cbv beta iota.
  rewrite splitUnix_body_plain by reflexivity.
  rewrite splitUnix_getc_plain by (try reflexivity; cbn; lia).
  match goal with
  | |- context [splitUnix_nextc _ _ _ ?f] =>
      let n := eval vm_compute in f in change f with n
  end.
  cbn [splitUnix_getc].
  rewrite splitUnix_nextc_space by reflexivity.
  unfold splitUnix_word. cbn [skipSpaces].
  change (isSpace ch_dquote) with false. cbv beta iota.
  change (ch_dquote =? ch_tilde) with false. cbv beta iota.
  rewrite (splitUnix_body_dquoted abortOnMeta (Some env) pwd _ ch_dollar
             (QLatin1String "FOO" ++ [ch_dquote]) [] ([] ++ expandedValueForKey env key) []
             _ _ (splitUnix_nextq_FOO abortOnMeta env pwd key [] HFOO)).
  reflexivity.
Qed.

(** The pieces of a value: a separator in front is dropped, a run of
    other characters up to a separator or to the end is one piece. *)
Lemma fields_word (w : QString) :
  w <> [] -> forallb (fun c => negb (isFieldSep c)) w = true ->
  fields w = [w]
  /\ forall sep r, isFieldSep sep = true -> fields (w ++ sep :: r) = w :: fields r.
Proof.
  induction w as [|c w IH]; [congruence|]. intros _ Hw.
  cbn [forallb] in Hw. apply andb_true_iff in Hw as [Hc Hw].
  apply negb_true_iff in Hc. cbn [fields app]. rewrite Hc.
  destruct w as [|d w].
  - cbn [startsField fields app]. split; [reflexivity|].
    intros sep r Hsep. rewrite Hsep. reflexivity.
  - destruct (IH ltac:(discriminate) Hw) as [IH1 IH2].
    assert (Hd : negb (isFieldSep d) = true)
      by (cbn [forallb] in Hw; apply andb_true_iff in Hw as [Hd _]; exact Hd).
    split.
    + rewrite IH1. cbn [startsField]. rewrite Hd. reflexivity.
    + intros sep r Hsep. rewrite (IH2 sep r Hsep). cbn [startsField app]. rewrite Hd.
      reflexivity.
Qed.

(** C4: under the Unix grammar, with an environment in which FOO is
    set, splitArgs of echo $FOO returns echo followed by the pieces of
    the value of FOO between its spaces, tabs and line feeds, and
    splitArgs of echo followed by $FOO in double quotes returns echo
    and the whole value as one word; both store SplitOk. *)
Theorem splitArgs_expands_FOO `{QtServices} (abortOnMeta : bool) (env : Environment)
    (pwd : option QString) (key : QString) (e0 : SplitError) :
  constFind env (QLatin1String "FOO") = Some key ->
  splitArgs (QLatin1String "echo $FOO") OsTypeLinux abortOnMeta (Some e0) (Some env) pwd
  = Some (QLatin1String "echo" :: fields (expandedValueForKey env key), Some SplitOk)
  /\ splitArgs (QLatin1String "echo " ++ [ch_dquote] ++ QLatin1String "$FOO" ++ [ch_dquote])
       OsTypeLinux abortOnMeta (Some e0) (Some env) pwd
     = Some ([QLatin1String "echo"; expandedValueForKey env key], Some SplitOk).
Proof.
  intros HFOO. unfold splitArgs. cbn [isWindows].
  rewrite (splitArgsUnix_bare_FOO abortOnMeta env pwd key HFOO).
  rewrite (splitArgsUnix_quoted_FOO abortOnMeta env pwd key HFOO).
  split; reflexivity.
Qed.


(** * The Unix lexer on a line of simple words *)

Lemma existsb_eqb_false (c : QChar) (l : list QChar) :
  existsb (Z.eqb c) l = false -> forall x, In x l -> (c =? x) = false.
Proof.
  induction l as [|y l IH]; intros He x Hx; [destruct Hx|].
  cbn [existsb] in He. apply orb_false_iff in He as [Hy Hl].
  destruct Hx as [<- | Hx]; [exact Hy | exact (IH Hl x Hx)].
Qed.

Lemma isBlank_isSpace `{QtServices} (c : QChar) : isBlank c = true -> isSpace c = true.
Proof.
  unfold isBlank. intros Hb. apply orb_true_iff in Hb as [Hb | Hb];
    apply Z.eqb_eq in Hb; subst c; reflexivity.
Qed.

Lemma skipSpaces_blanks `{QtServices} (lead : QString) (rest : QString) :
  forallb isBlank lead = true -> skipSpaces (lead ++ rest) = skipSpaces rest.
Proof.
  induction lead as [|b lead IH]; intros Hb; [reflexivity|].
  cbn [forallb] in Hb. apply andb_true_iff in Hb as [Hb Hl].
  cbn [app skipSpaces]. rewrite (isBlank_isSpace b Hb). exact (IH Hl).
Qed.

Section UnixLexerLine.
Context `{QtServices}.
Variable abortOnMeta : bool.
Variable env : option Environment.
Variable pwd : option QString.

Local Abbreviation nextc := (splitUnix_nextc abortOnMeta env pwd).
Local Abbreviation body := (splitUnix_body abortOnMeta env pwd).
Local Abbreviation word := (splitUnix_word abortOnMeta env pwd).
Local Abbreviation nextqFrom := (splitUnix_nextqFrom abortOnMeta env pwd).

Lemma wordChar_tests (c : QChar) :
  wordChar abortOnMeta c = true ->
  isSpace c = false
  /\ (forall x, In x [ch_squote; ch_dquote; ch_dollar; ch_bslash; ch_btick; ch_lparen;
                      ch_rparen; 60; 62; 38; 124; 59] -> (c =? x) = false)
  /\ abortOnMeta && isMetaUnix c = false.
Proof.
  unfold wordChar. intros Hc. apply andb_true_iff in Hc as [Hc Hm].
  apply andb_true_iff in Hc as [Hs Hx]. apply negb_true_iff in Hs, Hx, Hm.
  repeat split; [exact Hs | exact (existsb_eqb_false c _ Hx) | exact Hm].
Qed.

(** A character that stands for itself. *)
Lemma splitUnix_body_wordChar
    (k : QChar -> QString -> QString -> bool -> QStringList -> Lex QStringList)
    (c : QChar) (rest cret : QString) (hadWord : bool) (ret : QStringList) :
  wordChar abortOnMeta c = true ->
  body k c rest cret hadWord ret = splitUnix_getc k rest (cret ++ [c]) true ret.
Proof.
  intros Hc. destruct (wordChar_tests c Hc) as (_ & Hx & Hm).
  unfold splitUnix_body.
  rewrite (Hx ch_squote), (Hx ch_dquote), (Hx ch_dollar), (Hx ch_bslash), Hm
    by (cbn [In]; tauto).
  reflexivity.
Qed.

(** A character after a backslash. *)
Lemma splitUnix_body_escaped
    (k : QChar -> QString -> QString -> bool -> QStringList -> Lex QStringList)
    (c : QChar) (rest cret : QString) (hadWord : bool) (ret : QStringList) :
  body k ch_bslash (c :: rest) cret hadWord ret = splitUnix_getc k rest (cret ++ [c]) true ret.
Proof. reflexivity. Qed.

(** A section in single quotes. *)
Lemma splitUnix_body_squote
    (k : QChar -> QString -> QString -> bool -> QStringList -> Lex QStringList)
    (text rest cret : QString) (hadWord : bool) (ret : QStringList) :
  lacks ch_squote text = true ->
  body k ch_squote (text ++ ch_squote :: rest) cret hadWord ret
  = splitUnix_getc k rest (cret ++ text) true ret.
Proof.
  intros Ht. unfold splitUnix_body. change (ch_squote =? ch_squote) with true. cbv iota.
  rewrite (scanSingleQuoted_found text rest Ht). reflexivity.
Qed.

(** The inside of a section in double quotes. *)
Lemma splitUnix_nextq_dpieces (ds : list DPiece) : forall fuel rest cret,
  forallb (dpieceOk abortOnMeta) ds = true ->
  (List.length (flat_map renderDPiece ds) < fuel)%nat ->
  nextqFrom fuel (flat_map renderDPiece ds ++ ch_dquote :: rest) cret
  = Got (cret ++ flat_map dpieceValue ds, rest).
Proof.
  induction ds as [|d ds IH]; intros fuel rest cret Hok Hfuel.
  - destruct fuel as [|fuel]; [cbn in Hfuel; lia|].
    cbn. rewrite app_nil_r. reflexivity.
  - cbn [forallb] in Hok. apply andb_true_iff in Hok as [Hd Hok].
    cbn [flat_map] in *. rewrite length_app in Hfuel.
    destruct d as [c | c]; cbn [renderDPiece dpieceValue List.length app] in *.
    + destruct fuel as [|fuel]; [lia|].
      cbn [dpieceOk] in Hd. apply negb_true_iff in Hd.
      pose proof (existsb_eqb_false c _ Hd) as Hx.
      unfold splitUnix_nextqFrom. cbn [splitUnix_nextq].
      rewrite (Hx ch_dquote), (Hx ch_bslash), (Hx ch_dollar), (Hx ch_btick)
        by (cbn [In]; tauto).
      cbn [orb]. rewrite andb_false_r.
      fold (nextqFrom fuel (flat_map renderDPiece ds ++ ch_dquote :: rest) (cret ++ [c])).
      rewrite IH by (try exact Hok; lia). rewrite <- app_assoc. reflexivity.
    + destruct fuel as [|fuel]; [lia|].
      unfold splitUnix_nextqFrom. cbn [splitUnix_nextq].
      change (ch_bslash =? ch_dquote) with false.
      change (ch_bslash =? ch_bslash) with true. cbv iota.
      match goal with
      | |- context [splitUnix_nextq _ _ _ _ _ _ ?x] =>
          fold (nextqFrom fuel (flat_map renderDPiece ds ++ ch_dquote :: rest) x)
      end.
      rewrite IH by (try exact Hok; lia).
      cbn [dpieceOk] in Hd.
      destruct (c =? ch_dquote), (c =? ch_bslash), (c =? ch_dollar), (c =? ch_btick),
        abortOnMeta; cbn [negb andb orb] in *; try discriminate;
        rewrite <- ?app_assoc; reflexivity.
Qed.

(** A section in double quotes. *)
Lemma splitUnix_body_dquote
    (k : QChar -> QString -> QString -> bool -> QStringList -> Lex QStringList)
    (ds : list DPiece) (rest cret : QString) (hadWord : bool) (ret : QStringList) :
  forallb (dpieceOk abortOnMeta) ds = true ->
  body k ch_dquote (flat_map renderDPiece ds ++ ch_dquote :: rest) cret hadWord ret
  = splitUnix_getc k rest (cret ++ flat_map dpieceValue ds) true ret.
Proof.
  intros Hok.
  pose proof (fun fuel Hf => splitUnix_nextq_dpieces ds fuel rest cret Hok Hf) as Hq.
  destruct (flat_map renderDPiece ds ++ ch_dquote :: rest) as [|c r] eqn:E.
  - destruct (flat_map renderDPiece ds); discriminate.
  - apply (f_equal (@List.length QChar)) in E. rewrite length_app in E.
    cbn [List.length] in E.
    apply (splitUnix_body_dquoted abortOnMeta env pwd k c r cret _ rest hadWord ret).
    apply (Hq (S (List.length r))). lia.
Qed.

(** One piece of a word, from its first character on. *)
Lemma splitUnix_body_piece
    (k : QChar -> QString -> QString -> bool -> QStringList -> Lex QStringList)
    (p : Piece) (rest cret : QString) (hadWord : bool) (ret : QStringList) :
  pieceOk abortOnMeta p = true ->
  exists c r,
    renderPiece p ++ rest = c :: r
    /\ isSpace c = false
    /\ (match p with Plain x => x | _ => 0 end =? ch_tilde) = (c =? ch_tilde)
    /\ body k c r cret hadWord ret = splitUnix_getc k rest (cret ++ pieceValue p) true ret.
Proof.
  intros Hp. destruct p as [c | c | text | ds]; cbn [pieceOk renderPiece pieceValue app] in *.
  - exists c, rest. destruct (wordChar_tests c Hp) as (Hs & _ & _).
    repeat split; [exact Hs | apply splitUnix_body_wordChar; exact Hp].
  - exists ch_bslash, (c :: rest). repeat split.
  - exists ch_squote, (text ++ ch_squote :: rest). rewrite <- app_assoc.
    repeat split. apply splitUnix_body_squote; exact Hp.
  - exists ch_dquote, (flat_map renderDPiece ds ++ ch_dquote :: rest). rewrite <- app_assoc.
    repeat split. apply splitUnix_body_dquote; exact Hp.
Qed.

(** The pieces of a word after its first. *)
Lemma splitUnix_getc_pieces (ps : Word) : forall fuel rest cret hadWord ret,
  forallb (pieceOk abortOnMeta) ps = true -> (List.length ps <= fuel)%nat ->
  splitUnix_getc (nextc fuel) (renderWord ps ++ rest) cret hadWord ret
  = splitUnix_getc (nextc (fuel - List.length ps)) rest (cret ++ wordValue ps)
      (match ps with [] => hadWord | _ => true end) ret.
Proof.
  induction ps as [|p ps IH]; intros fuel rest cret hadWord ret Hok Hfuel.
  - cbn [renderWord wordValue flat_map app List.length]. rewrite Nat.sub_0_r, app_nil_r.
    reflexivity.
  - cbn [forallb] in Hok. apply andb_true_iff in Hok as [Hp Hok].
    cbn [List.length] in Hfuel. destruct fuel as [|fuel]; [lia|].
    cbn [renderWord wordValue flat_map]. rewrite <- !app_assoc.
    destruct (splitUnix_body_piece (nextc fuel) p (flat_map renderPiece ps ++ rest)
                cret hadWord ret Hp) as (c & r & E & Hs & _ & Hb).
    rewrite E. cbn [splitUnix_getc splitUnix_nextc]. rewrite Hs, Hb.
    fold (renderWord ps). rewrite IH by (try exact Hok; lia).
    cbn [List.length Nat.sub]. fold (wordValue ps). rewrite <- app_assoc.
    destruct ps; reflexivity.
Qed.

Lemma renderWord_length (ps : Word) : (List.length ps <= List.length (renderWord ps))%nat.
Proof.
  induction ps as [|p ps IH]; [cbn; lia|].
  cbn [renderWord flat_map List.length]. rewrite length_app. fold (renderWord ps).
  destruct p; cbn [renderPiece List.length]; rewrite ?length_app; cbn [List.length]; lia.
Qed.

Lemma renderLine_cons (b : QChar) (g : QString) (more : list (Word * QString)) :
  renderLine (b :: g) more = b :: renderLine g more.
Proof. destruct more as [|[w gap] more]; reflexivity. Qed.

Lemma lineOk_gap (b : QChar) (g : QString) (more : list (Word * QString)) :
  lineOk abortOnMeta (b :: g) more = true ->
  isBlank b = true /\ lineOk abortOnMeta g more = true.
Proof.
  destruct more as [|[w gap] more]; cbn [lineOk forallb]; intros Hl.
  - apply andb_true_iff in Hl as [Hl _]. apply andb_true_iff in Hl as [Hb Hg].
    rewrite Hb, Hg. split; reflexivity.
  - apply andb_true_iff in Hl as [Hl Hw]. apply andb_true_iff in Hl as [Hb Hg].
    rewrite Hb, Hg, Hw. split; reflexivity.
Qed.

(** The lexer on a line of simple words returns their values. *)
Lemma splitUnix_word_line (ws : list (Word * QString)) : forall lead fuel ret,
  lineOk abortOnMeta lead ws = true ->
  (List.length (renderLine lead ws) < fuel)%nat ->
  word (nextc fuel) (renderLine lead ws) ret = Got (ret ++ lineValues ws).
Proof.
  induction ws as [|[w gap] more IH]; intros lead fuel ret Hok Hfuel.
  - cbn [lineOk] in Hok. rewrite andb_true_r in Hok.
    cbn [renderLine lineValues map]. unfold splitUnix_word.
    pose proof (skipSpaces_blanks lead [] Hok) as Hs. rewrite app_nil_r in Hs.
    rewrite Hs. cbn [skipSpaces]. rewrite app_nil_r. reflexivity.
  - cbn [lineOk] in Hok. apply andb_true_iff in Hok as [Hlead Hok].
    apply andb_true_iff in Hok as [Hok Hmore]. apply andb_true_iff in Hok as [Hw Hgap].
    unfold wordOk in Hw. apply andb_true_iff in Hw as [Hfirst Hps].
    destruct w as [|p ps]; [discriminate|].
    cbn [forallb] in Hps. apply andb_true_iff in Hps as [Hp Hps].
    cbn [renderLine lineValues map fst] in *. fold (lineValues more).
    cbn [renderWord wordValue flat_map] in *. fold (renderWord ps) in *. fold (wordValue ps).
    rewrite !length_app in Hfuel.
    pose proof (renderWord_length ps) as Hlen.
    unfold splitUnix_word. rewrite (skipSpaces_blanks lead _ Hlead). rewrite <- app_assoc.
    destruct (splitUnix_body_piece (nextc fuel) p (renderWord ps ++ renderLine gap more)
                [] false ret Hp) as (c & r & E & Hs & Ht & Hb).
    assert (Hlp : (1 <= List.length (renderPiece p))%nat)
      by (destruct p; cbn [renderPiece List.length]; lia).
    rewrite E. cbn [skipSpaces]. rewrite Hs.
    assert (Htilde : (c =? ch_tilde) = false).
    { rewrite <- Ht. destruct p; try reflexivity. apply negb_true_iff. exact Hfirst. }
    rewrite Htilde, Hb.
    rewrite splitUnix_getc_pieces by (try exact Hps; lia).
    cbn [app].
    destruct gap as [|b g].
    + destruct more as [|e more]; [|discriminate].
      cbn [renderLine splitUnix_getc]. unfold endWord.
      destruct ps; reflexivity.
    + rewrite renderLine_cons in *. cbn [List.length] in Hfuel.
      destruct (lineOk_gap b g more Hmore) as [Hb' Hg].
      destruct (fuel - List.length ps)%nat as [|fuel'] eqn:Ef; [lia|].
      cbn [splitUnix_getc splitUnix_nextc]. rewrite (isBlank_isSpace b Hb').
      rewrite IH by (try exact Hg; lia).
      destruct ps; unfold endWord; rewrite <- app_assoc; reflexivity.
Qed.

(** [splitArgsUnix] on a line of simple words. *)
Lemma splitArgsUnix_line (lead : QString) (ws : list (Word * QString)) :
  lineOk abortOnMeta lead ws = true ->
  splitArgsUnix abortOnMeta env pwd (renderLine lead ws) = Some (lineValues ws, SplitOk).
Proof.
  intros Hok. unfold splitArgsUnix.
  rewrite splitUnix_word_line by (try exact Hok; lia). reflexivity.
Qed.

End UnixLexerLine.


(** * The iterator on a line of simple words *)

Lemma inside_prefix (pre : QString) (c : QChar) (r : QString) :
  (qlength pre <? qlength (pre ++ c :: r)) = true.
Proof. apply Z.ltb_lt. apply qlength_prefix_lt. Qed.

Lemma inside_prefix_next (pre : QString) (b c : QChar) (r : QString) :
  (qlength (pre ++ b :: c :: r) <=? qlength pre + 1) = false
  /\ unicodeAt (pre ++ b :: c :: r) (qlength pre + 1) = c.
Proof.
  split.
  - apply Z.leb_gt. rewrite qlength_app, !qlength_cons. pose proof (qlength_nonneg r). lia.
  - replace (pre ++ b :: c :: r) with ((pre ++ [b]) ++ c :: r)
      by (rewrite <- app_assoc; reflexivity).
    rewrite <- qlength_snoc with (c := b). apply unicodeAt_prefix.
Qed.

Lemma isSpace_not_blank `{QtServices} (c : QChar) :
  isSpace c = false -> (c =? ch_space) = false /\ (c =? ch_tab) = false.
Proof.
  intros Hs. split; apply Z.eqb_neq; intros ->; discriminate Hs.
Qed.

Section IteratorLine.
Context `{QtServices}.

Local Abbreviation inSingle := {| current := MxSingleQuote; dquote := false |}.
Local Abbreviation inDouble := {| current := MxDoubleQuote; dquote := true |}.

(** A character that stands for itself. *)
Lemma nextUnix_loop_plain (abortOnMeta : bool) (pre : QString) (c : QChar) (rest : QString)
    (fuel : nat) (hadWord : bool) (value : QString) :
  wordChar abortOnMeta c = true ->
  nextUnix_loop (S fuel) (pre ++ c :: rest) (qlength pre) mxInitial [] [] hadWord true value
  = nextUnix_loop fuel (pre ++ c :: rest) (qlength pre + 1) mxInitial [] [] true true
      (value ++ [c]).
Proof.
  intros Hc. destruct (wordChar_tests abortOnMeta c Hc) as (Hs & Hx & _).
  destruct (isSpace_not_blank c Hs) as [Hsp Htab].
  cbn [nextUnix_loop]. rewrite inside_prefix, unicodeAt_prefix.
  rewrite (Hx ch_squote), (Hx ch_dquote), (Hx ch_dollar), (Hx ch_bslash), (Hx ch_btick),
    (Hx ch_lparen), (Hx ch_rparen), (Hx 60), (Hx 62), (Hx 38), (Hx 124), (Hx 59), Hsp, Htab
    by (cbn [In]; tauto).
  reflexivity.
Qed.

(** A character after a backslash. *)
Lemma nextUnix_loop_escaped (pre : QString) (c : QChar) (rest : QString)
    (fuel : nat) (hadWord : bool) (value : QString) :
  nextUnix_loop (S fuel) (pre ++ ch_bslash :: c :: rest) (qlength pre) mxInitial [] []
    hadWord true value
  = nextUnix_loop fuel (pre ++ ch_bslash :: c :: rest) (qlength pre + 1 + 1) mxInitial [] []
      true true (value ++ [c]).
Proof.
  destruct (inside_prefix_next pre ch_bslash c rest) as [Hin Hat].
  cbn [nextUnix_loop]. rewrite inside_prefix, unicodeAt_prefix.
  change (ch_bslash =? ch_bslash) with true. cbn [MxQuoting_eqb current mxInitial dquote].
  cbv iota. rewrite Hin, Hat. reflexivity.
Qed.

(** The quote that opens a section in single quotes. *)
Lemma nextUnix_loop_squote_open (pre rest : QString) (fuel : nat) (hadWord : bool)
    (value : QString) :
  nextUnix_loop (S fuel) (pre ++ ch_squote :: rest) (qlength pre) mxInitial [] []
    hadWord true value
  = nextUnix_loop fuel (pre ++ ch_squote :: rest) (qlength pre + 1) inSingle [mxInitial] []
      true true value.
Proof.
  cbn [nextUnix_loop]. rewrite inside_prefix, unicodeAt_prefix. reflexivity.
Qed.

(** The inside of a section in single quotes, with the closing quote. *)
Lemma nextUnix_loop_squote_body (text : QString) : forall pre rest fuel value,
  lacks ch_squote text = true ->
  nextUnix_loop (List.length text + S fuel) (pre ++ text ++ ch_squote :: rest) (qlength pre)
    inSingle [mxInitial] [] true true value
  = nextUnix_loop fuel (pre ++ text ++ ch_squote :: rest) (qlength pre + qlength text + 1)
      mxInitial [] [] true true (value ++ text).
Proof.
  induction text as [|c text IH]; intros pre rest fuel value Ht.
  - cbn [List.length Nat.add app]. cbn [nextUnix_loop].
    rewrite inside_prefix, unicodeAt_prefix. rewrite qlength_nil, Z.add_0_r, app_nil_r.
    reflexivity.
  - rewrite lacks_cons in Ht. apply andb_true_iff in Ht as [Hc Ht].
    apply negb_true_iff in Hc.
    cbn [List.length Nat.add app]. cbn [nextUnix_loop].
    rewrite inside_prefix, unicodeAt_prefix.
    cbn [MxQuoting_eqb current]. rewrite Hc.
    rewrite <- qlength_snoc with (c := c).
    replace (pre ++ c :: text ++ ch_squote :: rest)
      with ((pre ++ [c]) ++ text ++ ch_squote :: rest)
      by (rewrite <- app_assoc; reflexivity).
    rewrite IH by exact Ht. rewrite <- app_assoc. rewrite qlength_snoc, qlength_cons.
    f_equal; [lia | rewrite <- app_assoc; reflexivity].
Qed.

(** The quote that opens a section in double quotes. *)
Lemma nextUnix_loop_dquote_open (pre rest : QString) (fuel : nat) (hadWord : bool)
    (value : QString) :
  nextUnix_loop (S fuel) (pre ++ ch_dquote :: rest) (qlength pre) mxInitial [] []
    hadWord true value
  = nextUnix_loop fuel (pre ++ ch_dquote :: rest) (qlength pre + 1) inDouble [mxInitial] []
      true true value.
Proof.
  cbn [nextUnix_loop]. rewrite inside_prefix, unicodeAt_prefix. reflexivity.
Qed.

(** The inside of a section in double quotes, with the closing quote. *)
Lemma nextUnix_loop_dquote_body (abortOnMeta : bool) (ds : list DPiece) :
  forall pre rest fuel value,
  forallb (dpieceOk abortOnMeta) ds = true ->
  nextUnix_loop (List.length ds + S fuel)
    (pre ++ flat_map renderDPiece ds ++ ch_dquote :: rest) (qlength pre)
    inDouble [mxInitial] [] true true value
  = nextUnix_loop fuel (pre ++ flat_map renderDPiece ds ++ ch_dquote :: rest)
      (qlength pre + qlength (flat_map renderDPiece ds) + 1)
      mxInitial [] [] true true (value ++ flat_map dpieceValue ds).
Proof.
  induction ds as [|d ds IH]; intros pre rest fuel value Hok.
  - cbn [List.length Nat.add app flat_map]. cbn [nextUnix_loop].
    rewrite inside_prefix, unicodeAt_prefix. rewrite qlength_nil, Z.add_0_r, app_nil_r.
    reflexivity.
  - cbn [forallb] in Hok. apply andb_true_iff in Hok as [Hd Hok].
    cbn [List.length Nat.add flat_map]. rewrite <- !app_assoc.
    destruct d as [c | c]; cbn [renderDPiece dpieceValue app].
    + cbn [dpieceOk] in Hd. apply negb_true_iff in Hd.
      pose proof (existsb_eqb_false c _ Hd) as Hx.
      cbn [nextUnix_loop]. rewrite inside_prefix, unicodeAt_prefix.
      rewrite (Hx ch_dquote), (Hx ch_bslash), (Hx ch_dollar), (Hx ch_btick)
        by (cbn [In]; tauto).
      cbn [MxQuoting_eqb current].
      rewrite <- qlength_snoc with (c := c).
      replace (pre ++ c :: flat_map renderDPiece ds ++ ch_dquote :: rest)
        with ((pre ++ [c]) ++ flat_map renderDPiece ds ++ ch_dquote :: rest)
        by (rewrite <- app_assoc; reflexivity).
      rewrite IH by exact Hok. rewrite qlength_snoc, qlength_cons.
      f_equal; [lia | rewrite <- app_assoc; reflexivity].
    + destruct (inside_prefix_next pre ch_bslash c
                  (flat_map renderDPiece ds ++ ch_dquote :: rest)) as [Hin Hat].
      cbn [nextUnix_loop]. rewrite inside_prefix, unicodeAt_prefix.
      change (ch_bslash =? ch_bslash) with true. cbn [MxQuoting_eqb current dquote].
      cbv iota. rewrite Hin, Hat.
      replace (qlength pre + 1 + 1) with (qlength (pre ++ [ch_bslash; c]))
        by (rewrite qlength_app, !qlength_cons, qlength_nil; lia).
      replace (pre ++ ch_bslash :: c :: flat_map renderDPiece ds ++ ch_dquote :: rest)
        with ((pre ++ [ch_bslash; c]) ++ flat_map renderDPiece ds ++ ch_dquote :: rest)
        by (rewrite <- app_assoc; reflexivity).
      rewrite IH by exact Hok. rewrite qlength_app, !qlength_cons, qlength_nil.
      f_equal; [lia|].
      destruct (c =? ch_dquote), (c =? ch_bslash), (c =? ch_dollar), (c =? ch_btick);
        cbn [negb andb orb]; rewrite <- ?app_assoc; reflexivity.
Qed.

(** One piece of a word. *)
Lemma nextUnix_loop_piece (abortOnMeta : bool) (p : Piece) (pre rest : QString)
    (fuel : nat) (hadWord : bool) (value : QString) :
  pieceOk abortOnMeta p = true ->
  (List.length (renderPiece p) <= fuel)%nat ->
  exists fuel',
    (fuel - List.length (renderPiece p) <= fuel')%nat
    /\ nextUnix_loop fuel (pre ++ renderPiece p ++ rest) (qlength pre) mxInitial [] []
         hadWord true value
       = nextUnix_loop fuel' (pre ++ renderPiece p ++ rest) (qlength (pre ++ renderPiece p))
           mxInitial [] [] true true (value ++ pieceValue p).
Proof.
  intros Hp Hfuel. rewrite qlength_app.
  destruct p as [c | c | text | ds]; cbn [pieceOk renderPiece pieceValue app] in *.
  - destruct fuel as [|fuel]; [cbn in Hfuel; lia|]. exists fuel. split; [cbn; lia|].
    rewrite (nextUnix_loop_plain abortOnMeta) by exact Hp. reflexivity.
  - destruct fuel as [|fuel]; [cbn in Hfuel; lia|]. exists fuel. split; [cbn; lia|].
    rewrite nextUnix_loop_escaped. f_equal. rewrite !qlength_cons, qlength_nil. lia.
  - cbn [List.length] in Hfuel. rewrite length_app in Hfuel. cbn [List.length] in Hfuel.
    exists (fuel - S (List.length text + 1))%nat.
    split; [cbn [List.length]; rewrite length_app; cbn [List.length]; lia|].
    replace fuel with (S (List.length text + S (fuel - S (List.length text + 1))))%nat at 1
      by lia.
    rewrite <- app_assoc. cbn [app].
    rewrite nextUnix_loop_squote_open.
    rewrite <- qlength_snoc with (c := ch_squote).
    replace (pre ++ ch_squote :: text ++ ch_squote :: rest)
      with ((pre ++ [ch_squote]) ++ text ++ ch_squote :: rest)
      by (rewrite <- app_assoc; reflexivity).
    rewrite nextUnix_loop_squote_body by exact Hp.
    f_equal. rewrite qlength_snoc, !qlength_cons, qlength_app, qlength_cons, qlength_nil. lia.
  - cbn [List.length] in Hfuel. rewrite length_app in Hfuel. cbn [List.length] in Hfuel.
    assert (Hlen : (List.length ds <= List.length (flat_map renderDPiece ds))%nat).
    { clear. induction ds as [|d ds IH]; [cbn; lia|].
      cbn [flat_map List.length]. rewrite length_app.
      destruct d; cbn [renderDPiece List.length]; lia. }
    exists (fuel - S (S (List.length ds)))%nat.
    split; [cbn [List.length]; rewrite length_app; cbn [List.length]; lia|].
    replace fuel with (S (List.length ds + S (fuel - S (S (List.length ds)))))%nat at 1
      by lia.
    rewrite <- app_assoc. cbn [app].
    rewrite nextUnix_loop_dquote_open.
    rewrite <- qlength_snoc with (c := ch_dquote).
    replace (pre ++ ch_dquote :: flat_map renderDPiece ds ++ ch_dquote :: rest)
      with ((pre ++ [ch_dquote]) ++ flat_map renderDPiece ds ++ ch_dquote :: rest)
      by (rewrite <- app_assoc; reflexivity).
    rewrite (nextUnix_loop_dquote_body abortOnMeta) by exact Hp.
    f_equal. rewrite qlength_snoc, !qlength_cons, qlength_app, qlength_cons, qlength_nil. lia.
Qed.

(** The pieces of a word. *)
Lemma nextUnix_loop_pieces (abortOnMeta : bool) (ps : Word) :
  forall pre rest fuel hadWord value,
  forallb (pieceOk abortOnMeta) ps = true ->
  (List.length (renderWord ps) <= fuel)%nat ->
  exists fuel',
    (fuel - List.length (renderWord ps) <= fuel')%nat
    /\ nextUnix_loop fuel (pre ++ renderWord ps ++ rest) (qlength pre) mxInitial [] []
         hadWord true value
       = nextUnix_loop fuel' (pre ++ renderWord ps ++ rest) (qlength (pre ++ renderWord ps))
           mxInitial [] [] (match ps with [] => hadWord | _ => true end) true
           (value ++ wordValue ps).
Proof.
  induction ps as [|p ps IH]; intros pre rest fuel hadWord value Hok Hfuel.
  - exists fuel. cbn [renderWord wordValue flat_map app List.length].
    rewrite !app_nil_r. split; [lia | reflexivity].
  - cbn [forallb] in Hok. apply andb_true_iff in Hok as [Hp Hok].
    cbn [renderWord wordValue flat_map] in *. fold (renderWord ps) in *. fold (wordValue ps).
    rewrite length_app in Hfuel. rewrite <- !app_assoc.
    destruct (nextUnix_loop_piece abortOnMeta p pre (renderWord ps ++ rest) fuel hadWord
                value Hp ltac:(lia)) as (fuel1 & Hf1 & E1).
    destruct (IH (pre ++ renderPiece p) rest fuel1 true (value ++ pieceValue p) Hok
                ltac:(lia)) as (fuel2 & Hf2 & E2).
    exists fuel2. split; [rewrite length_app; lia|].
    rewrite E1. rewrite <- app_assoc in E2. rewrite E2.
    rewrite <- !app_assoc. destruct ps; reflexivity.
Qed.

(** The blanks in front of a word are stepped over. *)
Lemma nextUnix_loop_blanks (lead : QString) : forall pre rest fuel,
  forallb isBlank lead = true -> (List.length lead <= fuel)%nat ->
  nextUnix_loop fuel (pre ++ lead ++ rest) (qlength pre) mxInitial [] [] false true []
  = nextUnix_loop (fuel - List.length lead) (pre ++ lead ++ rest) (qlength (pre ++ lead))
      mxInitial [] [] false true [].
Proof.
  induction lead as [|b lead IH]; intros pre rest fuel Hb Hfuel.
  - cbn [app List.length]. rewrite Nat.sub_0_r, app_nil_r. reflexivity.
  - cbn [forallb] in Hb. apply andb_true_iff in Hb as [Hb Hl].
    cbn [List.length] in Hfuel. destruct fuel as [|fuel]; [lia|].
    cbn [app List.length Nat.sub]. cbn [nextUnix_loop].
    rewrite inside_prefix, unicodeAt_prefix.
    replace (pre ++ b :: lead ++ rest) with ((pre ++ [b]) ++ lead ++ rest)
      by (rewrite <- app_assoc; reflexivity).
    replace (pre ++ b :: lead) with ((pre ++ [b]) ++ lead)
      by (rewrite <- app_assoc; reflexivity).
    rewrite <- IH by (try exact Hl; lia). rewrite qlength_snoc.
    unfold isBlank in Hb. apply orb_true_iff in Hb as [Hb | Hb];
      apply Z.eqb_eq in Hb; subst b; reflexivity.
Qed.

(** A blank after a word ends the argument and is not consumed. *)
Lemma nextUnix_loop_stop (pre : QString) (b : QChar) (rest : QString) (fuel : nat)
    (value : QString) :
  isBlank b = true ->
  nextUnix_loop (S fuel) (pre ++ b :: rest) (qlength pre) mxInitial [] [] true true value
  = Some (qlength pre, true, true, value).
Proof.
  intros Hb. cbn [nextUnix_loop]. rewrite inside_prefix, unicodeAt_prefix.
  unfold isBlank in Hb. apply orb_true_iff in Hb as [Hb | Hb];
    apply Z.eqb_eq in Hb; subst b; reflexivity.
Qed.

(** So does the end of the string. *)
Lemma nextUnix_loop_end (str : QString) (fuel : nat) (hadWord : bool) (value : QString) :
  nextUnix_loop (S fuel) str (qlength str) mxInitial [] [] hadWord true value
  = Some (qlength str, hadWord, true, value).
Proof. cbn [nextUnix_loop]. rewrite Z.ltb_irrefl. reflexivity. Qed.

(** Calling [next] until it returns false on a line of simple words
    yields their values, each marked simple. *)
Lemma walkArgs_line (abortOnMeta : bool) (ws : list (Word * QString)) :
  forall lead pre it calls fuel,
  lineOk abortOnMeta lead ws = true ->
  m_str it = pre ++ renderLine lead ws ->
  m_pos it = qlength pre ->
  m_osType it = OsTypeLinux ->
  (List.length ws < calls)%nat ->
  (List.length (renderLine lead ws) < fuel)%nat ->
  walkArgs calls fuel it = Some (map (fun v => (v, true)) (lineValues ws)).
Proof.
  induction ws as [|[w gap] more IH]; intros lead pre it calls fuel Hok Hstr Hpos Hos Hcalls
    Hfuel.
  - cbn [lineOk] in Hok. rewrite andb_true_r in Hok.
    cbn [renderLine List.length] in *. destruct calls as [|calls]; [lia|].
    cbn [walkArgs lineValues map]. unfold next. rewrite Hos, Hstr, Hpos. cbn [isWindows].
    pose proof (nextUnix_loop_blanks lead pre [] fuel Hok ltac:(lia)) as Hb.
    rewrite app_nil_r in Hb. rewrite Hb.
    destruct (fuel - List.length lead)%nat as [|fuel'] eqn:Ef; [lia|].
    rewrite nextUnix_loop_end. reflexivity.
  - cbn [lineOk] in Hok. apply andb_true_iff in Hok as [Hlead Hok].
    apply andb_true_iff in Hok as [Hok Hmore]. apply andb_true_iff in Hok as [Hw Hgap].
    unfold wordOk in Hw. apply andb_true_iff in Hw as [Hfirst Hps].
    cbn [renderLine List.length] in *. rewrite !length_app in Hfuel.
    destruct calls as [|calls]; [lia|].
    cbn [walkArgs lineValues map fst]. fold (lineValues more).
    unfold next. rewrite Hos, Hstr, Hpos. cbn [isWindows].
    rewrite nextUnix_loop_blanks by (try exact Hlead; lia).
    rewrite (app_assoc pre lead).
    destruct (nextUnix_loop_pieces abortOnMeta w (pre ++ lead) (renderLine gap more)
                (fuel - List.length lead) false [] Hps ltac:(lia)) as (fuel1 & Hf1 & E1).
    rewrite E1. cbn [app].
    assert (Hw' : match w with [] => false | _ => true end = true)
      by (destruct w; [discriminate | reflexivity]).
    rewrite Hw'. clear E1.
    destruct fuel1 as [|fuel1]; [lia|].
    assert (Hexit :
      nextUnix_loop (S fuel1) ((pre ++ lead) ++ renderWord w ++ renderLine gap more)
        (qlength ((pre ++ lead) ++ renderWord w)) mxInitial [] [] true true (wordValue w)
      = Some (qlength ((pre ++ lead) ++ renderWord w), true, true, wordValue w)).
    { rewrite (app_assoc _ (renderWord w)).
      destruct gap as [|b g].
      - destruct more as [|e more']; [|discriminate].
        cbn [renderLine]. rewrite app_nil_r. apply nextUnix_loop_end.
      - rewrite renderLine_cons. apply nextUnix_loop_stop.
        apply (lineOk_gap abortOnMeta b g more Hmore). }
    rewrite Hexit.
    rewrite (IH gap ((pre ++ lead) ++ renderWord w)); [reflexivity | exact Hmore | | | | | ].
    + cbn [m_str]. rewrite <- !app_assoc. reflexivity.
    + reflexivity.
    + reflexivity.
    + lia.
    + lia.
Qed.

End IteratorLine.


(** C5, as amended: on a command line made of words separated by spaces
    and tabs, where a word is a sequence of characters that stand for
    themselves, characters after a backslash, closed sections in single
    quotes and closed sections in double quotes without dollar sign and
    backtick, and does not start with a bare tilde, calling next until
    it returns false yields the values of the words in their order,
    each marked simple, and splitArgs under the Unix grammar returns
    the same values with SplitOk. *)
Theorem walkArgs_agrees_with_splitArgs `{QtServices} (abortOnMeta : bool)
    (env : option Environment) (pwd : option QString) (e0 : SplitError)
    (lead : QString) (ws : list (Word * QString)) (calls fuel : nat) :
  lineOk abortOnMeta lead ws = true ->
  (List.length ws < calls)%nat ->
  (List.length (renderLine lead ws) < fuel)%nat ->
  walkArgs calls fuel (argIterator (renderLine lead ws) OsTypeLinux)
  = Some (map (fun v => (v, true)) (lineValues ws))
  /\ splitArgs (renderLine lead ws) OsTypeLinux abortOnMeta (Some e0) env pwd
     = Some (lineValues ws, Some SplitOk).
Proof.
  intros Hok Hcalls Hfuel. split.
  - apply (walkArgs_line abortOnMeta ws lead []); try assumption; reflexivity.
  - unfold splitArgs. cbn [isWindows].
    rewrite (splitArgsUnix_line abortOnMeta env pwd lead ws Hok). reflexivity.
Qed.


(** * expandMacros in front of an escaped macro *)

(** ** Nothing is written back on failure *)


(** ** The Unix scan *)

Section MxUnixScan.
Variable mx : AbstractMacroExpander.
Variables varPos varLen : Z.
Variable rsts : QString.

Local Abbreviation loop := (fun fuel str pos state sstack =>
  expandMacrosUnix_loop fuel mx str pos varPos varLen rsts state sstack []).
Local Abbreviation inSingle := {| current := MxSingleQuote; dquote := false |}.
Local Abbreviation inDouble := {| current := MxDoubleQuote; dquote := true |}.

Lemma before_varPos (pre : QString) (c : QChar) (r : QString) :
  qlength (pre ++ [c]) <= varPos -> (qlength pre =? varPos) = false.
Proof. rewrite qlength_snoc. intros Hv. apply Z.eqb_neq. lia. Qed.

(** A character without meaning. *)
Lemma expandMacrosUnix_loop_plain (pre : QString) (c : QChar) (rest : QString) (fuel : nat) :
  mxPlain c = true -> qlength (pre ++ [c]) <= varPos ->
  loop (S fuel) (pre ++ c :: rest) (qlength pre) mxInitial []
  = loop fuel (pre ++ c :: rest) (qlength pre + 1) mxInitial [].
Proof.
  intros Hc Hv. unfold mxPlain in Hc. apply negb_true_iff in Hc.
  pose proof (existsb_eqb_false c _ Hc) as Hx.
  cbn [expandMacrosUnix_loop]. rewrite inside_prefix, unicodeAt_prefix.
  rewrite (before_varPos pre c rest Hv).
  rewrite (Hx ch_squote), (Hx ch_dquote), (Hx ch_dollar), (Hx ch_bslash), (Hx ch_btick),
    (Hx ch_lparen), (Hx ch_rparen), (Hx ch_lbrace), (Hx ch_rbrace) by (cbn [In]; tauto).
  reflexivity.
Qed.

(** A character after a backslash that is no macro. *)
Lemma expandMacrosUnix_loop_escaped (pre : QString) (c : QChar) (rest : QString)
    (fuel : nat) (state : MxState) (sstack : list MxState) :
  MxQuoting_eqb (current state) MxSingleQuote = false ->
  qlength (pre ++ [ch_bslash; c]) <= varPos ->
  loop (S fuel) (pre ++ ch_bslash :: c :: rest) (qlength pre) state sstack
  = loop fuel (pre ++ ch_bslash :: c :: rest) (qlength pre + 2) state sstack.
Proof.
  intros Hst Hv. rewrite qlength_app, !qlength_cons, qlength_nil in Hv.
  cbn [expandMacrosUnix_loop]. rewrite inside_prefix, unicodeAt_prefix, Hst.
  replace (qlength pre =? varPos) with false by (symmetry; apply Z.eqb_neq; lia).
  change (ch_bslash =? ch_bslash) with true. cbv iota.
  replace (varPos <? qlength pre + 2) with false by (symmetry; apply Z.ltb_ge; lia).
  reflexivity.
Qed.


(** The quote that opens a section, single or double. *)
Lemma expandMacrosUnix_loop_squote_open (pre rest : QString) (fuel : nat) :
  qlength (pre ++ [ch_squote]) <= varPos ->
  loop (S fuel) (pre ++ ch_squote :: rest) (qlength pre) mxInitial []
  = loop fuel (pre ++ ch_squote :: rest) (qlength pre + 1) inSingle [mxInitial].
Proof.
  intros Hv. cbn [expandMacrosUnix_loop]. rewrite inside_prefix, unicodeAt_prefix.
  rewrite (before_varPos pre ch_squote rest Hv). reflexivity.
Qed.

Lemma expandMacrosUnix_loop_dquote_open (pre rest : QString) (fuel : nat) :
  qlength (pre ++ [ch_dquote]) <= varPos ->
  loop (S fuel) (pre ++ ch_dquote :: rest) (qlength pre) mxInitial []
  = loop fuel (pre ++ ch_dquote :: rest) (qlength pre + 1) inDouble [mxInitial].
Proof.
  intros Hv. cbn [expandMacrosUnix_loop]. rewrite inside_prefix, unicodeAt_prefix.
  rewrite (before_varPos pre ch_dquote rest Hv). reflexivity.
Qed.

(** The inside of a section in single quotes, with the closing quote. *)
Lemma expandMacrosUnix_loop_squote_body (text : QString) : forall pre rest fuel,
  lacks ch_squote text = true ->
  qlength (pre ++ text ++ [ch_squote]) <= varPos ->
  loop (List.length text + S fuel)%nat (pre ++ text ++ ch_squote :: rest) (qlength pre)
    inSingle [mxInitial]
  = loop fuel (pre ++ text ++ ch_squote :: rest) (qlength pre + qlength text + 1)
      mxInitial [].
Proof.
  induction text as [|c text IH]; intros pre rest fuel Ht Hv.
  - cbn [List.length Nat.add app] in *. cbn [expandMacrosUnix_loop].
    rewrite inside_prefix, unicodeAt_prefix, (before_varPos pre ch_squote rest Hv).
    rewrite qlength_nil, Z.add_0_r. reflexivity.
  - rewrite lacks_cons in Ht. apply andb_true_iff in Ht as [Hc Ht].
    apply negb_true_iff in Hc.
    cbn [List.length Nat.add app] in *. cbn [expandMacrosUnix_loop].
    rewrite inside_prefix, unicodeAt_prefix.
    assert (Hv' : qlength ((pre ++ [c]) ++ text ++ [ch_squote]) <= varPos)
      by (rewrite <- app_assoc; exact Hv).
    replace (qlength pre =? varPos) with false.
    2:{ symmetry. apply Z.eqb_neq. rewrite !qlength_app, qlength_cons in Hv.
        pose proof (qlength_nonneg (text ++ [ch_squote])). rewrite qlength_app in *. lia. }
    cbn [MxQuoting_eqb current]. rewrite Hc.
    rewrite <- qlength_snoc with (c := c).
    replace (pre ++ c :: text ++ ch_squote :: rest)
      with ((pre ++ [c]) ++ text ++ ch_squote :: rest)
      by (rewrite <- app_assoc; reflexivity).
    rewrite IH by assumption. rewrite qlength_snoc, qlength_cons. f_equal. lia.
Qed.

(** The inside of a section in double quotes. *)
Lemma expandMacrosUnix_loop_dpieces (ds : list DPiece) : forall pre rest fuel,
  forallb mxDPieceOk ds = true ->
  qlength (pre ++ flat_map renderDPiece ds) <= varPos ->
  loop (List.length ds + fuel)%nat (pre ++ flat_map renderDPiece ds ++ rest) (qlength pre)
    inDouble [mxInitial]
  = loop fuel (pre ++ flat_map renderDPiece ds ++ rest)
      (qlength pre + qlength (flat_map renderDPiece ds)) inDouble [mxInitial].
Proof.
  induction ds as [|d ds IH]; intros pre rest fuel Hok Hv.
  - cbn [List.length Nat.add app flat_map]. rewrite qlength_nil, Z.add_0_r. reflexivity.
  - cbn [forallb] in Hok. apply andb_true_iff in Hok as [Hd Hok].
    cbn [List.length Nat.add flat_map] in *. rewrite <- !app_assoc.
    rewrite app_assoc in Hv.
    pose proof Hv as Hv1. rewrite qlength_app in Hv1.
    pose proof (qlength_nonneg (flat_map renderDPiece ds)) as Hnn.
    destruct d as [c | c]; cbn [renderDPiece mxDPieceOk app] in *.
    + apply negb_true_iff in Hd. pose proof (existsb_eqb_false c _ Hd) as Hx.
      cbn [expandMacrosUnix_loop]. rewrite inside_prefix, unicodeAt_prefix.
      rewrite (before_varPos pre c rest) by lia.
      rewrite (Hx ch_dquote), (Hx ch_bslash), (Hx ch_dollar), (Hx ch_btick)
        by (cbn [In]; tauto).
      cbn [MxQuoting_eqb current].
      rewrite <- qlength_snoc with (c := c).
      replace (pre ++ c :: flat_map renderDPiece ds ++ rest)
        with ((pre ++ [c]) ++ flat_map renderDPiece ds ++ rest)
        by (rewrite <- app_assoc; reflexivity).
      rewrite IH by assumption. rewrite qlength_snoc, qlength_cons. f_equal. lia.
    + rewrite expandMacrosUnix_loop_escaped by (try reflexivity; lia).
      replace (qlength pre + 2) with (qlength (pre ++ [ch_bslash; c]))
        by (rewrite qlength_app, !qlength_cons, qlength_nil; lia).
      replace (pre ++ ch_bslash :: c :: flat_map renderDPiece ds ++ rest)
        with ((pre ++ [ch_bslash; c]) ++ flat_map renderDPiece ds ++ rest)
        by (rewrite <- app_assoc; reflexivity).
      rewrite IH by assumption. rewrite qlength_app, !qlength_cons, qlength_nil.
      f_equal. lia.
Qed.

(** The quote that closes a section in double quotes. *)
Lemma expandMacrosUnix_loop_dquote_close (pre rest : QString) (fuel : nat) :
  qlength (pre ++ [ch_dquote]) <= varPos ->
  loop (S fuel) (pre ++ ch_dquote :: rest) (qlength pre) inDouble [mxInitial]
  = loop fuel (pre ++ ch_dquote :: rest) (qlength pre + 1) mxInitial [].
Proof.
  intros Hv. cbn [expandMacrosUnix_loop]. rewrite inside_prefix, unicodeAt_prefix.
  rewrite (before_varPos pre ch_dquote rest Hv). reflexivity.
Qed.

Lemma renderDPieces_length (ds : list DPiece) :
  (List.length ds <= List.length (flat_map renderDPiece ds))%nat.
Proof.
  induction ds as [|d ds IH]; [cbn; lia|].
  cbn [flat_map List.length]. rewrite length_app.
  destruct d; cbn [renderDPiece List.length]; lia.
Qed.

(** One piece in front of the macro. *)
Lemma expandMacrosUnix_loop_piece (p : Piece) (pre rest : QString) (fuel : nat) :
  mxPieceOk p = true ->
  (List.length (renderPiece p) <= fuel)%nat ->
  qlength (pre ++ renderPiece p) <= varPos ->
  exists fuel',
    (fuel - List.length (renderPiece p) <= fuel')%nat
    /\ loop fuel (pre ++ renderPiece p ++ rest) (qlength pre) mxInitial []
       = loop fuel' (pre ++ renderPiece p ++ rest) (qlength (pre ++ renderPiece p))
           mxInitial [].
Proof.
  intros Hp Hfuel Hv. rewrite qlength_app.
  destruct p as [c | c | text | ds]; cbn [mxPieceOk renderPiece app] in *.
  - destruct fuel as [|fuel]; [cbn in Hfuel; lia|]. exists fuel. split; [cbn; lia|].
    rewrite expandMacrosUnix_loop_plain by assumption. reflexivity.
  - destruct fuel as [|fuel]; [cbn in Hfuel; lia|]. exists fuel. split; [cbn; lia|].
    rewrite expandMacrosUnix_loop_escaped by (try reflexivity; assumption). reflexivity.
  - cbn [List.length] in Hfuel. rewrite length_app in Hfuel. cbn [List.length] in Hfuel.
    exists (fuel - S (List.length text + 1))%nat.
    split; [cbn [List.length]; rewrite length_app; cbn [List.length]; lia|].
    replace fuel with (S (List.length text + S (fuel - S (List.length text + 1))))%nat at 1
      by lia.
    rewrite <- app_assoc. cbn [app].
    assert (Hv1 : qlength ((pre ++ [ch_squote]) ++ text ++ [ch_squote]) <= varPos)
      by (rewrite <- app_assoc; exact Hv).
    rewrite expandMacrosUnix_loop_squote_open.
    2:{ rewrite !qlength_app in *. pose proof (qlength_nonneg text).
        rewrite !qlength_cons, qlength_nil in *. lia. }
    rewrite <- qlength_snoc with (c := ch_squote).
    replace (pre ++ ch_squote :: text ++ ch_squote :: rest)
      with ((pre ++ [ch_squote]) ++ text ++ ch_squote :: rest)
      by (rewrite <- app_assoc; reflexivity).
    rewrite expandMacrosUnix_loop_squote_body by assumption.
    f_equal. rewrite qlength_snoc, !qlength_cons, qlength_app, qlength_cons, qlength_nil. lia.
  - cbn [List.length] in Hfuel. rewrite length_app in Hfuel. cbn [List.length] in Hfuel.
    pose proof (renderDPieces_length ds) as Hlen.
    exists (fuel - S (S (List.length ds)))%nat.
    split; [cbn [List.length]; rewrite length_app; cbn [List.length]; lia|].
    replace fuel with (S (List.length ds + S (fuel - S (S (List.length ds)))))%nat at 1
      by lia.
    rewrite <- app_assoc. cbn [app].
    assert (Hq : qlength (pre ++ ch_dquote :: flat_map renderDPiece ds ++ [ch_dquote])
                 = qlength pre + 1 + qlength (flat_map renderDPiece ds) + 1)
      by (rewrite qlength_app, qlength_cons, qlength_app, qlength_cons, qlength_nil; lia).
    pose proof (qlength_nonneg (flat_map renderDPiece ds)) as Hnn.
    rewrite expandMacrosUnix_loop_dquote_open by (rewrite qlength_snoc; lia).
    rewrite <- qlength_snoc with (c := ch_dquote).
    replace (pre ++ ch_dquote :: flat_map renderDPiece ds ++ ch_dquote :: rest)
      with ((pre ++ [ch_dquote]) ++ flat_map renderDPiece ds ++ ch_dquote :: rest)
      by (rewrite <- app_assoc; reflexivity).
    rewrite expandMacrosUnix_loop_dpieces
      by (try assumption; rewrite qlength_app, qlength_snoc; lia).
    rewrite <- qlength_app.
    replace ((pre ++ [ch_dquote]) ++ flat_map renderDPiece ds ++ ch_dquote :: rest)
      with (((pre ++ [ch_dquote]) ++ flat_map renderDPiece ds) ++ ch_dquote :: rest)
      by (rewrite <- !app_assoc; reflexivity).
    rewrite expandMacrosUnix_loop_dquote_close
      by (rewrite qlength_snoc, qlength_app, qlength_snoc; lia).
    f_equal. rewrite qlength_app, qlength_snoc, qlength_cons, qlength_app, qlength_cons,
      qlength_nil. lia.
Qed.

(** The pieces in front of the macro. *)
Lemma expandMacrosUnix_loop_pieces (ps : Word) : forall pre rest fuel,
  forallb mxPieceOk ps = true ->
  (List.length (renderWord ps) <= fuel)%nat ->
  qlength (pre ++ renderWord ps) <= varPos ->
  exists fuel',
    (fuel - List.length (renderWord ps) <= fuel')%nat
    /\ loop fuel (pre ++ renderWord ps ++ rest) (qlength pre) mxInitial []
       = loop fuel' (pre ++ renderWord ps ++ rest) (qlength (pre ++ renderWord ps))
           mxInitial [].
Proof.
  induction ps as [|p ps IH]; intros pre rest fuel Hok Hfuel Hv.
  - exists fuel. cbn [renderWord flat_map app List.length].
    rewrite !app_nil_r. split; [lia | reflexivity].
  - cbn [forallb] in Hok. apply andb_true_iff in Hok as [Hp Hok].
    cbn [renderWord flat_map] in *. fold (renderWord ps) in *.
    rewrite length_app in Hfuel. rewrite <- !app_assoc.
    assert (Hv1 : qlength (pre ++ renderPiece p) <= varPos).
    { rewrite !qlength_app in *. pose proof (qlength_nonneg (renderWord ps)). lia. }
    destruct (expandMacrosUnix_loop_piece p pre (renderWord ps ++ rest) fuel Hp
                ltac:(lia) Hv1) as (fuel1 & Hf1 & E1).
    destruct (IH (pre ++ renderPiece p) rest fuel1 Hok ltac:(lia)
                ltac:(rewrite <- app_assoc; exact Hv)) as (fuel2 & Hf2 & E2).
    exists fuel2. split; [rewrite length_app; lia|].
    rewrite E1. rewrite <- app_assoc in E2. rewrite E2.
    rewrite <- !app_assoc. reflexivity.
Qed.

End MxUnixScan.



(** ** The Windows scan *)

Section MxWinScan.
Variable mx : AbstractMacroExpander.
Variables varPos varLen : Z.
Variable rsts : QString.
Hypothesis varPos_found : varPos <> INT_MAX.







End MxWinScan.





(** * Joining arguments and reading them back *)

Lemma quoteArg_not_empty (arg : QString) (osType : OsType) :
  isEmpty (quoteArg arg osType) = false.
Proof.
  unfold quoteArg, quoteArgWin, quoteArgUnix.
  destruct (isWindows osType); destruct arg as [|c r]; try reflexivity; cbn [isEmpty].
  - destruct (hasSpecialCharsWin (c :: r)); reflexivity.
  - destruct (hasSpecialCharsUnix (c :: r)); reflexivity.
Qed.

(** [joinArgs] puts one space between the quoted arguments. *)
Lemma joinArgs_from (osType : OsType) (args : QStringList) : forall acc,
  fold_left (fun ret arg => addArg ret arg osType) args acc
  = match args with
    | [] => acc
    | _ => (if isEmpty acc then [] else acc ++ [ch_space]) ++ joinArgs args osType
    end.
Proof.
  induction args as [|a args IH]; intros acc; [reflexivity|].
  assert (Hne : forall x, isEmpty (addArg x a osType) = false).
  { intros x. unfold addArg. pose proof (quoteArg_not_empty a osType) as Hq.
    destruct (quoteArg a osType); [discriminate|].
    destruct (if negb (isEmpty x) then x ++ [ch_space] else x); reflexivity. }
  unfold joinArgs. cbn [fold_left]. rewrite (IH (addArg acc a osType)), (IH (addArg [] a osType)).
  destruct args as [|b args].
  - unfold addArg. cbn [isEmpty negb app]. destruct acc; reflexivity.
  - rewrite !Hne. unfold addArg. cbn [isEmpty negb app].
    destruct acc as [|x acc]; cbn [isEmpty negb app]; rewrite <- ?app_assoc; reflexivity.
Qed.

Lemma joinArgs_cons (osType : OsType) (a : QString) (args : QStringList) :
  joinArgs (a :: args) osType
  = quoteArg a osType
    ++ match args with [] => [] | _ => ch_space :: joinArgs args osType end.
Proof.
  unfold joinArgs at 1. cbn [fold_left]. rewrite joinArgs_from.
  unfold addArg. cbn [isEmpty negb app].
  destruct args as [|b args]; [rewrite app_nil_r; reflexivity|].
  rewrite quoteArg_not_empty. rewrite <- app_assoc. reflexivity.
Qed.

Lemma renderWord_squotePieces (s : QString) : forall seg,
  renderWord (squotePieces seg s)
  = ch_squote :: seg ++ replaceChar ch_squote singleQuoteEscape s ++ [ch_squote].
Proof.
  induction s as [|c s IH]; intros seg.
  - cbn. rewrite app_nil_r. reflexivity.
  - cbn [squotePieces]. unfold replaceChar. cbn [flat_map]. fold (replaceChar ch_squote singleQuoteEscape s).
    destruct (c =? ch_squote) eqn:Ec.
    + cbn [renderWord flat_map renderPiece]. fold (renderWord (squotePieces [] s)).
      rewrite IH. unfold singleQuoteEscape at 1. cbn [app]. rewrite <- !app_assoc. reflexivity.
    + rewrite IH. rewrite <- !app_assoc. reflexivity.
Qed.

Lemma wordValue_squotePieces (s : QString) : forall seg,
  wordValue (squotePieces seg s) = seg ++ s.
Proof.
  induction s as [|c s IH]; intros seg.
  - cbn. reflexivity.
  - cbn [squotePieces]. destruct (c =? ch_squote) eqn:Ec.
    + apply Z.eqb_eq in Ec. subst c.
      cbn [wordValue flat_map pieceValue]. fold (wordValue (squotePieces [] s)).
      rewrite IH. reflexivity.
    + rewrite IH. rewrite <- app_assoc. reflexivity.
Qed.

Lemma squotePieces_head (s : QString) : forall seg,
  exists seg' ps, squotePieces seg s = SQuoted seg' :: ps.
Proof.
  induction s as [|c s IH]; intros seg; cbn [squotePieces].
  - eexists _, _. reflexivity.
  - destruct (c =? ch_squote); [eexists _, _; reflexivity | apply IH].
Qed.

Lemma pieceOk_squotePieces `{QtServices} (abortOnMeta : bool) (s : QString) : forall seg,
  lacks ch_squote seg = true ->
  forallb (pieceOk abortOnMeta) (squotePieces seg s) = true.
Proof.
  induction s as [|c s IH]; intros seg Hseg.
  - cbn. rewrite Hseg. reflexivity.
  - cbn [squotePieces]. destruct (c =? ch_squote) eqn:Ec.
    + cbn [forallb pieceOk]. rewrite Hseg, IH by reflexivity. reflexivity.
    + apply IH. rewrite lacks_app, Hseg. cbn. rewrite Ec. reflexivity.
Qed.

(** A character [quoteArgUnix] leaves bare stands for itself. *)
Lemma wordChar_of_unquoted `{QtServices} (abortOnMeta : bool) (c : QChar) :
  isSpecialCharUnix c = false -> negb (isSpace c) || (c <? 128) = true ->
  wordChar abortOnMeta c = true /\ (c =? ch_tilde) = false.
Proof.
  intros Hsp Hascii.
  destruct (plainUnix_of_unquoted c Hsp Hascii) as [Hplain Htilde].
  split; [|exact Htilde].
  unfold plainUnix in Hplain. repeat (apply andb_true_iff in Hplain as [Hplain ?]).
  repeat match goal with X : negb _ = true |- _ => apply negb_true_iff in X end.
  unfold wordChar. rewrite Hplain.
  match goal with X : isMetaUnix c = false |- _ => rewrite X; rename X into Hmeta end.
  rewrite andb_false_r. cbn [negb andb]. rewrite andb_true_r. apply negb_true_iff.
  assert (Hx : forall x, isMetaUnix x = true -> (c =? x) = false).
  { intros x Hm. apply Z.eqb_neq. intros ->. congruence. }
  cbn [existsb].
  rewrite (Hx ch_btick), (Hx ch_lparen), (Hx ch_rparen), (Hx 60), (Hx 62), (Hx 38), (Hx 124),
    (Hx 59) by reflexivity.
  repeat match goal with X : (c =? _) = false |- _ => rewrite X end.
  reflexivity.
Qed.

Section QuoteWord.
Context `{QtServices}.
Variable abortOnMeta : bool.

Lemma renderWord_quoteWord (arg : QString) : renderWord (quoteWord arg) = quoteArgUnix arg.
Proof.
  unfold quoteWord, quoteArgUnix. destruct (isEmpty arg); [reflexivity|].
  destruct (hasSpecialCharsUnix arg).
  - rewrite renderWord_squotePieces. reflexivity.
  - unfold renderWord. induction arg as [|c arg IH]; [reflexivity|].
    cbn [map flat_map renderPiece app]. rewrite IH. reflexivity.
Qed.

Lemma wordValue_quoteWord (arg : QString) : wordValue (quoteWord arg) = arg.
Proof.
  unfold quoteWord. destruct arg as [|c arg]; [reflexivity|]. cbn [isEmpty].
  destruct (hasSpecialCharsUnix (c :: arg)).
  - apply wordValue_squotePieces.
  - unfold wordValue. induction (c :: arg) as [|x l IH]; [reflexivity|].
    cbn [map flat_map pieceValue app]. rewrite IH. reflexivity.
Qed.

Lemma wordOk_quoteWord (arg : QString) :
  forallb (fun c => negb (isSpace c) || (c <? 128)) arg = true ->
  wordOk abortOnMeta (quoteWord arg) = true.
Proof.
  intros Hascii. unfold quoteWord. destruct arg as [|c arg]; [reflexivity|]. cbn [isEmpty].
  destruct (hasSpecialCharsUnix (c :: arg)) eqn:Hsp.
  - unfold wordOk. rewrite pieceOk_squotePieces by reflexivity.
    destruct (squotePieces_head (c :: arg) []) as (seg & ps & ->). reflexivity.
  - unfold hasSpecialCharsUnix in Hsp. rewrite existsb_rev in Hsp.
    cbn [existsb forallb] in *. apply orb_false_iff in Hsp as [Hc Hr].
    apply andb_true_iff in Hascii as [Hac Har].
    destruct (wordChar_of_unquoted abortOnMeta c Hc Hac) as [Hw Ht].
    unfold wordOk. cbn [map forallb pieceOk]. rewrite Ht, Hw. cbn [negb andb].
    clear - Hr Har. induction arg as [|x l IH]; [reflexivity|].
    cbn [existsb forallb map pieceOk] in *. apply orb_false_iff in Hr as [Hx Hl].
    apply andb_true_iff in Har as [Hax Hal].
    rewrite (proj1 (wordChar_of_unquoted abortOnMeta x Hx Hax)), IH by assumption.
    reflexivity.
Qed.

Lemma renderLine_joinLine (args : QStringList) :
  renderLine [] (joinLine args) = joinArgs args OsTypeLinux.
Proof.
  induction args as [|a args IH]; [reflexivity|].
  rewrite joinArgs_cons. cbn [joinLine renderLine app quoteArg isWindows].
  rewrite renderWord_quoteWord. f_equal.
  destruct args as [|b args]; [reflexivity|].
  rewrite <- IH. cbn [joinLine renderLine app]. reflexivity.
Qed.

Lemma lineValues_joinLine (args : QStringList) : lineValues (joinLine args) = args.
Proof.
  induction args as [|a args IH]; [reflexivity|].
  cbn [joinLine lineValues map fst]. rewrite wordValue_quoteWord. f_equal. exact IH.
Qed.

Lemma lineOk_joinLine (args : QStringList) :
  forallb (forallb (fun c => negb (isSpace c) || (c <? 128))) args = true ->
  lineOk abortOnMeta [] (joinLine args) = true.
Proof.
  induction args as [|a args IH]; intros Hascii; [reflexivity|].
  cbn [forallb] in Hascii. apply andb_true_iff in Hascii as [Ha Hargs].
  cbn [joinLine lineOk forallb andb]. rewrite (wordOk_quoteWord a Ha). cbn [andb].
  destruct args as [|b args]; [reflexivity|].
  specialize (IH Hargs). cbn [joinLine lineOk forallb andb isEmpty negb] in *.
  exact IH.
Qed.

End QuoteWord.

Lemma joinLine_length (args : QStringList) :
  List.length (joinLine args) = List.length args.
Proof.
  induction args as [|a args IH]; [reflexivity|]. cbn [joinLine List.length]. rewrite IH.
  reflexivity.
Qed.

(** X1: joining arguments for the Unix grammar and splitting the
    result gives the arguments back, one for one, with SplitOk, with and
    without abortOnMeta and whatever the environment, when the only
    white space in the arguments is that of ASCII; the same holds for
    the text toString gives for Unix arguments. *)
Theorem joinArgs_splitArgs_unix `{QtServices} (abortOnMeta : bool)
    (env : option Environment) (pwd : option QString) (e0 : SplitError) (args : QStringList) :
  forallb (forallb (fun c => negb (isSpace c) || (c <? 128))) args = true ->
  splitArgs (joinArgs args OsTypeLinux) OsTypeLinux abortOnMeta (Some e0) env pwd
  = Some (args, Some SplitOk)
  /\ splitArgs (toString (createUnixArgs args)) OsTypeLinux abortOnMeta (Some e0) env pwd
     = Some (args, Some SplitOk).
Proof.
  intros Hascii.
  assert (Hs : splitArgs (joinArgs args OsTypeLinux) OsTypeLinux abortOnMeta (Some e0) env pwd
               = Some (args, Some SplitOk)).
  { unfold splitArgs. cbn [isWindows]. rewrite <- renderLine_joinLine.
    rewrite (splitArgsUnix_line abortOnMeta env pwd [] (joinLine args)
               (lineOk_joinLine abortOnMeta args Hascii)).
    rewrite lineValues_joinLine. reflexivity. }
  split; exact Hs.
Qed.

(** X2: the iterator under the Unix grammar walks the text of joined
    arguments argument by argument: the calls of next that return true
    yield the arguments in their order, each marked simple. *)
Theorem joinArgs_walkArgs_unix `{QtServices} (args : QStringList) (calls fuel : nat) :
  forallb (forallb (fun c => negb (isSpace c) || (c <? 128))) args = true ->
  (List.length args < calls)%nat ->
  (List.length (joinArgs args OsTypeLinux) < fuel)%nat ->
  walkArgs calls fuel (argIterator (joinArgs args OsTypeLinux) OsTypeLinux)
  = Some (map (fun a => (a, true)) args).
Proof.
  intros Hascii Hcalls Hfuel.
  rewrite <- (lineValues_joinLine args) at 2.
  apply (walkArgs_line true (joinLine args) [] []).
  - apply lineOk_joinLine. exact Hascii.
  - cbn [m_str argIterator app]. symmetry. apply renderLine_joinLine.
  - reflexivity.
  - reflexivity.
  - rewrite joinLine_length. exact Hcalls.
  - rewrite renderLine_joinLine. exact Hfuel.
Qed.


(** * The Unix lexer: errors, the tilde and variables *)

Lemma renderLine_length_le (ws : list (Word * QString)) : forall lead,
  (List.length lead <= List.length (renderLine lead ws))%nat.
Proof.
  destruct ws as [|[w gap] more]; intros lead; cbn [renderLine]; [lia|].
  rewrite length_app. lia.
Qed.

Section UnixLexerEdges.
Context `{QtServices}.
Variable abortOnMeta : bool.
Variable env : option Environment.
Variable pwd : option QString.

Local Abbreviation nextc := (splitUnix_nextc abortOnMeta env pwd).
Local Abbreviation body := (splitUnix_body abortOnMeta env pwd).
Local Abbreviation word := (splitUnix_word abortOnMeta env pwd).

Lemma splitUnix_word_blanks
    (k : QChar -> QString -> QString -> bool -> QStringList -> Lex QStringList)
    (lead rest : QString) (ret : QStringList) :
  forallb isBlank lead = true -> word k (lead ++ rest) ret = word k rest ret.
Proof. intros Hb. unfold splitUnix_word. rewrite (skipSpaces_blanks lead rest Hb). reflexivity. Qed.

(** Complete words, each followed by a blank, are read and the lexer
    goes on with what follows them. *)
Lemma splitUnix_word_line_then (ws : list (Word * QString)) : forall lead fuel ret rest,
  lineOk abortOnMeta lead ws = true ->
  forallb (fun e => negb (isEmpty (snd e))) ws = true ->
  (List.length (renderLine lead ws) <= fuel)%nat ->
  exists fuel',
    (fuel - List.length (renderLine lead ws) <= fuel')%nat
    /\ word (nextc fuel) (renderLine lead ws ++ rest) ret
       = word (nextc fuel') rest (ret ++ lineValues ws).
Proof.
  induction ws as [|[w gap] more IH]; intros lead fuel ret rest Hok Hgaps Hfuel.
  - cbn [lineOk] in Hok. rewrite andb_true_r in Hok.
    cbn [renderLine lineValues map]. exists fuel. split; [lia|].
    rewrite splitUnix_word_blanks by exact Hok. rewrite app_nil_r. reflexivity.
  - cbn [lineOk] in Hok. apply andb_true_iff in Hok as [Hlead Hok].
    apply andb_true_iff in Hok as [Hok Hmore]. apply andb_true_iff in Hok as [Hw _].
    cbn [forallb snd] in Hgaps. apply andb_true_iff in Hgaps as [Hgap Hgaps].
    unfold wordOk in Hw. apply andb_true_iff in Hw as [Hfirst Hps].
    destruct w as [|p ps]; [discriminate|].
    destruct gap as [|b g]; [discriminate|]. clear Hgap.
    cbn [forallb] in Hps. apply andb_true_iff in Hps as [Hp Hps].
    cbn [renderLine lineValues map fst] in *. fold (lineValues more).
    cbn [renderWord wordValue flat_map] in *. fold (renderWord ps) in *. fold (wordValue ps).
    rewrite renderLine_cons in *.
    rewrite !length_app in Hfuel. cbn [List.length] in Hfuel.
    pose proof (renderWord_length ps) as Hlen.
    rewrite <- !app_assoc. rewrite splitUnix_word_blanks by exact Hlead.
    unfold splitUnix_word at 1.
    destruct (splitUnix_body_piece abortOnMeta env pwd (nextc fuel) p
                (renderWord ps ++ (b :: renderLine g more) ++ rest)
                [] false ret Hp) as (c & r & E & Hs & Ht & Hb).
    assert (Hlp : (1 <= List.length (renderPiece p))%nat)
      by (destruct p; cbn [renderPiece List.length]; lia).
    rewrite E. cbn [skipSpaces]. rewrite Hs.
    assert (Htilde : (c =? ch_tilde) = false).
    { rewrite <- Ht. destruct p; try reflexivity. apply negb_true_iff. exact Hfirst. }
    rewrite Htilde, Hb.
    rewrite splitUnix_getc_pieces by (try exact Hps; lia).
    cbn [app].
    destruct (lineOk_gap abortOnMeta b g more Hmore) as [Hb' Hg].
    destruct (fuel - List.length ps)%nat as [|fuel1] eqn:Ef; [lia|].
    cbn [splitUnix_getc splitUnix_nextc]. rewrite (isBlank_isSpace b Hb').
    destruct (IH g fuel1 (endWord ret (pieceValue p ++ wordValue ps)
                            match ps with [] => true | _ :: _ => true end) rest Hg Hgaps
                ltac:(lia)) as (fuel2 & Hf2 & E2).
    exists fuel2. split; [rewrite !length_app; cbn [List.length]; lia|].
    rewrite E2. destruct ps; unfold endWord; rewrite <- app_assoc; reflexivity.
Qed.

(** The pieces of a last word that is not finished: the lexer stands
    in its inner loop at what follows them. *)
Lemma splitUnix_word_pieces_then (ps : Word) (c : QChar) (r : QString) (fuel : nat)
    (ret : QStringList) :
  forallb (pieceOk abortOnMeta) ps = true ->
  match ps with Plain x :: _ => negb (x =? ch_tilde) | _ => true end = true ->
  isSpace c = false -> (c =? ch_tilde) = false ->
  (List.length ps < fuel)%nat ->
  exists fuel',
    (fuel - S (List.length ps) <= fuel')%nat
    /\ word (nextc fuel) (renderWord ps ++ c :: r) ret
       = body (nextc fuel') c r (wordValue ps)
           (match ps with [] => false | _ :: _ => true end) ret.
Proof.
  intros Hps Hfirst Hc Htc Hfuel.
  destruct ps as [|p ps].
  - exists fuel. split; [lia|]. cbn [renderWord wordValue flat_map app].
    unfold splitUnix_word. cbn [skipSpaces]. rewrite Hc, Htc. reflexivity.
  - cbn [forallb] in Hps. apply andb_true_iff in Hps as [Hp Hps].
    cbn [renderWord wordValue flat_map List.length] in *. fold (renderWord ps).
    fold (wordValue ps). rewrite <- app_assoc.
    unfold splitUnix_word.
    destruct (splitUnix_body_piece abortOnMeta env pwd (nextc fuel) p
                (renderWord ps ++ c :: r) [] false ret Hp) as (c0 & r0 & E & Hs & Ht & Hb).
    rewrite E. cbn [skipSpaces]. rewrite Hs.
    assert (Htilde : (c0 =? ch_tilde) = false).
    { rewrite <- Ht. destruct p; try reflexivity. apply negb_true_iff. exact Hfirst. }
    rewrite Htilde, Hb.
    rewrite splitUnix_getc_pieces by (try exact Hps; lia).
    destruct (fuel - List.length ps)%nat as [|fuel1] eqn:Ef; [lia|].
    exists fuel1. split; [lia|].
    cbn [splitUnix_getc splitUnix_nextc app]. rewrite Hc. destruct ps; reflexivity.
Qed.

(** [splitArgsUnix] on complete words followed by the pieces of a
    last word and a character at which the inner loop decides. *)
Lemma splitArgsUnix_reaches (lead : QString) (ws : list (Word * QString)) (ps : Word)
    (c : QChar) (r : QString) :
  lineOk abortOnMeta lead ws = true ->
  forallb (fun e => negb (isEmpty (snd e))) ws = true ->
  forallb (pieceOk abortOnMeta) ps = true ->
  match ps with Plain x :: _ => negb (x =? ch_tilde) | _ => true end = true ->
  isSpace c = false -> (c =? ch_tilde) = false ->
  exists fuel',
    (S (List.length r) < fuel')%nat
    /\ splitArgsUnix abortOnMeta env pwd (renderLine lead ws ++ renderWord ps ++ c :: r)
       = match body (nextc fuel') c r (wordValue ps)
                 (match ps with [] => false | _ :: _ => true end) (lineValues ws) with
         | Got ret => Some (ret, SplitOk)
         | QuoteErr => Some ([], BadQuoting)
         | MetaErr => Some ([], FoundMeta)
         | NoFuel => None
         end.
Proof.
  intros Hok Hgaps Hps Hfirst Hc Htc. unfold splitArgsUnix.
  set (fuel := S (S (List.length (renderLine lead ws ++ renderWord ps ++ c :: r)))).
  assert (Hfuel : fuel = S (S (List.length (renderLine lead ws)
                                + (List.length (renderWord ps) + S (List.length r)))))
    by (unfold fuel; rewrite !length_app; reflexivity).
  clearbody fuel.
  destruct (splitUnix_word_line_then ws lead fuel [] (renderWord ps ++ c :: r) Hok Hgaps
              ltac:(lia)) as (fuel1 & Hf1 & E1).
  pose proof (renderWord_length ps) as Hlen.
  destruct (splitUnix_word_pieces_then ps c r fuel1 ([] ++ lineValues ws) Hps Hfirst Hc Htc
              ltac:(lia)) as (fuel2 & Hf2 & E2).
  exists fuel2. split; [lia|]. rewrite E1, E2. reflexivity.
Qed.






End UnixLexerEdges.


Lemma isMetaUnix_not_space `{QtServices} (m : QChar) :
  isMetaUnix m = true -> isSpace m = false /\ (m =? ch_tilde) = false.
Proof.
  intros Hm.
  assert (Ht : negb ((m =? 32) || ((m <=? 13) && (9 <=? m))) && negb (m =? ch_tilde)
               && (m <? 128) = true).
  { revert m Hm. apply (iqm16_marked _
      (fun m => negb ((m =? 32) || ((m <=? 13) && (9 <=? m))) && negb (m =? ch_tilde)
                && (m <? 128))); [reflexivity | vm_compute; reflexivity]. }
  apply andb_true_iff in Ht as [Ht Hlt]. apply andb_true_iff in Ht as [Hs Htilde].
  apply negb_true_iff in Hs, Htilde. apply Z.ltb_lt in Hlt.
  split; [|exact Htilde]. unfold isSpace. rewrite Hs.
  replace (127 <? m) with false by (symmetry; apply Z.ltb_ge; lia). reflexivity.
Qed.

Section UnixLexerWords.
Context `{QtServices}.
Variable abortOnMeta : bool.
Variable env : option Environment.
Variable pwd : option QString.

Local Abbreviation nextc := (splitUnix_nextc abortOnMeta env pwd).
Local Abbreviation body := (splitUnix_body abortOnMeta env pwd).
Local Abbreviation word := (splitUnix_word abortOnMeta env pwd).

(** [splitArgsUnix] on complete words followed by more text: the head
    of the outer loop stands at that text. *)
Lemma splitArgsUnix_reaches_word (lead : QString) (ws : list (Word * QString))
    (rest : QString) :
  lineOk abortOnMeta lead ws = true ->
  forallb (fun e => negb (isEmpty (snd e))) ws = true ->
  exists fuel',
    (S (List.length rest) < fuel')%nat
    /\ splitArgsUnix abortOnMeta env pwd (renderLine lead ws ++ rest)
       = match word (nextc fuel') rest (lineValues ws) with
         | Got ret => Some (ret, SplitOk)
         | QuoteErr => Some ([], BadQuoting)
         | MetaErr => Some ([], FoundMeta)
         | NoFuel => None
         end.
Proof.
  intros Hok Hgaps. unfold splitArgsUnix.
  set (fuel := S (S (List.length (renderLine lead ws ++ rest)))).
  assert (Hfuel : fuel = S (S (List.length (renderLine lead ws) + List.length rest)))
    by (unfold fuel; rewrite !length_app; reflexivity).
  clearbody fuel.
  destruct (splitUnix_word_line_then abortOnMeta env pwd ws lead fuel [] rest Hok Hgaps
              ltac:(lia)) as (fuel1 & Hf1 & E1).
  exists fuel1. split; [lia|]. rewrite E1. reflexivity.
Qed.


End UnixLexerWords.

(** X4: with abortOnMeta, a shell metacharacter that stands bare in a
    word (any but the quotes and the backslash, and the dollar sign only
    when no environment is given) makes splitArgs under the Unix grammar
    store FoundMeta and return the empty list, whatever follows it; so
    does a tilde at the start of a word that is followed by anything
    but white space or a slash. *)
Theorem splitArgs_unix_found_meta `{QtServices} (env : option Environment)
    (pwd : option QString) (e0 : SplitError) (lead : QString) (ws : list (Word * QString)) :
  lineOk true lead ws = true ->
  forallb (fun e => negb (isEmpty (snd e))) ws = true ->
  (forall (ps : Word) (m : QChar) (r : QString),
     forallb (pieceOk true) ps = true ->
     match ps with Plain x :: _ => negb (x =? ch_tilde) | _ => true end = true ->
     isMetaUnix m = true ->
     negb (m =? ch_squote) && negb (m =? ch_dquote) && negb (m =? ch_bslash)
     && (negb (m =? ch_dollar) || match env with None => true | Some _ => false end) = true ->
     splitArgs (renderLine lead ws ++ renderWord ps ++ m :: r) OsTypeLinux true (Some e0)
       env pwd = Some ([], Some FoundMeta))
  /\ (forall (d : QChar) (r : QString),
        isSpace d || (d =? ch_slash) = false ->
        splitArgs (renderLine lead ws ++ ch_tilde :: d :: r) OsTypeLinux true (Some e0)
          env pwd = Some ([], Some FoundMeta)).
Proof.
  intros Hok Hgaps. unfold splitArgs. cbn [isWindows]. split.
  - intros ps m r Hps Hfirst Hm Hnot.
    destruct (isMetaUnix_not_space m Hm) as [Hs Ht].
    destruct (splitArgsUnix_reaches true env pwd lead ws ps m r Hok Hgaps Hps Hfirst Hs Ht)
      as (fuel & _ & E).
    rewrite E. clear E.
    apply andb_true_iff in Hnot as [Hnot Hd]. apply andb_true_iff in Hnot as [Hnot Hb].
    apply andb_true_iff in Hnot as [Hsq Hdq]. apply negb_true_iff in Hsq, Hdq, Hb.
    unfold splitUnix_body. rewrite Hsq, Hdq, Hb, Hm.
    assert (Hnone : (if m =? ch_dollar then env else None) = None).
    { destruct (m =? ch_dollar); [|reflexivity]. destruct env; [discriminate|reflexivity]. }
    rewrite Hnone. reflexivity.
  - intros d r Hd.
    destruct (splitArgsUnix_reaches_word true env pwd lead ws (ch_tilde :: d :: r) Hok Hgaps)
      as (fuel & _ & E).
    rewrite E. unfold splitUnix_word. cbn [skipSpaces].
    change (isSpace ch_tilde) with false. cbv iota.
    change (ch_tilde =? ch_tilde) with true. cbv iota. rewrite Hd. reflexivity.
Qed.


(** ** Variable references *)

Lemma isVarChar_not_lbrace `{QtServices} (c : QChar) :
  isVarChar c = true -> (c =? ch_lbrace) = false.
Proof. intros Hv. apply Z.eqb_neq. intros ->. vm_compute in Hv. discriminate Hv. Qed.

Lemma scanVarBare_name `{QtServices} (r : QString) : forall c var,
  forallb isVarChar (c :: r) = true ->
  scanVarBare false c r var = Some (var ++ c :: r, ch_space, []).
Proof.
  induction r as [|d r IH]; intros c var Hv; cbn [forallb] in Hv;
    apply andb_true_iff in Hv as [Hc Hr].
  - cbn [scanVarBare]. rewrite Hc. reflexivity.
  - cbn [scanVarBare]. rewrite Hc. rewrite IH by exact Hr. rewrite <- app_assoc. reflexivity.
Qed.

Lemma scanVarQuoted_name `{QtServices} (r : QString) : forall c var stop rest,
  forallb isVarChar (c :: r) = true -> isVarChar stop = false ->
  scanVarQuoted c (r ++ stop :: rest) var = Some (var ++ c :: r, stop, rest).
Proof.
  induction r as [|d r IH]; intros c var stop rest Hv Hstop; cbn [forallb] in Hv;
    apply andb_true_iff in Hv as [Hc Hr].
  - cbn [app scanVarQuoted]. rewrite Hc. destruct rest; cbn [scanVarQuoted]; rewrite Hstop;
      reflexivity.
  - cbn [app scanVarQuoted]. rewrite Hc. rewrite IH by assumption. rewrite <- app_assoc.
    reflexivity.
Qed.

(** A reference to a variable that is a word of its own, last on the
    line: what [lookupVar] gives is cut into words. *)
Lemma splitArgsUnix_bare_var `{QtServices} (abortOnMeta : bool) (e : Environment)
    (pwd : option QString) (lead : QString) (ws : list (Word * QString)) (c : QChar)
    (r : QString) :
  lineOk abortOnMeta lead ws = true ->
  forallb (fun e => negb (isEmpty (snd e))) ws = true ->
  forallb isVarChar (c :: r) = true ->
  splitArgsUnix abortOnMeta (Some e) pwd (renderLine lead ws ++ ch_dollar :: c :: r)
  = match lookupVar abortOnMeta e pwd (c :: r) with
    | Got val =>
        Some (lineValues ws ++ fields (match val with Some v => v | None => [] end), SplitOk)
    | QuoteErr => Some ([], BadQuoting)
    | MetaErr => Some ([], FoundMeta)
    | NoFuel => None
    end.
Proof.
  intros Hok Hgaps Hname.
  destruct (splitArgsUnix_reaches abortOnMeta (Some e) pwd lead ws [] ch_dollar (c :: r)
              Hok Hgaps eq_refl eq_refl eq_refl eq_refl) as (fuel & Hfuel & E).
  cbn [renderWord flat_map app wordValue] in E. rewrite E. clear E.
  unfold splitUnix_body.
  change (ch_dollar =? ch_squote) with false. change (ch_dollar =? ch_dquote) with false.
  change (ch_dollar =? ch_dollar) with true. cbv iota.
  pose proof Hname as Hc. cbn [forallb] in Hc. apply andb_true_iff in Hc as [Hc _].
  rewrite (isVarChar_not_lbrace c Hc). cbn [lexBind].
  rewrite (scanVarBare_name r c [] Hname). cbn [app negb].
  destruct (lookupVar abortOnMeta e pwd (c :: r)) as [val| | |]; cbn [lexBind]; try reflexivity.
  cbn [List.length] in Hfuel. destruct fuel as [|fuel]; [lia|].
  pose proof (splitValue_first_word (match val with Some v => v | None => [] end)
                (lineValues ws)) as Hv.
  destruct (splitValue (match val with Some v => v | None => [] end) (lineValues ws) [] false)
    as [[ret' cret'] hw'].
  cbn [splitUnix_nextc]. change (isSpace ch_space) with true. cbv iota.
  unfold splitUnix_word. cbn [skipSpaces]. injection Hv as Hv. rewrite Hv. reflexivity.
Qed.

(** The same reference in double quotes gives one word. *)
Lemma splitArgsUnix_quoted_var `{QtServices} (abortOnMeta : bool) (e : Environment)
    (pwd : option QString) (lead : QString) (ws : list (Word * QString)) (c : QChar)
    (r : QString) :
  lineOk abortOnMeta lead ws = true ->
  forallb (fun e => negb (isEmpty (snd e))) ws = true ->
  forallb isVarChar (c :: r) = true ->
  splitArgsUnix abortOnMeta (Some e) pwd
    (renderLine lead ws ++ ch_dquote :: ch_dollar :: (c :: r) ++ [ch_dquote])
  = match lookupVar abortOnMeta e pwd (c :: r) with
    | Got val => Some (lineValues ws ++ [match val with Some v => v | None => [] end], SplitOk)
    | QuoteErr => Some ([], BadQuoting)
    | MetaErr => Some ([], FoundMeta)
    | NoFuel => None
    end.
Proof.
  intros Hok Hgaps Hname.
  destruct (splitArgsUnix_reaches abortOnMeta (Some e) pwd lead ws [] ch_dquote
              (ch_dollar :: (c :: r) ++ [ch_dquote])
              Hok Hgaps eq_refl eq_refl eq_refl eq_refl) as (fuel & Hfuel & E).
  cbn [renderWord flat_map app wordValue] in E. cbn [app]. rewrite E. clear E.
  unfold splitUnix_body.
  change (ch_dquote =? ch_squote) with false. change (ch_dquote =? ch_dquote) with true.
  cbv iota. cbn [List.length splitUnix_nextq].
  change (ch_dollar =? ch_dquote) with false. change (ch_dollar =? ch_bslash) with false.
  change (ch_dollar =? ch_dollar) with true. cbv iota.
  pose proof Hname as Hc. cbn [forallb] in Hc. apply andb_true_iff in Hc as [Hc _].
  rewrite (isVarChar_not_lbrace c Hc). cbn [lexBind].
  rewrite (scanVarQuoted_name r c [] ch_dquote [] Hname eq_refl). cbn [app negb].
  destruct (lookupVar abortOnMeta e pwd (c :: r)) as [val| | |]; cbn [lexBind]; try reflexivity.
Qed.

(** X6: a reference to a variable the environment does not have (and
    that is not PWD with a working directory given), standing as a word
    of its own: with abortOnMeta splitArgs stores FoundMeta and returns
    nothing; without it the bare reference adds no argument at all and
    the reference in double quotes adds one empty argument. *)
Theorem splitArgs_unix_unset_variable `{QtServices} (abortOnMeta : bool) (e : Environment)
    (pwd : option QString) (e0 : SplitError) (lead : QString) (ws : list (Word * QString))
    (c : QChar) (r : QString) :
  lineOk abortOnMeta lead ws = true ->
  forallb (fun e => negb (isEmpty (snd e))) ws = true ->
  forallb isVarChar (c :: r) = true ->
  constFind e (c :: r) = None ->
  qstring_eqb (c :: r) (QLatin1String "PWD") && pwdGiven pwd = false ->
  splitArgs (renderLine lead ws ++ ch_dollar :: c :: r) OsTypeLinux abortOnMeta (Some e0)
    (Some e) pwd
  = (if abortOnMeta then Some ([], Some FoundMeta) else Some (lineValues ws, Some SplitOk))
  /\ splitArgs (renderLine lead ws ++ ch_dquote :: ch_dollar :: (c :: r) ++ [ch_dquote])
       OsTypeLinux abortOnMeta (Some e0) (Some e) pwd
     = (if abortOnMeta then Some ([], Some FoundMeta)
        else Some (lineValues ws ++ [[]], Some SplitOk)).
Proof.
  intros Hok Hgaps Hname Hfind Hpwd. unfold splitArgs. cbn [isWindows].
  rewrite (splitArgsUnix_bare_var abortOnMeta e pwd lead ws c r Hok Hgaps Hname).
  rewrite (splitArgsUnix_quoted_var abortOnMeta e pwd lead ws c r Hok Hgaps Hname).
  unfold lookupVar. rewrite Hpwd, Hfind.
  destruct abortOnMeta; cbn [fields]; rewrite ?app_nil_r; split; reflexivity.
Qed.


(** X8: a reference to a variable the environment has (not PWD with a
    working directory given), standing as a word of its own after any
    complete words: bare, its expanded value is cut at its spaces, tabs
    and line feeds into as many arguments; in double quotes it is one
    argument. *)
Theorem splitArgs_unix_variable `{QtServices} (abortOnMeta : bool) (e : Environment)
    (pwd : option QString) (e0 : SplitError) (lead : QString) (ws : list (Word * QString))
    (c : QChar) (r key : QString) :
  lineOk abortOnMeta lead ws = true ->
  forallb (fun e => negb (isEmpty (snd e))) ws = true ->
  forallb isVarChar (c :: r) = true ->
  constFind e (c :: r) = Some key ->
  qstring_eqb (c :: r) (QLatin1String "PWD") && pwdGiven pwd = false ->
  splitArgs (renderLine lead ws ++ ch_dollar :: c :: r) OsTypeLinux abortOnMeta (Some e0)
    (Some e) pwd
  = Some (lineValues ws ++ fields (expandedValueForKey e key), Some SplitOk)
  /\ splitArgs (renderLine lead ws ++ ch_dquote :: ch_dollar :: (c :: r) ++ [ch_dquote])
       OsTypeLinux abortOnMeta (Some e0) (Some e) pwd
     = Some (lineValues ws ++ [expandedValueForKey e key], Some SplitOk).
Proof.
  intros Hok Hgaps Hname Hfind Hpwd. unfold splitArgs. cbn [isWindows].
  rewrite (splitArgsUnix_bare_var abortOnMeta e pwd lead ws c r Hok Hgaps Hname).
  rewrite (splitArgsUnix_quoted_var abortOnMeta e pwd lead ws c r Hok Hgaps Hname).
  unfold lookupVar. rewrite Hpwd, Hfind. split; reflexivity.
Qed.


(** * Editing the string under the iterator *)

Lemma renderLine_lead (ws : list (Word * QString)) (lead : QString) :
  renderLine lead ws = lead ++ renderLine [] ws.
Proof. destruct ws as [|[w gap] more]; cbn [renderLine app]; [rewrite app_nil_r|]; reflexivity. Qed.

Lemma lineOk_no_lead `{QtServices} (abortOnMeta : bool) (lead : QString)
    (ws : list (Word * QString)) :
  lineOk abortOnMeta lead ws = true -> lineOk abortOnMeta [] ws = true.
Proof.
  destruct ws as [|[w gap] more]; cbn [lineOk forallb]; intros Hl; [reflexivity|].
  apply andb_true_iff in Hl as [_ Hl]. exact Hl.
Qed.

(** The first character of a line without blanks in front is no white
    space. *)
Lemma renderLine_starts_word `{QtServices} (abortOnMeta : bool) (ws : list (Word * QString)) :
  lineOk abortOnMeta [] ws = true ->
  match renderLine [] ws with
  | [] => True
  | c :: _ => isSpace c = false
  end.
Proof.
  destruct ws as [|[w gap] more]; [intros _; exact I|].
  cbn [lineOk forallb andb]. intros Hl. apply andb_true_iff in Hl as [Hl _].
  apply andb_true_iff in Hl as [Hw _]. unfold wordOk in Hw.
  apply andb_true_iff in Hw as [Hfirst Hps]. destruct w as [|p ps]; [discriminate Hfirst|].
  cbn [forallb] in Hps. apply andb_true_iff in Hps as [Hp _].
  cbn [renderLine renderWord flat_map app]. rewrite <- app_assoc.
  destruct (splitUnix_body_piece abortOnMeta None None (fun _ _ _ _ _ => NoFuel) p
              (flat_map renderPiece ps ++ renderLine gap more) [] false [] Hp)
    as (c & r & E & Hs & _).
  rewrite E. exact Hs.
Qed.

Section IteratorEdit.
Context `{QtServices}.

(** The loop of [deleteArg] steps over the blanks after an argument. *)
Lemma deleteArg_skip_blanks (gap : QString) : forall pre rest fuel,
  forallb isBlank gap = true ->
  match rest with [] => True | c :: _ => isSpace c = false end ->
  (List.length gap < fuel)%nat ->
  deleteArg_skip fuel (pre ++ gap ++ rest) (qlength pre) = Some (qlength (pre ++ gap)).
Proof.
  induction gap as [|b gap IH]; intros pre rest fuel Hb Hrest Hfuel.
  - cbn [app]. rewrite app_nil_r. destruct fuel as [|fuel]; [cbn in Hfuel; lia|].
    cbn [deleteArg_skip]. destruct rest as [|c rest].
    + rewrite app_nil_r, Z.ltb_irrefl. reflexivity.
    + rewrite unicodeAt_prefix, Hrest, andb_false_r. reflexivity.
  - cbn [forallb] in Hb. apply andb_true_iff in Hb as [Hb Hg].
    cbn [List.length] in Hfuel. destruct fuel as [|fuel]; [lia|].
    cbn [app deleteArg_skip]. rewrite inside_prefix, unicodeAt_prefix, (isBlank_isSpace b Hb).
    cbn [andb].
    replace (pre ++ b :: gap ++ rest) with ((pre ++ [b]) ++ gap ++ rest)
      by (rewrite <- app_assoc; reflexivity).
    rewrite <- qlength_snoc with (c := b).
    rewrite IH by (try assumption; lia). rewrite <- app_assoc. reflexivity.
Qed.

(** One call of [next] on a line of simple words reads the first of
    them. *)
Lemma next_line_word (abortOnMeta : bool) (pre lead : QString) (w : Word) (gap : QString)
    (more : list (Word * QString)) (it : ArgIterator) (fuel : nat) :
  lineOk abortOnMeta lead ((w, gap) :: more) = true ->
  m_str it = pre ++ renderLine lead ((w, gap) :: more) ->
  m_pos it = qlength pre ->
  m_osType it = OsTypeLinux ->
  (List.length (renderLine lead ((w, gap) :: more)) < fuel)%nat ->
  next fuel it
  = Some (true,
          {| m_str := m_str it; m_pos := qlength (pre ++ lead ++ renderWord w);
             m_prev := qlength pre; m_simple := true; m_value := wordValue w;
             m_osType := OsTypeLinux |}).
Proof.
  intros Hok Hstr Hpos Hos Hfuel.
  cbn [lineOk] in Hok. apply andb_true_iff in Hok as [Hlead Hok].
  apply andb_true_iff in Hok as [Hok Hmore]. apply andb_true_iff in Hok as [Hw Hgap].
  unfold wordOk in Hw. apply andb_true_iff in Hw as [Hfirst Hps].
  cbn [renderLine List.length] in *. rewrite !length_app in Hfuel.
  unfold next. rewrite Hos, Hstr, Hpos. cbn [isWindows].
  rewrite nextUnix_loop_blanks by (try exact Hlead; lia).
  rewrite (app_assoc pre lead).
  destruct (nextUnix_loop_pieces abortOnMeta w (pre ++ lead) (renderLine gap more)
              (fuel - List.length lead) false [] Hps ltac:(lia)) as (fuel1 & Hf1 & E1).
  rewrite E1. cbn [app].
  assert (Hw' : match w with [] => false | _ => true end = true)
    by (destruct w; [discriminate | reflexivity]).
  rewrite Hw'. clear E1.
  destruct fuel1 as [|fuel1]; [lia|].
  assert (Hexit :
    nextUnix_loop (S fuel1) ((pre ++ lead) ++ renderWord w ++ renderLine gap more)
      (qlength ((pre ++ lead) ++ renderWord w)) mxInitial [] [] true true (wordValue w)
    = Some (qlength ((pre ++ lead) ++ renderWord w), true, true, wordValue w)).
  { rewrite (app_assoc _ (renderWord w)).
    destruct gap as [|b g].
    - destruct more as [|e more']; [|discriminate].
      cbn [renderLine]. rewrite app_nil_r. apply nextUnix_loop_end.
    - rewrite renderLine_cons. apply nextUnix_loop_stop.
      apply (lineOk_gap abortOnMeta b g more Hmore). }
  rewrite Hexit. rewrite <- !app_assoc. reflexivity.
Qed.

End IteratorEdit.

(** X9: on a line of simple words, next followed by deleteArg takes
    out exactly the argument just read, together with the blanks after
    it when it starts the string and with the blanks before it
    otherwise; the position is back where the call of next began, and
    the calls of next that follow yield the arguments that remain. *)
Theorem next_deleteArg_removes_argument `{QtServices} (abortOnMeta : bool)
    (pre lead : QString) (w : Word) (gap : QString) (more : list (Word * QString))
    (p0 : Z) (s0 : bool) (v0 : QString) (calls fuel : nat) :
  lineOk abortOnMeta lead ((w, gap) :: more) = true ->
  (List.length (pre ++ renderLine lead ((w, gap) :: more)) < fuel)%nat ->
  (List.length more < calls)%nat ->
  let it0 := {| m_str := pre ++ renderLine lead ((w, gap) :: more); m_pos := qlength pre;
                m_prev := p0; m_simple := s0; m_value := v0; m_osType := OsTypeLinux |} in
  let it1 := {| m_str := pre ++ renderLine lead ((w, gap) :: more);
                m_pos := qlength (pre ++ lead ++ renderWord w);
                m_prev := qlength pre; m_simple := true; m_value := wordValue w;
                m_osType := OsTypeLinux |} in
  let it2 := {| m_str := if isEmpty pre then renderLine [] more
                         else pre ++ renderLine gap more;
                m_pos := qlength pre; m_prev := qlength pre; m_simple := true;
                m_value := wordValue w; m_osType := OsTypeLinux |} in
  next fuel it0 = Some (true, it1)
  /\ deleteArg fuel it1 = Some it2
  /\ walkArgs calls fuel it2 = Some (map (fun v => (v, true)) (lineValues more)).
Proof.
  intros Hok Hfuel Hcalls it0 it1 it2.
  rewrite length_app in Hfuel.
  pose proof Hok as Hok'. cbn [lineOk] in Hok'. apply andb_true_iff in Hok' as [Hlead Hok'].
  apply andb_true_iff in Hok' as [_ Hmore].
  assert (Hlen : (List.length (renderLine gap more)
                  <= List.length (renderLine lead ((w, gap) :: more)))%nat)
    by (cbn [renderLine]; rewrite !length_app; lia).
  split; [|split].
  - apply (next_line_word abortOnMeta pre lead w gap more it0 fuel Hok); try reflexivity. lia.
  - unfold deleteArg. cbn [m_prev m_pos m_str m_simple m_value m_osType it1 renderLine].
    destruct pre as [|c pre].
    + cbn [app isEmpty] in *. rewrite qlength_nil. cbn [Z.eqb].
      rewrite (renderLine_lead more gap).
      replace (lead ++ renderWord w ++ gap ++ renderLine [] more)
        with ([] ++ (lead ++ renderWord w) ++ gap ++ renderLine [] more)
        by (rewrite <- !app_assoc; reflexivity).
      replace (qlength (lead ++ renderWord w)) with (qlength ([] ++ lead ++ renderWord w))
        by reflexivity.
      rewrite (app_assoc [] (lead ++ renderWord w)).
      rewrite deleteArg_skip_blanks.
      * unfold it2. f_equal. f_equal. rewrite Z.sub_0_r.
        replace (([] ++ lead ++ renderWord w) ++ gap ++ renderLine [] more)
          with ([] ++ ((lead ++ renderWord w) ++ gap) ++ renderLine [] more)
          by (rewrite <- !app_assoc; reflexivity).
        cbn [app]. apply (removeAt_prefix [] ((lead ++ renderWord w) ++ gap)).
      * clear - Hmore. destruct more as [|[v g] more']; cbn [lineOk] in Hmore.
        -- rewrite andb_true_r in Hmore. exact Hmore.
        -- apply andb_true_iff in Hmore as [Hg _]. exact Hg.
      * apply (renderLine_starts_word abortOnMeta more).
        apply (lineOk_no_lead abortOnMeta gap more Hmore).
      * rewrite renderLine_lead, length_app in Hlen. lia.
    + assert (Hz : (qlength (c :: pre) =? 0) = false).
      { apply Z.eqb_neq. rewrite qlength_cons. pose proof (qlength_nonneg pre). lia. }
      rewrite Hz. unfold it2. cbn [isEmpty]. f_equal. f_equal.
      replace (qlength ((c :: pre) ++ lead ++ renderWord w) - qlength (c :: pre))
        with (qlength (lead ++ renderWord w)) by (rewrite (qlength_app (c :: pre)); lia).
      replace ((c :: pre) ++ lead ++ renderWord w ++ renderLine gap more)
        with ((c :: pre) ++ (lead ++ renderWord w) ++ renderLine gap more)
        by (rewrite <- !app_assoc; reflexivity).
      apply removeAt_prefix.
  - destruct pre as [|c pre].
    + apply (walkArgs_line abortOnMeta more [] []); try reflexivity;
        [apply (lineOk_no_lead abortOnMeta gap more Hmore) | exact Hcalls |].
      rewrite renderLine_lead, length_app in Hlen. lia.
    + apply (walkArgs_line abortOnMeta more gap (c :: pre)); try reflexivity;
        [exact Hmore | exact Hcalls | lia].
Qed.

(** ** Appending an argument *)

Lemma appendWord_render (w : Word) (ws : list (Word * QString)) : forall lead,
  renderLine (fst (appendWord lead ws w)) (snd (appendWord lead ws w))
  = renderLine lead ws ++ ch_space :: renderWord w.
Proof.
  induction ws as [|[v gap] more IH]; intros lead.
  - cbn [appendWord fst snd renderLine]. rewrite app_nil_r, <- app_assoc. reflexivity.
  - cbn [appendWord]. specialize (IH gap). destruct (appendWord gap more w) as [gap' more'].
    cbn [fst snd renderLine] in *. rewrite IH, <- !app_assoc. reflexivity.
Qed.

Lemma appendWord_values (w : Word) (ws : list (Word * QString)) : forall lead,
  lineValues (snd (appendWord lead ws w)) = lineValues ws ++ [wordValue w].
Proof.
  induction ws as [|[v gap] more IH]; intros lead; [reflexivity|].
  cbn [appendWord]. specialize (IH gap). destruct (appendWord gap more w) as [gap' more'].
  cbn [fst snd] in *. unfold lineValues in *. cbn [map app fst]. rewrite IH. reflexivity.
Qed.

Lemma appendWord_ok `{QtServices} (abortOnMeta : bool) (w : Word)
    (ws : list (Word * QString)) : forall lead,
  wordOk abortOnMeta w = true ->
  lineOk abortOnMeta lead ws = true ->
  lineOk abortOnMeta (fst (appendWord lead ws w)) (snd (appendWord lead ws w)) = true
  /\ snd (appendWord lead ws w) <> []
  /\ (isEmpty (fst (appendWord lead ws w)) = false
      \/ fst (appendWord lead ws w) = lead /\ ws <> []).
Proof.
  intros lead Hw. revert lead.
  induction ws as [|[v gap] more IH]; intros lead Hok.
  - cbn [appendWord fst snd lineOk] in *. rewrite andb_true_r in Hok.
    rewrite forallb_app, Hok, Hw. cbn. repeat split; [discriminate|].
    left. destruct lead; reflexivity.
  - cbn [lineOk] in Hok. apply andb_true_iff in Hok as [Hlead Hok].
    apply andb_true_iff in Hok as [Hok Hmore]. apply andb_true_iff in Hok as [Hv Hgap].
    cbn [appendWord]. destruct (IH gap Hmore) as (IH1 & IH2 & IH3).
    destruct (appendWord gap more w) as [gap' more']. cbn [fst snd] in *.
    repeat split; [|discriminate | right; split; [reflexivity | discriminate]].
    cbn [lineOk]. rewrite Hlead, Hv, IH1. cbn [andb]. rewrite andb_true_r.
    destruct more' as [|e more']; [congruence|].
    destruct IH3 as [Hne | [-> Hmn]]; [rewrite Hne; reflexivity|].
    destruct more; [congruence|exact Hgap].
Qed.

(** X10: appendArg on an iterator that stands at the end of a line of
    simple words, with the Unix quoting as the default of quoteArg:
    the iterator stands at the end again, and splitArgs under the Unix
    grammar reads the arguments of the line followed by the appended
    one, whatever characters it has (its only white space being that of
    ASCII). *)
Theorem appendArg_at_end_adds_argument `{QtServices} (abortOnMeta : bool)
    (env : option Environment) (pwd : option QString) (e0 : SplitError) (hostOs : OsType)
    (lead : QString) (ws : list (Word * QString)) (it : ArgIterator) (s : QString) :
  isWindows hostOs = false ->
  lineOk abortOnMeta lead ws = true ->
  m_str it = renderLine lead ws ->
  m_pos it = qlength (m_str it) ->
  forallb (fun c => negb (isSpace c) || (c <? 128)) s = true ->
  m_pos (appendArg hostOs it s) = qlength (m_str (appendArg hostOs it s))
  /\ splitArgs (m_str (appendArg hostOs it s)) OsTypeLinux abortOnMeta (Some e0) env pwd
     = Some (lineValues ws ++ [s], Some SplitOk).
Proof.
  intros Hhost Hok Hstr Hpos Hascii.
  unfold appendArg, quoteArg. rewrite Hhost. cbn [m_pos m_str]. rewrite Hpos, Hstr.
  pose proof (wordOk_quoteWord abortOnMeta s Hascii) as Hw.
  destruct (renderLine lead ws) as [|c str] eqn:E.
  - assert (Hlw : lead = [] /\ ws = []).
    { destruct ws as [|[v gap] more]; [cbn in E; subst lead; split; reflexivity|].
      exfalso. cbn [renderLine lineOk] in *. apply andb_true_iff in Hok as [_ Hok].
      apply andb_true_iff in Hok as [Hok _]. apply andb_true_iff in Hok as [Hv _].
      unfold wordOk in Hv. destruct v as [|p ps]; [discriminate|].
      destruct lead; [|discriminate]. destruct p; cbn in E; discriminate. }
    destruct Hlw as [-> ->]. rewrite qlength_nil. cbn [Z.eqb].
    replace (insertAt [] 0 (quoteArgUnix s ++ [ch_space])) with (quoteArgUnix s ++ [ch_space])
      by (unfold insertAt; cbn; rewrite app_nil_r; reflexivity).
    split; [rewrite qlength_app; reflexivity|].
    unfold splitArgs. cbn [isWindows]. rewrite <- renderWord_quoteWord.
    rewrite (splitArgsUnix_line abortOnMeta env pwd [] [(quoteWord s, [ch_space])]).
    + cbn [lineValues map fst app]. rewrite wordValue_quoteWord. reflexivity.
    + cbn [lineOk forallb andb]. rewrite Hw. reflexivity.
  - assert (Hz : (qlength (c :: str) =? 0) = false).
    { apply Z.eqb_neq. rewrite qlength_cons. pose proof (qlength_nonneg str). lia. }
    rewrite Hz.
    pose proof (insertAt_prefix (c :: str) [] (ch_space :: quoteArgUnix s)) as Hi.
    rewrite !app_nil_r in Hi. rewrite Hi.
    split; [rewrite (qlength_app (c :: str)), (qlength_cons ch_space); lia|].
    rewrite <- E, <- renderWord_quoteWord, <- appendWord_render.
    destruct (appendWord_ok abortOnMeta (quoteWord s) ws lead Hw Hok) as (Hok' & _ & _).
    unfold splitArgs. cbn [isWindows].
    rewrite (splitArgsUnix_line abortOnMeta env pwd _ _ Hok').
    rewrite appendWord_values, wordValue_quoteWord. reflexivity.
Qed.


(** * The slots of the synchronous run *)

Lemma deliver_keeps_hang (d : QtcProcessPrivate) (ev : ProcessEvent) :
  result (m_result d) = Hang -> isNormalExit ev = false ->
  result (m_result (deliver d ev)) = Hang.
Proof.
  intros Hd Hev. destruct ev as [stop w b k | c e |]; cbn [deliver].
  - unfold slotTimeout. destruct (negb w); [|exact Hd].
    cbn [m_maxHangTimerCount m_hangTimerCount].
    destruct (m_maxHangTimerCount d <? m_hangTimerCount d + 1); [|exact Hd].
    destruct (negb b || k); cbn [fst m_result result]; [reflexivity | exact Hd].
  - destruct e; [discriminate Hev|]. cbn [slotFinished m_result result]. rewrite Hd.
    reflexivity.
  - cbn [slotError m_result result]. rewrite Hd. reflexivity.
Qed.

(** X11: once the result is Hang it stays Hang through every sequence
    of timer ticks, crash exits and process errors, whatever stopProcess
    does; only a normal exit replaces it. *)
Theorem hang_is_latched (evs : list ProcessEvent) (d : QtcProcessPrivate) :
  result (m_result d) = Hang ->
  forallb (fun ev => negb (isNormalExit ev)) evs = true ->
  result (m_result (fold_left deliver evs d)) = Hang.
Proof.
  revert d. induction evs as [|ev evs IH]; intros d Hd Hevs; [exact Hd|].
  cbn [forallb] in Hevs. apply andb_true_iff in Hevs as [Hev Hevs].
  apply negb_true_iff in Hev. cbn [fold_left]. apply IH; [|exact Hevs].
  apply deliver_keeps_hang; assumption.
Qed.

(** The ticks of the timer while nobody is asked and the message box
    is off. *)
Lemma ticks_below_limit (stop : QtcProcessPrivate -> QtcProcessPrivate) (n : nat) :
  forall d,
  m_hangTimerCount d = 0 -> Z.of_nat n <= m_maxHangTimerCount d ->
  let dn := Nat.iter n (fun d => fst (slotTimeout stop d false false false)) d in
  m_hangTimerCount dn = Z.of_nat n
  /\ m_maxHangTimerCount dn = m_maxHangTimerCount d
  /\ m_result dn = m_result d
  /\ m_startFailure dn = m_startFailure d
  /\ m_eventLoopQuit dn = m_eventLoopQuit d.
Proof.
  induction n as [|n IH]; intros d Hd Hmax; cbv zeta.
  - cbn [Nat.iter nat_rect]. rewrite Hd. repeat split.
  - destruct (IH d Hd ltac:(lia)) as (Hc & Hm & Hr & Hs & Hq). cbv zeta in *.
    rewrite Nat.iter_succ. set (dn := Nat.iter n _ d) in *.
    unfold slotTimeout. cbn [negb m_maxHangTimerCount m_hangTimerCount].
    rewrite Hc, Hm.
    replace (m_maxHangTimerCount d <? Z.of_nat n + 1) with false
      by (symmetry; apply Z.ltb_ge; lia).
    cbn [fst m_hangTimerCount m_maxHangTimerCount m_result m_startFailure m_eventLoopQuit].
    repeat split; try assumption. lia.
Qed.

(** X12: counted from zero, the ticks of the timer up to the limit
    m_maxHangTimerCount change nothing but the count and never call
    stopProcess; the tick after them calls stopProcess and sets the
    result to Hang when the message box is off or the user agrees, and
    sets the count back to zero when the user declines. *)
Theorem slotTimeout_hang_limit (stop : QtcProcessPrivate -> QtcProcessPrivate)
    (d : QtcProcessPrivate) (n : nat) :
  m_hangTimerCount d = 0 -> Z.of_nat n <= m_maxHangTimerCount d ->
  let dn := Nat.iter n (fun d => fst (slotTimeout stop d false false false)) d in
  m_hangTimerCount dn = Z.of_nat n
  /\ m_result dn = m_result d
  /\ (Z.of_nat n < m_maxHangTimerCount d ->
      forall box kill, snd (slotTimeout stop dn false box kill) = false)
  /\ (Z.of_nat n = m_maxHangTimerCount d ->
      forall box kill,
        snd (slotTimeout stop dn false box kill) = negb box || kill
        /\ (negb box || kill = true ->
            result (m_result (fst (slotTimeout stop dn false box kill))) = Hang)
        /\ (negb box || kill = false ->
            m_hangTimerCount (fst (slotTimeout stop dn false box kill)) = 0
            /\ m_result (fst (slotTimeout stop dn false box kill)) = m_result d)).
Proof.
  intros Hd Hmax.
  destruct (ticks_below_limit stop n d Hd Hmax) as (Hc & Hm & Hr & _ & _).
  cbv zeta in *. set (dn := Nat.iter n _ d) in *.
  split; [exact Hc|]. split; [exact Hr|]. split.
  - intros Hlt box kill. unfold slotTimeout.
    cbn [negb m_maxHangTimerCount m_hangTimerCount]. rewrite Hc, Hm.
    replace (m_maxHangTimerCount d <? Z.of_nat n + 1) with false
      by (symmetry; apply Z.ltb_ge; lia).
    reflexivity.
  - intros Heq box kill. unfold slotTimeout.
    cbn [negb m_maxHangTimerCount m_hangTimerCount]. rewrite Hc, Hm.
    replace (m_maxHangTimerCount d <? Z.of_nat n + 1) with true
      by (symmetry; apply Z.ltb_lt; lia).
    destruct (negb box || kill); cbn [fst snd m_result result m_hangTimerCount].
    + split; [reflexivity|]. split; [intros _; reflexivity | intros Hf; discriminate Hf].
    + split; [reflexivity|].
      split; [intros Hf; discriminate Hf | intros _; split; [reflexivity | exact Hr]].
Qed.


(** * expandMacros under the Unix grammar: the replacement *)

(** The turn of the loop at the macro: the replacement is quoted for
    the state the scan is in and put in place of the macro. *)
Lemma expandMacrosUnix_loop_at_macro (mx : AbstractMacroExpander) (pre macro rest : QString)
    (fuel : nat) (rsts : QString) (state : MxState) (sstack : list MxState)
    (ostack : list MxSave) :
  macro <> [] ->
  expandMacrosUnix_loop (S fuel) mx (pre ++ macro ++ rest) (qlength pre) (qlength pre)
    (qlength macro) rsts state sstack ostack
  = let rsts' :=
      if dquote state then escapeForDoubleQuotes rsts
      else if MxQuoting_eqb (current state) MxSingleQuote then
        replaceChar ch_squote singleQuoteEscape rsts
      else quoteArgUnix rsts in
    let str := pre ++ rsts' ++ rest in
    let '(varLen, varPos, rsts2) := findMacro mx str (qlength pre + qlength rsts') in
    if varLen =? 0 then Some (Some str)
    else expandMacrosUnix_loop fuel mx str (qlength pre + qlength rsts') varPos varLen rsts2
           state sstack ostack.
Proof.
  intros Hm. cbn [expandMacrosUnix_loop].
  destruct macro as [|c macro]; [congruence|]. cbn [app].
  rewrite inside_prefix, Z.eqb_refl.
  replace (pre ++ c :: macro ++ rest) with (pre ++ (c :: macro) ++ rest) by reflexivity.
  rewrite replaceAt_prefix. cbv zeta.
  destruct (dquote state); [reflexivity|].
  destruct (MxQuoting_eqb (current state) MxSingleQuote); [reflexivity|].
  unfold quoteArgUnix. destruct rsts as [|x rsts]; [reflexivity|]. cbn [isEmpty orb].
  destruct (hasSpecialCharsUnix (x :: rsts)); reflexivity.
Qed.

(** The inside of a section in single quotes that is still open. *)
Lemma expandMacrosUnix_loop_squote_run (mx : AbstractMacroExpander) (varPos varLen : Z)
    (rsts : QString) (text : QString) : forall pre rest fuel,
  lacks ch_squote text = true ->
  qlength (pre ++ text) <= varPos ->
  expandMacrosUnix_loop (List.length text + fuel) mx (pre ++ text ++ rest) (qlength pre)
    varPos varLen rsts {| current := MxSingleQuote; dquote := false |} [mxInitial] []
  = expandMacrosUnix_loop fuel mx (pre ++ text ++ rest) (qlength pre + qlength text)
      varPos varLen rsts {| current := MxSingleQuote; dquote := false |} [mxInitial] [].
Proof.
  induction text as [|c text IH]; intros pre rest fuel Ht Hv.
  - cbn [List.length Nat.add app]. rewrite qlength_nil, Z.add_0_r. reflexivity.
  - rewrite lacks_cons in Ht. apply andb_true_iff in Ht as [Hc Ht].
    apply negb_true_iff in Hc.
    cbn [List.length Nat.add app] in *. cbn [expandMacrosUnix_loop].
    rewrite inside_prefix, unicodeAt_prefix.
    replace (qlength pre =? varPos) with false.
    2:{ symmetry. apply Z.eqb_neq. rewrite qlength_app, qlength_cons in Hv.
        pose proof (qlength_nonneg text). lia. }
    cbn [MxQuoting_eqb current]. rewrite Hc.
    rewrite <- qlength_snoc with (c := c).
    replace (pre ++ c :: text ++ rest) with ((pre ++ [c]) ++ text ++ rest)
      by (rewrite <- app_assoc; reflexivity).
    rewrite IH by (try assumption; rewrite <- app_assoc; exact Hv).
    rewrite qlength_snoc, qlength_cons. f_equal. lia.
Qed.

Section SingleMacro.
Variable mx : AbstractMacroExpander.
Variable ps : Word.
Variables macro rest rsts : QString.
Hypothesis ps_ok : forallb mxPieceOk ps = true.
Hypothesis macro_not_empty : macro <> [].

(** The scan over the pieces in front of the macro, from the start of
    [expandMacros] on. *)
Lemma expandMacros_unix_reaches (context : QString) (fuel : nat) :
  findMacro mx (renderWord ps ++ context ++ macro ++ rest) 0
  = (qlength macro, qlength (renderWord ps ++ context), rsts) ->
  (List.length (renderWord ps ++ context ++ macro ++ rest) < fuel)%nat ->
  exists fuel',
    (fuel - List.length (renderWord ps) <= fuel')%nat
    /\ expandMacros fuel (renderWord ps ++ context ++ macro ++ rest) mx OsTypeLinux
       = match expandMacrosUnix_loop fuel' mx (renderWord ps ++ context ++ macro ++ rest)
                 (qlength (renderWord ps)) (qlength (renderWord ps ++ context))
                 (qlength macro) rsts mxInitial [] [] with
         | None => None
         | Some None => Some (false, renderWord ps ++ context ++ macro ++ rest)
         | Some (Some str) => Some (true, str)
         end.
Proof.
  intros Hfind Hfuel.
  assert (Hne : isEmpty (renderWord ps ++ context ++ macro ++ rest) = false).
  { destruct macro; [congruence|]. destruct (renderWord ps); [|reflexivity].
    destruct context; reflexivity. }
  unfold expandMacros. rewrite Hne, Hfind.
  replace (qlength macro =? 0) with false.
  2:{ symmetry. apply Z.eqb_neq. destruct macro as [|m0 ml]; [congruence|].
      rewrite qlength_cons. pose proof (qlength_nonneg ml). lia. }
  cbn [isWindows]. rewrite !length_app in Hfuel.
  destruct (expandMacrosUnix_loop_pieces mx (qlength (renderWord ps ++ context))
              (qlength macro) rsts ps [] (context ++ macro ++ rest) fuel ps_ok ltac:(lia)
              ltac:(cbn [app]; rewrite qlength_app; pose proof (qlength_nonneg context); lia))
    as (fuel1 & Hf1 & E1).
  cbn [app qlength List.length Z.of_nat] in E1. exists fuel1. split; [exact Hf1|].
  rewrite E1. reflexivity.
Qed.

End SingleMacro.

(** A single macro after complete pieces, in each of the three contexts. *)
Lemma expandMacros_unix_single (mx : AbstractMacroExpander) (ps : Word)
    (macro rest rsts : QString) (fuel : nat) :
  forallb mxPieceOk ps = true ->
  macro <> [] ->
  (forall (context replacement : QString),
     (context = [] /\ replacement = quoteArgUnix rsts)
     \/ (exists ds, forallb mxDPieceOk ds = true
                    /\ context = ch_dquote :: flat_map renderDPiece ds
                    /\ replacement = escapeForDoubleQuotes rsts)
     \/ (exists text, lacks ch_squote text = true
                      /\ context = ch_squote :: text
                      /\ replacement = replaceChar ch_squote singleQuoteEscape rsts) ->
     findMacro mx (renderWord ps ++ context ++ macro ++ rest) 0
     = (qlength macro, qlength (renderWord ps ++ context), rsts) ->
     fst (fst (findMacro mx (renderWord ps ++ context ++ replacement ++ rest)
                 (qlength (renderWord ps ++ context) + qlength replacement))) = 0 ->
     (List.length (renderWord ps ++ context ++ macro ++ rest) < fuel)%nat ->
     expandMacros fuel (renderWord ps ++ context ++ macro ++ rest) mx OsTypeLinux
     = Some (true, renderWord ps ++ context ++ replacement ++ rest)).
Proof.
  intros Hps Hmacro context replacement Hctx Hfind Hlast Hfuel.
  destruct (expandMacros_unix_reaches mx ps macro rest rsts Hps Hmacro context fuel Hfind Hfuel)
    as (fuel1 & Hf1 & E).
  rewrite E. clear E.
  pose proof (renderWord_length ps) as Hlen.
  rewrite !length_app in Hfuel.
  assert (Hml : (1 <= List.length macro)%nat) by (destruct macro; [congruence | cbn; lia]).
  destruct Hctx as [[-> ->] | [(ds & Hds & -> & ->) | (text & Ht & -> & ->)]].
  - cbn [app] in *. rewrite app_nil_r in *. cbn [List.length] in Hfuel.
    destruct fuel1 as [|fuel1]; [lia|].
    rewrite expandMacrosUnix_loop_at_macro by exact Hmacro. cbv zeta.
    cbn [dquote current mxInitial MxQuoting_eqb].
    destruct (findMacro mx _ _) as [[vl vp] r2]. cbn [fst] in Hlast. subst vl. reflexivity.
  - cbn [List.length] in Hfuel.
    pose proof (renderDPieces_length ds) as Hdl.
    replace fuel1 with (S (List.length ds + S (fuel1 - S (S (List.length ds)))))%nat by lia.
    pose proof (qlength_nonneg (flat_map renderDPiece ds)) as Hnn.
    assert (Hq : qlength (renderWord ps ++ ch_dquote :: flat_map renderDPiece ds)
                 = qlength (renderWord ps) + 1 + qlength (flat_map renderDPiece ds))
      by (rewrite qlength_app, qlength_cons; lia).
    cbn [app].
    rewrite expandMacrosUnix_loop_dquote_open by (rewrite qlength_snoc; lia).
    rewrite <- qlength_snoc with (c := ch_dquote).
    replace (renderWord ps ++ ch_dquote :: flat_map renderDPiece ds ++ macro ++ rest)
      with ((renderWord ps ++ [ch_dquote]) ++ flat_map renderDPiece ds ++ macro ++ rest)
      by (rewrite <- app_assoc; reflexivity).
    rewrite expandMacrosUnix_loop_dpieces
      by (try assumption; rewrite qlength_app, qlength_snoc; lia).
    rewrite <- qlength_app.
    replace (renderWord ps ++ ch_dquote :: flat_map renderDPiece ds)
      with ((renderWord ps ++ [ch_dquote]) ++ flat_map renderDPiece ds) in *
      by (rewrite <- app_assoc; reflexivity).
    rewrite (app_assoc _ (flat_map renderDPiece ds)).
    rewrite expandMacrosUnix_loop_at_macro by exact Hmacro. cbv zeta. cbn [dquote].
    rewrite <- !app_assoc in *. cbn [app] in *.
    destruct (findMacro mx _ _) as [[vl vp] r2]. cbn [fst] in Hlast. subst vl. reflexivity.
  - cbn [List.length] in Hfuel.
    replace fuel1 with (S (List.length text + S (fuel1 - S (S (List.length text)))))%nat
      by lia.
    pose proof (qlength_nonneg text) as Hnn.
    assert (Hq : qlength (renderWord ps ++ ch_squote :: text)
                 = qlength (renderWord ps) + 1 + qlength text)
      by (rewrite qlength_app, qlength_cons; lia).
    cbn [app].
    rewrite expandMacrosUnix_loop_squote_open by (rewrite qlength_snoc; lia).
    rewrite <- qlength_snoc with (c := ch_squote).
    replace (renderWord ps ++ ch_squote :: text ++ macro ++ rest)
      with ((renderWord ps ++ [ch_squote]) ++ text ++ macro ++ rest)
      by (rewrite <- app_assoc; reflexivity).
    rewrite expandMacrosUnix_loop_squote_run
      by (try assumption; rewrite qlength_app, qlength_snoc; lia).
    rewrite <- qlength_app.
    replace (renderWord ps ++ ch_squote :: text)
      with ((renderWord ps ++ [ch_squote]) ++ text) in *
      by (rewrite <- app_assoc; reflexivity).
    rewrite (app_assoc _ text).
    rewrite expandMacrosUnix_loop_at_macro by exact Hmacro. cbv zeta.
    cbn [dquote current MxQuoting_eqb].
    rewrite <- !app_assoc in *. cbn [app] in *.
    destruct (findMacro mx _ _) as [[vl vp] r2]. cbn [fst] in Hlast. subst vl. reflexivity.
Qed.


(** ** The expanded command line read back *)

Lemma mxPlain_of_wordChar `{QtServices} (c : QChar) : wordChar true c = true -> mxPlain c = true.
Proof.
  intros Hc. destruct (wordChar_tests true c Hc) as (_ & Hx & Hm). cbn [andb] in Hm.
  assert (Hy : forall x, isMetaUnix x = true -> (c =? x) = false).
  { intros x Hmx. apply Z.eqb_neq. intros ->. congruence. }
  unfold mxPlain. cbn [existsb].
  rewrite (Hx ch_squote), (Hx ch_dquote), (Hx ch_dollar), (Hx ch_bslash), (Hx ch_btick),
    (Hx ch_lparen), (Hx ch_rparen) by (cbn [In]; tauto).
  rewrite (Hy ch_lbrace), (Hy ch_rbrace) by reflexivity. reflexivity.
Qed.

Lemma mxPieceOk_of_pieceOk `{QtServices} (p : Piece) :
  pieceOk true p = true -> mxPieceOk p = true.
Proof.
  destruct p as [c | c | text | ds]; cbn [pieceOk mxPieceOk]; intros Hp;
    [apply mxPlain_of_wordChar; exact Hp | reflexivity | exact Hp |].
  induction ds as [|d ds IH]; [reflexivity|]. cbn [forallb] in *.
  apply andb_true_iff in Hp as [Hd Hds]. rewrite (IH Hds), andb_true_r.
  destruct d; [exact Hd | reflexivity].
Qed.

Lemma renderWord_app (a b : Word) : renderWord (a ++ b) = renderWord a ++ renderWord b.
Proof. unfold renderWord. apply flat_map_app. Qed.

Lemma renderWord_plain (l : QString) : renderWord (map Plain l) = l.
Proof.
  induction l as [|c l IH]; [reflexivity|]. cbn [map renderWord flat_map renderPiece app].
  fold (renderWord (map Plain l)). rewrite IH. reflexivity.
Qed.

(** A line of simple words is a sequence of pieces for the scan of
    [expandMacros], its blanks being characters without meaning. *)
Lemma line_as_pieces `{QtServices} (ws : list (Word * QString)) : forall lead,
  lineOk true lead ws = true ->
  exists ps, renderWord ps = renderLine lead ws /\ forallb mxPieceOk ps = true.
Proof.
  assert (Hblank : forall l, forallb isBlank l = true -> forallb mxPieceOk (map Plain l) = true).
  { induction l as [|b l IH]; [reflexivity|]. cbn [forallb map mxPieceOk].
    intros Hb. apply andb_true_iff in Hb as [Hb Hl]. rewrite (IH Hl), andb_true_r.
    unfold isBlank in Hb. apply orb_true_iff in Hb as [Hb | Hb]; apply Z.eqb_eq in Hb; subst b;
      reflexivity. }
  induction ws as [|[w gap] more IH]; intros lead Hok; cbn [lineOk] in Hok.
  - rewrite andb_true_r in Hok. exists (map Plain lead). split;
      [apply renderWord_plain | apply Hblank; exact Hok].
  - apply andb_true_iff in Hok as [Hlead Hok].
    apply andb_true_iff in Hok as [Hok Hmore]. apply andb_true_iff in Hok as [Hw _].
    unfold wordOk in Hw. apply andb_true_iff in Hw as [_ Hps].
    destruct (IH gap Hmore) as (ps' & Hr & Hp).
    exists (map Plain lead ++ w ++ ps'). split.
    + rewrite !renderWord_app, renderWord_plain, Hr. reflexivity.
    + rewrite !forallb_app, (Hblank lead Hlead), Hp, andb_true_r. cbn [andb].
      clear - Hps. induction w as [|p w IHw]; [reflexivity|]. cbn [forallb] in *.
      apply andb_true_iff in Hps as [Hp Hw].
      rewrite (mxPieceOk_of_pieceOk p Hp), (IHw Hw). reflexivity.
Qed.

(** X14: a macro that is the last word of a line of simple words, and
    the only macro, is replaced so that the expanded line reads back,
    under the Unix grammar with abortOnMeta, as the words of the line
    followed by exactly one argument, the replacement itself, whatever
    characters it has (its only white space being that of ASCII). *)
Theorem expandMacros_then_splitArgs_unix `{QtServices} (mx : AbstractMacroExpander)
    (env : option Environment) (pwd : option QString) (e0 : SplitError)
    (lead : QString) (ws : list (Word * QString)) (macro rsts : QString) (fuel : nat) :
  lineOk true lead ws = true ->
  forallb (fun e => negb (isEmpty (snd e))) ws = true ->
  macro <> [] ->
  forallb (fun c => negb (isSpace c) || (c <? 128)) rsts = true ->
  findMacro mx (renderLine lead ws ++ macro) 0
  = (qlength macro, qlength (renderLine lead ws), rsts) ->
  fst (fst (findMacro mx (renderLine lead ws ++ quoteArgUnix rsts)
              (qlength (renderLine lead ws) + qlength (quoteArgUnix rsts)))) = 0 ->
  (List.length (renderLine lead ws ++ macro) < fuel)%nat ->
  expandMacros fuel (renderLine lead ws ++ macro) mx OsTypeLinux
  = Some (true, renderLine lead ws ++ quoteArgUnix rsts)
  /\ splitArgs (renderLine lead ws ++ quoteArgUnix rsts) OsTypeLinux true (Some e0) env pwd
     = Some (lineValues ws ++ [rsts], Some SplitOk).
Proof.
  intros Hok Hgaps Hmacro Hascii Hfind Hlast Hfuel. split.
  - destruct (line_as_pieces ws lead Hok) as (ps & Hr & Hps). rewrite <- Hr in *.
    pose proof (expandMacros_unix_single mx ps macro [] rsts fuel Hps Hmacro []
                  (quoteArgUnix rsts) (or_introl (conj eq_refl eq_refl))) as E.
    cbn [app] in E. rewrite !app_nil_r in E. apply E; assumption.
  - unfold splitArgs. cbn [isWindows].
    destruct (splitArgsUnix_reaches_word true env pwd lead ws (quoteArgUnix rsts) Hok Hgaps)
      as (fuel1 & Hf1 & E).
    rewrite E. clear E.
    pose proof (splitUnix_word_line true env pwd [(quoteWord rsts, [])] [] fuel1
                  (lineValues ws)) as Hw.
    cbn [renderLine app lineOk forallb andb lineValues map fst] in Hw.
    rewrite app_nil_r, renderWord_quoteWord, wordValue_quoteWord in Hw.
    rewrite Hw; [reflexivity | | lia].
    rewrite (wordOk_quoteWord true rsts Hascii). reflexivity.
Qed.

Lemma escapedDPiece_render (rsts : QString) :
  flat_map renderDPiece (map escapedDPiece rsts) = escapeForDoubleQuotes rsts.
Proof.
  unfold escapeForDoubleQuotes. induction rsts as [|c r IH]; [reflexivity|].
  cbn [map flat_map]. rewrite IH. unfold escapedDPiece.
  destruct ((c =? ch_dollar) || (c =? ch_btick) || (c =? ch_dquote) || (c =? ch_bslash));
    reflexivity.
Qed.

Lemma escapedDPiece_value (rsts : QString) :
  flat_map dpieceValue (map escapedDPiece rsts) = rsts.
Proof.
  induction rsts as [|c r IH]; [reflexivity|].
  cbn [map flat_map]. rewrite IH. unfold escapedDPiece.
  destruct (c =? ch_dollar) eqn:E1, (c =? ch_btick) eqn:E2, (c =? ch_dquote) eqn:E3,
    (c =? ch_bslash) eqn:E4; cbn [orb dpieceValue]; rewrite ?E1, ?E2, ?E3, ?E4;
    cbn [orb app]; reflexivity.
Qed.

Lemma escapedDPiece_ok (rsts : QString) :
  forallb (dpieceOk true) (map escapedDPiece rsts) = true.
Proof.
  induction rsts as [|c r IH]; [reflexivity|].
  cbn [map forallb]. rewrite IH, andb_true_r. unfold escapedDPiece.
  destruct (c =? ch_dollar) eqn:E1, (c =? ch_btick) eqn:E2, (c =? ch_dquote) eqn:E3,
    (c =? ch_bslash) eqn:E4; cbn [orb dpieceOk existsb]; rewrite ?E1, ?E2, ?E3, ?E4;
    reflexivity.
Qed.

Lemma mxDPieceOk_of_dpieceOk (ds : list DPiece) :
  forallb (dpieceOk true) ds = true -> forallb mxDPieceOk ds = true.
Proof.
  induction ds as [|d ds IH]; [reflexivity|]. cbn [forallb]. intros Hd.
  apply andb_true_iff in Hd as [Hd Hds]. rewrite (IH Hds), andb_true_r.
  destruct d; [exact Hd | reflexivity].
Qed.

(** X15: a macro inside a section in double quotes that is the last
    word of a line of simple words, and the only macro: the expanded
    line reads back, under the Unix grammar with abortOnMeta, as the
    words of the line followed by one argument in which the replacement
    stands unchanged between the text before and the text after the
    macro, whatever characters the replacement has. *)
Theorem expandMacros_in_quotes_then_splitArgs `{QtServices} (mx : AbstractMacroExpander)
    (env : option Environment) (pwd : option QString) (e0 : SplitError)
    (lead : QString) (ws : list (Word * QString)) (ds1 ds2 : list DPiece)
    (macro rsts : QString) (fuel : nat) :
  lineOk true lead ws = true ->
  forallb (fun e => negb (isEmpty (snd e))) ws = true ->
  forallb (dpieceOk true) ds1 = true ->
  forallb (dpieceOk true) ds2 = true ->
  macro <> [] ->
  findMacro mx (renderLine lead ws ++ (ch_dquote :: flat_map renderDPiece ds1) ++ macro
                ++ flat_map renderDPiece ds2 ++ [ch_dquote]) 0
  = (qlength macro, qlength (renderLine lead ws ++ ch_dquote :: flat_map renderDPiece ds1),
     rsts) ->
  fst (fst (findMacro mx
              (renderLine lead ws ++ (ch_dquote :: flat_map renderDPiece ds1)
               ++ escapeForDoubleQuotes rsts ++ flat_map renderDPiece ds2 ++ [ch_dquote])
              (qlength (renderLine lead ws ++ ch_dquote :: flat_map renderDPiece ds1)
               + qlength (escapeForDoubleQuotes rsts)))) = 0 ->
  (List.length (renderLine lead ws ++ (ch_dquote :: flat_map renderDPiece ds1) ++ macro
                ++ flat_map renderDPiece ds2 ++ [ch_dquote]) < fuel)%nat ->
  expandMacros fuel
    (renderLine lead ws ++ (ch_dquote :: flat_map renderDPiece ds1) ++ macro
     ++ flat_map renderDPiece ds2 ++ [ch_dquote]) mx OsTypeLinux
  = Some (true,
          renderLine lead ws ++ (ch_dquote :: flat_map renderDPiece ds1)
          ++ escapeForDoubleQuotes rsts ++ flat_map renderDPiece ds2 ++ [ch_dquote])
  /\ splitArgs
       (renderLine lead ws ++ (ch_dquote :: flat_map renderDPiece ds1)
        ++ escapeForDoubleQuotes rsts ++ flat_map renderDPiece ds2 ++ [ch_dquote])
       OsTypeLinux true (Some e0) env pwd
     = Some (lineValues ws
             ++ [flat_map dpieceValue ds1 ++ rsts ++ flat_map dpieceValue ds2],
             Some SplitOk).
Proof.
  intros Hok Hgaps Hds1 Hds2 Hmacro Hfind Hlast Hfuel. split.
  - destruct (line_as_pieces ws lead Hok) as (ps & Hr & Hps). rewrite <- Hr in *.
    apply (expandMacros_unix_single mx ps macro (flat_map renderDPiece ds2 ++ [ch_dquote])
             rsts fuel Hps Hmacro (ch_dquote :: flat_map renderDPiece ds1)
             (escapeForDoubleQuotes rsts)); try assumption.
    right. left. exists ds1. repeat split. apply mxDPieceOk_of_dpieceOk. exact Hds1.
  - unfold splitArgs. cbn [isWindows].
    set (word := [DQuoted (ds1 ++ map escapedDPiece rsts ++ ds2)]).
    assert (Hrender : renderWord word
                      = (ch_dquote :: flat_map renderDPiece ds1) ++ escapeForDoubleQuotes rsts
                        ++ flat_map renderDPiece ds2 ++ [ch_dquote]).
    { unfold word. cbn [renderWord flat_map renderPiece]. rewrite app_nil_r.
      rewrite !flat_map_app, escapedDPiece_render, <- !app_assoc. reflexivity. }
    rewrite <- Hrender.
    destruct (splitArgsUnix_reaches_word true env pwd lead ws (renderWord word) Hok Hgaps)
      as (fuel1 & Hf1 & E).
    rewrite E. clear E.
    pose proof (splitUnix_word_line true env pwd [(word, [])] [] fuel1 (lineValues ws)) as Hw.
    cbn [renderLine app lineOk forallb andb lineValues map fst] in Hw.
    rewrite app_nil_r in Hw. rewrite Hw; [| | lia].
    + unfold word. cbn [wordValue flat_map pieceValue]. rewrite app_nil_r.
      rewrite !flat_map_app, escapedDPiece_value. reflexivity.
    + unfold word, wordOk. cbn [forallb pieceOk andb].
      rewrite !forallb_app, Hds1, Hds2, escapedDPiece_ok. reflexivity.
Qed.


(** * Normalized text and the output of a run *)

Lemma dropCrBeforeLf_hd (s : QString) :
  hd 0 (dropCrBeforeLf s)
  = if (hd 0 s =? ch_cr) && (hd 0 (tl s) =? ch_lf) then ch_lf else hd 0 s.
Proof.
  destruct s as [|c t]; [reflexivity|]. cbn [dropCrBeforeLf hd tl].
  destruct ((c =? ch_cr) && (hd 0 t =? ch_lf)) eqn:E; [|reflexivity].
  apply andb_true_iff in E as [_ Et]. destruct t as [|d r]; [discriminate|].
  cbn [hd] in Et. apply Z.eqb_eq in Et. subst d. cbn [dropCrBeforeLf].
  change (ch_lf =? ch_cr) with false. reflexivity.
Qed.

Lemma noPair_tail (a b c : QChar) (t : QString) :
  noPair a b (c :: t) = true -> noPair a b t = true.
Proof. cbn [noPair]. intros H. apply andb_true_iff in H. tauto. Qed.

Lemma dropCrBeforeLf_noPair (s : QString) :
  noPair ch_cr ch_cr s = true ->
  noPair ch_cr ch_lf (dropCrBeforeLf s) = true
  /\ noPair ch_cr ch_cr (dropCrBeforeLf s) = true.
Proof.
  induction s as [|c t IH]; intros Hs; [split; reflexivity|].
  pose proof (IH (noPair_tail _ _ _ _ Hs)) as [IH1 IH2].
  cbn [dropCrBeforeLf]. destruct ((c =? ch_cr) && (hd 0 t =? ch_lf)) eqn:E.
  - split; assumption.
  - cbn [noPair]. rewrite IH1, IH2, !andb_true_r, dropCrBeforeLf_hd.
    cbn [noPair] in Hs. apply andb_true_iff in Hs as [Hc _].
    apply negb_true_iff in Hc.
    destruct (c =? ch_cr); [|split; reflexivity]. cbn [andb] in *.
    rewrite Hc. cbn [andb]. cbv iota. rewrite E, Hc. split; reflexivity.
Qed.

Lemma collapseCrRuns_fixed (s : QString) :
  noPair ch_cr ch_cr s = true -> collapseCrRuns s = s.
Proof.
  induction s as [|c t IH]; intros Hs; [reflexivity|].
  cbn [collapseCrRuns]. rewrite (IH (noPair_tail _ _ _ _ Hs)).
  cbn [noPair] in Hs. apply andb_true_iff in Hs as [Hc _]. apply negb_true_iff in Hc.
  rewrite Hc. reflexivity.
Qed.

Lemma dropCrBeforeLf_fixed (s : QString) :
  noPair ch_cr ch_lf s = true -> dropCrBeforeLf s = s.
Proof.
  induction s as [|c t IH]; intros Hs; [reflexivity|].
  cbn [dropCrBeforeLf]. rewrite (IH (noPair_tail _ _ _ _ Hs)).
  cbn [noPair] in Hs. apply andb_true_iff in Hs as [Hc _]. apply negb_true_iff in Hc.
  rewrite Hc. reflexivity.
Qed.

Lemma normalizeNewlines_noPair (text : QString) :
  noPair ch_cr ch_cr (normalizeNewlines text) = true
  /\ noPair ch_cr ch_lf (normalizeNewlines text) = true.
Proof.
  rewrite normalizeNewlines_passes.
  destruct (dropCrBeforeLf_noPair _ (collapseCrRuns_noPair text)). split; assumption.
Qed.

Lemma normalizeNewlines_fixed (text : QString) :
  noPair ch_cr ch_cr text = true -> noPair ch_cr ch_lf text = true ->
  normalizeNewlines text = text.
Proof.
  intros H1 H2. rewrite normalizeNewlines_passes, collapseCrRuns_fixed by exact H1.
  apply dropCrBeforeLf_fixed, H2.
Qed.

(** X16: the text normalizeNewlines returns never holds a carriage
    return that is followed by a carriage return or by a line feed;
    normalizing it again changes nothing, and the texts the function
    leaves as they are are exactly those without such a pair. *)
Theorem normalizeNewlines_idempotent (text : QString) :
  noPair ch_cr ch_cr (normalizeNewlines text) = true
  /\ noPair ch_cr ch_lf (normalizeNewlines text) = true
  /\ normalizeNewlines (normalizeNewlines text) = normalizeNewlines text
  /\ (normalizeNewlines text = text
      <-> noPair ch_cr ch_cr text && noPair ch_cr ch_lf text = true).
Proof.
  destruct (normalizeNewlines_noPair text) as [H1 H2].
  split; [exact H1|]. split; [exact H2|]. split.
  - apply normalizeNewlines_fixed; assumption.
  - split.
    + intros E. rewrite E in H1, H2. rewrite H1, H2. reflexivity.
    + intros E. apply andb_true_iff in E as [E1 E2]. apply normalizeNewlines_fixed; assumption.
Qed.

(** What is not a carriage return passes both phases. *)
Lemma collapseCrRuns_keeps (s : QString) :
  filter (fun c => negb (c =? ch_cr)) (collapseCrRuns s)
  = filter (fun c => negb (c =? ch_cr)) s
  /\ (List.length (collapseCrRuns s) <= List.length s)%nat.
Proof.
  induction s as [|c t [IH1 IH2]]; [split; reflexivity|].
  cbn [collapseCrRuns]. destruct ((c =? ch_cr) && (hd 0 t =? ch_cr)) eqn:E.
  - apply andb_true_iff in E as [Ec _]. cbn [filter List.length]. rewrite Ec. cbn [negb].
    split; [exact IH1 | lia].
  - cbn [filter List.length]. rewrite IH1. split; [reflexivity | lia].
Qed.

Lemma dropCrBeforeLf_keeps (s : QString) :
  filter (fun c => negb (c =? ch_cr)) (dropCrBeforeLf s)
  = filter (fun c => negb (c =? ch_cr)) s
  /\ (List.length (dropCrBeforeLf s) <= List.length s)%nat.
Proof.
  induction s as [|c t [IH1 IH2]]; [split; reflexivity|].
  cbn [dropCrBeforeLf]. destruct ((c =? ch_cr) && (hd 0 t =? ch_lf)) eqn:E.
  - apply andb_true_iff in E as [Ec _]. cbn [filter List.length]. rewrite Ec. cbn [negb].
    split; [exact IH1 | lia].
  - cbn [filter List.length]. rewrite IH1. split; [reflexivity | lia].
Qed.

Lemma dropCrBeforeLf_last (s : QString) :
  last (dropCrBeforeLf s) 0 = last s 0 /\ isEmpty (dropCrBeforeLf s) = isEmpty s.
Proof.
  induction s as [|c t [IH1 IH2]]; [split; reflexivity|].
  cbn [dropCrBeforeLf]. destruct ((c =? ch_cr) && (hd 0 t =? ch_lf)) eqn:E.
  - apply andb_true_iff in E as [_ Et]. destruct t as [|d r]; [discriminate|].
    rewrite IH1, IH2. split; reflexivity.
  - split; [|reflexivity]. destruct t as [|d r]; [reflexivity|].
    change (last (c :: d :: r) 0) with (last (d :: r) 0). rewrite <- IH1.
    destruct (dropCrBeforeLf (d :: r)) eqn:Ed; [|reflexivity].
    cbn [isEmpty] in IH2. discriminate.
Qed.

Lemma collapseCrRuns_isEmpty (s : QString) : isEmpty (collapseCrRuns s) = isEmpty s.
Proof.
  induction s as [|c t IH]; [reflexivity|].
  cbn [collapseCrRuns]. destruct ((c =? ch_cr) && (hd 0 t =? ch_cr)) eqn:E; [|reflexivity].
  apply andb_true_iff in E as [_ Et]. destruct t as [|d r]; [discriminate|].
  rewrite IH. reflexivity.
Qed.

Lemma normalizeNewlines_last (text : QString) :
  last (normalizeNewlines text) 0 = last text 0
  /\ isEmpty (normalizeNewlines text) = isEmpty text.
Proof.
  rewrite normalizeNewlines_passes.
  destruct (dropCrBeforeLf_last (collapseCrRuns text)) as [H1 H2].
  rewrite H1, H2, collapseCrRuns_last, collapseCrRuns_isEmpty. split; reflexivity.
Qed.

(** X17: normalizeNewlines takes nothing but carriage returns away:
    what is left of the text when its carriage returns are struck out
    is the same before and after, the text never grows, its last
    character stays, and only the empty text comes out empty. *)
Theorem normalizeNewlines_removes_only_cr (text : QString) :
  filter (fun c => negb (c =? ch_cr)) (normalizeNewlines text)
  = filter (fun c => negb (c =? ch_cr)) text
  /\ qlength (normalizeNewlines text) <= qlength text
  /\ last (normalizeNewlines text) 0 = last text 0
  /\ isEmpty (normalizeNewlines text) = isEmpty text.
Proof.
  destruct (normalizeNewlines_last text) as [H3 H4].
  split; [|split; [|split; assumption]].
  - rewrite normalizeNewlines_passes.
    rewrite (proj1 (dropCrBeforeLf_keeps _)). apply collapseCrRuns_keeps.
  - rewrite normalizeNewlines_passes. unfold qlength.
    pose proof (proj2 (dropCrBeforeLf_keeps (collapseCrRuns text))).
    pose proof (proj2 (collapseCrRuns_keeps text)). lia.
Qed.

(** Pairs across a junction. *)
Lemma noPair_app (a b : QChar) (s t : QString) :
  (0 =? b) = false ->
  noPair a b (s ++ t)
  = noPair a b s && noPair a b t
    && negb (negb (isEmpty s) && (last s 0 =? a) && negb (isEmpty t) && (hd 0 t =? b)).
Proof.
  intros Hb. induction s as [|c r IH].
  - cbn [app noPair isEmpty negb andb]. rewrite andb_true_r. reflexivity.
  - destruct r as [|d r'].
    + cbn [app noPair hd last isEmpty negb andb]. rewrite Hb.
      destruct t as [|e t']; cbn [hd isEmpty negb andb];
        [cbn [noPair]; rewrite Hb|destruct (noPair a b (e :: t')), (e =? b)];
        destruct (c =? a); reflexivity.
    + change ((c :: d :: r') ++ t) with (c :: ((d :: r') ++ t)).
      cbn [noPair]. rewrite IH. change (hd 0 ((d :: r') ++ t)) with d. cbn [hd].
      change (last (c :: d :: r') 0) with (last (d :: r') 0).
      cbn [isEmpty negb andb].
      destruct (negb ((c =? a) && (d =? b))); cbn [andb]; reflexivity.
Qed.

Lemma last_snoc (s : QString) (c : QChar) : last (s ++ [c]) 0 = c.
Proof. apply last_last. Qed.

Lemma isEmpty_app (s t : QString) : isEmpty (s ++ t) = isEmpty s && isEmpty t.
Proof. destruct s; reflexivity. Qed.

(** X18: allOutput never holds two carriage returns in a row, and it
    holds a carriage return followed by a line feed in one case only:
    both channels have text and the text of standard output ends in a
    carriage return, after which the function puts its line feed.  It
    is empty exactly when both texts are. *)
Theorem allOutput_line_ends `{TextCodec} (rawStdOut rawStdErr : QByteArray) :
  noPair ch_cr ch_cr (allOutput rawStdOut rawStdErr) = true
  /\ noPair ch_cr ch_lf (allOutput rawStdOut rawStdErr)
     = negb (negb (isEmpty (stdOut rawStdOut)) && negb (isEmpty (stdErr rawStdErr))
             && endsWith (stdOut rawStdOut) ch_cr)
  /\ isEmpty (allOutput rawStdOut rawStdErr)
     = isEmpty (stdOut rawStdOut) && isEmpty (stdErr rawStdErr).
Proof.
  unfold allOutput.
  destruct (normalizeNewlines_noPair (toUnicode rawStdOut)) as [Ho1 Ho2].
  destruct (normalizeNewlines_noPair (toUnicode rawStdErr)) as [He1 He2].
  fold (stdOut rawStdOut) in Ho1, Ho2. fold (stdErr rawStdErr) in He1, He2.
  set (out := stdOut rawStdOut) in *. set (err := stdErr rawStdErr) in *.
  cbv zeta. destruct (isEmpty out) eqn:Eo.
  - cbn [negb andb]. rewrite He1, He2. destruct (isEmpty err); repeat split; reflexivity.
  - destruct (isEmpty err) eqn:Ee.
    + cbn [negb andb]. rewrite Ho1, Ho2, Eo. repeat split; reflexivity.
    + cbn [negb andb]. unfold endsWith. rewrite Eo. cbn [negb andb].
      destruct (@last Z out 0 =? ch_lf) eqn:El.
      * cbn [negb]. rewrite !noPair_app by reflexivity. change (@last QChar) with (@last Z).
        rewrite Ho1, Ho2, He1, He2, Eo, Ee, isEmpty_app, Eo.
        apply Z.eqb_eq in El. rewrite El.
        change (ch_lf =? ch_cr) with false. cbn [negb andb]. repeat split; reflexivity.
      * cbn [negb]. rewrite !noPair_app by reflexivity. change (@last QChar) with (@last Z).
        rewrite Ho1, Ho2, He1, He2, !isEmpty_app, Eo, Ee, last_snoc.
        cbn [noPair hd isEmpty negb andb].
        change (ch_lf =? ch_cr) with false. change (0 =? ch_cr) with false.
        change (0 =? ch_lf) with false. change (ch_lf =? ch_lf) with true.
        cbn [negb andb]. rewrite ?andb_true_r, ?andb_false_r. cbn [negb andb].
        repeat split; reflexivity.
Qed.


(** * Joined arguments under the Windows grammar *)

Lemma joinArgs_joinWith (osType : OsType) (args : QStringList) :
  joinArgs args osType = joinWith (fun a => quoteArg a osType) args.
Proof.
  induction args as [|a args IH]; [reflexivity|].
  rewrite joinArgs_cons. cbn [joinWith]. rewrite IH. reflexivity.
Qed.

(** ** The first phase *)

Lemma stripCarets_plain_then (s X : QString) :
  forallb plainWin s = true -> stripCarets (s ++ X) = option_map (app s) (stripCarets X).
Proof.
  induction s as [|c r IH]; intros Hs; [cbn; destruct (stripCarets X); reflexivity|].
  cbn [forallb] in Hs. apply andb_true_iff in Hs as [Hc Hs]. unfold plainWin in Hc.
  repeat (apply andb_true_iff in Hc as [Hc ?]).
  cbn [app stripCarets].
  repeat match goal with H : negb _ = true |- _ => apply negb_true_iff in H; rewrite H end.
  rewrite IH by exact Hs. destruct (stripCarets X); reflexivity.
Qed.

Lemma stripCaretsQuoted_quoteTail_then (s X : QString) : forall n,
  stripCaretsQuoted (quoteTailWin true s n ++ X)
  = option_map (app (quoteTailWin false s n)) (stripCarets X).
Proof.
  induction s as [|c r IH]; intros n; cbn [quoteTailWin].
  - cbn [app stripCaretsQuoted]. rewrite Z.eqb_refl.
    rewrite stripCarets_bslashes. destruct (stripCarets X); reflexivity.
  - destruct (c =? ch_bslash) eqn:Ebs; [apply IH|].
    destruct (c =? ch_dquote) eqn:Edq.
    + rewrite <- !app_assoc. cbn [app stripCaretsQuoted]. rewrite Z.eqb_refl.
      rewrite !stripCarets_bslashes. cbn [app stripCarets].
      change (ch_bslash =? ch_caret) with false. change (ch_bslash =? ch_dquote) with false.
      change (isMetaCharWin ch_bslash) with false. rewrite Z.eqb_refl. cbn iota.
      change (ch_dquote =? ch_caret) with false. rewrite Z.eqb_refl. cbn iota.
      rewrite IH. destruct (stripCarets X); cbn [option_map]; [|reflexivity].
      rewrite <- !app_assoc. reflexivity.
    + rewrite <- app_assoc. rewrite stripCaretsQuoted_bslashes.
      cbn [app stripCaretsQuoted]. rewrite Edq, IH.
      destruct (stripCarets X); cbn [option_map]; [|reflexivity].
      rewrite <- !app_assoc. reflexivity.
Qed.

Lemma stripCarets_quoteArgWin_then (a X : QString) :
  stripCarets (quoteArgWin a ++ X) = option_map (app (strippedArgWin a)) (stripCarets X).
Proof.
  unfold strippedArgWin. destruct a as [|c r].
  - cbn. destruct (stripCarets X); reflexivity.
  - cbn [isEmpty]. destruct (hasSpecialCharsWin (c :: r)) eqn:Hsp.
    + rewrite quoteArgWin_special by (try exact Hsp; reflexivity).
      cbn [app stripCarets]. change (ch_dquote =? ch_caret) with false.
      rewrite Z.eqb_refl. cbn iota. rewrite stripCaretsQuoted_quoteTail_then.
      destruct (stripCarets X); reflexivity.
    + rewrite quoteArgWin_plain by (try exact Hsp; reflexivity).
      apply stripCarets_plain_then, hasSpecialCharsWin_plain, Hsp.
Qed.

Lemma stripCarets_joined (args : QStringList) :
  stripCarets (joinWith quoteArgWin args) = Some (joinWith strippedArgWin args).
Proof.
  induction args as [|a args IH]; [reflexivity|].
  cbn [joinWith]. rewrite stripCarets_quoteArgWin_then.
  destruct args as [|b args]; [reflexivity|].
  cbn [stripCarets]. change (ch_space =? ch_caret) with false.
  change (ch_space =? ch_dquote) with false. change (isMetaCharWin ch_space) with false.
  cbn iota. rewrite IH. reflexivity.
Qed.

Lemma strippedArgWin_no_quote (a : QString) :
  lacks ch_dquote a = true -> strippedArgWin a = quoteArgWin a.
Proof.
  intros Hq. unfold strippedArgWin. destruct a as [|c r]; [reflexivity|]. cbn [isEmpty].
  destruct (hasSpecialCharsWin (c :: r)) eqn:Hsp.
  - rewrite quoteArgWin_special, quoteTailWin_no_quote by (try assumption; reflexivity).
    reflexivity.
  - rewrite quoteArgWin_plain by (try assumption; reflexivity). reflexivity.
Qed.

Lemma joinWith_ext (f g : QString -> QString) (args : QStringList) :
  Forall (fun a => f a = g a) args -> joinWith f args = joinWith g args.
Proof.
  induction 1 as [|a args Ha _ IH]; [reflexivity|].
  cbn [joinWith]. rewrite Ha, IH. reflexivity.
Qed.

(** ** The tokenizer *)

(** An argument the machine reads to the end of its input is read the
    same when white space follows. *)
Lemma crtArg_then (k : nat) : forall s arg inquote n a X,
  (List.length s <= k)%nat ->
  match X with [] => True | c :: _ => isWhiteSpaceWin c = true end ->
  crtArg s arg inquote n = inl (a, []) ->
  crtArg (s ++ X) arg inquote n = inl (a, X).
Proof.
  induction k as [|k IH]; intros s arg inquote n a X Hk HX Hres.
  - destruct s; [|cbn in Hk; lia]. cbn [app]. cbn [crtArg] in Hres.
    destruct inquote; [discriminate|]. injection Hres as <-.
    destruct X as [|c r]; [reflexivity|]. cbn [crtArg].
    destruct (isWhiteSpaceWin_not_special c HX) as [Ebs Edq]. rewrite Ebs, Edq, HX.
    reflexivity.
  - destruct s as [|c r].
    + apply (IH [] arg inquote n a X); [cbn; lia | exact HX | exact Hres].
    + cbn [List.length] in Hk. cbn [app crtArg] in *.
      destruct (c =? ch_bslash); [apply IH; [lia | exact HX | exact Hres]|].
      destruct (c =? ch_dquote).
      * destruct (Z.land n 1 =? 0).
        -- destruct inquote.
           ++ destruct r as [|d r'].
              ** cbn [app]. destruct X as [|x X'].
                 --- exact Hres.
                 --- destruct (isWhiteSpaceWin_not_special x HX) as [_ Edq]. rewrite Edq.
                     apply (IH [] _ _ _ a (x :: X')); [cbn; lia | exact HX | exact Hres].
              ** cbn [app]. destruct (d =? ch_dquote).
                 --- apply IH; [cbn [List.length] in Hk; lia | exact HX | exact Hres].
                 --- apply (IH (d :: r')); [lia | exact HX | exact Hres].
           ++ apply IH; [lia | exact HX | exact Hres].
        -- apply IH; [lia | exact HX | exact Hres].
      * destruct (negb inquote && isWhiteSpaceWin c); [discriminate|].
        apply IH; [lia | exact HX | exact Hres].
Qed.

Lemma crtArg_strippedArgWin (a : QString) :
  crtArg (strippedArgWin a) [] false 0 = inl (a, []).
Proof.
  unfold strippedArgWin. destruct a as [|c r]; [reflexivity|]. cbn [isEmpty].
  destruct (hasSpecialCharsWin (c :: r)) eqn:Hsp.
  - cbn [crtArg]. change (ch_dquote =? ch_bslash) with false. rewrite Z.eqb_refl.
    change (Z.land 0 1 =? 0) with true. cbn iota. rewrite appendBslashes_zero.
    apply (crtArg_quoteTail (c :: r) 0 []).
  - apply (crtArg_plain (c :: r) 0 []), hasSpecialCharsWin_plain, Hsp.
Qed.

Lemma strippedArgWin_head (a : QString) :
  exists c q, strippedArgWin a = c :: q /\ isWhiteSpaceWin c = false.
Proof.
  unfold strippedArgWin. destruct a as [|c r]; [exists ch_dquote, [ch_dquote]; split; reflexivity|].
  cbn [isEmpty]. destruct (hasSpecialCharsWin (c :: r)) eqn:Hsp.
  - eexists _, _. split; reflexivity.
  - exists c, r. split; [reflexivity|].
    eapply plainWin_head, hasSpecialCharsWin_plain, Hsp.
Qed.

Lemma doSplitArgsWin_loop_joined (args : QStringList) : forall fuel ret,
  (S (List.length (joinWith strippedArgWin args)) < fuel)%nat ->
  doSplitArgsWin_loop fuel (joinWith strippedArgWin args) ret = Some (ret ++ args, SplitOk).
Proof.
  induction args as [|a args IH]; intros fuel ret Hfuel.
  - destruct fuel as [|fuel]; [lia|]. cbn. rewrite app_nil_r. reflexivity.
  - destruct fuel as [|fuel]; [lia|]. cbn [joinWith] in *.
    set (X := match args with [] => [] | _ :: _ => ch_space :: joinWith strippedArgWin args end)
      in *.
    assert (HX : match X with [] => True | c :: _ => isWhiteSpaceWin c = true end)
      by (unfold X; destruct args; [exact I | reflexivity]).
    destruct (strippedArgWin_head a) as (c & q & Eq & Hc).
    cbn [doSplitArgsWin_loop]. rewrite Eq. cbn [app skipWhiteSpaceWin]. rewrite Hc.
    change (c :: q ++ X) with ((c :: q) ++ X). rewrite <- Eq.
    rewrite length_app in Hfuel.
    rewrite doSplitArgsWin_arg_crt by (rewrite length_app; lia).
    rewrite (crtArg_then _ _ _ _ _ a X (le_n _) HX (crtArg_strippedArgWin a)).
    unfold X in *. destruct args as [|b args].
    + destruct fuel as [|fuel]; [cbn in Hfuel; lia|]. reflexivity.
    + destruct fuel as [|fuel]; [cbn in Hfuel; lia|].
      cbn [List.length] in Hfuel.
      pose proof (IH (S fuel) (ret ++ [a]) ltac:(lia)) as E.
      cbn [doSplitArgsWin_loop] in E |- *. cbn [skipWhiteSpaceWin].
      change (isWhiteSpaceWin ch_space) with true. cbv iota.
      rewrite E, <- app_assoc. reflexivity.
Qed.

Lemma doSplitArgsWin_joined (args : QStringList) :
  doSplitArgsWin (joinWith strippedArgWin args) = Some (args, SplitOk).
Proof. unfold doSplitArgsWin. apply (doSplitArgsWin_loop_joined args _ []). lia. Qed.

(** ** Percent signs and the leading at sign *)

Lemma lacks_joined (c : QChar) (args : QStringList) :
  (c =? ch_space) = false ->
  forallb (fun a => lacks c (quoteArgWin a)) args = true ->
  lacks c (joinWith quoteArgWin args) = true.
Proof.
  intros Hc Hq. induction args as [|a args IH]; [reflexivity|].
  cbn [forallb] in Hq. apply andb_true_iff in Hq as [Ha Hq].
  cbn [joinWith]. rewrite lacks_app, Ha. destruct args as [|b args]; [reflexivity|].
  rewrite lacks_cons, IH by exact Hq.
  replace (ch_space =? c) with false by (rewrite Z.eqb_sym; symmetry; exact Hc). reflexivity.
Qed.

Lemma lacks_percent_joined (args : QStringList) :
  forallb (lacks ch_percent) args = true ->
  lacks ch_percent (joinWith quoteArgWin args) = true.
Proof.
  intros Hp. apply lacks_joined; [reflexivity|].
  induction args as [|a args IH]; [reflexivity|].
  cbn [forallb] in *. apply andb_true_iff in Hp as [Ha Hp].
  rewrite quoteArgWin_lacks_percent, IH by assumption. reflexivity.
Qed.

Lemma dropLeadingAt_joined (args : QStringList) :
  match args with a :: _ => hasSpecialCharsWin a || negb (hd 0 a =? ch_at) | [] => true end
  = true ->
  dropLeadingAt (joinWith quoteArgWin args) = joinWith quoteArgWin args.
Proof.
  intros Hat. destruct args as [|a args]; [reflexivity|]. cbn [joinWith].
  unfold dropLeadingAt. destruct a as [|c r]; [reflexivity|].
  destruct (hasSpecialCharsWin (c :: r)) eqn:Hsp.
  - rewrite quoteArgWin_special by (try exact Hsp; reflexivity). reflexivity.
  - rewrite quoteArgWin_plain by (try exact Hsp; reflexivity).
    cbn [orb hd] in Hat. apply negb_true_iff in Hat.
    cbn [app isEmpty negb andb]. change (unicodeAt (c :: r ++ _) 0) with c.
    rewrite Hat. reflexivity.
Qed.

Lemma prepareArgsWin_joined `{QtServices} (args : QStringList) (env : option Environment)
    (pwd : option QString) :
  forallb (lacks ch_percent) args = true ->
  match args with a :: _ => hasSpecialCharsWin a || negb (hd 0 a =? ch_at) | [] => true end
  = true ->
  prepareArgsWin (joinArgs args OsTypeWindows) env pwd
  = Some (SplitOk, joinWith strippedArgWin args).
Proof.
  intros Hp Hat. rewrite joinArgs_joinWith.
  change (fun a => quoteArg a OsTypeWindows) with quoteArgWin.
  rewrite prepareArgsWin_no_percent by (apply lacks_percent_joined, Hp).
  rewrite dropLeadingAt_joined by exact Hat. rewrite stripCarets_joined. reflexivity.
Qed.

(** X21: joining arguments for the Windows grammar and splitting the
    result gives the arguments back, one for one: with abortOnMeta when
    no argument holds a percent sign and the first one is quoted or does
    not start with an at sign (the caller passing no error variable or
    one that holds SplitOk); without abortOnMeta when no argument holds
    a double quote (nor a percent sign, when an environment is
    given). *)
Theorem joinArgs_splitArgs_windows `{QtServices} (args : QStringList)
    (pwd : option QString) :
  (forallb (lacks ch_percent) args = true ->
   match args with a :: _ => hasSpecialCharsWin a || negb (hd 0 a =? ch_at) | [] => true end
   = true ->
   forall env,
     splitArgs (joinArgs args OsTypeWindows) OsTypeWindows true (Some SplitOk) env pwd
     = Some (args, Some SplitOk)
     /\ splitArgs (joinArgs args OsTypeWindows) OsTypeWindows true None env pwd
        = Some (args, None))
  /\ (forallb (lacks ch_dquote) args = true ->
      forall e0 env,
        match env with Some _ => forallb (lacks ch_percent) args | None => true end = true ->
        splitArgs (joinArgs args OsTypeWindows) OsTypeWindows false (Some e0) env pwd
        = Some (args, Some SplitOk)).
Proof.
  split.
  - intros Hp Hat env. unfold splitArgs, splitArgsWin. cbn [isWindows].
    rewrite prepareArgsWin_joined by assumption. cbn [SplitError_eqb negb].
    rewrite doSplitArgsWin_joined. split; reflexivity.
  - intros Hq e0 env Henv. unfold splitArgs, splitArgsWin. cbn [isWindows].
    assert (Hj : joinArgs args OsTypeWindows = joinWith strippedArgWin args).
    { rewrite joinArgs_joinWith. change (fun a => quoteArg a OsTypeWindows) with quoteArgWin.
      apply joinWith_ext. apply Forall_forall. intros a Ha. symmetry.
      apply strippedArgWin_no_quote. rewrite forallb_forall in Hq. apply Hq, Ha. }
    destruct env as [e|].
    + rewrite envExpandWin_scan, expandPercent_none.
      * rewrite Hj, doSplitArgsWin_joined. reflexivity.
      * rewrite joinArgs_joinWith. apply lacks_percent_joined, Henv.
    + rewrite Hj, doSplitArgsWin_joined. reflexivity.
Qed.


(** * Preparing a command *)

(** X19: arguments that joinArgs wrote for the Unix grammar are never
    handed to a shell: prepareCommand returns true, leaves the command
    as it is and gives the arguments back one for one, whatever the
    environment, the working directory and the defaults are (the
    arguments holding no white space but that of ASCII). *)
Theorem prepareCommand_joined_arguments `{QtServices} (abortOnMeta : bool) (hostOs : OsType)
    (comspec : QString) (shell : option QString) (command : QString)
    (env : option Environment) (pwd : option QString) (args : QStringList) :
  forallb (forallb (fun c => negb (isSpace c) || (c <? 128))) args = true ->
  prepareCommand abortOnMeta hostOs comspec shell command (joinArgs args OsTypeLinux)
    OsTypeLinux env pwd
  = Some (true, Some command, createUnixArgs args).
Proof.
  intros Hascii. unfold prepareCommand, prepareArgs. cbn [isWindows].
  rewrite <- renderLine_joinLine.
  rewrite (splitArgsUnix_line abortOnMeta env pwd [] (joinLine args)
             (lineOk_joinLine abortOnMeta args Hascii)).
  rewrite lineValues_joinLine. reflexivity.
Qed.


Lemma prepareArgsWin_total `{QtServices} (arguments : QString) (env : option Environment)
    (pwd : option QString) :
  (exists out, prepareArgsWin arguments env pwd = Some (SplitOk, out))
  \/ prepareArgsWin arguments env pwd = Some (FoundMeta, []).
Proof.
  destruct env as [e|].
  - rewrite prepareArgsWin_env.
    destruct (stripCarets (dropLeadingAt (expandPercent e pwd arguments))) as [out|].
    + left. exists out. reflexivity.
    + right. reflexivity.
  - rewrite prepareArgsWin_noenv. destruct (lacks ch_percent arguments); [|right; reflexivity].
    destruct (stripCarets (dropLeadingAt arguments)) as [out|].
    + left. exists out. reflexivity.
    + right. reflexivity.
Qed.




(** * The iterator at operators and at variable references *)

Section IteratorWalk.
Context `{QtServices}.

(** One call of [next] reads a word that is followed by a blank,
    whatever comes after the blank. *)
Lemma next_word_then (abortOnMeta : bool) (pre lead : QString) (w : Word) (b : QChar)
    (rest : QString) (it : ArgIterator) (fuel : nat) :
  forallb isBlank lead = true ->
  wordOk abortOnMeta w = true ->
  isBlank b = true ->
  m_str it = pre ++ lead ++ renderWord w ++ b :: rest ->
  m_pos it = qlength pre ->
  m_osType it = OsTypeLinux ->
  (List.length (lead ++ renderWord w) < fuel)%nat ->
  next fuel it
  = Some (true,
          {| m_str := m_str it; m_pos := qlength (pre ++ lead ++ renderWord w);
             m_prev := qlength pre; m_simple := true; m_value := wordValue w;
             m_osType := OsTypeLinux |}).
Proof.
  intros Hlead Hw Hb Hstr Hpos Hos Hfuel.
  unfold wordOk in Hw. apply andb_true_iff in Hw as [Hfirst Hps].
  rewrite length_app in Hfuel.
  unfold next. rewrite Hos, Hstr, Hpos. cbn [isWindows].
  rewrite nextUnix_loop_blanks by (try exact Hlead; lia).
  rewrite (app_assoc pre lead).
  destruct (nextUnix_loop_pieces abortOnMeta w (pre ++ lead) (b :: rest)
              (fuel - List.length lead) false [] Hps ltac:(lia)) as (fuel1 & Hf1 & E1).
  rewrite E1. cbn [app].
  assert (Hw' : match w with [] => false | _ => true end = true)
    by (destruct w; [discriminate | reflexivity]).
  rewrite Hw'. clear E1.
  destruct fuel1 as [|fuel1]; [lia|].
  rewrite (app_assoc _ (renderWord w)).
  rewrite nextUnix_loop_stop by exact Hb. rewrite <- !app_assoc. reflexivity.
Qed.

(** Calling [next] on complete words, each followed by blanks, with
    more text behind them: the words are yielded, and the walk goes on
    from the blanks after the last of them. *)
Lemma walkArgs_words_then (abortOnMeta : bool) (ws : list (Word * QString)) :
  forall lead pre tail it calls fuel,
  lineOk abortOnMeta lead ws = true ->
  forallb (fun e => negb (isEmpty (snd e))) ws = true ->
  m_str it = pre ++ renderLine lead ws ++ tail ->
  m_pos it = qlength pre ->
  m_osType it = OsTypeLinux ->
  (List.length (renderLine lead ws) < fuel)%nat ->
  exists it' pre' lead',
    m_str it' = m_str it /\ m_str it = pre' ++ lead' ++ tail
    /\ pre' ++ lead' = pre ++ renderLine lead ws
    /\ m_pos it' = qlength pre' /\ m_osType it' = OsTypeLinux
    /\ forallb isBlank lead' = true
    /\ walkArgs (List.length ws + calls) fuel it
       = match walkArgs calls fuel it' with
         | None => None
         | Some l => Some (map (fun v => (v, true)) (lineValues ws) ++ l)
         end.
Proof.
  induction ws as [|[w gap] more IH]; intros lead pre tail it calls fuel Hok Hgaps Hstr Hpos
    Hos Hfuel.
  - cbn [lineOk] in Hok. rewrite andb_true_r in Hok. cbn [renderLine] in *.
    exists it, pre, lead. repeat split; try assumption; try reflexivity.
    cbn [List.length Nat.add lineValues map app].
    destruct (walkArgs calls fuel it); reflexivity.
  - cbn [forallb snd] in Hgaps. apply andb_true_iff in Hgaps as [Hgap Hgaps].
    cbn [lineOk] in Hok. apply andb_true_iff in Hok as [Hlead Hok].
    apply andb_true_iff in Hok as [Hok Hmore]. apply andb_true_iff in Hok as [Hw _].
    destruct gap as [|b g]; [discriminate Hgap|].
    destruct (lineOk_gap abortOnMeta b g more Hmore) as [Hb _].
    cbn [renderLine] in *. rewrite renderLine_cons in Hstr, Hfuel.
    rewrite !length_app in Hfuel. cbn [List.length] in Hfuel.
    assert (Hstr1 : m_str it = pre ++ lead ++ renderWord w ++ b :: (renderLine g more ++ tail))
      by (rewrite Hstr, <- !app_assoc; reflexivity).
    pose proof (next_word_then abortOnMeta pre lead w b (renderLine g more ++ tail) it fuel
                  Hlead Hw Hb Hstr1 Hpos Hos ltac:(rewrite length_app; lia)) as Hnext.
    set (it1 := {| m_str := m_str it; m_pos := qlength (pre ++ lead ++ renderWord w);
                   m_prev := qlength pre; m_simple := true; m_value := wordValue w;
                   m_osType := OsTypeLinux |}) in *.
    destruct (IH (b :: g) (pre ++ lead ++ renderWord w) tail it1 calls fuel Hmore Hgaps)
      as (it' & pre' & lead' & H1 & H2 & H3 & H4 & H5 & H6 & E).
    + cbn [it1 m_str]. rewrite Hstr, renderLine_cons, <- !app_assoc. reflexivity.
    + reflexivity.
    + reflexivity.
    + rewrite renderLine_cons. cbn [List.length]. lia.
    + exists it', pre', lead'. repeat split; try assumption.
      * rewrite H3, renderLine_cons, <- !app_assoc. reflexivity.
      * cbn [List.length Nat.add walkArgs]. rewrite Hnext, E.
        cbn [lineValues map fst app]. fold (lineValues more).
        destruct (walkArgs calls fuel it'); reflexivity.
Qed.


(** A character that stands for itself, read after the argument was
    found not to be simple. *)
Lemma nextUnix_loop_plain_run (name : QString) : forall pre rest fuel hadWord value,
  forallb (wordChar false) name = true ->
  nextUnix_loop (List.length name + fuel) (pre ++ name ++ rest) (qlength pre) mxInitial [] []
    hadWord false value
  = nextUnix_loop fuel (pre ++ name ++ rest) (qlength (pre ++ name)) mxInitial [] []
      (match name with [] => hadWord | _ => true end) false (value ++ name).
Proof.
  induction name as [|c name IH]; intros pre rest fuel hadWord value Hn.
  - cbn [List.length Nat.add app]. rewrite !app_nil_r. reflexivity.
  - cbn [forallb] in Hn. apply andb_true_iff in Hn as [Hc Hn].
    destruct (wordChar_tests false c Hc) as (Hs & Hx & _).
    destruct (isSpace_not_blank c Hs) as [Hsp Htab].
    cbn [List.length Nat.add app]. cbn [nextUnix_loop].
    rewrite inside_prefix, unicodeAt_prefix.
    rewrite (Hx ch_squote), (Hx ch_dquote), (Hx ch_dollar), (Hx ch_bslash), (Hx ch_btick),
      (Hx ch_lparen), (Hx ch_rparen), (Hx 60), (Hx 62), (Hx 38), (Hx 124), (Hx 59), Hsp, Htab
      by (cbn [In]; tauto).
    cbn [MxQuoting_eqb current mxInitial orb]. cbv iota.
    replace (pre ++ c :: name ++ rest) with ((pre ++ [c]) ++ name ++ rest)
      by (rewrite <- app_assoc; reflexivity).
    rewrite <- qlength_snoc with (c := c).
    rewrite IH by exact Hn. rewrite <- !app_assoc. cbn [app].
    destruct name; reflexivity.
Qed.

(** The inside of a substitution in braces is stepped over. *)
Lemma nextUnix_loop_subst_run (text : QString) : forall pre rest fuel value,
  forallb (fun x => negb (existsb (Z.eqb x)
                            [ch_bslash; ch_dollar; ch_btick; ch_squote; ch_dquote; ch_rbrace]))
    text = true ->
  nextUnix_loop (List.length text + fuel) (pre ++ text ++ rest) (qlength pre)
    {| current := MxSubst; dquote := false |} [mxInitial] [] true false value
  = nextUnix_loop fuel (pre ++ text ++ rest) (qlength (pre ++ text))
      {| current := MxSubst; dquote := false |} [mxInitial] [] true false value.
Proof.
  induction text as [|c text IH]; intros pre rest fuel value Ht.
  - cbn [List.length Nat.add app]. rewrite !app_nil_r. reflexivity.
  - cbn [forallb] in Ht. apply andb_true_iff in Ht as [Hc Ht].
    apply negb_true_iff in Hc. pose proof (existsb_eqb_false c _ Hc) as Hx.
    cbn [List.length Nat.add app]. cbn [nextUnix_loop].
    rewrite inside_prefix, unicodeAt_prefix.
    rewrite (Hx ch_squote), (Hx ch_dquote), (Hx ch_dollar), (Hx ch_bslash), (Hx ch_btick),
      (Hx ch_rbrace) by (cbn [In]; tauto).
    cbn [MxQuoting_eqb current dquote negb]. cbv iota.
    replace (pre ++ c :: text ++ rest) with ((pre ++ [c]) ++ text ++ rest)
      by (rewrite <- app_assoc; reflexivity).
    rewrite <- qlength_snoc with (c := c).
    rewrite IH by exact Ht. rewrite <- !app_assoc. reflexivity.
Qed.

End IteratorWalk.

Section IteratorRefs.
Context `{QtServices}.

(** The dollar sign with the character after it: the argument is not
    simple from here on; a brace opens a substitution. *)
Lemma nextUnix_loop_dollar (pre : QString) (c : QChar) (rest : QString) (fuel : nat)
    (hadWord : bool) (value : QString) :
  (c =? ch_lparen) = false ->
  nextUnix_loop (S fuel) (pre ++ ch_dollar :: c :: rest) (qlength pre) mxInitial [] []
    hadWord true value
  = nextUnix_loop fuel (pre ++ ch_dollar :: c :: rest) (qlength pre + 1 + 1)
      (if c =? ch_lbrace then {| current := MxSubst; dquote := false |} else mxInitial)
      (if c =? ch_lbrace then [mxInitial] else []) [] true false value.
Proof.
  intros Hc. destruct (inside_prefix_next pre ch_dollar c rest) as [Hin Hat].
  cbn [nextUnix_loop]. rewrite inside_prefix, unicodeAt_prefix.
  change (ch_dollar =? ch_bslash) with false. change (ch_dollar =? ch_dollar) with true.
  cbn [MxQuoting_eqb current mxInitial dquote]. cbv iota. rewrite Hin, Hat, Hc.
  destruct (c =? ch_lbrace); reflexivity.
Qed.

(** The brace that closes a substitution. *)
Lemma nextUnix_loop_subst_close (pre rest : QString) (fuel : nat) (value : QString) :
  nextUnix_loop (S fuel) (pre ++ ch_rbrace :: rest) (qlength pre)
    {| current := MxSubst; dquote := false |} [mxInitial] [] true false value
  = nextUnix_loop fuel (pre ++ ch_rbrace :: rest) (qlength pre + 1) mxInitial [] [] true false
      value.
Proof. cbn [nextUnix_loop]. rewrite inside_prefix, unicodeAt_prefix. reflexivity. Qed.

(** The end of an argument that is not simple: its value is dropped. *)
Lemma nextUnix_loop_leave (abortOnMeta : bool) (pre gap : QString)
    (more : list (Word * QString)) (fuel : nat) (value : QString) :
  lineOk abortOnMeta gap more = true ->
  match more with [] => true | _ => negb (isEmpty gap) end = true ->
  nextUnix_loop (S fuel) (pre ++ renderLine gap more) (qlength pre) mxInitial [] [] true false
    value
  = Some (qlength pre, true, false, []).
Proof.
  intros Hok Hgap. destruct gap as [|b g].
  - destruct more as [|e more']; [|discriminate]. cbn [renderLine]. rewrite app_nil_r.
    cbn [nextUnix_loop]. rewrite Z.ltb_irrefl. reflexivity.
  - rewrite renderLine_cons. destruct (lineOk_gap abortOnMeta b g more Hok) as [Hb _].
    cbn [nextUnix_loop]. rewrite inside_prefix, unicodeAt_prefix.
    unfold isBlank in Hb. apply orb_true_iff in Hb as [Hb | Hb];
      apply Z.eqb_eq in Hb; subst b; reflexivity.
Qed.

End IteratorRefs.


(** X24: a word that holds a reference to a variable, a dollar sign
    followed by a name or by a substitution in braces, is yielded as one
    argument that is not simple and has no value; the words before and
    after it are yielded with their values. *)
Theorem walkArgs_variable_not_simple `{QtServices} (abortOnMeta : bool) (lead : QString)
    (ws : list (Word * QString)) (ps : Word) (ref gap : QString)
    (more : list (Word * QString)) (calls fuel : nat) :
  lineOk abortOnMeta lead ws = true ->
  forallb (fun e => negb (isEmpty (snd e))) ws = true ->
  forallb (pieceOk abortOnMeta) ps = true ->
  (exists c name, ref = c :: name /\ (c =? ch_lbrace) = false
                  /\ forallb (wordChar false) (c :: name) = true)
  \/ (exists text,
        ref = ch_lbrace :: text ++ [ch_rbrace]
        /\ forallb (fun x => negb (existsb (Z.eqb x)
                                     [ch_bslash; ch_dollar; ch_btick; ch_squote; ch_dquote;
                                      ch_rbrace])) text = true) ->
  lineOk abortOnMeta gap more = true ->
  match more with [] => true | _ => negb (isEmpty gap) end = true ->
  (List.length ws + List.length more + 1 < calls)%nat ->
  (List.length (renderLine lead ws ++ renderWord ps ++ ch_dollar :: ref ++ renderLine gap more)
   < fuel)%nat ->
  walkArgs calls fuel
    (argIterator (renderLine lead ws ++ renderWord ps ++ ch_dollar :: ref ++ renderLine gap more)
       OsTypeLinux)
  = Some (map (fun v => (v, true)) (lineValues ws)
          ++ ([], false) :: map (fun v => (v, true)) (lineValues more)).
Proof.
  intros Hok Hgaps Hps Href Hmore Hgap Hcalls Hfuel.
  rewrite !length_app in Hfuel. cbn [List.length] in Hfuel. rewrite length_app in Hfuel.
  set (k := (calls - (List.length ws + 1))%nat).
  assert (Hc : calls = (List.length ws + S k)%nat) by (unfold k; lia).
  assert (Hk : (List.length more < k)%nat) by (unfold k; lia).
  clearbody k. subst calls.
  set (tail := renderWord ps ++ ch_dollar :: ref ++ renderLine gap more) in *.
  destruct (walkArgs_words_then abortOnMeta ws lead [] tail
              (argIterator (renderLine lead ws ++ tail) OsTypeLinux)
              (S k) fuel Hok Hgaps eq_refl eq_refl eq_refl ltac:(lia))
    as (it' & pre' & lead' & H1 & H2 & H3 & H4 & H5 & H6 & E).
  rewrite E. clear E. cbn [app] in H3.
  assert (Hlen : (List.length lead' <= List.length (renderLine lead ws))%nat)
    by (rewrite <- H3, length_app; lia).
  rewrite <- H1 in H2.
  set (pre2 := ((pre' ++ lead') ++ renderWord ps) ++ ch_dollar :: ref).
  assert (Hstr2 : m_str it' = pre2 ++ renderLine gap more).
  { rewrite H2. unfold pre2, tail. rewrite <- !app_assoc. reflexivity. }
  assert (Hnext : next fuel it'
    = Some (true,
            {| m_str := m_str it'; m_pos := qlength pre2; m_prev := m_pos it';
               m_simple := false; m_value := []; m_osType := OsTypeLinux |})).
  { unfold next. rewrite H5, H2, H4. cbn [isWindows]. unfold tail.
    rewrite nextUnix_loop_blanks by (try exact H6; lia).
    rewrite (app_assoc pre' lead').
    destruct (nextUnix_loop_pieces abortOnMeta ps (pre' ++ lead')
                (ch_dollar :: ref ++ renderLine gap more)
                (fuel - List.length lead') false [] Hps ltac:(lia)) as (fuel1 & Hf1 & E1).
    rewrite E1. clear E1. cbn [app].
    rewrite (app_assoc _ (renderWord ps)).
    set (pre1 := (pre' ++ lead') ++ renderWord ps) in *.
    set (hw := match ps with [] => false | _ :: _ => true end).
    destruct Href as [(c & name & -> & Hb & Hname) | (text & -> & Htext)].
    - cbn [forallb] in Hname. apply andb_true_iff in Hname as [Hc Hname].
      destruct (wordChar_tests false c Hc) as (_ & Hx & _).
      cbn [List.length] in Hfuel.
      set (f0 := (fuel1 - S (S (List.length name)))%nat).
      assert (Hfe : fuel1 = S (List.length name + S f0)) by (unfold f0; lia).
      clearbody f0. subst fuel1. cbn [app].
      rewrite nextUnix_loop_dollar by (apply Hx; cbn [In]; tauto). rewrite Hb.
      replace (pre1 ++ ch_dollar :: c :: name ++ renderLine gap more)
        with ((pre1 ++ [ch_dollar; c]) ++ name ++ renderLine gap more)
        by (rewrite <- app_assoc; reflexivity).
      replace (qlength pre1 + 1 + 1) with (qlength (pre1 ++ [ch_dollar; c]))
        by (rewrite qlength_app, !qlength_cons, qlength_nil; lia).
      rewrite nextUnix_loop_plain_run by exact Hname.
      replace (match name with [] => true | _ :: _ => true end) with true
        by (destruct name; reflexivity).
      rewrite (app_assoc _ name).
      rewrite (nextUnix_loop_leave abortOnMeta) by assumption.
      do 4 f_equal. unfold pre2. rewrite <- !app_assoc. reflexivity.
    - cbn [List.length] in Hfuel. rewrite length_app in Hfuel. cbn [List.length] in Hfuel.
      set (f0 := (fuel1 - S (List.length text + 2))%nat).
      assert (Hfe : fuel1 = S (List.length text + S (S f0))) by (unfold f0; lia).
      clearbody f0. subst fuel1. cbn [app]. rewrite <- app_assoc. cbn [app].
      rewrite nextUnix_loop_dollar by reflexivity.
      change (ch_lbrace =? ch_lbrace) with true. cbv iota.
      replace (pre1 ++ ch_dollar :: ch_lbrace :: text ++ ch_rbrace :: renderLine gap more)
        with ((pre1 ++ [ch_dollar; ch_lbrace]) ++ text ++ ch_rbrace :: renderLine gap more)
        by (rewrite <- app_assoc; reflexivity).
      replace (qlength pre1 + 1 + 1) with (qlength (pre1 ++ [ch_dollar; ch_lbrace]))
        by (rewrite qlength_app, !qlength_cons, qlength_nil; lia).
      rewrite nextUnix_loop_subst_run by exact Htext.
      rewrite (app_assoc _ text).
      rewrite nextUnix_loop_subst_close.
      rewrite <- qlength_snoc with (c := ch_rbrace).
      replace (((pre1 ++ [ch_dollar; ch_lbrace]) ++ text) ++ ch_rbrace :: renderLine gap more)
        with ((((pre1 ++ [ch_dollar; ch_lbrace]) ++ text) ++ [ch_rbrace])
              ++ renderLine gap more)
        by (rewrite <- !app_assoc; reflexivity).
      rewrite (nextUnix_loop_leave abortOnMeta) by assumption.
      do 4 f_equal. unfold pre2. rewrite <- !app_assoc. reflexivity. }
  cbn [walkArgs]. rewrite Hnext. cbn [m_value m_simple].
  rewrite (walkArgs_line abortOnMeta more gap pre2
             {| m_str := m_str it'; m_pos := qlength pre2; m_prev := m_pos it';
                m_simple := false; m_value := []; m_osType := OsTypeLinux |}
             k fuel Hmore Hstr2 eq_refl eq_refl Hk ltac:(lia)).
  reflexivity.
Qed.


(** * Every input is split *)

Lemma skipSpaces_shorter `{QtServices} (rest : QString) (c : QChar) (r : QString) :
  skipSpaces rest = Some (c, r) -> (List.length r < List.length rest)%nat.
Proof.
  revert c r. induction rest as [|x rest IH]; intros c r E; [discriminate|].
  cbn [skipSpaces] in E. destruct (isSpace x).
  - specialize (IH c r E). cbn [List.length]. lia.
  - injection E as _ <-. cbn [List.length]. lia.
Qed.

Lemma scanSingleQuoted_shorter (rest text r : QString) :
  scanSingleQuoted rest = Some (text, r) -> (List.length r < List.length rest)%nat.
Proof.
  revert text r. induction rest as [|x rest IH]; intros text r E; [discriminate|].
  cbn [scanSingleQuoted] in E. destruct (x =? ch_squote).
  - injection E as _ <-. cbn [List.length]. lia.
  - destruct (scanSingleQuoted rest) as [[t r']|]; [|discriminate].
    injection E as _ <-. specialize (IH t r' eq_refl). cbn [List.length]. lia.
Qed.

Lemma scanVarQuoted_shorter `{QtServices} (rest : QString) : forall c var v c' r',
  scanVarQuoted c rest var = Some (v, c', r') -> (List.length r' <= List.length rest)%nat.
Proof.
  induction rest as [|x rest IH]; intros c var v c' r' E.
  - cbn [scanVarQuoted] in E. destruct (isVarChar c); [discriminate|].
    injection E as _ _ <-. lia.
  - cbn [scanVarQuoted] in E. destruct (isVarChar c).
    + specialize (IH _ _ _ _ _ E). cbn [List.length]. lia.
    + injection E as _ _ <-. lia.
Qed.

Lemma scanVarBare_shorter `{QtServices} (braced : bool) (rest : QString) : forall c var v c' r',
  scanVarBare braced c rest var = Some (v, c', r') ->
  (List.length r' <= List.length rest)%nat.
Proof.
  induction rest as [|x rest IH]; intros c var v c' r' E.
  - cbn [scanVarBare] in E. destruct (isVarChar c).
    + destruct braced; [discriminate|]. injection E as _ _ <-. lia.
    + injection E as _ _ <-. lia.
  - cbn [scanVarBare] in E. destruct (isVarChar c).
    + specialize (IH _ _ _ _ _ E). cbn [List.length]. lia.
    + injection E as _ _ <-. lia.
Qed.

Section UnixLexerTotal.
Context `{QtServices}.
Variable abortOnMeta : bool.
Variable env : option Environment.
Variable pwd : option QString.

Local Abbreviation lexDone := (lexDone abortOnMeta).

Lemma lookupVar_done (e : Environment) (var : QString) :
  lexDone (lookupVar abortOnMeta e pwd var).
Proof.
  unfold lookupVar. destruct (qstring_eqb var (QLatin1String "PWD") && pwdGiven pwd); [exact I|].
  destruct (constFind e var); [exact I|]. destruct abortOnMeta eqn:Ea; cbn; auto.
Qed.

Lemma metaOrQuote_done {A} : lexDone (if abortOnMeta then @MetaErr A else QuoteErr).
Proof. destruct abortOnMeta eqn:Ea; cbn; auto. Qed.

Lemma metaOr_done {A} (y : Lex A) :
  lexDone y -> lexDone (if abortOnMeta then MetaErr else y).
Proof. destruct abortOnMeta eqn:Ea; cbn; auto. Qed.

Lemma splitUnix_nextq_done (fuel : nat) : forall c rest cret,
  (List.length rest < fuel)%nat ->
  match splitUnix_nextq abortOnMeta env pwd fuel c rest cret with
  | Got (_, r') => (List.length r' <= List.length rest)%nat
  | x => lexDone x
  end.
Proof.
  induction fuel as [|fuel IH]; intros c rest cret Hfuel; [lia|].
  assert (Htop : forall r cret0, (List.length r <= List.length rest)%nat ->
            match (match r with
                   | [] => QuoteErr
                   | c0 :: r0 => splitUnix_nextq abortOnMeta env pwd fuel c0 r0 cret0
                   end) with
            | Got (_, r') => (List.length r' <= List.length rest)%nat
            | x => lexDone x
            end).
  { intros r cret0 Hr. destruct r as [|c0 r0]; [exact I|].
    cbn [List.length] in Hr. specialize (IH c0 r0 cret0 ltac:(lia)).
    destruct (splitUnix_nextq abortOnMeta env pwd fuel c0 r0 cret0) as [[? r']| | |];
      try exact IH. lia. }
  cbn [splitUnix_nextq]. destruct (c =? ch_dquote); [lia|].
  destruct (c =? ch_bslash).
  { destruct rest as [|c1 r1]; [exact I|]. apply Htop. cbn [List.length]. lia. }
  destruct (if c =? ch_dollar then env else None) as [e|].
  - destruct rest as [|c1 r1]; [exact I|]. cbn [List.length] in *.
    assert (Hscan : forall braced c2 r2, (List.length r2 <= List.length r1)%nat ->
      match (match scanVarQuoted c2 r2 [] with
             | None => QuoteErr
             | Some (var, c3, r3) =>
                 ' val <- lookupVar abortOnMeta e pwd var ;;
                 let cret := match val with Some v => cret ++ v | None => cret end in
                 if negb braced then splitUnix_nextq abortOnMeta env pwd fuel c3 r3 cret
                 else if negb (c3 =? ch_rbrace) then
                   (if abortOnMeta then MetaErr else QuoteErr)
                 else match r3 with
                      | [] => QuoteErr
                      | c0 :: r0 => splitUnix_nextq abortOnMeta env pwd fuel c0 r0 cret
                      end
             end) with
      | Got (_, r') => (List.length r' <= S (List.length r1))%nat
      | x => lexDone x
      end).
    { intros braced c2 r2 Hr2.
      destruct (scanVarQuoted c2 r2 []) as [[[var c3] r3]|] eqn:Escan; [|exact I].
      pose proof (scanVarQuoted_shorter _ _ _ _ _ _ Escan) as Hr3.
      pose proof (lookupVar_done e var) as Hl.
      destruct (lookupVar abortOnMeta e pwd var) as [val| | |]; cbn [lexBind];
        try exact Hl; try exact I.
      destruct braced; cbn [negb].
      - destruct (c3 =? ch_rbrace); cbn [negb].
        + pose proof (Htop r3 (match val with Some v => cret ++ v | None => cret end)
                        ltac:(cbn [List.length]; lia)) as Ht.
          cbn [List.length] in Ht. exact Ht.
        + pose proof (@metaOrQuote_done (QString * QString)) as Hm.
          destruct abortOnMeta; exact Hm.
      - specialize (IH c3 r3 (match val with Some v => cret ++ v | None => cret end)
                      ltac:(lia)).
        destruct (splitUnix_nextq abortOnMeta env pwd fuel c3 r3 _) as [[? r']| | |];
          try exact IH. lia. }
    destruct (c1 =? ch_lbrace).
    + destruct r1 as [|c' r']; [exact I|]. cbn [lexBind].
      apply (Hscan true c' r'). cbn [List.length]. lia.
    + cbn [lexBind]. apply (Hscan false c1 r1). lia.
  - destruct (abortOnMeta && ((c =? ch_dollar) || (c =? ch_btick))) eqn:Em.
    + apply andb_true_iff in Em as [Ea _]. exact Ea.
    + apply Htop. lia.
Qed.

Section Continuation.
Variable k : QChar -> QString -> QString -> bool -> QStringList -> Lex QStringList.
Variable n : nat.
Hypothesis k_done : forall c r cret hadWord ret,
  (List.length r < n)%nat -> lexDone (k c r cret hadWord ret).

Lemma splitUnix_getc_done (rest cret : QString) (hadWord : bool) (ret : QStringList) :
  (List.length rest <= n)%nat -> lexDone (splitUnix_getc k rest cret hadWord ret).
Proof.
  intros Hn. destruct rest as [|c r]; [exact I|]. apply k_done. cbn [List.length] in Hn. lia.
Qed.

Lemma splitUnix_body_done (c : QChar) (rest cret : QString) (hadWord : bool)
    (ret : QStringList) :
  (List.length rest <= n)%nat ->
  lexDone (splitUnix_body abortOnMeta env pwd k c rest cret hadWord ret).
Proof.
  intros Hn. unfold splitUnix_body. destruct (c =? ch_squote).
  { destruct (scanSingleQuoted rest) as [[text r]|] eqn:Es; [|exact I].
    pose proof (scanSingleQuoted_shorter _ _ _ Es). apply splitUnix_getc_done. lia. }
  destruct (c =? ch_dquote).
  { destruct rest as [|c1 r1]; [exact I|]. cbn [List.length] in Hn.
    pose proof (splitUnix_nextq_done (S (List.length r1)) c1 r1 cret ltac:(lia)) as Hq.
    destruct (splitUnix_nextq abortOnMeta env pwd (S (List.length r1)) c1 r1 cret)
      as [[cret' r']| | |]; cbn [lexBind]; try exact Hq.
    apply splitUnix_getc_done. lia. }
  destruct (if c =? ch_dollar then env else None) as [e|].
  - destruct rest as [|c1 r1]; [exact I|]. cbn [List.length] in Hn.
    assert (Hscan : forall braced c2 r2, (List.length r2 <= List.length r1)%nat ->
      lexDone
        (match scanVarBare braced c2 r2 [] with
         | None => QuoteErr
         | Some (var, c3, r3) =>
             ' val <- lookupVar abortOnMeta e pwd var ;;
             let val := match val with Some v => v | None => [] end in
             let '(ret, cret, hadWord) := splitValue val ret cret hadWord in
             if negb braced then k c3 r3 cret hadWord ret
             else if negb (c3 =? ch_rbrace) then
               (if abortOnMeta then MetaErr else QuoteErr)
             else splitUnix_getc k r3 cret hadWord ret
         end)).
    { intros braced c2 r2 Hr2.
      destruct (scanVarBare braced c2 r2 []) as [[[var c3] r3]|] eqn:Escan; [|exact I].
      pose proof (scanVarBare_shorter _ _ _ _ _ _ _ Escan) as Hr3.
      pose proof (lookupVar_done e var) as Hl.
      destruct (lookupVar abortOnMeta e pwd var) as [val| | |]; cbn [lexBind];
        try exact Hl; try exact I.
      cbv zeta.
      destruct (splitValue (match val with Some v => v | None => [] end) ret cret hadWord)
        as [[ret' cret'] hadWord'].
      destruct braced; cbn [negb].
      - destruct (c3 =? ch_rbrace); cbn [negb].
        + apply splitUnix_getc_done. lia.
        + apply metaOrQuote_done.
      - apply k_done. lia. }
    destruct (c1 =? ch_lbrace).
    + destruct r1 as [|c' r']; [exact I|]. cbn [lexBind].
      apply (Hscan true c' r'). cbn [List.length]. lia.
    + cbn [lexBind]. apply (Hscan false c1 r1). lia.
  - destruct (c =? ch_bslash).
    { destruct rest as [|c1 r1]; [exact I|]. apply splitUnix_getc_done.
      cbn [List.length] in Hn. lia. }
    destruct (abortOnMeta && isMetaUnix c) eqn:Em.
    + apply andb_true_iff in Em as [Ea _]. exact Ea.
    + apply splitUnix_getc_done. exact Hn.
Qed.

Lemma splitUnix_word_done (rest : QString) (ret : QStringList) :
  (List.length rest <= n)%nat ->
  lexDone (splitUnix_word abortOnMeta env pwd k rest ret).
Proof.
  intros Hn. unfold splitUnix_word.
  destruct (skipSpaces rest) as [[c r]|] eqn:Es; [|exact I].
  pose proof (skipSpaces_shorter _ _ _ Es) as Hr.
  destruct (c =? ch_tilde).
  - destruct (match r with [] => true | d :: _ => isSpace d || (d =? ch_slash) end).
    + apply splitUnix_getc_done. lia.
    + apply metaOr_done. apply splitUnix_body_done. lia.
  - apply splitUnix_body_done. lia.
Qed.

End Continuation.

Lemma splitUnix_nextc_done (fuel : nat) : forall c rest cret hadWord ret,
  (List.length rest < fuel)%nat ->
  lexDone (splitUnix_nextc abortOnMeta env pwd fuel c rest cret hadWord ret).
Proof.
  induction fuel as [|fuel IH]; intros c rest cret hadWord ret Hfuel; [lia|].
  cbn [splitUnix_nextc]. destruct (isSpace c).
  - apply (splitUnix_word_done _ fuel); [exact IH | lia].
  - apply (splitUnix_body_done _ fuel); [exact IH | lia].
Qed.

Lemma splitArgsUnix_done (args : QString) :
  exists ret e,
    splitArgsUnix abortOnMeta env pwd args = Some (ret, e)
    /\ (e = FoundMeta -> abortOnMeta = true)
    /\ (e <> SplitOk -> ret = []).
Proof.
  unfold splitArgsUnix.
  pose proof (splitUnix_word_done (splitUnix_nextc abortOnMeta env pwd
                                     (S (S (List.length args))))
                (S (List.length args))
                (fun c r cret hadWord ret Hr =>
                   splitUnix_nextc_done (S (S (List.length args))) c r cret hadWord ret
                     (Nat.lt_lt_succ_r _ _ Hr))
                args [] ltac:(lia)) as Hd.
  destruct (splitUnix_word abortOnMeta env pwd _ args []) as [ret| | |].
  - exists ret, SplitOk. repeat split; [discriminate | congruence].
  - exists [], BadQuoting. repeat split. discriminate.
  - exists [], FoundMeta. repeat split. intros _. exact Hd.
  - destruct Hd.
Qed.

End UnixLexerTotal.

(** X25: splitArgs has a result on every input, under either grammar,
    with abortOnMeta and without.  Without abortOnMeta it never stores
    FoundMeta: it stores SplitOk, or it stores BadQuoting and returns
    the empty list.  With abortOnMeta it returns the empty list
    whenever it stores an error, under the Unix grammar and under the
    Windows grammar. *)
Theorem splitArgs_never_FoundMeta_without_abortOnMeta `{QtServices} (args : QString)
    (osType : OsType) (e0 : SplitError) (env : option Environment) (pwd : option QString) :
  (exists ret e,
     splitArgs args osType false (Some e0) env pwd = Some (ret, Some e)
     /\ e <> FoundMeta /\ (e = BadQuoting -> ret = []))
  /\ (exists ret e,
        splitArgs args OsTypeLinux true (Some e0) env pwd = Some (ret, Some e)
        /\ (e <> SplitOk -> ret = []))
  /\ (exists ret e,
        splitArgs args OsTypeWindows true (Some e0) env pwd = Some (ret, Some e)
        /\ (e <> SplitOk -> ret = [])).
Proof.
  split; [|split].
  - unfold splitArgs. destruct (isWindows osType).
    + unfold splitArgsWin.
      assert (Hexp : exists expanded,
                match env with
                | Some e => envExpandWin args e pwd
                | None => Some args
                end = Some expanded).
      { destruct env as [e|]; [|exists args; reflexivity].
        rewrite envExpandWin_scan. eexists. reflexivity. }
      destruct Hexp as [expanded ->].
      destruct (doSplitArgsWin_outcome expanded) as [words ->].
      destruct (crtQuoteOpen expanded false 0).
      * exists [], BadQuoting. repeat split. discriminate.
      * exists words, SplitOk. repeat split; discriminate.
    + destruct (splitArgsUnix_done false env pwd args) as (ret & e & -> & Hm & Hr).
      exists ret, e. repeat split.
      * intros ->. specialize (Hm eq_refl). discriminate.
      * intros ->. apply Hr. discriminate.
  - unfold splitArgs. cbn [isWindows].
    destruct (splitArgsUnix_done true env pwd args) as (ret & e & -> & _ & Hr).
    exists ret, e. split; [reflexivity | exact Hr].
  - unfold splitArgs, splitArgsWin. cbn [isWindows].
    assert (Hprep : exists perr prepared, prepareArgsWin args env pwd = Some (perr, prepared)).
    { destruct (prepareArgsWin_total args env pwd) as [[out E] | E]; rewrite E; eauto. }
    destruct Hprep as (perr & prepared & ->).
    destruct (negb (SplitError_eqb e0 SplitOk)) eqn:Ee.
    + exists [], e0. split; [reflexivity|]. reflexivity.
    + destruct (doSplitArgsWin_outcome prepared) as [words ->].
      destruct (crtQuoteOpen prepared false 0).
      * exists [], BadQuoting. split; reflexivity.
      * exists words, SplitOk. split; [reflexivity|]. intros Hne. destruct (Hne eq_refl).
Qed.


(** * The raw data of a channel *)

Section ChannelRaw.
Context `{TextCodec}.

Lemma append_raw (b : ChannelBuffer) (text : QByteArray) (emitSignals : bool) :
  rawData (snd (append b text emitSignals)) = rawData b ++ text
  /\ hasOutputCallback (snd (append b text emitSignals)) = hasOutputCallback b
  /\ (hasOutputCallback b = true -> emitSignals = true ->
      rawDataPos b = qlength (rawData b) ->
      rawDataPos (snd (append b text emitSignals))
      = qlength (rawData (snd (append b text emitSignals))))
  /\ (hasOutputCallback b && emitSignals = false ->
      fst (append b text emitSignals) = None
      /\ rawDataPos (snd (append b text emitSignals)) = rawDataPos b
      /\ incompleteLineBuffer (snd (append b text emitSignals)) = incompleteLineBuffer b
      /\ codecState (snd (append b text emitSignals)) = codecState b).
Proof.
  unfold append. destruct text as [|x text].
  - cbn [isEmpty snd fst]. rewrite app_nil_r. repeat split; auto.
  - cbn [isEmpty]. destruct emitSignals; cbn [negb].
    + cbn [hasOutputCallback]. destruct (hasOutputCallback b) eqn:Hcb.
      * unfold linesRead. cbn [rawData rawDataPos codecState incompleteLineBuffer
                                 hasOutputCallback].
        destruct (toUnicodeFrom _ _) as [decoded st].
        destruct (takeLines _) as [lines tail]. cbn [snd fst rawData rawDataPos
                                                      hasOutputCallback].
        repeat split; auto; try easy.
      * cbn [snd fst rawData rawDataPos hasOutputCallback incompleteLineBuffer codecState].
        repeat split; auto; try easy.
    + cbn [snd fst rawData rawDataPos hasOutputCallback incompleteLineBuffer codecState].
      repeat split; auto; try easy.
Qed.

Lemma appendReads_raw (reads : list (QByteArray * bool)) : forall b : ChannelBuffer,
  rawData (snd (appendReads b reads)) = rawData b ++ List.concat (map fst reads)
  /\ (hasOutputCallback b = true -> forallb snd reads = true ->
      rawDataPos b = qlength (rawData b) ->
      rawDataPos (snd (appendReads b reads)) = qlength (rawData (snd (appendReads b reads))))
  /\ (hasOutputCallback b = false \/ forallb (fun r => negb (snd r)) reads = true ->
      fst (appendReads b reads) = []
      /\ rawDataPos (snd (appendReads b reads)) = rawDataPos b
      /\ incompleteLineBuffer (snd (appendReads b reads)) = incompleteLineBuffer b).
Proof.
  induction reads as [|[text emitSignals] more IH]; intros b.
  - cbn [appendReads snd fst List.concat map]. rewrite app_nil_r. repeat split; auto.
  - cbn [appendReads List.concat map fst forallb snd].
    destruct (append_raw b text emitSignals) as (Hr & Hc & Hp & Hn).
    destruct (append b text emitSignals) as [out b1]. cbn [snd fst] in Hr, Hc, Hp, Hn.
    destruct (IH b1) as (IHr & IHp & IHn).
    destruct (appendReads b1 more) as [outs b2]. cbn [snd fst] in *.
    split; [rewrite IHr, Hr, <- app_assoc; reflexivity|]. split.
    + intros Hcb Hall Hpos. apply andb_true_iff in Hall as [He Hall].
      apply IHp; [rewrite Hc; exact Hcb | exact Hall | apply Hp; auto].
    + intros Hquiet.
      assert (Hoff : hasOutputCallback b && emitSignals = false).
      { destruct Hquiet as [Hcb | Hall]; [rewrite Hcb; reflexivity|].
        apply andb_true_iff in Hall as [He _]. apply negb_true_iff in He.
        rewrite He. apply andb_false_r. }
      destruct (Hn Hoff) as (Ho & Hq & Hi & _).
      assert (Hquiet1 : hasOutputCallback b1 = false
                        \/ forallb (fun r => negb (snd r)) more = true).
      { destruct Hquiet as [Hcb | Hall]; [left; rewrite Hc; exact Hcb|].
        right. apply andb_true_iff in Hall. tauto. }
      destruct (IHn Hquiet1) as (Io & Iq & Ii).
      subst out outs. rewrite Iq, Ii, Hq, Hi. repeat split.
Qed.

Lemma appendAll_appendReads (texts : list QByteArray) : forall b : ChannelBuffer,
  appendAll b texts = appendReads b (map (fun text => (text, true)) texts).
Proof.
  induction texts as [|text more IH]; intros b; [reflexivity|].
  cbn [appendAll appendReads map]. destruct (append b text true) as [out b1].
  rewrite IH. reflexivity.
Qed.

End ChannelRaw.

(** X26: a channel buffer keeps every byte it is given: after
    clearForRun and any sequence of reads passed to append, each with
    emitSignals or without, rawData is the reads put together in their
    order, so stdOut of it is the normalized decoding of the whole
    output.  When a callback is set and every read is passed with
    emitSignals, every byte has been decoded after each read
    (rawDataPos is the size of rawData).  Without a callback, or when
    no read is passed with emitSignals, nothing is decoded and nothing
    is handed over.  A read passed without emitSignals, as the last
    reads of a run are, only adds its bytes: rawDataPos, the incomplete
    line and the state of the decoder stay.  appendAll passes every
    read with emitSignals. *)
Theorem append_keeps_every_byte `{TextCodec} (b : ChannelBuffer)
    (reads : list (QByteArray * bool)) :
  rawData (snd (appendReads (clearForRun b) reads)) = List.concat (map fst reads)
  /\ stdOut (rawData (snd (appendReads (clearForRun b) reads)))
     = normalizeNewlines (toUnicode (List.concat (map fst reads)))
  /\ (hasOutputCallback b = true -> forallb snd reads = true ->
      rawDataPos (snd (appendReads (clearForRun b) reads))
      = qlength (List.concat (map fst reads)))
  /\ (hasOutputCallback b = false \/ forallb (fun r => negb (snd r)) reads = true ->
      fst (appendReads (clearForRun b) reads) = []
      /\ rawDataPos (snd (appendReads (clearForRun b) reads)) = 0
      /\ incompleteLineBuffer (snd (appendReads (clearForRun b) reads)) = [])
  /\ (forall (b0 : ChannelBuffer) (text : QByteArray),
        fst (append b0 text false) = None
        /\ rawData (snd (append b0 text false)) = rawData b0 ++ text
        /\ rawDataPos (snd (append b0 text false)) = rawDataPos b0
        /\ incompleteLineBuffer (snd (append b0 text false)) = incompleteLineBuffer b0
        /\ codecState (snd (append b0 text false)) = codecState b0)
  /\ (forall (b0 : ChannelBuffer) (texts : list QByteArray),
        appendAll b0 texts = appendReads b0 (map (fun text => (text, true)) texts)).
Proof.
  destruct (appendReads_raw reads (clearForRun b)) as (Hr & Hp & Hn).
  cbn [clearForRun rawData rawDataPos hasOutputCallback incompleteLineBuffer app] in *.
  split; [exact Hr|]. split; [unfold stdOut; rewrite Hr; reflexivity|].
  split; [|split; [|split]].
  - intros Hcb Hall. rewrite <- Hr. apply Hp; auto.
  - exact Hn.
  - intros b0 text. destruct (append_raw b0 text false) as (Ar & _ & _ & An).
    destruct (An (andb_false_r _)) as (Ao & Aq & Ai & Ac). auto.
  - intros b0 texts. apply appendAll_appendReads.
Qed.


(** * Adding arguments *)

Lemma joinArgs_isEmpty (osType : OsType) (args : QStringList) :
  isEmpty (joinArgs args osType) = match args with [] => true | _ => false end.
Proof.
  destruct args as [|a args]; [reflexivity|]. rewrite joinArgs_cons.
  pose proof (quoteArg_not_empty a osType) as Hq.
  destruct (quoteArg a osType); [discriminate | reflexivity].
Qed.

Lemma addArgsList_addArgs (hostOs : OsType) (args : QString) (inArgs : QStringList) :
  addArgsList hostOs args inArgs = addArgs args (joinArgs inArgs hostOs).
Proof.
  unfold addArgsList, addArgs. rewrite joinArgs_from, joinArgs_isEmpty.
  destruct inArgs as [|a inArgs]; [reflexivity|]. cbn [negb].
  destruct args; reflexivity.
Qed.

Lemma joinArgs_app (osType : OsType) (xs ys : QStringList) :
  joinArgs (xs ++ ys) osType = addArgs (joinArgs xs osType) (joinArgs ys osType).
Proof.
  rewrite <- addArgsList_addArgs. unfold addArgsList, joinArgs. apply fold_left_app.
Qed.

(** X27: addArgs composes with joinArgs: adding a list of arguments to
    a command line is adding the text joinArgs makes of the list, and
    adding the text of one joined list to the text of another gives the
    text of the two lists joined as one.  Under the Unix grammar
    splitArgs reads such a text back as the arguments of the first list
    followed by those of the second. *)
Theorem addArgs_joinArgs `{QtServices} (osType : OsType) (xs ys : QStringList) :
  (forall args, addArgsList osType args ys = addArgs args (joinArgs ys osType))
  /\ addArgs (joinArgs xs osType) (joinArgs ys osType) = joinArgs (xs ++ ys) osType
  /\ (forallb (forallb (fun c => negb (isSpace c) || (c <? 128))) (xs ++ ys) = true ->
      forall abortOnMeta e0 env pwd,
        splitArgs (addArgs (joinArgs xs OsTypeLinux) (joinArgs ys OsTypeLinux)) OsTypeLinux
          abortOnMeta (Some e0) env pwd
        = Some (xs ++ ys, Some SplitOk)).
Proof.
  split; [intros args; apply addArgsList_addArgs|].
  split; [symmetry; apply joinArgs_app|].
  intros Hascii abortOnMeta e0 env pwd. rewrite <- joinArgs_app.
  unfold splitArgs. cbn [isWindows]. rewrite <- renderLine_joinLine.
  rewrite (splitArgsUnix_line abortOnMeta env pwd [] (joinLine (xs ++ ys))
             (lineOk_joinLine abortOnMeta (xs ++ ys) Hascii)).
  rewrite lineValues_joinLine. reflexivity.
Qed.


(** * Closed instances *)

(** C7, two reads that keep the line ends whole: a, CR, LF and b, LF. *)
Lemma linesRead_chunks_match_bulk_witness :
  List.concat (fst (appendAll (clearForRun sampleChannel) [[97; 13; 10]; [98; 10]]))
  = @stdOut latin1Codec (List.concat [[97; 13; 10]; [98; 10]]).
Proof.
  apply (fun H1 H2 H3 H4 =>
    proj2 (proj2 (@linesRead_chunks_match_bulk latin1Codec sampleChannel
                    [[97; 13; 10]; [98; 10]] H1 H2)) H3 H4); reflexivity.
Defined.

(** C7 as stated fails: the reads a, CR and LF, b, LF hand a, CR, LF, b,
    LF to the callback, and stdOut returns a, LF, b, LF; and after the
    single read a, b, c nothing was handed over. *)
Lemma linesRead_split_crlf_differs :
  List.concat (fst (appendAll (clearForRun sampleChannel) [[97; 13]; [10; 98; 10]]))
  = [97; 13; 10; 98; 10]
  /\ @stdOut latin1Codec (List.concat [[97; 13]; [10; 98; 10]]) = [97; 10; 98; 10]
  /\ List.concat (fst (appendAll (clearForRun sampleChannel) [[97; 98; 99]])) = []
  /\ @stdOut latin1Codec (List.concat [[97; 98; 99]]) = [97; 98; 99].
Proof. repeat split; reflexivity. Qed.

(** C8 on a process with a latched hang and on one without. *)
Lemma slotFinished_keeps_hang_witness :
  m_result (slotFinished hungProcess 9 CrashExit) = {| result := Hang; exitCode := -1 |}
  /\ m_result (slotFinished sampleProcess 9 CrashExit)
     = {| result := TerminatedAbnormally; exitCode := -1 |}.
Proof.
  split.
  - apply (proj1 (slotFinished_keeps_hang hungProcess 9)). reflexivity.
  - apply (proj1 (proj2 (slotFinished_keeps_hang sampleProcess 9))). discriminate.
Defined.

(** C10 at one second and at zero. *)
Lemma setTimeoutS_clamps_witness :
  m_maxHangTimerCount (setTimeoutS sampleProcess 1) = Z.max 2 1
  /\ m_maxHangTimerCount (setTimeoutS sampleProcess 0) = INT_MAX / 1000.
Proof.
  split.
  - apply (proj1 (setTimeoutS_clamps sampleProcess 1)). lia.
  - apply (proj1 (proj2 (setTimeoutS_clamps sampleProcess 0))). lia.
Defined.


(** C3 as stated fails on a quote that is opened and never closed
    before abc: the first phase accepts the string unchanged, and
    splitArgs returns no words and BadQuoting, with abortOnMeta and
    without. *)
Lemma splitArgsWin_unterminated_quote_fails :
  @prepareArgsWin asciiQt (ch_dquote :: QLatin1String "abc") None None
  = Some (SplitOk, ch_dquote :: QLatin1String "abc")
  /\ @splitArgs asciiQt (ch_dquote :: QLatin1String "abc") OsTypeWindows true
       (Some SplitOk) None None = Some ([], Some BadQuoting)
  /\ @splitArgs asciiQt (ch_dquote :: QLatin1String "abc") OsTypeWindows false
       (Some SplitOk) None None = Some ([], Some BadQuoting).
Proof. repeat split; vm_compute; reflexivity. Qed.

(** C3, as amended, on the same string, and on a quote that is opened
    before a reference to the variable B, set to x: the expanded
    string, and the prepared one, end inside the quote. *)
Lemma splitArgsWin_open_quote_is_BadQuoting_witness :
  doSplitArgsWin (ch_dquote :: QLatin1String "abc") = Some ([], BadQuoting)
  /\ @splitArgs asciiQt (ch_dquote :: QLatin1String "%B%") OsTypeWindows false
       (Some SplitOk) (Some (environmentOf [(QLatin1String "B", QLatin1String "x")])) None
     = Some ([], Some BadQuoting)
  /\ @splitArgs asciiQt (ch_dquote :: QLatin1String "%B%") OsTypeWindows true
       (Some SplitOk) (Some (environmentOf [(QLatin1String "B", QLatin1String "x")])) None
     = Some ([], Some BadQuoting).
Proof.
  split; [|split].
  - apply (proj1 (@splitArgsWin_open_quote_is_BadQuoting asciiQt
                    (ch_dquote :: QLatin1String "abc") None)).
    reflexivity.
  - apply (proj1 (proj2 (@splitArgsWin_open_quote_is_BadQuoting asciiQt
                           (ch_dquote :: QLatin1String "%B%") None))
             (Some (environmentOf [(QLatin1String "B", QLatin1String "x")]))
             (ch_dquote :: QLatin1String "x")).
    + reflexivity.
    + reflexivity.
  - apply (proj1 (proj2 (proj2 (@splitArgsWin_open_quote_is_BadQuoting asciiQt
                                  (ch_dquote :: QLatin1String "%B%") None)))
             (Some (environmentOf [(QLatin1String "B", QLatin1String "x")]))
             (ch_dquote :: QLatin1String "x")).
    + reflexivity.
    + reflexivity.
Defined.

(** Why C3, as amended, speaks of the string that reaches the
    tokenizer: a quote that is open in the input is closed by the value
    of the variable Q, a double quote, and the result is one empty
    word; with abortOnMeta and no place for the error, a bar outside
    quotes ends the first phase, and nothing is split. *)
Lemma splitArgsWin_quote_closed_by_value :
  @splitArgs asciiQt (ch_dquote :: QLatin1String "%Q%") OsTypeWindows false (Some SplitOk)
    (Some (environmentOf [(QLatin1String "Q", [ch_dquote])])) None
  = Some ([[]], Some SplitOk)
  /\ @prepareArgsWin asciiQt (QLatin1String "a|b " ++ ch_dquote :: QLatin1String "c") None None
     = Some (FoundMeta, [])
  /\ @splitArgs asciiQt (QLatin1String "a|b " ++ ch_dquote :: QLatin1String "c")
       OsTypeWindows true None None None
     = Some ([], None).
Proof. repeat split; vm_compute; reflexivity. Qed.

(** C9 as stated fails on the string percent, A, percent, B, percent
    when only B is set (to x): the value of A is empty, and the result
    is percent, A, x, without the closing percent sign of the first
    reference. *)
Lemma envExpandWin_overlapping_reference_changes :
  @envValueWin asciiQt (environmentOf [(QLatin1String "B", QLatin1String "x")]) None
    (@toUpper asciiQt (QLatin1String "A")) = []
  /\ @envExpandWin asciiQt (QLatin1String "%A%B%")
       (environmentOf [(QLatin1String "B", QLatin1String "x")]) None
     = Some (QLatin1String "%Ax").
Proof. split; vm_compute; reflexivity. Qed.

(** C9, as amended, on a reference to a variable that is not set. *)
Lemma envExpandWin_keeps_unknown_reference_witness :
  @envExpandWin asciiQt (QLatin1String "echo " ++ ch_percent :: QLatin1String "nope"
                         ++ ch_percent :: QLatin1String " end")
    (environmentOf [(QLatin1String "B", QLatin1String "x")]) None
  = Some (QLatin1String "echo " ++ ch_percent :: QLatin1String "nope"
          ++ ch_percent :: QLatin1String " end").
Proof.
  apply (fun H1 H2 H3 H4 =>
    proj1 (proj2 (@envExpandWin_keeps_unknown_reference asciiQt
                    (environmentOf [(QLatin1String "B", QLatin1String "x")]) None
                    (QLatin1String "echo ") (QLatin1String "nope") (QLatin1String " end")
                    H1 H2 H3)) H4); reflexivity.
Defined.


(** C1 as stated fails under the Windows grammar.  The argument that is
    one double quote is quoted as quote, quote, backslash, circumflex,
    quote, quote, quote, which splitArgs without abortOnMeta splits
    into the one word backslash, circumflex, quote; the quoted form of
    a, quote, b it rejects with BadQuoting.  With abortOnMeta the arguments percent sign and
    at sign, a are returned unquoted: the first is refused by the first
    phase and nothing is returned, the second loses its at sign.  Under
    the Unix grammar the argument a, no-break space, b stays unquoted
    and is split in two. *)
Lemma quoteArg_splitArgs_round_trip_fails :
  quoteArg [ch_dquote] OsTypeWindows
  = [ch_dquote; ch_dquote; ch_bslash; ch_caret; ch_dquote; ch_dquote; ch_dquote]
  /\ @splitArgs asciiQt (quoteArg [ch_dquote] OsTypeWindows) OsTypeWindows false
       (Some SplitOk) None None
     = Some ([[ch_bslash; ch_caret; ch_dquote]], Some SplitOk)
  /\ @splitArgs asciiQt (quoteArg (QLatin1String "a" ++ [ch_dquote] ++ QLatin1String "b")
                           OsTypeWindows) OsTypeWindows false
       (Some SplitOk) None None = Some ([], Some BadQuoting)
  /\ @splitArgs asciiQt (quoteArg [ch_percent] OsTypeWindows) OsTypeWindows true
       None None None = Some ([], None)
  /\ @splitArgs asciiQt (quoteArg (QLatin1String "@a") OsTypeWindows) OsTypeWindows true
       (Some SplitOk) None None = Some ([QLatin1String "a"], Some SplitOk)
  /\ @splitArgs asciiQt (quoteArg [97; 160; 98] OsTypeLinux) OsTypeLinux false
       (Some SplitOk) None None = Some ([[97]; [98]], Some SplitOk).
Proof. repeat split; vm_compute; reflexivity. Qed.

(** C1, as amended, on the argument a, space, quote, b, backslash under
    the Windows grammar with abortOnMeta, and under the Unix grammar. *)
Lemma quoteArg_splitArgs_round_trip_witness :
  @splitArgs asciiQt (quoteArg [97; 32; 34; 98; 92] OsTypeWindows) OsTypeWindows true
    (Some SplitOk) None None = Some ([[97; 32; 34; 98; 92]], Some SplitOk)
  /\ @splitArgs asciiQt (quoteArg [97; 32; 34; 98; 92] OsTypeLinux) OsTypeLinux true
       (Some SplitOk) None None = Some ([[97; 32; 34; 98; 92]], Some SplitOk).
Proof.
  split.
  - apply (fun H1 H2 =>
      proj1 (proj2 (proj2 (@quoteArg_splitArgs_round_trip asciiQt [97; 32; 34; 98; 92] None))
               H1 H2 None)); reflexivity.
  - apply (fun H1 =>
      proj1 (@quoteArg_splitArgs_round_trip asciiQt [97; 32; 34; 98; 92] None)
        H1 true SplitOk None); reflexivity.
Defined.


(** C4 with FOO bound to x, space, y: the bare reference gives the
    three words echo, x, y and the quoted one the two words echo and
    x, space, y. *)
Lemma splitArgs_expands_FOO_witness :
  @splitArgs asciiQt (QLatin1String "echo $FOO") OsTypeLinux false (Some BadQuoting)
    (Some (environmentOf [(QLatin1String "FOO", QLatin1String "x y")])) None
  = Some ([QLatin1String "echo"; QLatin1String "x"; QLatin1String "y"], Some SplitOk)
  /\ @splitArgs asciiQt
       (QLatin1String "echo " ++ [ch_dquote] ++ QLatin1String "$FOO" ++ [ch_dquote])
       OsTypeLinux false (Some BadQuoting)
       (Some (environmentOf [(QLatin1String "FOO", QLatin1String "x y")])) None
     = Some ([QLatin1String "echo"; QLatin1String "x y"], Some SplitOk).
Proof.
  exact (@splitArgs_expands_FOO asciiQt false
           (environmentOf [(QLatin1String "FOO", QLatin1String "x y")]) None
           (QLatin1String "FOO") BadQuoting eq_refl).
Defined.


(** C5 as stated fails on strings in which the iterator marks every
    argument simple.  On a;b the iterator yields a and stops at the
    semicolon, while splitArgs returns the one word a;b, or FoundMeta
    and nothing with abortOnMeta.  On a, line feed, b the iterator
    yields one argument and splitArgs two.  On ~/x splitArgs replaces
    the tilde by the home directory.  On an open single quote followed
    by a the iterator yields a and splitArgs reports BadQuoting.  On a
    backslash and a dollar sign in double quotes the iterator yields the
    dollar sign and splitArgs without abortOnMeta keeps the backslash. *)
Lemma walkArgs_differs_from_splitArgs :
  @walkArgs asciiQt 5 30 (argIterator (QLatin1String "a;b") OsTypeLinux)
  = Some [(QLatin1String "a", true)]
  /\ @splitArgs asciiQt (QLatin1String "a;b") OsTypeLinux false (Some SplitOk) None None
     = Some ([QLatin1String "a;b"], Some SplitOk)
  /\ @splitArgs asciiQt (QLatin1String "a;b") OsTypeLinux true (Some SplitOk) None None
     = Some ([], Some FoundMeta)
  /\ @walkArgs asciiQt 5 30 (argIterator [97; ch_lf; 98] OsTypeLinux)
     = Some [([97; ch_lf; 98], true)]
  /\ @splitArgs asciiQt [97; ch_lf; 98] OsTypeLinux false (Some SplitOk) None None
     = Some ([[97]; [98]], Some SplitOk)
  /\ @walkArgs asciiQt 5 30 (argIterator (QLatin1String "~/x") OsTypeLinux)
     = Some [(QLatin1String "~/x", true)]
  /\ @splitArgs asciiQt (QLatin1String "~/x") OsTypeLinux false (Some SplitOk) None None
     = Some ([QLatin1String "/home/user/x"], Some SplitOk)
  /\ @walkArgs asciiQt 5 30 (argIterator (QLatin1String "'a") OsTypeLinux)
     = Some [(QLatin1String "a", true)]
  /\ @splitArgs asciiQt (QLatin1String "'a") OsTypeLinux false (Some SplitOk) None None
     = Some ([], Some BadQuoting)
  /\ @walkArgs asciiQt 5 30
       (argIterator [ch_dquote; ch_bslash; ch_dollar; ch_dquote] OsTypeLinux)
     = Some [([ch_dollar], true)]
  /\ @splitArgs asciiQt [ch_dquote; ch_bslash; ch_dollar; ch_dquote] OsTypeLinux false
       (Some SplitOk) None None
     = Some ([[ch_bslash; ch_dollar]], Some SplitOk).
Proof. repeat split; vm_compute; reflexivity. Qed.

(** C5, as amended, on the line: space, a followed by b c in single
    quotes and an escaped semicolon, space and tab, then x, escaped
    quote, d in double quotes followed by e. *)
Lemma walkArgs_agrees_with_splitArgs_witness :
  @walkArgs asciiQt 3 40
    (argIterator
       (renderLine [ch_space]
          [([Plain 97; SQuoted (QLatin1String "b c"); Escaped 59], [ch_space; ch_tab]);
           ([DQuoted [DChar 120; DEsc ch_dquote; DChar 100]; Plain 101], [])])
       OsTypeLinux)
  = Some [(QLatin1String "ab c;", true); ([120; ch_dquote; 100; 101], true)]
  /\ @splitArgs asciiQt
       (renderLine [ch_space]
          [([Plain 97; SQuoted (QLatin1String "b c"); Escaped 59], [ch_space; ch_tab]);
           ([DQuoted [DChar 120; DEsc ch_dquote; DChar 100]; Plain 101], [])])
       OsTypeLinux true (Some BadQuoting) None None
     = Some ([QLatin1String "ab c;"; [120; ch_dquote; 100; 101]], Some SplitOk).
Proof.
  apply (@walkArgs_agrees_with_splitArgs asciiQt true None None BadQuoting [ch_space]
           [([Plain 97; SQuoted (QLatin1String "b c"); Escaped 59], [ch_space; ch_tab]);
            ([DQuoted [DChar 120; DEsc ch_dquote; DChar 100]; Plain 101], [])] 3 40).
  - reflexivity.
  - cbn. lia.
  - cbn. lia.
Defined.


(** C2: expandMacros is to return false, with the string as it was,
    when the next macro stands at a backslash-escaped position.  The
    code departs from this, and from the documentation of the function
    (backslash-escaping an expando is treated as a quoting error; false
    is returned when the string could not be parsed), where the
    backslash follows a dollar sign or an excess closing parenthesis or
    brace.  With the macro X of the sample expander, replaced by v:
    in echo, dollar sign, backslash, X the scan takes the backslash for
    the character after the dollar sign, never tests it, and replaces
    the X behind it, returning true; after an excess closing
    parenthesis or brace it leaves the loop, where the code remarks a
    syntax error, and returns true with the string unchanged.  The same
    escaped X is refused, with the string unchanged, when it stands
    alone, after an earlier replacement, inside a command substitution,
    after the name of a variable and inside double quotes. *)
Lemma expandMacros_accepts_escaped_macro :
  findMacro sampleExpander (QLatin1String "echo $\X") 0 = (1, 7, QLatin1String "v")
  /\ expandMacros 40 (QLatin1String "echo $\X") sampleExpander OsTypeLinux
     = Some (true, QLatin1String "echo $\v")
  /\ expandMacros 40 (QLatin1String "a )\X") sampleExpander OsTypeLinux
     = Some (true, QLatin1String "a )\X")
  /\ expandMacros 40 (QLatin1String "a }\X") sampleExpander OsTypeLinux
     = Some (true, QLatin1String "a }\X")
  /\ expandMacros 40 (QLatin1String "\X") sampleExpander OsTypeLinux
     = Some (false, QLatin1String "\X")
  /\ expandMacros 40 (QLatin1String "X \X") sampleExpander OsTypeLinux
     = Some (false, QLatin1String "X \X")
  /\ expandMacros 40 (QLatin1String "$(echo \X)") sampleExpander OsTypeLinux
     = Some (false, QLatin1String "$(echo \X)")
  /\ expandMacros 40 (QLatin1String "$a\X") sampleExpander OsTypeLinux
     = Some (false, QLatin1String "$a\X")
  /\ expandMacros 40 (ch_dquote :: QLatin1String "\X" ++ [ch_dquote]) sampleExpander
       OsTypeLinux
     = Some (false, ch_dquote :: QLatin1String "\X" ++ [ch_dquote]).
Proof. repeat split; vm_compute; reflexivity. Qed.

(** A macro behind an escaped double quote is not escaped itself.
    Under the Unix grammar X between two escaped double quotes is
    replaced; under the Windows grammar it is refused, since there the
    escaped quote is one for the C runtime and none for cmd.  Inside
    single quotes the backslash is a character like any other, and the
    X behind it is replaced.  The Windows scan reads a zero character
    as the end of the string. *)
Lemma expandMacros_after_escaped_quote :
  expandMacros 20 [ch_bslash; ch_dquote; 88; ch_bslash; ch_dquote] sampleExpander
    OsTypeLinux
  = Some (true, [ch_bslash; ch_dquote; 118; ch_bslash; ch_dquote])
  /\ expandMacros 20 [ch_caret; ch_dquote; 88; ch_caret; ch_dquote] sampleExpander
       OsTypeWindows
     = Some (false, [ch_caret; ch_dquote; 88; ch_caret; ch_dquote])
  /\ expandMacros 20 (QLatin1String "'\X'") sampleExpander OsTypeLinux
     = Some (true, QLatin1String "'\v'")
  /\ expandMacros 20 [0; ch_caret; 88] sampleExpander OsTypeWindows
     = Some (true, [0; ch_caret; 88]).
Proof. repeat split; vm_compute; reflexivity. Qed.



(** X1 on the arguments a b, the empty argument, it's and x. *)
Lemma joinArgs_splitArgs_unix_witness :
  joinArgs [QLatin1String "a b"; []; QLatin1String "it's"; QLatin1String "x"] OsTypeLinux
  = QLatin1String "'a b' '' 'it'\''s' x"
  /\ @splitArgs asciiQt
       (joinArgs [QLatin1String "a b"; []; QLatin1String "it's"; QLatin1String "x"]
          OsTypeLinux) OsTypeLinux true (Some BadQuoting) None None
     = Some ([QLatin1String "a b"; []; QLatin1String "it's"; QLatin1String "x"], Some SplitOk)
  /\ @splitArgs asciiQt
       (toString (createUnixArgs
                    [QLatin1String "a b"; []; QLatin1String "it's"; QLatin1String "x"]))
       OsTypeLinux true (Some BadQuoting) None None
     = Some ([QLatin1String "a b"; []; QLatin1String "it's"; QLatin1String "x"], Some SplitOk).
Proof.
  split; [reflexivity|].
  exact (@joinArgs_splitArgs_unix asciiQt true None None BadQuoting
           [QLatin1String "a b"; []; QLatin1String "it's"; QLatin1String "x"] eq_refl).
Defined.

(** X2 on the same arguments. *)
Lemma joinArgs_walkArgs_unix_witness :
  @walkArgs asciiQt 5 40
    (argIterator
       (joinArgs [QLatin1String "a b"; []; QLatin1String "it's"; QLatin1String "x"]
          OsTypeLinux) OsTypeLinux)
  = Some [(QLatin1String "a b", true); ([], true); (QLatin1String "it's", true);
          (QLatin1String "x", true)].
Proof.
  apply (@joinArgs_walkArgs_unix asciiQt
           [QLatin1String "a b"; []; QLatin1String "it's"; QLatin1String "x"] 5 40).
  - reflexivity.
  - cbn. lia.
  - vm_compute. lia.
Defined.


(** X4 on a b|c and on a ~u. *)
Lemma splitArgs_unix_found_meta_witness :
  @splitArgs asciiQt (QLatin1String "a b|c") OsTypeLinux true (Some SplitOk) None None
  = Some ([], Some FoundMeta)
  /\ @splitArgs asciiQt (QLatin1String "a ~u") OsTypeLinux true (Some SplitOk) None None
     = Some ([], Some FoundMeta).
Proof.
  destruct (@splitArgs_unix_found_meta asciiQt None None SplitOk []
              [([Plain 97], [ch_space])] eq_refl eq_refl) as (H1 & H2).
  exact (conj (H1 [Plain 98] 124 [99] eq_refl eq_refl eq_refl eq_refl)
              (H2 117 [] eq_refl)).
Defined.


(** X6 with an environment that binds A only, on echo $FOO and on echo
    with $FOO in double quotes, without abortOnMeta. *)
Lemma splitArgs_unix_unset_variable_witness :
  @splitArgs asciiQt (QLatin1String "echo $FOO") OsTypeLinux false (Some BadQuoting)
    (Some (environmentOf [(QLatin1String "A", QLatin1String "1")])) None
  = Some ([QLatin1String "echo"], Some SplitOk)
  /\ @splitArgs asciiQt
       (QLatin1String "echo " ++ ch_dquote :: QLatin1String "$FOO" ++ [ch_dquote])
       OsTypeLinux false (Some BadQuoting)
       (Some (environmentOf [(QLatin1String "A", QLatin1String "1")])) None
     = Some ([QLatin1String "echo"; []], Some SplitOk).
Proof.
  exact (@splitArgs_unix_unset_variable asciiQt false
           (environmentOf [(QLatin1String "A", QLatin1String "1")]) None BadQuoting []
           [(map Plain (QLatin1String "echo"), [ch_space])] 70 [79; 79]
           eq_refl eq_refl eq_refl eq_refl eq_refl).
Defined.


(** X8 with BAR_1 bound to x y. *)
Lemma splitArgs_unix_variable_witness :
  @splitArgs asciiQt (QLatin1String "echo $BAR_1") OsTypeLinux true (Some BadQuoting)
    (Some (environmentOf [(QLatin1String "BAR_1", QLatin1String "x y")])) None
  = Some ([QLatin1String "echo"; QLatin1String "x"; QLatin1String "y"], Some SplitOk)
  /\ @splitArgs asciiQt
       (QLatin1String "echo " ++ ch_dquote :: QLatin1String "$BAR_1" ++ [ch_dquote])
       OsTypeLinux true (Some BadQuoting)
       (Some (environmentOf [(QLatin1String "BAR_1", QLatin1String "x y")])) None
     = Some ([QLatin1String "echo"; QLatin1String "x y"], Some SplitOk).
Proof.
  exact (@splitArgs_unix_variable asciiQt true
           (environmentOf [(QLatin1String "BAR_1", QLatin1String "x y")]) None BadQuoting []
           [(map Plain (QLatin1String "echo"), [ch_space])] 66 [65; 82; 95; 49]
           (QLatin1String "BAR_1") eq_refl eq_refl eq_refl eq_refl eq_refl).
Defined.


(** X9 on the string space, a, two spaces, b: the first argument is
    read and deleted, b remains. *)
Lemma next_deleteArg_removes_argument_witness :
  @next asciiQt 20
    {| m_str := QLatin1String " a  b"; m_pos := 0; m_prev := -1; m_simple := true;
       m_value := []; m_osType := OsTypeLinux |}
  = Some (true,
          {| m_str := QLatin1String " a  b"; m_pos := 2; m_prev := 0; m_simple := true;
             m_value := QLatin1String "a"; m_osType := OsTypeLinux |})
  /\ @deleteArg asciiQt 20
       {| m_str := QLatin1String " a  b"; m_pos := 2; m_prev := 0; m_simple := true;
          m_value := QLatin1String "a"; m_osType := OsTypeLinux |}
     = Some {| m_str := QLatin1String "b"; m_pos := 0; m_prev := 0; m_simple := true;
               m_value := QLatin1String "a"; m_osType := OsTypeLinux |}
  /\ @walkArgs asciiQt 3 20
       {| m_str := QLatin1String "b"; m_pos := 0; m_prev := 0; m_simple := true;
          m_value := QLatin1String "a"; m_osType := OsTypeLinux |}
     = Some [(QLatin1String "b", true)].
Proof.
  apply (@next_deleteArg_removes_argument asciiQt true [] [ch_space] [Plain 97]
           [ch_space; ch_space] [([Plain 98], [])] (-1) true [] 3%nat 20%nat).
  - reflexivity.
  - cbn. lia.
  - cbn. lia.
Defined.

(** X10 on an iterator at the end of a b, appending c d. *)
Lemma appendArg_at_end_adds_argument_witness :
  m_pos (appendArg OsTypeLinux
           {| m_str := QLatin1String "a b"; m_pos := 3; m_prev := 2; m_simple := true;
              m_value := []; m_osType := OsTypeLinux |} (QLatin1String "c d"))
  = qlength (m_str (appendArg OsTypeLinux
                      {| m_str := QLatin1String "a b"; m_pos := 3; m_prev := 2;
                         m_simple := true; m_value := []; m_osType := OsTypeLinux |}
                      (QLatin1String "c d")))
  /\ @splitArgs asciiQt
       (m_str (appendArg OsTypeLinux
                 {| m_str := QLatin1String "a b"; m_pos := 3; m_prev := 2; m_simple := true;
                    m_value := []; m_osType := OsTypeLinux |} (QLatin1String "c d")))
       OsTypeLinux true (Some BadQuoting) None None
     = Some ([QLatin1String "a"; QLatin1String "b"; QLatin1String "c d"], Some SplitOk).
Proof.
  apply (@appendArg_at_end_adds_argument asciiQt true None None BadQuoting OsTypeLinux []
           [([Plain 97], [ch_space]); ([Plain 98], [])]); reflexivity.
Defined.

(** X11 on a process with a latched hang: a tick, a crash exit and an
    error leave the result. *)
Lemma hang_is_latched_witness :
  result (m_result (fold_left deliver
                      [EvTimeout (fun d => d) false false false; EvFinished 9 CrashExit;
                       EvError] hungProcess)) = Hang.
Proof.
  apply (hang_is_latched
           [EvTimeout (fun d => d) false false false; EvFinished 9 CrashExit; EvError]
           hungProcess); reflexivity.
Defined.

(** X12 with the limit of three seconds: three ticks count to three
    and leave the result, the fourth stops the process and sets Hang. *)
Lemma slotTimeout_hang_limit_witness :
  m_hangTimerCount
    (Nat.iter 3 (fun d => fst (slotTimeout (fun d => d) d false false false)) timedProcess) = 3
  /\ m_result
       (Nat.iter 3 (fun d => fst (slotTimeout (fun d => d) d false false false)) timedProcess)
     = m_result timedProcess
  /\ snd (slotTimeout (fun d => d)
            (Nat.iter 3 (fun d => fst (slotTimeout (fun d => d) d false false false))
               timedProcess) false false false) = true
  /\ result (m_result (fst (slotTimeout (fun d => d)
            (Nat.iter 3 (fun d => fst (slotTimeout (fun d => d) d false false false))
               timedProcess) false false false))) = Hang.
Proof.
  destruct (slotTimeout_hang_limit (fun d => d) timedProcess 3 eq_refl ltac:(vm_compute; discriminate))
    as (H1 & H2 & _ & H4).
  destruct (H4 eq_refl false false) as (H5 & H6 & _).
  exact (conj H1 (conj H2 (conj H5 (H6 eq_refl)))).
Defined.


(** X14 on echo X. *)
Lemma expandMacros_then_splitArgs_unix_witness :
  expandMacros 20 (QLatin1String "echo X") quotingExpander OsTypeLinux
  = Some (true, QLatin1String "echo 'it'\''s $'")
  /\ @splitArgs asciiQt (QLatin1String "echo 'it'\''s $'") OsTypeLinux true (Some BadQuoting)
       None None
     = Some ([QLatin1String "echo"; QLatin1String "it's $"], Some SplitOk).
Proof.
  apply (@expandMacros_then_splitArgs_unix asciiQt quotingExpander None None BadQuoting []
           [(map Plain (QLatin1String "echo"), [ch_space])] [88] (QLatin1String "it's $") 20).
  - reflexivity.
  - reflexivity.
  - discriminate.
  - reflexivity.
  - reflexivity.
  - reflexivity.
  - cbn. lia.
Defined.

(** X15 on echo followed by aXb in double quotes. *)
Lemma expandMacros_in_quotes_then_splitArgs_witness :
  expandMacros 20 (QLatin1String "echo " ++ [ch_dquote] ++ QLatin1String "aXb" ++ [ch_dquote])
    quotingExpander OsTypeLinux
  = Some (true, QLatin1String "echo " ++ [ch_dquote] ++ QLatin1String "ait's \$b"
                ++ [ch_dquote])
  /\ @splitArgs asciiQt
       (QLatin1String "echo " ++ [ch_dquote] ++ QLatin1String "ait's \$b" ++ [ch_dquote])
       OsTypeLinux true (Some BadQuoting) None None
     = Some ([QLatin1String "echo"; QLatin1String "ait's $b"], Some SplitOk).
Proof.
  apply (@expandMacros_in_quotes_then_splitArgs asciiQt quotingExpander None None BadQuoting
           [] [(map Plain (QLatin1String "echo"), [ch_space])] [DChar 97] [DChar 98] [88]
           (QLatin1String "it's $") 20).
  - reflexivity.
  - reflexivity.
  - reflexivity.
  - reflexivity.
  - discriminate.
  - reflexivity.
  - reflexivity.
  - cbn. lia.
Defined.


(** X19 on the command ls with the arguments a b and -l. *)
Lemma prepareCommand_joined_arguments_witness :
  @prepareCommand asciiQt true OsTypeLinux [] None (QLatin1String "ls")
    (joinArgs [QLatin1String "a b"; QLatin1String "-l"] OsTypeLinux) OsTypeLinux None None
  = Some (true, Some (QLatin1String "ls"),
          createUnixArgs [QLatin1String "a b"; QLatin1String "-l"]).
Proof.
  apply (@prepareCommand_joined_arguments asciiQt true OsTypeLinux [] None
           (QLatin1String "ls") None None [QLatin1String "a b"; QLatin1String "-l"]).
  reflexivity.
Defined.


(** X21 on the arguments a b and c, quote, d. *)
Lemma joinArgs_splitArgs_windows_witness :
  @splitArgs asciiQt
    (joinArgs [QLatin1String "a b"; [99; ch_dquote; 100]] OsTypeWindows) OsTypeWindows true
    (Some SplitOk) None None
  = Some ([QLatin1String "a b"; [99; ch_dquote; 100]], Some SplitOk)
  /\ @splitArgs asciiQt
       (joinArgs [QLatin1String "a b"; QLatin1String "c"] OsTypeWindows) OsTypeWindows false
       (Some BadQuoting) None None
     = Some ([QLatin1String "a b"; QLatin1String "c"], Some SplitOk).
Proof.
  split.
  - apply (fun H1 H2 =>
      proj1 (proj1 (@joinArgs_splitArgs_windows asciiQt
                      [QLatin1String "a b"; [99; ch_dquote; 100]] None) H1 H2 None));
      reflexivity.
  - apply (fun H1 =>
      proj2 (@joinArgs_splitArgs_windows asciiQt
               [QLatin1String "a b"; QLatin1String "c"] None) H1 BadQuoting None);
      reflexivity.
Defined.



(** X24 on the lines a $HOME b and a ${x y} b. *)
Lemma walkArgs_variable_not_simple_witness :
  @walkArgs asciiQt 4 20 (argIterator (QLatin1String "a $HOME b") OsTypeLinux)
  = Some [(QLatin1String "a", true); ([], false); (QLatin1String "b", true)]
  /\ @walkArgs asciiQt 4 20 (argIterator (QLatin1String "a ${x y} b") OsTypeLinux)
     = Some [(QLatin1String "a", true); ([], false); (QLatin1String "b", true)].
Proof.
  split.
  - apply (@walkArgs_variable_not_simple asciiQt true [] [([Plain 97], [ch_space])] []
             (QLatin1String "HOME") [ch_space] [([Plain 98], [])] 4%nat 20%nat);
      try reflexivity; try (cbn; lia).
    left. exists 72, (QLatin1String "OME"). repeat split.
  - apply (@walkArgs_variable_not_simple asciiQt true [] [([Plain 97], [ch_space])] []
             (QLatin1String "{x y}") [ch_space] [([Plain 98], [])] 4%nat 20%nat);
      try reflexivity; try (cbn; lia).
    right. exists (QLatin1String "x y"). repeat split.
Defined.

(** X27 on the lists a b and c, d. *)
Lemma addArgs_joinArgs_witness :
  @splitArgs asciiQt
    (addArgs (joinArgs [QLatin1String "a b"] OsTypeLinux)
       (joinArgs [QLatin1String "c"; QLatin1String "d"] OsTypeLinux))
    OsTypeLinux true (Some BadQuoting) None None
  = Some ([QLatin1String "a b"; QLatin1String "c"; QLatin1String "d"], Some SplitOk).
Proof.
  apply (fun H1 =>
    proj2 (proj2 (@addArgs_joinArgs asciiQt OsTypeLinux [QLatin1String "a b"]
                    [QLatin1String "c"; QLatin1String "d"])) H1 true BadQuoting None None).
  reflexivity.
Defined.

